(** * Tetro: a Tetris engine tuned by a genetic algorithm

    Shallow embedding of the non-visual core of the repository
    (tetromino.py, tetris.py, ai.py, tetro.py) and the properties stated
    about it.

    Conventions
    - Python integers are [Z]; list positions are [Z] as well, with
      Python's negative-index wrap-around written out in [getitem].
    - Python floats.  The value of a score, and which of two scores is
      the greater, depend on rounding: there ([compute_score64],
      [compute_move]) weights and scores are binary64 floats with the
      rounding of every operation, Rocq's primitive [float].  The genetic
      operators only draw, copy, replace and compare weights, and the
      subscripts of the score are integers: there the weights are exact
      rationals [Q] (every finite float is one), compared with [==].
    - A Python exception is the [Raise] outcome of [result]; a [while]
      loop whose exit is not syntactically bounded runs on fuel and gives
      [OutOfFuel] when the fuel is spent.
    - Grids are column-major, as in the source: [grid[x][y]], [x] the
      column and [y] the row, row 0 at the top. *)

From Stdlib Require Import List ZArith QArith Lia Bool Ascii Permutation Sorted.
From Stdlib Require Import Qabs Floats.
Import ListNotations.
Open Scope Z_scope.

(** ** Outcomes of a Python computation *)

Inductive exn : Type := IndexError | ValueError | ZeroDivisionError | AttributeError.

Inductive result (A : Type) : Type :=
| Ok (a : A)
| Raise (e : exn)
| OutOfFuel.

Arguments Ok {A} a.
Arguments Raise {A} e.
Arguments OutOfFuel {A}.

Definition bind {A B} (m : result A) (k : A -> result B) : result B :=
  match m with
  | Ok a => k a
  | Raise e => Raise e
  | OutOfFuel => OutOfFuel
  end.

Declare Scope result_scope.
Delimit Scope result_scope with result.
Notation "x <- m ;; k" := (bind m (fun x => k))
  (at level 61, m at next level, right associativity) : result_scope.
Notation "' p <- m ;; k" := (bind m (fun p => k))
  (at level 61, p pattern, m at next level, right associativity) : result_scope.
Open Scope result_scope.

(** ** Python lists and ranges *)

Definition len {A} (l : list A) : Z := Z.of_nat (length l).

(** [l[i]]: a negative [i] counts from the end; anything outside
    [-len, len) raises IndexError. *)
Definition getitem {A} (l : list A) (i : Z) : result A :=
  let j := if i <? 0 then i + len l else i in
  if (0 <=? j) && (j <? len l)
  then match nth_error l (Z.to_nat j) with
       | Some a => Ok a
       | None => Raise IndexError
       end
  else Raise IndexError.

Fixpoint update_nth {A} (n : nat) (v : A) (l : list A) : list A :=
  match l, n with
  | [], _ => []
  | _ :: t, O => v :: t
  | a :: t, S n' => a :: update_nth n' v t
  end.

(** [l[i] = v], same index rule as [getitem]. *)
Definition setitem {A} (l : list A) (i : Z) (v : A) : result (list A) :=
  let j := if i <? 0 then i + len l else i in
  if (0 <=? j) && (j <? len l)
  then Ok (update_nth (Z.to_nat j) v l)
  else Raise IndexError.

Fixpoint range_from (a : Z) (n : nat) : list Z :=
  match n with
  | O => []
  | S n' => a :: range_from (a + 1) n'
  end.

(** [range(a, b)] *)
Definition range (a b : Z) : list Z := range_from a (Z.to_nat (b - a)).

Fixpoint range_down_from (a : Z) (n : nat) : list Z :=
  match n with
  | O => []
  | S n' => a :: range_down_from (a - 1) n'
  end.

(** [range(a, b, -1)] *)
Definition range_down (a b : Z) : list Z := range_down_from a (Z.to_nat (a - b)).

(** [for a in l: s = f(s, a)] *)
Fixpoint foldM {S A} (f : S -> A -> result S) (l : list A) (s : S) : result S :=
  match l with
  | [] => Ok s
  | a :: t => s' <- f s a ;; foldM f t s'
  end.

(** A list comprehension [[f(a) for a in l]], evaluated left to right. *)
Fixpoint mapM {A B} (f : A -> result B) (l : list A) : result (list B) :=
  match l with
  | [] => Ok []
  | a :: t => b <- f a ;; bs <- mapM f t ;; Ok (b :: bs)
  end.

(** A loop whose body may [return True]; falling off the end gives False. *)
Fixpoint anyM {A} (f : A -> result bool) (l : list A) : result bool :=
  match l with
  | [] => Ok false
  | a :: t => b <- f a ;; if b then Ok true else anyM f t
  end.

(** ** tetromino.py *)

Definition BlockData := list (list bool).

(** [block_data[x][y]] *)
Definition cell {A} (g : list (list A)) (x y : Z) : result A :=
  col <- getitem g x ;; getitem col y.

(** The [row] branch of [load], from [row_data] on: the characters of one
    mask row go to the columns of [block_data], which are created when
    the first character of the first row is met. *)
Definition append_row (block_data : BlockData) (row_data : list ascii) : result BlockData :=
  foldM (fun block_data i =>
    let block_data :=
      if len block_data =? 0
      then block_data ++ map (fun _ => []) (range 0 (len row_data))
      else block_data in
    col <- getitem block_data i ;;
    c <- getitem row_data i ;;
    setitem block_data i (col ++ [Ascii.eqb c "O"]))
    (range 0 (len row_data)) block_data.

Definition rotate (block_data : BlockData) : result BlockData :=
  mapM (fun x =>
          mapM (fun y => cell block_data y (len block_data - x - 1))
               (range 0 (len block_data)))
       (range 0 (len block_data)).

Definition out_of_bounds (block_data : BlockData) (x_pos y_pos grid_width grid_height : Z)
  : result bool :=
  anyM (fun x =>
    anyM (fun y =>
      b <- cell block_data x y ;;
      if b then
        let grid_x := x + x_pos in
        let grid_y := y + y_pos in
        Ok ((grid_x <? 0) || (grid_y <? 0)
            || (grid_width <=? grid_x) || (grid_height <=? grid_y))
      else Ok false)
      (range 0 (len block_data)))
    (range 0 (len block_data)).

(** [max(s)] and [min(s)] of a set: ValueError on the empty set. *)
Definition py_max (s : list Z) : result Z :=
  match s with
  | [] => Raise ValueError
  | a :: t => Ok (fold_left Z.max t a)
  end.

Definition py_min (s : list Z) : result Z :=
  match s with
  | [] => Raise ValueError
  | a :: t => Ok (fold_left Z.min t a)
  end.

(** The four sets [cols1, rows1, cols2, rows2] are only read through
    [max] and [min]; they are kept as lists of their insertions. *)
Definition rotationally_unique (block_data1 block_data2 : BlockData) : result bool :=
  let size := len block_data1 in
  '(cols1, rows1, cols2, rows2) <-
    foldM (fun s x =>
      foldM (fun '(cols1, rows1, cols2, rows2) y =>
        b1 <- cell block_data1 x y ;;
        let '(cols1, rows1) := if b1 then (x :: cols1, y :: rows1) else (cols1, rows1) in
        b2 <- cell block_data2 x y ;;
        let '(cols2, rows2) := if b2 then (x :: cols2, y :: rows2) else (cols2, rows2) in
        Ok (cols1, rows1, cols2, rows2))
        (range 0 size) s)
      (range 0 size) ([], [], [], []) ;;
  max_c1 <- py_max cols1 ;; min_c1 <- py_min cols1 ;;
  let width1 := max_c1 - min_c1 + 1 in
  max_r1 <- py_max rows1 ;; min_r1 <- py_min rows1 ;;
  let height1 := max_r1 - min_r1 + 1 in
  max_c2 <- py_max cols2 ;; min_c2 <- py_min cols2 ;;
  let width2 := max_c2 - min_c2 + 1 in
  max_r2 <- py_max rows2 ;; min_r2 <- py_min rows2 ;;
  let height2 := max_r2 - min_r2 + 1 in
  if negb (width1 =? width2) || negb (height1 =? height2) then Ok true
  else
    anyM (fun i =>
      anyM (fun j =>
        a <- cell block_data1 (i + min_c1) (j + min_r1) ;;
        b <- cell block_data2 (i + min_c2) (j + min_r2) ;;
        Ok (negb (Bool.eqb a b)))
        (range 0 height1))
      (range 0 width1).

Module TetrominoType.
(** Preprocessed information about a tetromino. *)
Record t : Type := Build {
  id : Z;
  block_data : BlockData;
  size : Z;
  min_x : Z;
  min_y : Z;
  max_x : Z;
  max_y : Z;
  rotation : Z;
  color : list Z
}.
End TetrominoType.

(** The module-level tables of tetromino.py. *)
Record Geometry : Type := {
  tmino_list : list TetrominoType.t;
  unique_tmino_list : list (list Z);
  unique_types : Z
}.

Definition get_tetromino_type (T : Geometry) (id rotation : Z) : result TetrominoType.t :=
  getitem (tmino_list T) (((id - 1) * 4) + (rotation mod 4)).

Definition get_tetromino_color (T : Geometry) (id : Z) : result (list Z) :=
  type <- getitem (tmino_list T) ((id - 1) * 4) ;;
  Ok (TetrominoType.color type).

Definition get_largest_tetromino_size (T : Geometry) : result Z :=
  largest_idx <-
    foldM (fun largest_idx i =>
      ti <- getitem (tmino_list T) (i * 4) ;;
      tl <- getitem (tmino_list T) (largest_idx * 4) ;;
      Ok (if TetrominoType.size tl <? TetrominoType.size ti then i else largest_idx))
      (range 1 (unique_types T)) 0 ;;
  tl <- getitem (tmino_list T) (largest_idx * 4) ;;
  Ok (TetrominoType.size tl).

(** [while not out_of_bounds(... v + step ...): v += step] *)
Fixpoint probe (fuel : nat) (oob : Z -> result bool) (step v : Z) : result Z :=
  match fuel with
  | O => OutOfFuel
  | S fuel' =>
      b <- oob (v + step) ;;
      if b then Ok v else probe fuel' oob step (v + step)
  end.

Definition process_tetromino (fuel : nat) (block_data : BlockData)
    (grid_width grid_height id : Z) (color : list Z) (T : Geometry) : result Geometry :=
  '(_, T1) <-
    foldM (fun '(block_data, T) i =>
      block_data <- (if negb (i =? 0) then rotate block_data else Ok block_data) ;;
      min_x <- probe fuel (fun v => out_of_bounds block_data v 0 grid_width grid_height) (-1) 0 ;;
      min_y <- probe fuel (fun v => out_of_bounds block_data 0 v grid_width grid_height) (-1) 0 ;;
      max_x <- probe fuel (fun v => out_of_bounds block_data v 0 grid_width grid_height) 1 0 ;;
      max_y <- probe fuel (fun v => out_of_bounds block_data 0 v grid_width grid_height) 1 0 ;;
      let ty := TetrominoType.Build id block_data (len block_data)
                                    min_x min_y max_x max_y i color in
      Ok (block_data,
          {| tmino_list := tmino_list T ++ [ty];
             unique_tmino_list := unique_tmino_list T;
             unique_types := unique_types T |}))
      (range 0 4) (block_data, T) ;;
  rotations <-
    foldM (fun rotations i =>
      clash <-
        anyM (fun j =>
          ti <- get_tetromino_type T1 id i ;;
          rj <- getitem rotations j ;;
          tj <- get_tetromino_type T1 id rj ;;
          u <- rotationally_unique (TetrominoType.block_data ti) (TetrominoType.block_data tj) ;;
          Ok (negb u))
          (range 0 (len rotations)) ;;
      Ok (if clash then rotations else rotations ++ [i]))
      (range 1 4) [0] ;;
  Ok {| tmino_list := tmino_list T1;
        unique_tmino_list := unique_tmino_list T1 ++ [rotations];
        unique_types := unique_types T1 |}.

Module Tetromino.
(** An instance of a tetromino. *)
Record t : Type := Build {
  unique_rotations_list : list Z;
  block_data : BlockData;
  size : Z;
  min_x : Z;
  min_y : Z;
  max_x : Z;
  max_y : Z;
  color : list Z;
  id : Z;
  rotation : Z;
  x_pos : Z;
  y_pos : Z
}.

Definition with_x_pos (tm : t) (x : Z) : t :=
  Build (unique_rotations_list tm) (block_data tm) (size tm) (min_x tm) (min_y tm)
        (max_x tm) (max_y tm) (color tm) (id tm) (rotation tm) x (y_pos tm).

Definition with_y_pos (tm : t) (y : Z) : t :=
  Build (unique_rotations_list tm) (block_data tm) (size tm) (min_x tm) (min_y tm)
        (max_x tm) (max_y tm) (color tm) (id tm) (rotation tm) (x_pos tm) y.

(** [Tetromino(id, rotation, x_pos, y_pos)]: [set_type], then the anchor. *)
Definition new (T : Geometry) (id rotation x_pos y_pos : Z) : result t :=
  type <- get_tetromino_type T id rotation ;;
  unique_rotations_list <- getitem (unique_tmino_list T) (id - 1) ;;
  Ok (Build unique_rotations_list
            (TetrominoType.block_data type) (TetrominoType.size type)
            (TetrominoType.min_x type) (TetrominoType.min_y type)
            (TetrominoType.max_x type) (TetrominoType.max_y type)
            (TetrominoType.color type) id rotation x_pos y_pos).
(** [set_type]: every field that comes from the tables is read again;
    the anchor stays. *)
Definition set_type (T : Geometry) (self : t) (id rotation : Z) : result t :=
  type <- get_tetromino_type T id rotation ;;
  unique_rotations_list <- getitem (unique_tmino_list T) (id - 1) ;;
  Ok (Build unique_rotations_list
            (TetrominoType.block_data type) (TetrominoType.size type)
            (TetrominoType.min_x type) (TetrominoType.min_y type)
            (TetrominoType.max_x type) (TetrominoType.max_y type)
            (TetrominoType.color type) id rotation (x_pos self) (y_pos self)).

(** [Tetromino.rotate(clockwise)]; the rotation counter is not reduced. *)
Definition rotate (T : Geometry) (self : t) (clockwise : bool) : result t :=
  set_type T self (Tetromino.id self)
           (Tetromino.rotation self + (if clockwise then 1 else -1)).

Definition set_rotation (T : Geometry) (self : t) (rotation : Z) : result t :=
  set_type T self (Tetromino.id self) rotation.

End Tetromino.

(** ** The random module

    [next_float] is [random.random()], [next_int a b] is what
    [random.randint(a, b)] picks when [a <= b]; both step the generator.
    [box_muller u1 u2] stands for the product
    [math.sqrt(-2 * math.log(u1)) * math.cos(2 * math.pi * u2)] of the two
    library calls, which has no rational expression and is left to the
    instance; what the program does with it ([abs]) is in [random_weight]. *)
Class RandomGen (G : Type) : Type := {
  next_float : G -> Q * G;
  next_int : Z -> Z -> G -> Z * G;
  box_muller : Q -> Q -> Q
}.

(** What the library documents of its generator: [random()] lies in
    [0.0, 1.0) and [randint(a, b)] in [a, b]. *)
Record RandomGenLaws (G : Type) `{RandomGen G} : Prop := {
  next_float_unit : forall g, (0 <= fst (next_float g))%Q /\ (fst (next_float g) < 1)%Q;
  next_int_range : forall a b g, a <= b -> a <= fst (next_int a b g) <= b
}.

Definition random {G} `{RandomGen G} (g : G) : result (Q * G) := Ok (next_float g).

(** [randint(a, b)] raises ValueError on an empty range. *)
Definition randint {G} `{RandomGen G} (a b : Z) (g : G) : result (Z * G) :=
  if a <=? b then Ok (next_int a b g) else Raise ValueError.

(** [random_tetromino()]: a random shape in its first rotation state, in
    the top middle of the grid. *)
Definition random_tetromino {G} `{RandomGen G} (T : Geometry) (g : G)
  : result (Tetromino.t * G) :=
  '(idx, g) <- randint 0 (unique_types T - 1) g ;;
  tmino_type <- getitem (tmino_list T) (idx * 4) ;;
  tmino <-
    Tetromino.new T (idx + 1) 0
      ((TetrominoType.max_x tmino_type - TetrominoType.min_x tmino_type) / 2
       + TetrominoType.min_x tmino_type)
      (TetrominoType.min_y tmino_type) ;;
  Ok (tmino, g).

(** ** tetris.py *)

(** [grid[x][y] != 0] is asked of integer grids (shape ids) and of the
    boolean grids of the AI alike. *)
Class Cell (A : Type) : Type := nonzero : A -> bool.
#[export] Instance Cell_Z : Cell Z := fun v => negb (v =? 0).
#[export] Instance Cell_bool : Cell bool := fun b => b.

Definition is_colliding {A} `{Cell A} (grid : list (list A)) (tetromino : Tetromino.t)
  : result bool :=
  anyM (fun x =>
    anyM (fun y =>
      b <- cell (Tetromino.block_data tetromino) x y ;;
      if b then
        let grid_x := x + Tetromino.x_pos tetromino in
        let grid_y := y + Tetromino.y_pos tetromino in
        if (grid_x <? 0) || (grid_y <? 0) || (len grid <=? grid_x) then Ok true
        else
          col0 <- getitem grid 0 ;;
          if len col0 <=? grid_y then Ok true
          else v <- cell grid grid_x grid_y ;; Ok (nonzero v)
      else Ok false)
      (range 0 (Tetromino.size tetromino)))
    (range 0 (Tetromino.size tetromino)).

(** [grid[x][y] = v] *)
Definition set_cell {A} (grid : list (list A)) (x y : Z) (v : A) : result (list (list A)) :=
  col <- getitem grid x ;;
  col' <- setitem col y v ;;
  setitem grid x col'.

(** [l.pop(i)]: the list without position [i]. *)
Definition pop_at {A} (l : list A) (i : Z) : result (list A) :=
  let j := if i <? 0 then i + len l else i in
  if (0 <=? j) && (j <? len l)
  then Ok (firstn (Z.to_nat j) l ++ skipn (S (Z.to_nat j)) l)
  else Raise IndexError.

Module Tetris.
(** An instance of the Tetris game (the font and the cell width only
    serve rendering and are left out). *)
Record t : Type := Build {
  grid_width : Z;
  grid_height : Z;
  lost : bool;
  lines_cleared : Z;
  grid : list (list Z);
  tmino_seq : list Tetromino.t;
  current_tmino : option Tetromino.t;
  next_tmino : Tetromino.t;
  next_move : option Tetromino.t
}.

Section WithTable.
Context {G : Type} `{RandomGen G}.
Variable T : Geometry.

(** The [while len(id_list) != 0] loop pops one id per turn; [fuel]
    is the length of [id_list] on entry. *)
Fixpoint fill_tetromino_seq (fuel : nat) (id_list : list Z) (seq : list Tetromino.t)
    (g : G) : result (list Tetromino.t * G) :=
  if negb (len id_list =? 0) then
    match fuel with
    | O => OutOfFuel
    | S fuel' =>
        '(rand_idx, g) <- randint 0 (len id_list - 1) g ;;
        id <- getitem id_list rand_idx ;;
        id_list <- pop_at id_list rand_idx ;;
        tmino <- Tetromino.new T id 0 0 0 ;;
        let tmino := Tetromino.with_x_pos tmino
                       ((Tetromino.max_x tmino - Tetromino.min_x tmino) / 2) in
        let tmino := Tetromino.with_y_pos tmino (Tetromino.min_y tmino) in
        fill_tetromino_seq fuel' id_list (seq ++ [tmino]) g
    end
  else Ok (seq, g).

Definition generate_tetromino_seq (g : G) : result (list Tetromino.t * G) :=
  let id_list := range 1 (unique_types T + 1) in
  fill_tetromino_seq (length id_list) id_list [] g.

(** [Tetris(grid_width, grid_height, cell_width)] *)
Definition new (grid_width grid_height : Z) (g : G) : result (t * G) :=
  let grid := map (fun _ => repeat 0 (Z.to_nat grid_height)) (range 0 grid_width) in
  '(tmino_seq, g) <- generate_tetromino_seq g ;;
  current_tmino <- getitem tmino_seq (-1) ;;
  tmino_seq <- pop_at tmino_seq (-1) ;;
  next_tmino <- getitem tmino_seq (-1) ;;
  tmino_seq <- pop_at tmino_seq (-1) ;;
  Ok (Build grid_width grid_height false 0 grid tmino_seq
            (Some current_tmino) next_tmino None, g).

(** First loop of [place_tetromino]: transfer the tetromino data to
    the grid data. *)
Definition write_tetromino (grid_width grid_height : Z) (grid : list (list Z))
    (tm : Tetromino.t) : result (list (list Z)) :=
  foldM (fun grid x =>
    foldM (fun grid y =>
      b <- cell (Tetromino.block_data tm) x y ;;
      if b then
        let grid_x := x + Tetromino.x_pos tm in
        let grid_y := y + Tetromino.y_pos tm in
        if (grid_x <? 0) || (grid_width <=? grid_x)
           || (grid_y <? 0) || (grid_height <=? grid_y)
        then Ok grid
        else set_cell grid grid_x grid_y (Tetromino.id tm)
      else Ok grid)
      (range 0 (Tetromino.size tm)) grid)
    (range 0 (Tetromino.size tm)) grid.

(** [for y in range(current_y, 0, -1): for x in range(grid_width):
    grid[x][y] = grid[x][y - 1]], then the upper most line is zeroed. *)
Definition shift_down (grid_width : Z) (grid : list (list Z)) (current_y : Z)
  : result (list (list Z)) :=
  grid <-
    foldM (fun grid y =>
      foldM (fun grid x =>
        v <- cell grid x (y - 1) ;;
        set_cell grid x y v)
        (range 0 grid_width) grid)
      (range_down current_y 0) grid ;;
  foldM (fun grid x => set_cell grid x 0 0) (range 0 grid_width) grid.

(** Second loop of [place_tetromino]: the state is the grid, the
    lines-cleared counter and [current_y]. *)
Definition clear_lines (grid_width grid_height : Z) (size : Z)
    (s : list (list Z) * Z * Z) : result (list (list Z) * Z * Z) :=
  foldM (fun '(grid, lines_cleared, current_y) (i : Z) =>
    if grid_height <=? current_y then Ok (grid, lines_cleared, current_y - 1)
    else
      gap <- anyM (fun x => v <- cell grid x current_y ;; Ok (v =? 0))
                  (range 0 grid_width) ;;
      let line_cleared := negb gap in
      if line_cleared then
        grid <- shift_down grid_width grid current_y ;;
        Ok (grid, lines_cleared + 1, current_y)
      else Ok (grid, lines_cleared, current_y - 1))
    (range 0 size) s.

Definition place_tetromino (self : t) (g : G) : result (t * G) :=
  match current_tmino self with
  | None => Raise AttributeError
  | Some tm =>
      grid <- write_tetromino (grid_width self) (grid_height self) (grid self) tm ;;
      let current_y := Tetromino.y_pos tm + Tetromino.size tm - 1 in
      '(grid, lines_cleared, _) <-
        clear_lines (grid_width self) (grid_height self) (Tetromino.size tm)
                    (grid, lines_cleared self, current_y) ;;
      (* generate a new tetromino *)
      let current := next_tmino self in
      '(tmino_seq, g) <-
        (if len (tmino_seq self) =? 0 then generate_tetromino_seq g
         else Ok (tmino_seq self, g)) ;;
      next <- getitem tmino_seq (-1) ;;
      tmino_seq <- pop_at tmino_seq (-1) ;;
      colliding <- is_colliding grid current ;;
      if colliding
      then Ok (Build (grid_width self) (grid_height self) true lines_cleared grid
                     tmino_seq None next (next_move self), g)
      else Ok (Build (grid_width self) (grid_height self) (lost self) lines_cleared grid
                     tmino_seq (Some current) next (next_move self), g)
  end.
(** A game together with what the values of its fields do not show:
    whether [current_tmino] and [next_move] are one and the same object, as
    they are once [update] has executed [self.current_tmino =
    self.next_move].  (No other two fields of a game can hold the same
    piece object.) *)
Record live : Type := Live { game : t; shared : bool }.

(** An assignment to a field of the object [self.current_tmino]: it is
    seen through [self.next_move] too when the two are one object. *)
Definition store_current (self : live) (tm : Tetromino.t) : live :=
  let s := game self in
  Live (Build (grid_width s) (grid_height s) (lost s) (lines_cleared s) (grid s)
              (tmino_seq s) (Some tm) (next_tmino s)
              (if shared self then Some tm else next_move s))
       (shared self).

(** [place_tetromino] makes [current_tmino] another object than
    [next_move]. *)
Definition lock (self : live) (g : G) : result (live * G) :=
  '(s, g) <- place_tetromino (game self) g ;;
  Ok (Live s false, g).

Definition move_left (self : live) : result live :=
  match current_tmino (game self) with
  | None => Raise AttributeError
  | Some tm =>
      let tm := Tetromino.with_x_pos tm (Tetromino.x_pos tm - 1) in
      colliding <- is_colliding (grid (game self)) tm ;;
      if colliding
      then Ok (store_current self (Tetromino.with_x_pos tm (Tetromino.x_pos tm + 1)))
      else Ok (store_current self tm)
  end.

Definition move_right (self : live) : result live :=
  match current_tmino (game self) with
  | None => Raise AttributeError
  | Some tm =>
      let tm := Tetromino.with_x_pos tm (Tetromino.x_pos tm + 1) in
      colliding <- is_colliding (grid (game self)) tm ;;
      if colliding
      then Ok (store_current self (Tetromino.with_x_pos tm (Tetromino.x_pos tm - 1)))
      else Ok (store_current self tm)
  end.

Definition move_down (self : live) (g : G) : result (live * G) :=
  match current_tmino (game self) with
  | None => Raise AttributeError
  | Some tm =>
      let tm := Tetromino.with_y_pos tm (Tetromino.y_pos tm + 1) in
      colliding <- is_colliding (grid (game self)) tm ;;
      if colliding
      then lock (store_current self (Tetromino.with_y_pos tm (Tetromino.y_pos tm - 1))) g
      else Ok (store_current self tm, g)
  end.

(** [while not is_colliding(self.grid, self.current_tmino):
    self.current_tmino.y_pos += 1] *)
Fixpoint fall (fuel : nat) (grid : list (list Z)) (tm : Tetromino.t) : result Tetromino.t :=
  match fuel with
  | O => OutOfFuel
  | S fuel' =>
      colliding <- is_colliding grid tm ;;
      if colliding then Ok tm
      else fall fuel' grid (Tetromino.with_y_pos tm (Tetromino.y_pos tm + 1))
  end.

Definition drop_down (fuel : nat) (self : live) (g : G) : result (live * G) :=
  match current_tmino (game self) with
  | None => Raise AttributeError
  | Some tm =>
      tm <- fall fuel (grid (game self))
                 (Tetromino.with_y_pos tm (Tetromino.y_pos tm + 1)) ;;
      lock (store_current self (Tetromino.with_y_pos tm (Tetromino.y_pos tm - 1))) g
  end.

Definition rotate (self : live) : result live :=
  match current_tmino (game self) with
  | None => Raise AttributeError
  | Some tm =>
      tm <- Tetromino.rotate T tm true ;;
      colliding <- is_colliding (grid (game self)) tm ;;
      if colliding
      then tm <- Tetromino.rotate T tm false ;; Ok (store_current self tm)
      else Ok (store_current self tm)
  end.

(** [update]: move the current tetromino down one block. *)
Definition update (self : live) (g : G) : result (live * G) :=
  if lost (game self) then Ok (self, g)
  else
    let self :=
      match next_move (game self) with
      | Some next_move =>
          let s := game self in
          Live (Build (grid_width s) (grid_height s) (lost s) (lines_cleared s) (grid s)
                      (tmino_seq s) (Some next_move) (next_tmino s) (Some next_move))
               true
      | None => self
      end in
    match current_tmino (game self) with
    | None => Raise AttributeError
    | Some tm =>
        let tm := Tetromino.with_y_pos tm (Tetromino.y_pos tm + 1) in
        colliding <- is_colliding (grid (game self)) tm ;;
        if colliding
        then lock (store_current self (Tetromino.with_y_pos tm (Tetromino.y_pos tm - 1))) g
        else Ok (store_current self tm, g)
    end.

End WithTable.
End Tetris.

(** ** ai.py *)

(** Weight lists are Python list objects: an AI holds references to them,
    and [mutate] writes them in place.  The store lists the objects in
    order of creation; a reference is a position in it. *)
Definition loc := nat.

Definition Store := list (list Q).

(** The current contents of a list object. *)
Definition cells {A} (st : list (list A)) (l : loc) : list A := nth l st [].

Definition next_loc (st : Store) : loc := length st.

Definition store_set (l : loc) (v : list Q) (st : Store) : Store := update_nth l v st.

(** A new list object with contents [v] (a list display, or [deepcopy]). *)
Definition alloc (v : list Q) (st : Store) : loc * Store := (next_loc st, st ++ [v]).

(** [l[:i]] and [l[i:]] *)
Definition slice_bound {A} (l : list A) (i : Z) : nat :=
  Z.to_nat (if i <? 0 then Z.max 0 (i + len l) else i).
Definition slice_to {A} (l : list A) (i : Z) : list A := firstn (slice_bound l i) l.
Definition slice_from {A} (l : list A) (i : Z) : list A := skipn (slice_bound l i) l.

Module TetrisAI.
Record t : Type := Build {
  grid_width : Z;
  grid_height : Z;
  row_filled_weights : loc;
  hole_height_weights : loc;
  column_diff_weights : loc;
  hole_height_cap : Z;
  column_diff_cap : Z
}.

Section WithGen.
Context {G : Type} `{RandomGen G}.

(** [math.log] raises ValueError at or below 0, [math.sqrt] below 0
    (that is, for a draw above 1). *)
Definition random_weight (g : G) : result (Q * G) :=
  '(u1, g) <- random g ;;
  if Qle_bool u1 0 || negb (Qle_bool u1 1) then Raise ValueError
  else
    '(u2, g) <- random g ;;
    Ok (Qabs (box_muller u1 u2), g).

(** [if len(ws) == 0: for i in range(n): ws.append(self.random_weight())] *)
Definition fill_weights (l : loc) (n : Z) (w : Store * G) : result (Store * G) :=
  if len (cells (fst w) l) =? 0 then
    foldM (fun '(st, g) (i : Z) =>
             '(v, g) <- random_weight g ;;
             Ok (store_set l (cells st l ++ [v]) st, g))
          (range 0 n) w
  else Ok w.

(** [TetrisAI(grid_width, grid_height, row_filled_weights,
    hole_height_weights, column_diff_weights)]: the three arguments
    are the list objects themselves. *)
Definition new (grid_width grid_height : Z)
    (row_filled_weights hole_height_weights column_diff_weights : loc)
    (w : Store * G) : result (t * (Store * G)) :=
  let hole_height_cap := 5 in
  let column_diff_cap := 5 in
  w <- fill_weights row_filled_weights (grid_width + 1) w ;;
  w <- fill_weights hole_height_weights hole_height_cap w ;;
  w <- fill_weights column_diff_weights column_diff_cap w ;;
  Ok (Build grid_width grid_height row_filled_weights hole_height_weights
            column_diff_weights hole_height_cap column_diff_cap, w).
End WithGen.

(** First filled row of column [x], scanning [ys] from the top. *)
Fixpoint first_filled (grid : list (list bool)) (x : Z) (ys : list Z) : result (option Z) :=
  match ys with
  | [] => Ok None
  | y :: ys' =>
      b <- cell grid x y ;;
      if b then Ok (Some y) else first_filled grid x ys'
  end.

Definition compute_heightmap (self : t) (grid : list (list bool)) : result (list Z) :=
  mapM (fun x =>
          found <- first_filled grid x (range 0 (grid_height self)) ;;
          match found with
          | Some y => Ok (grid_height self - y)
          | None => Ok 0
          end)
       (range 0 (grid_width self)).

(** The loop over [y] stops at the first collision, one row back. *)
Fixpoint descend (grid : list (list bool)) (ys : list Z) (current_tmino : Tetromino.t)
  : result Tetromino.t :=
  match ys with
  | [] => Ok current_tmino
  | j :: ys' =>
      let current_tmino := Tetromino.with_y_pos current_tmino j in
      colliding <- is_colliding grid current_tmino ;;
      if colliding then Ok (Tetromino.with_y_pos current_tmino (j - 1))
      else descend grid ys' current_tmino
  end.

Definition compute_moves_available (T : Geometry) (self : t) (grid : list (list bool))
    (tetromino : Tetromino.t) : result (list (Z * Z * Z)) :=
  heights <- compute_heightmap self grid ;;
  foldM (fun possible_moves rotation =>
    current_tmino <- Tetromino.new T (Tetromino.id tetromino) rotation 0 0 ;;
    '(_, possible_moves) <-
      foldM (fun '(current_tmino, possible_moves) i =>
        let current_tmino := Tetromino.with_x_pos current_tmino i in
        greatest_height <-
          foldM (fun greatest_height j =>
            if (0 <=? j) && (j <? len grid) then
              hj <- getitem heights j ;;
              Ok (if greatest_height <? hj then hj else greatest_height)
            else Ok greatest_height)
            (range i (i + Tetromino.size current_tmino)) 0 ;;
        col0 <- getitem grid 0 ;;
        current_tmino <-
          descend grid
            (range (Z.max (len col0 - greatest_height - Tetromino.size current_tmino)
                          (Tetromino.min_y current_tmino))
                   (Tetromino.max_y current_tmino + 1))
            current_tmino ;;
        colliding <- is_colliding grid current_tmino ;;
        if colliding then Ok (current_tmino, possible_moves)
        else Ok (current_tmino,
                 possible_moves ++ [(rotation, Tetromino.x_pos current_tmino,
                                     Tetromino.y_pos current_tmino)]))
        (range (Tetromino.min_x current_tmino) (Tetromino.max_x current_tmino + 1))
        (current_tmino, possible_moves) ;;
    Ok possible_moves)
    (Tetromino.unique_rotations_list tetromino) [].

Section Scoring.
(** The numbers of a score and of the weights: a type [F] with the [0]
    the score starts from and the [+] and [-] of [score += w] and
    [score -= w].  In the program they are Python floats. *)
Context {F : Type} (zero : F) (add sub : F -> F -> F).
(** How a weight list is subscripted: [getitem] in the program. *)
Variable weight_at : list F -> Z -> result F.

Definition compute_score_in (st : list (list F)) (self : t) (grid : list (list bool))
  : result F :=
  (* add to score based on how filled the rows are *)
  score <-
    foldM (fun (score : F) y =>
      cells_filled <-
        foldM (fun cells_filled x =>
                 b <- cell grid x y ;;
                 Ok (if b then cells_filled + 1 else cells_filled))
              (range 0 (grid_width self)) 0 ;;
      w <- weight_at (cells st (row_filled_weights self)) cells_filled ;;
      Ok (add score w))
      (range 0 (grid_height self)) zero ;;
  (* subtract from score based on heights of holes *)
  heights <- compute_heightmap self grid ;;
  score <-
    foldM (fun (score : F) x =>
      hx <- getitem heights x ;;
      '(score, hole_height) <-
        foldM (fun '(score, hole_height) y =>
          b <- cell grid x y ;;
          if b then
            if 0 <? hole_height then
              w <- weight_at (cells st (hole_height_weights self))
                             (Z.min hole_height (hole_height_cap self) - 1) ;;
              Ok (sub score w, 0)
            else Ok (score, hole_height)
          else Ok (score, hole_height + 1))
          (range (grid_height self - hx) (grid_height self)) (score, 0) ;;
      if 0 <? hole_height then
        w <- weight_at (cells st (hole_height_weights self))
                       (Z.min hole_height (hole_height_cap self - 1)) ;;
        Ok (sub score w)
      else Ok score)
      (range 0 (grid_width self)) score ;;
  (* subtract from score based on differences in column heights *)
  foldM (fun (score : F) i =>
    hi <- getitem heights i ;;
    hp <- getitem heights (i - 1) ;;
    w <- weight_at (cells st (column_diff_weights self))
                   (Z.min (Z.abs (hi - hp)) (column_diff_cap self - 1)) ;;
    Ok (sub score w))
    (range 1 (len heights)) score.
End Scoring.

(** The score over exact rationals, under any subscript rule: what the
    subscripts are does not depend on the values of the weights. *)
Definition compute_score_with (weight_at : list Q -> Z -> result Q)
  : Store -> t -> list (list bool) -> result Q :=
  compute_score_in 0%Q Qplus Qminus weight_at.

Definition compute_score : Store -> t -> list (list bool) -> result Q :=
  compute_score_with getitem.

(** The score as the program computes it: weights and score are binary64
    floats, every [+=] and [-=] rounds. *)
Definition compute_score64 : list (list float) -> t -> list (list bool) -> result float :=
  compute_score_in 0%float PrimFloat.add PrimFloat.sub getitem.

(** [to_boolean_grid]: a new grid, True where the cell is not 0. *)
Definition to_boolean_grid (grid : list (list Z)) : result (list (list bool)) :=
  mapM (fun x =>
          col0 <- getitem grid 0 ;;
          mapM (fun y => v <- cell grid x y ;; Ok (negb (v =? 0)))
               (range 0 (len col0)))
       (range 0 (len grid)).

Definition add_to_grid (grid : list (list bool)) (tmino : Tetromino.t)
  : result (list (list bool)) :=
  foldM (fun grid x =>
    foldM (fun grid y =>
      let grid_x := x + Tetromino.x_pos tmino in
      let grid_y := y + Tetromino.y_pos tmino in
      (* check if the tmino cell is out of bounds *)
      if (grid_x <? 0) || (len grid <=? grid_x) || (grid_y <? 0) then Ok grid
      else
        col0 <- getitem grid 0 ;;
        if len col0 <=? grid_y then Ok grid
        else
          b <- cell (Tetromino.block_data tmino) x y ;;
          if b then set_cell grid grid_x grid_y true else Ok grid)
      (range 0 (Tetromino.size tmino)) grid)
    (range 0 (Tetromino.size tmino)) grid.

Definition remove_from_grid (grid : list (list bool)) (tmino : Tetromino.t)
  : result (list (list bool)) :=
  foldM (fun grid x =>
    foldM (fun grid y =>
      let grid_x := x + Tetromino.x_pos tmino in
      let grid_y := y + Tetromino.y_pos tmino in
      if (grid_x <? 0) || (len grid <=? grid_x) || (grid_y <? 0) then Ok grid
      else
        col0 <- getitem grid 0 ;;
        if len col0 <=? grid_y then Ok grid
        else
          b <- cell (Tetromino.block_data tmino) x y ;;
          if b then set_cell grid grid_x grid_y false else Ok grid)
      (range 0 (Tetromino.size tmino)) grid)
    (range 0 (Tetromino.size tmino)) grid.

(** [compute_move]: the grid is a local list of lists, written and
    restored in place from one move to the next; [best_move] starts as
    [(float('-inf'), None)] and scores are compared as floats. *)
Definition compute_move (T : Geometry) (st : list (list float)) (self : t) (inst : Tetris.t)
  : result (option Tetromino.t) :=
  let best_move := (neg_infinity, @None Tetromino.t) in
  grid <- to_boolean_grid (Tetris.grid inst) ;;
  match Tetris.current_tmino inst with
  | None => _ <- compute_heightmap self grid ;; Raise AttributeError
  | Some current =>
      first_moves <- compute_moves_available T self grid current ;;
      '(best_move, _) <-
        foldM (fun '(best_move, grid) '(rotation, x, y) =>
          tmino1 <- Tetromino.new T (Tetromino.id current) rotation x y ;;
          grid <- add_to_grid grid tmino1 ;;
          score <- compute_score64 st self grid ;;
          best_move <-
            (if (fst best_move <? score)%float then
               tmino <- Tetromino.new T (Tetromino.id current) rotation x y ;;
               Ok (score, Some tmino)
             else Ok best_move) ;;
          grid <- remove_from_grid grid tmino1 ;;
          Ok (best_move, grid))
          first_moves (best_move, grid) ;;
      Ok (snd best_move)
  end.

Section WithGen2.
Context {G : Type} `{RandomGen G}.

(** [deepcopy(a[:idx] + b[idx:])] *)
Definition crossover_list (idx : Z) (a b : list Q) : list Q :=
  slice_to a idx ++ slice_from b idx.

Definition crossover (self ai : t) (w : Store * G) : result (t * (Store * G)) :=
  let '(st, g) := w in
  '(crossover_idx, g) <- randint 0 (len (cells st (row_filled_weights ai))) g ;;
  let '(new_row_filled_weights, st) :=
    alloc (crossover_list crossover_idx (cells st (row_filled_weights self))
                          (cells st (row_filled_weights ai))) st in
  '(crossover_idx, g) <- randint 0 (len (cells st (hole_height_weights ai))) g ;;
  let '(new_hole_height_weights, st) :=
    alloc (crossover_list crossover_idx (cells st (hole_height_weights self))
                          (cells st (hole_height_weights ai))) st in
  '(crossover_idx, g) <- randint 0 (len (cells st (column_diff_weights ai))) g ;;
  let '(new_column_diff_weights, st) :=
    alloc (crossover_list crossover_idx (cells st (column_diff_weights self))
                          (cells st (column_diff_weights ai))) st in
  new (grid_width ai) (grid_height ai)
      new_row_filled_weights new_hole_height_weights new_column_diff_weights (st, g).

(** One loop of [mutate]: [for i in range(n): if random() <= mutate_rate:
    ws[i] = self.random_weight()]. *)
Definition mutate_list (l : loc) (n : Z) (mutate_rate : Q) (w : Store * G)
  : result (Store * G) :=
  foldM (fun '(st, g) i =>
    '(u, g) <- random g ;;
    if Qle_bool u mutate_rate then
      '(v, g) <- random_weight g ;;
      ws <- setitem (cells st l) i v ;;
      Ok (store_set l ws st, g)
    else Ok (st, g))
    (range 0 n) w.

Definition mutate (self : t) (mutate_rate : Q) (w : Store * G) : result (Store * G) :=
  w <- mutate_list (row_filled_weights self) (grid_width self) mutate_rate w ;;
  w <- mutate_list (hole_height_weights self) (hole_height_cap self) mutate_rate w ;;
  mutate_list (column_diff_weights self) (column_diff_cap self) mutate_rate w.

Definition clone (self : t) (w : Store * G) : result (t * (Store * G)) :=
  let '(st, g) := w in
  let '(l1, st) := alloc (cells st (row_filled_weights self)) st in
  let '(l2, st) := alloc (cells st (hole_height_weights self)) st in
  let '(l3, st) := alloc (cells st (column_diff_weights self)) st in
  new (grid_width self) (grid_height self) l1 l2 l3 (st, g).
End WithGen2.
End TetrisAI.

(** ** tetro.py *)

(** [list.sort(key=lambda elem: elem[0])] is a stable ascending sort; a
    stable sort has one possible result, computed here by insertion. *)
Fixpoint insert_by_key (e : Z * Z) (l : list (Z * Z)) : list (Z * Z) :=
  match l with
  | [] => [e]
  | h :: t => if fst e <=? fst h then e :: l else h :: insert_by_key e t
  end.

Definition sort_by_key (l : list (Z * Z)) : list (Z * Z) :=
  fold_right insert_by_key [] l.

(** [sum(l) / len(l)] *)
Definition average (l : list Z) : result Q :=
  if len l =? 0 then Raise ZeroDivisionError
  else Ok (inject_Z (fold_left Z.add l 0%Z) / inject_Z (len l))%Q.

Module Tetro.
(** The controller, without its window, clocks and key handling. *)
Record t : Type := Build {
  grid_width : Z;
  grid_height : Z;
  population_size : Z;
  selection_size : Z;
  mutate_rate : Q;
  generation : Z;
  tetris_instances : list Tetris.t;
  tetris_ais : list TetrisAI.t
}.

Section WithTable.
Context {G : Type} `{RandomGen G}.
Variable T : Geometry.

(** [[(inst.lines_cleared, i) for i, inst in enumerate(instances)]] *)
Definition fitness_of (instances : list Tetris.t) : list (Z * Z) :=
  combine (map Tetris.lines_cleared instances) (range 0 (len instances)).

Definition ranked (instances : list Tetris.t) : list (Z * Z) :=
  rev (sort_by_key (fitness_of instances)).

(** [TetrisAI(grid_width, grid_height, [], [], [])] *)
Definition random_ai (self : t) (w : Store * G) : result (TetrisAI.t * (Store * G)) :=
  let '(st, g) := w in
  let '(l1, st) := alloc [] st in
  let '(l2, st) := alloc [] st in
  let '(l3, st) := alloc [] st in
  TetrisAI.new (grid_width self) (grid_height self) l1 l2 l3 (st, g).

(** [idx2 = idx1; while idx2 == idx1: idx2 = randint(0, n - 1)] *)
Fixpoint pick_other (fuel : nat) (n idx1 : Z) (g : G) : result (Z * G) :=
  match fuel with
  | O => OutOfFuel
  | S fuel' =>
      '(idx2, g) <- randint 0 (n - 1) g ;;
      if idx2 =? idx1 then pick_other fuel' n idx1 g else Ok (idx2, g)
  end.

(** [while len(new_ais) != self.population_size: ...] *)
Fixpoint breed (fuel : nat) (self : t) (highest_scores : list (Z * Z))
    (new_ais : list TetrisAI.t) (w : Store * G)
  : result (list TetrisAI.t * (Store * G)) :=
  if negb (len new_ais =? population_size self) then
    match fuel with
    | O => OutOfFuel
    | S fuel' =>
        let '(st, g) := w in
        '(idx1, g) <- randint 0 (len highest_scores - 1) g ;;
        '(idx2, g) <- pick_other fuel' (len highest_scores) idx1 g ;;
        h1 <- getitem highest_scores idx1 ;;
        parent1 <- getitem (tetris_ais self) (snd h1) ;;
        h2 <- getitem highest_scores idx2 ;;
        parent2 <- getitem (tetris_ais self) (snd h2) ;;
        '(child, w) <- TetrisAI.crossover parent1 parent2 (st, g) ;;
        let new_ais := new_ais ++ [child] in
        last <- getitem new_ais (-1) ;;
        w <- TetrisAI.mutate last (mutate_rate self) w ;;
        breed fuel' self highest_scores new_ais w
    end
  else Ok (new_ais, w).

(** The console messages and the append to data/weights.txt are left
    out; the subscripts they evaluate are kept. *)
Definition next_generation (fuel : nat) (self : t) (w : Store * G)
  : result (t * (Store * G)) :=
  let generation := generation self + 1 in
  let fitness_scores := ranked (tetris_instances self) in
  avg_all <- average (map fst fitness_scores) ;;
  let highest_scores := slice_to fitness_scores (selection_size self) in
  avg_most <- average (map fst highest_scores) ;;
  h0 <- getitem highest_scores 0 ;;
  best <- getitem (tetris_ais self) (snd h0) ;;
  f0 <- getitem fitness_scores 0 ;;
  (* prepare next generation *)
  '(new_ais, w) <-
    (if Qle_bool avg_most (1 # 10) then
       foldM (fun '(new_ais, w) (i : Z) =>
                '(ai, w) <- random_ai self w ;;
                Ok (new_ais ++ [ai], w))
             (range 0 (population_size self)) ([], w)
     else
       '(new_ais, w) <-
         foldM (fun '(new_ais, w) i =>
                  fi <- getitem fitness_scores i ;;
                  ai <- getitem (tetris_ais self) (snd fi) ;;
                  '(c, w) <- TetrisAI.clone ai w ;;
                  Ok (new_ais ++ [c], w))
               (range 0 (population_size self / 2)) ([], w) ;;
       breed fuel self highest_scores new_ais w) ;;
  let '(st, g) := w in
  '(instances, g) <-
    foldM (fun '(instances, g) (i : Z) =>
             '(inst, g) <- Tetris.new T (grid_width self) (grid_height self) g ;;
             Ok (instances ++ [inst], g))
          (range 0 (population_size self)) ([], g) ;;
  Ok (Build (grid_width self) (grid_height self) (population_size self)
            (selection_size self) (mutate_rate self) generation instances new_ais,
      (st, g)).
End WithTable.
End Tetro.

(** * Vocabulary of the statements *)

(** A grid of [W] columns, each of [H] cells. *)
Definition grid_shape {A} (W H : Z) (grid : list (list A)) : Prop :=
  len grid = W /\ Forall (fun col => len col = H) grid.

(** Every filled mask cell of [tm], at [tm]'s anchor, is on the board and
    on an empty cell. *)
Definition placement_free (W H : Z) (grid : list (list bool)) (tm : Tetromino.t) : Prop :=
  forall cx cy,
    0 <= cx < Tetromino.size tm -> 0 <= cy < Tetromino.size tm ->
    cell (Tetromino.block_data tm) cx cy = Ok true ->
    0 <= cx + Tetromino.x_pos tm < W /\
    0 <= cy + Tetromino.y_pos tm < H /\
    cell grid (cx + Tetromino.x_pos tm) (cy + Tetromino.y_pos tm) = Ok false.

(** The piece the enumerator moves around: the table entry of
    [(id, rotation)] at some anchor. *)
Definition anchored (tm0 tm : Tetromino.t) : Prop :=
  tm = Tetromino.with_y_pos (Tetromino.with_x_pos tm0 (Tetromino.x_pos tm)) (Tetromino.y_pos tm).

(** What the claim says of one returned triple. *)
Definition legal_move (T : Geometry) (W H : Z) (grid : list (list bool)) (id : Z)
    (move : Z * Z * Z) : Prop :=
  let '(rotation, x, y) := move in
  exists tm, Tetromino.new T id rotation x y = Ok tm /\ placement_free W H grid tm.

(** A square mask: as many cells in each column as there are columns. *)
Definition square_mask (block_data : BlockData) : Prop :=
  Forall (fun col => length col = length block_data) block_data.

(** Subscripting that refuses what [getitem] refuses and negative
    positions too: it succeeds exactly on [0, len). *)
Definition getitem_in_range {A} (l : list A) (i : Z) : result A :=
  if (0 <=? i) && (i <? len l) then getitem l i else Raise IndexError.

(** ** Sample data *)

Definition empty_geometry : Geometry :=
  {| tmino_list := []; unique_tmino_list := []; unique_types := 0 |}.

(** The table of a 4 x 4 game whose only shape is the 2 x 2 block. *)
Definition block_geometry : Geometry :=
  Eval vm_compute in
    match process_tetromino 10 [[true; true]; [true; true]] 4 4 1 []
            {| tmino_list := []; unique_tmino_list := []; unique_types := 1 |}
    with
    | Ok T => T
    | _ => empty_geometry
    end.

Definition block_piece : Tetromino.t :=
  Eval vm_compute in
    match Tetromino.new block_geometry 1 0 0 0 with
    | Ok tm => tm
    | _ => Tetromino.Build [] [] 0 0 0 0 0 [] 0 0 0 0
    end.

Definition empty_grid_4x4 : list (list bool) := repeat (repeat false 4) 4.

(** An AI of a 4 x 4 game whose three weight lists are the list objects
    0, 1 and 2 of the store. *)
Definition sample_ai : TetrisAI.t := TetrisAI.Build 4 4 0%nat 1%nat 2%nat 5 5.

Definition L_mask : BlockData :=
  [[false; true; false]; [false; true; false]; [false; true; true]].

(** A store holding three weight lists, as list objects 0, 1 and 2. *)
Definition store_of (row_filled hole_height column_diff : list Q) : Store :=
  [row_filled; hole_height; column_diff].

Definition sample_store : Store :=
  store_of [0; 1; 2; 3; 4]%Q [1; 2; 3; 4; 5]%Q [0; 1; 2; 3; 4]%Q.

(** An AI of a game of the given size, over the list objects 0, 1, 2. *)
Definition ai_of_size (W H : Z) : TetrisAI.t := TetrisAI.Build W H 0%nat 1%nat 2%nat 5 5.

(** The board with no filled cell. *)
Definition empty_grid (W H : nat) : list (list bool) := repeat (repeat false H) W.

(** A generator for the examples, driven by a script: the floats and the
    integers it will hand out (a float outside [0, 1) is replaced by 1/2,
    an integer is brought into the requested range), then 1/2 and the
    lower bound for ever.  Its Box-Muller values are 7 plus the two draws,
    in lowest terms. *)
#[export] Instance ScriptGen : RandomGen (list Q * list Z) := {|
  next_float := fun g =>
    match fst g with
    | [] => (1 # 2, g)
    | q :: qs =>
        (if Qle_bool 0 q && negb (Qle_bool 1 q) then q else 1 # 2, (qs, snd g))
    end;
  next_int := fun a b g =>
    match snd g with
    | [] => (a, g)
    | z :: zs => (a + z mod (b - a + 1), (fst g, zs))
    end;
  box_muller := fun u1 u2 => Qred (7 + u1 + u2)%Q
|}.

(** The list objects of an AI are in use in the store. *)
Definition ai_allocated (st : Store) (ai : TetrisAI.t) : Prop :=
  (TetrisAI.row_filled_weights ai < next_loc st)%nat
  /\ (TetrisAI.hole_height_weights ai < next_loc st)%nat
  /\ (TetrisAI.column_diff_weights ai < next_loc st)%nat.

(** What [TetrisAI.__init__] leaves behind, and [mutate] keeps: no weight
    list is empty, unless it is the row-fill list of a game of negative
    width. *)
Definition ai_constructed (st : Store) (ai : TetrisAI.t) : Prop :=
  (cells st (TetrisAI.row_filled_weights ai) <> [] \/ TetrisAI.grid_width ai + 1 <= 0)
  /\ cells st (TetrisAI.hole_height_weights ai) <> []
  /\ cells st (TetrisAI.column_diff_weights ai) <> [].

(** [c] is [a] up to some split position and [b] from there on. *)
Definition spliced (a b c : list Q) : Prop :=
  length c = length a
  /\ exists k : nat,
      forall i x, nth_error c i = Some x ->
        ((i < k)%nat -> nth_error a i = Some x)
        /\ ((k <= i)%nat -> nth_error b i = Some x).

(** Two parents in one store: A owns the lists 0, 1, 2 and B the lists
    3, 4, 5, in a game of width 2. *)
Definition two_parents_store : Store :=
  [[1; 2; 3]; [1; 2; 3; 4; 5]; [1; 2; 3; 4; 5];
   [11; 12; 13]; [11; 12; 13; 14; 15]; [11; 12; 13; 14; 15]]%Q.

Definition parent_A : TetrisAI.t := TetrisAI.Build 2 4 0%nat 1%nat 2%nat 5 5.
Definition parent_B : TetrisAI.t := TetrisAI.Build 2 4 3%nat 4%nat 5%nat 5 5.

(** ** Rows of an integer grid *)

(** The cell of column [x], row [y] (0 outside the grid). *)
Definition at_cell (grid : list (list Z)) (x y : nat) : Z := nth y (nth x grid []) 0.

(** Row [y] has no empty cell. *)
Definition full_rowb (grid : list (list Z)) (y : nat) : bool :=
  forallb (fun col => negb (nth y col 0 =? 0)) grid.

(** The rows that are not full, top to bottom. *)
Definition kept_rows (H : nat) (grid : list (list Z)) : list nat :=
  filter (fun y => negb (full_rowb grid y)) (seq 0 H).

Definition count_full_rows (H : nat) (grid : list (list Z)) : nat :=
  H - length (kept_rows H grid).

(** The grid without its full rows: every column keeps, in order, its
    cells of the rows that are not full, moved down under one zero per
    removed row. *)
Definition remove_full_rows (H : nat) (grid : list (list Z)) : list (list Z) :=
  map (fun col =>
         repeat 0 (count_full_rows H grid)
         ++ map (fun y => nth y col 0) (kept_rows H grid))
      grid.

(** [grid] with cell [(x, y)] set to [v]. *)
Definition with_cell (grid : list (list Z)) (x y : nat) (v : Z) : list (list Z) :=
  update_nth x (update_nth y v (nth x grid [])) grid.

(** Every mask cell of the piece can be read. *)
Definition mask_readable (tm : Tetromino.t) : Prop :=
  forall x y, 0 <= x < Tetromino.size tm -> 0 <= y < Tetromino.size tm ->
    exists b, cell (Tetromino.block_data tm) x y = Ok b.

(** While lines are cleared, every row of the grid is a row of the grid
    as it was after the piece was written, or a zero row.  With [c] rows
    cleared so far and the [p] top rows still to be examined, the rows are,
    top to bottom: [c] zero rows, the rows [0 .. p - 1], and the rows from
    [p] on that are not full. *)
Definition row_source (H : nat) (written : list (list Z)) (c p : nat) : list (option nat) :=
  repeat None c
  ++ map Some (seq 0 p ++ filter (fun y => negb (full_rowb written y)) (seq p (H - p))).

Definition pick (written : list (list Z)) (x : nat) (o : option nat) : Z :=
  match o with
  | Some r => at_cell written x r
  | None => 0
  end.

(** The state [(grid, lines_cleared, current_y)] of the second loop of
    [place_tetromino] after [c] clears. *)
Definition clearing (W H : Z) (written : list (list Z)) (lines : Z) (c : nat)
    (s : list (list Z) * Z * Z) : Prop :=
  let '(g, n, cy) := s in
  let p := Z.to_nat (Z.min H (Z.max 0 (cy - Z.of_nat c + 1))) in
  grid_shape W H g
  /\ (forall x y : nat, Z.of_nat x < W -> Z.of_nat y < H ->
        at_cell g x y = pick written x (nth y (row_source (Z.to_nat H) written c p) None))
  /\ n = lines + Z.of_nat c
  /\ (length (filter (fun y => negb (full_rowb written y)) (seq p (Z.to_nat H - p))) + c
      = Z.to_nat H - p)%nat
  /\ (H <= cy -> c = 0%nat).

(** The table serves every shape id: the piece can be built and its mask
    read. *)
Definition table_ready (T : Geometry) : Prop :=
  1 <= unique_types T
  /\ forall id, 1 <= id <= unique_types T ->
       exists tm, Tetromino.new T id 0 0 0 = Ok tm /\ mask_readable tm.

(** No row of the board is full: true of the empty board a game starts
    from, and kept by every lock. *)
Definition no_full_row (H : Z) (grid : list (list Z)) : Prop :=
  forall y : nat, Z.of_nat y < H -> full_rowb grid y = false.

(** A 4 x 4 game of 2 x 2 blocks in which the two bottom rows lack their
    two left cells, and the falling block sits right there. *)
Definition sample_game : Tetris.t :=
  Tetris.Build 4 4 false 0
    [[0; 0; 0; 0]; [0; 0; 0; 0]; [0; 0; 1; 1]; [0; 0; 1; 1]]
    [] (Some (Tetromino.with_y_pos block_piece 2)) block_piece None.

(** ** The population *)

(** The list objects of an AI. *)
Definition ai_locs (ai : TetrisAI.t) : list loc :=
  [TetrisAI.row_filled_weights ai; TetrisAI.hole_height_weights ai;
   TetrisAI.column_diff_weights ai].

(** [new], in store [st'], holds the weights that [old] holds in [st]. *)
Definition same_weights (st : Store) (old : TetrisAI.t) (st' : Store) (new : TetrisAI.t)
  : Prop :=
  cells st' (TetrisAI.row_filled_weights new) = cells st (TetrisAI.row_filled_weights old)
  /\ cells st' (TetrisAI.hole_height_weights new)
     = cells st (TetrisAI.hole_height_weights old)
  /\ cells st' (TetrisAI.column_diff_weights new)
     = cells st (TetrisAI.column_diff_weights old).

(** No two AIs of the list share a list object, and no AI uses one list
    object twice. *)
Definition independent_ais (ais : list TetrisAI.t) : Prop :=
  (forall ai, In ai ais -> NoDup (ai_locs ai))
  /\ forall i j ai aj l,
       nth_error ais i = Some ai -> nth_error ais j = Some aj ->
       In l (ai_locs ai) -> In l (ai_locs aj) -> i = j.

(** The AIs are laid out in the store from [n0] on, three consecutive
    list objects each, in order. *)
Definition laid_out (n0 : loc) (ais : list TetrisAI.t) : Prop :=
  forall k ai, nth_error ais k = Some ai ->
    ai_locs ai = [n0 + 3 * k; n0 + 3 * k + 1; n0 + 3 * k + 2]%nat.

(** A ranking of the instances: every index once, with its lines, most
    lines first. *)
Definition ranking_of (instances : list Tetris.t) (rk : list (Z * Z)) : Prop :=
  Permutation (map snd rk) (range 0 (len instances))
  /\ StronglySorted (fun a b => fst b <= fst a) rk
  /\ Forall (fun e => exists inst, getitem instances (snd e) = Ok inst
                                  /\ fst e = Tetris.lines_cleared inst) rk.

(** [avg_most] of [next_generation]: the average of the lines cleared
    by the [selection_size] best instances. *)
Definition top_average (self : Tetro.t) : result Q :=
  average (map fst (slice_to (Tetro.ranked (Tetro.tetris_instances self))
                             (Tetro.selection_size self))).

(** The table of a 4 x 4 game with two shapes, both the 2 x 2 block. *)
Definition two_block_geometry : Geometry :=
  Eval vm_compute in
    match
      T1 <- process_tetromino 10 [[true; true]; [true; true]] 4 4 1 []
              {| tmino_list := []; unique_tmino_list := []; unique_types := 2 |} ;;
      process_tetromino 10 [[true; true]; [true; true]] 4 4 2 [] T1
    with
    | Ok T => T
    | _ => empty_geometry
    end.

(** A finished generation of ten 4 x 4 games: instance [k] cleared
    [nth k [3; 1; 4; 1; 5; 9; 2; 6; 5; 3]] lines, and AI [k] owns the list
    objects [3k], [3k + 1], [3k + 2], each holding five times the weight
    [k]. *)
Definition sample_population : Tetro.t :=
  Tetro.Build 4 4 10 4 1 0
    (map (fun n => Tetris.Build 4 4 true n [] [] None block_piece None)
         [3; 1; 4; 1; 5; 9; 2; 6; 5; 3])
    (map (fun k => TetrisAI.Build 4 4 (3 * k)%nat (3 * k + 1)%nat (3 * k + 2)%nat 5 5)
         (seq 0 10)).

Definition sample_population_store : Store :=
  flat_map (fun k => repeat (repeat (inject_Z (Z.of_nat k)) 5) 3) (seq 0 10).

(** Random integers for five crossovers: two parents, then three split
    positions, five times over. *)
Definition sample_script : list Q * list Z :=
  ([], concat (repeat [0; 1; 2; 3; 1] 5)).

Definition sample_next_generation : Tetro.t * (Store * (list Q * list Z)) :=
  Eval vm_compute in
    match Tetro.next_generation two_block_geometry 10 sample_population
            (sample_population_store, sample_script)
    with
    | Ok r => r
    | _ => (sample_population, (sample_population_store, sample_script))
    end.

(** ** Shape definitions *)

(** A mask of [n] columns with at least [n] cells in each: square, or with
    more rows than columns. *)
Definition tall_mask (n : Z) (block_data : BlockData) : Prop :=
  len block_data = n /\ Forall (fun col => n <= len col) block_data.

(** Some cell of the leading [n] x [n] part is filled. *)
Definition has_filled_cell (n : Z) (block_data : BlockData) : Prop :=
  exists x y, 0 <= x < n /\ 0 <= y < n /\ cell block_data x y = Ok true.

(** The mask [rotate] builds, cell by cell. *)
Definition quarter_turn (bd : BlockData) : BlockData :=
  map (fun x => map (fun y => nth (Z.to_nat (len bd - x - 1)) (nth (Z.to_nat y) bd []) false)
                    (range 0 (len bd)))
      (range 0 (len bd)).




(** ** More sample data *)

(** A finished generation of two 4 x 4 games, 3 and 1 lines cleared, of
    which one is selected; AI [k] owns the list objects [3k], [3k + 1],
    [3k + 2], each holding five times the weight [k]. *)
Definition small_population : Tetro.t :=
  Tetro.Build 4 4 2 1 1 0
    (map (fun n => Tetris.Build 4 4 true n [] [] None block_piece None) [3; 1])
    (map (fun k => TetrisAI.Build 4 4 (3 * k)%nat (3 * k + 1)%nat (3 * k + 2)%nat 5 5)
         (seq 0 2)).

Definition small_population_store : Store :=
  flat_map (fun k => repeat (repeat (inject_Z (Z.of_nat k)) 5) 3) (seq 0 2).

(** [a] is ranked before [b]: more lines cleared, or as many and a later
    place among the instances. *)
Definition outranks (a b : Z * Z) : Prop :=
  fst b < fst a \/ (fst a = fst b /\ snd b < snd a).

(** A game as [Tetris.__init__] leaves it: an empty [W] x [H] board, no
    line cleared, not lost, a falling piece and no move planned. *)
Definition fresh_game (W H : Z) (inst : Tetris.t) : Prop :=
  Tetris.grid_width inst = W /\ Tetris.grid_height inst = H
  /\ Tetris.lost inst = false /\ Tetris.lines_cleared inst = 0
  /\ Tetris.grid inst = map (fun _ => repeat 0 (Z.to_nat H)) (range 0 W)
  /\ Tetris.current_tmino inst <> None
  /\ Tetris.next_move inst = None.

(** An AI as [TetrisAI.__init__] leaves it in a game of width [W]:
    [W + 1] row-fill weights and five of each other kind. *)
Definition fresh_ai (W H : Z) (st : Store) (ai : TetrisAI.t) : Prop :=
  TetrisAI.grid_width ai = W /\ TetrisAI.grid_height ai = H
  /\ TetrisAI.hole_height_cap ai = 5 /\ TetrisAI.column_diff_cap ai = 5
  /\ len (cells st (TetrisAI.row_filled_weights ai)) = Z.max 0 (W + 1)
  /\ len (cells st (TetrisAI.hole_height_weights ai)) = 5
  /\ len (cells st (TetrisAI.column_diff_weights ai)) = 5.

(** The same two games and AIs when no line was cleared at all. *)
Definition idle_population : Tetro.t :=
  Tetro.Build 4 4 2 1 1 0
    (map (fun n => Tetris.Build 4 4 true n [] [] None block_piece None) [0; 0])
    (Tetro.tetris_ais small_population).

Definition idle_next_generation : Tetro.t * (Store * (list Q * list Z)) :=
  Eval vm_compute in
    match Tetro.next_generation two_block_geometry 7 idle_population
            (small_population_store, ([], []))
    with
    | Ok r => r
    | _ => (idle_population, (small_population_store, ([], [])))
    end.

(** ** The geometry table *)

(** [oob] answers False at every offset from [lo] to [hi] other than 0,
    and True one step beyond each end: what the four [while] loops of
    [process_tetromino] leave in [min_x], [max_x] (and [min_y], [max_y]). *)
Definition extent_of (oob : Z -> result bool) (lo hi : Z) : Prop :=
  lo <= 0 <= hi
  /\ oob (lo - 1) = Ok true /\ oob (hi + 1) = Ok true
  /\ forall v, lo <= v <= hi -> v <> 0 -> oob v = Ok false.

(** The table entry that [process_tetromino] makes of the shape [id] for
    its [k]-th quarter turn. *)
Definition entry_of (W H id : Z) (color : list Z) (block_data : BlockData) (k : nat)
    (e : TetrominoType.t) : Prop :=
  TetrominoType.id e = id
  /\ TetrominoType.block_data e = Nat.iter k quarter_turn block_data
  /\ TetrominoType.size e = len block_data
  /\ TetrominoType.rotation e = Z.of_nat k
  /\ TetrominoType.color e = color
  /\ extent_of (fun v => out_of_bounds (TetrominoType.block_data e) v 0 W H)
               (TetrominoType.min_x e) (TetrominoType.max_x e)
  /\ extent_of (fun v => out_of_bounds (TetrominoType.block_data e) 0 v W H)
               (TetrominoType.min_y e) (TetrominoType.max_y e).

(** The state [(block_data, table)] of the first loop of
    [process_tetromino] on entering turn [i], in full. *)
Definition entries_made (W H id : Z) (color : list Z) (block_data : BlockData)
    (T : Geometry) (i : Z) (s : BlockData * Geometry) : Prop :=
  fst s = Nat.iter (Z.to_nat (i - 1)) quarter_turn block_data
  /\ unique_tmino_list (snd s) = unique_tmino_list T
  /\ unique_types (snd s) = unique_types T
  /\ exists es, tmino_list (snd s) = tmino_list T ++ es
                /\ len es = i
                /\ forall k e, nth_error es k = Some e -> entry_of W H id color block_data k e.

(** A list of rotation states as [process_tetromino] keeps it: 0 first,
    then increasing, below [i]. *)
Definition rotation_list (i : Z) (rotations : list Z) : Prop :=
  (exists rest, rotations = 0 :: rest)
  /\ StronglySorted Z.lt rotations
  /\ Forall (fun r => 0 <= r < i) rotations.

(** Whether the rotation states [i] and [j] of the shape [id] are told
    apart, as [process_tetromino] asks it of the table. *)
Definition unique_against (T : Geometry) (id i j : Z) : result bool :=
  ti <- get_tetromino_type T id i ;;
  tj <- get_tetromino_type T id j ;;
  rotationally_unique (TetrominoType.block_data ti) (TetrominoType.block_data tj).

(** How the rotation states below [i] were chosen: a kept one is told
    apart from every kept one before it, a dropped one is not told apart
    from some kept one before it. *)
Definition rotation_choice (T : Geometry) (id i : Z) (rotations : list Z) : Prop :=
  forall k, 1 <= k < i ->
    (In k rotations ->
     forall j, In j rotations -> j < k -> unique_against T id k j = Ok true)
    /\ (~ In k rotations ->
        exists j, In j rotations /\ j < k /\ unique_against T id k j = Ok false).

(** ** Games *)

(** A piece as [generate_tetromino_seq] sets it on top of the board:
    first rotation state, column anchor [(max_x - min_x) // 2], row anchor
    [min_y]. *)
Definition as_spawned (tm : Tetromino.t) : Prop :=
  Tetromino.rotation tm = 0
  /\ Tetromino.x_pos tm = (Tetromino.max_x tm - Tetromino.min_x tm) / 2
  /\ Tetromino.y_pos tm = Tetromino.min_y tm.

(** What every lock keeps of a game: a board of the game's size without
    a full row, and a next piece and a bag whose masks can be read. *)
Definition sound_game (self : Tetris.t) : Prop :=
  0 < Tetris.grid_width self
  /\ grid_shape (Tetris.grid_width self) (Tetris.grid_height self) (Tetris.grid self)
  /\ no_full_row (Tetris.grid_height self) (Tetris.grid self)
  /\ mask_readable (Tetris.next_tmino self)
  /\ Forall mask_readable (Tetris.tmino_seq self).

(** Two states of a game that differ at most in the falling piece and in
    the planned move. *)
Definition same_board (a b : Tetris.t) : Prop :=
  Tetris.grid_width b = Tetris.grid_width a
  /\ Tetris.grid_height b = Tetris.grid_height a
  /\ Tetris.lost b = Tetris.lost a
  /\ Tetris.lines_cleared b = Tetris.lines_cleared a
  /\ Tetris.grid b = Tetris.grid a
  /\ Tetris.tmino_seq b = Tetris.tmino_seq a
  /\ Tetris.next_tmino b = Tetris.next_tmino a.

(** The falling piece of [self'] is [tm'], it does not collide with the
    board, nothing else of the game has changed, and a planned move that
    is the same object shows the same piece. *)
Definition moved_to (self self' : Tetris.live) (tm' : Tetromino.t) : Prop :=
  Tetris.current_tmino (Tetris.game self') = Some tm'
  /\ is_colliding (Tetris.grid (Tetris.game self')) tm' = Ok false
  /\ same_board (Tetris.game self) (Tetris.game self')
  /\ Tetris.shared self' = Tetris.shared self
  /\ Tetris.next_move (Tetris.game self')
     = (if Tetris.shared self then Some tm' else Tetris.next_move (Tetris.game self)).

(** The mask cell of a piece, False where the mask cannot be read. *)
Definition mask_at (tm : Tetromino.t) (x y : Z) : bool :=
  match cell (Tetromino.block_data tm) x y with
  | Ok b => b
  | _ => false
  end.

(** The mask cell [(x, y)] of the piece is filled and lies, at the
    piece's anchor, outside a board of height [H] or on a cell that is not
    empty. *)
Definition hits {A} `{Cell A} (d : A) (H : Z) (grid : list (list A)) (tm : Tetromino.t)
    (x y : Z) : bool :=
  let grid_x := x + Tetromino.x_pos tm in
  let grid_y := y + Tetromino.y_pos tm in
  mask_at tm x y
  && ((grid_x <? 0) || (grid_y <? 0) || (len grid <=? grid_x) || (H <=? grid_y)
      || nonzero (nth (Z.to_nat grid_y) (nth (Z.to_nat grid_x) grid []) d)).

(** The game with the planned move [nm] taken as the falling piece, by
    reference. *)
Definition adopt (s : Tetris.t) (nm : Tetromino.t) : Tetris.live :=
  Tetris.Live
    (Tetris.Build (Tetris.grid_width s) (Tetris.grid_height s) (Tetris.lost s)
                  (Tetris.lines_cleared s) (Tetris.grid s) (Tetris.tmino_seq s)
                  (Some nm) (Tetris.next_tmino s) (Some nm))
    true.

(** ** The board as the AI sees it *)

(** The boolean view of an integer board: True where a shape id is. *)
Definition filled_view (grid : list (list Z)) : list (list bool) :=
  map (map (fun v => negb (v =? 0))) grid.

(** The cell of column [x], row [y] of a boolean grid (False outside). *)
Definition on_cell (grid : list (list bool)) (x y : nat) : bool :=
  nth y (nth x grid []) false.

(** The piece, at its anchor, has a filled mask cell on the board cell
    [(gx, gy)]. *)
Definition covers (tm : Tetromino.t) (gx gy : Z) : bool :=
  let x := gx - Tetromino.x_pos tm in
  let y := gy - Tetromino.y_pos tm in
  (0 <=? x) && (x <? Tetromino.size tm) && (0 <=? y) && (y <? Tetromino.size tm)
  && mask_at tm x y.

(** The mask cell [(a, b)] is visited before the cell [(x, y)] by the two
    loops over the mask. *)
Definition before (a b x y : Z) : bool := (a <? x) || ((a =? x) && (b <? y)).

(** The state of the loops of [add_to_grid] and [remove_from_grid] on
    reaching the mask cell [(x, y)]: the cells covered by the mask cells
    visited so far hold [v], the others are as they were. *)
Definition stamped_until (v : bool) (W H : Z) (grid : list (list bool)) (tm : Tetromino.t)
    (x y : Z) (g : list (list bool)) : Prop :=
  grid_shape W H g
  /\ forall gx gy : nat, Z.of_nat gx < W -> Z.of_nat gy < H ->
       on_cell g gx gy
       = if covers tm (Z.of_nat gx) (Z.of_nat gy)
            && before (Z.of_nat gx - Tetromino.x_pos tm) (Z.of_nat gy - Tetromino.y_pos tm) x y
         then v else on_cell grid gx gy.

(** The two loops that [add_to_grid] (with True) and [remove_from_grid]
    (with False) have in common. *)
Definition stamp (v : bool) (grid : list (list bool)) (tmino : Tetromino.t)
  : result (list (list bool)) :=
  foldM (fun grid x =>
    foldM (fun grid y =>
      let grid_x := x + Tetromino.x_pos tmino in
      let grid_y := y + Tetromino.y_pos tmino in
      if (grid_x <? 0) || (len grid <=? grid_x) || (grid_y <? 0) then Ok grid
      else
        col0 <- getitem grid 0 ;;
        if len col0 <=? grid_y then Ok grid
        else
          b <- cell (Tetromino.block_data tmino) x y ;;
          if b then set_cell grid grid_x grid_y v else Ok grid)
      (range 0 (Tetromino.size tmino)) grid)
    (range 0 (Tetromino.size tmino)) grid.

(** The score of the grid with the piece of one move added to it, as
    the program computes it. *)
Definition move_score (T : Geometry) (st : list (list float)) (self : TetrisAI.t)
    (grid : list (list bool)) (id : Z) (move : Z * Z * Z) : result float :=
  let '(rotation, x, y) := move in
  tmino1 <- Tetromino.new T id rotation x y ;;
  grid <- TetrisAI.add_to_grid grid tmino1 ;;
  TetrisAI.compute_score64 st self grid.

(** A move whose piece exists in the table and collides with nothing. *)
Definition clear_move (T : Geometry) (grid : list (list bool)) (id : Z)
    (move : Z * Z * Z) : Prop :=
  let '(rotation, x, y) := move in
  exists tm, Tetromino.new T id rotation x y = Ok tm /\ is_colliding grid tm = Ok false.

(** What [compute_move] holds in [best_move] after the moves [done], all
    comparisons being those of floats (false whenever a NaN is compared).
    No move of [done] has a score greater than the score held.  While no
    piece is held the score is [float('-inf')]; a piece held is the piece
    of a move of [done] with the score held, which is greater than
    [float('-inf')], and no earlier move has a score that the score held
    is less than or equal to. *)
Definition best_of (T : Geometry) (st : list (list float)) (self : TetrisAI.t)
    (grid : list (list bool)) (id : Z) (done : list (Z * Z * Z))
    (best : float * option Tetromino.t) : Prop :=
  (forall (k' : nat) move',
      nth_error done k' = Some move' ->
      exists score',
        move_score T st self grid id move' = Ok score'
        /\ (fst best <? score')%float = false)
  /\ match snd best with
     | None => fst best = neg_infinity
     | Some tm =>
         exists (k : nat) rotation x y,
           nth_error done k = Some (rotation, x, y)
           /\ Tetromino.new T id rotation x y = Ok tm
           /\ move_score T st self grid id (rotation, x, y) = Ok (fst best)
           /\ (neg_infinity <? fst best)%float = true
           /\ forall (k' : nat) move' score',
                (k' < k)%nat -> nth_error done k' = Some move' ->
                move_score T st self grid id move' = Ok score' ->
                (fst best <=? score')%float = false
     end.

(** A store of float weights holding three lists, as list objects 0, 1
    and 2. *)
Definition float_store_of (row_filled hole_height column_diff : list float)
  : list (list float) :=
  [row_filled; hole_height; column_diff].

(** The score of the grid with the piece of one move added to it, over
    exact rationals. *)
Definition exact_move_score (T : Geometry) (st : Store) (self : TetrisAI.t)
    (grid : list (list bool)) (id : Z) (move : Z * Z * Z) : result Q :=
  let '(rotation, x, y) := move in
  tmino1 <- Tetromino.new T id rotation x y ;;
  grid <- TetrisAI.add_to_grid grid tmino1 ;;
  TetrisAI.compute_score st self grid.

(** Weights in tenths, as the floats nearest to them: 0.5, 0.1, 0.4, 0.8,
    0.4 for the rows, 0.2, 0.8, 0.0, 0.5, 0.1 for the holes, 0.2, 0.8, 0.2,
    0.2, 0.0 for the column differences. *)
Definition tenths_store : list (list float) :=
  float_store_of
    [0x1p-1; 0x1.999999999999ap-4; 0x1.999999999999ap-2; 0x1.999999999999ap-1;
     0x1.999999999999ap-2]%float
    [0x1.999999999999ap-3; 0x1.999999999999ap-1; 0; 0x1p-1; 0x1.999999999999ap-4]%float
    [0x1.999999999999ap-3; 0x1.999999999999ap-1; 0x1.999999999999ap-3;
     0x1.999999999999ap-3; 0]%float.

(** The same weights as exact tenths. *)
Definition exact_tenths_store : Store :=
  store_of [5 # 10; 1 # 10; 4 # 10; 8 # 10; 4 # 10]%Q
           [2 # 10; 8 # 10; 0; 5 # 10; 1 # 10]%Q
           [2 # 10; 8 # 10; 2 # 10; 2 # 10; 0]%Q.

(** The grid [g] while the first loop of [place_tetromino] is at mask
    cell [(x, y)]: the cells under the filled mask cells met so far hold
    the id of the piece, the others what [grid] holds. *)
Definition written_until (W H : Z) (grid : list (list Z)) (tm : Tetromino.t)
    (x y : Z) (g : list (list Z)) : Prop :=
  grid_shape W H g
  /\ forall gx gy : nat, Z.of_nat gx < W -> Z.of_nat gy < H ->
       at_cell g gx gy
       = if covers tm (Z.of_nat gx) (Z.of_nat gy)
            && before (Z.of_nat gx - Tetromino.x_pos tm)
                      (Z.of_nat gy - Tetromino.y_pos tm) x y
         then Tetromino.id tm else at_cell grid gx gy.

(** No weight of any list of the store is negative. *)
Definition nonneg_store (st : Store) : Prop :=
  forall l, Forall (fun w => (0 <= w)%Q) (cells st l).

(** * Properties *)

(** ** The result monad and the loops *)

Lemma bind_Ok_inv {A B} (m : result A) (k : A -> result B) (b : B) :
  bind m k = Ok b -> exists a, m = Ok a /\ k a = Ok b.
Proof. destruct m; simpl; intros H; try discriminate; eauto. Qed.

Lemma bind_Ok {A B} (m : result A) (k : A -> result B) (a : A) :
  m = Ok a -> bind m k = k a.
Proof. intros ->; reflexivity. Qed.

Ltac inv_bind H :=
  let a := fresh "r" in
  let Ha := fresh "E" in
  apply bind_Ok_inv in H; destruct H as (a & Ha & H).

Ltac inv_bind_as H a Ha := apply bind_Ok_inv in H; destruct H as (a & Ha & H).

Lemma range_from_length a n : length (range_from a n) = n.
Proof. revert a; induction n; simpl; intros; [reflexivity | now rewrite IHn]. Qed.

Lemma In_range_from x a n : In x (range_from a n) <-> a <= x < a + Z.of_nat n.
Proof.
  revert a; induction n as [|n IH]; intros a; simpl.
  - split; [tauto | lia].
  - rewrite IH. lia.
Qed.

Lemma In_range x a b : In x (range a b) <-> a <= x < b.
Proof. unfold range. rewrite In_range_from. lia. Qed.

Lemma range_length a b : len (range a b) = Z.max 0 (b - a).
Proof. unfold range, len. rewrite range_from_length. lia. Qed.

Lemma nth_error_range_from a n k :
  (k < n)%nat -> nth_error (range_from a n) k = Some (a + Z.of_nat k).
Proof.
  revert a k; induction n as [|n IH]; intros a k Hk; [lia|].
  destruct k as [|k]; simpl.
  - f_equal; lia.
  - rewrite IH by lia. f_equal; lia.
Qed.

Lemma range_from_snoc a n :
  range_from a (S n) = range_from a n ++ [a + Z.of_nat n].
Proof.
  revert a; induction n as [|n IH]; intros a.
  - simpl. f_equal. lia.
  - change (range_from a (S (S n))) with (a :: range_from (a + 1) (S n)).
    rewrite IH. simpl. do 3 f_equal. lia.
Qed.

Lemma range_snoc a b : a <= b -> range a (b + 1) = range a b ++ [b].
Proof.
  intros Hab. unfold range.
  replace (Z.to_nat (b + 1 - a)) with (S (Z.to_nat (b - a))) by lia.
  rewrite range_from_snoc. do 2 f_equal. lia.
Qed.

Lemma range_cons a b : a < b -> range a b = a :: range (a + 1) b.
Proof.
  intros Hab. unfold range.
  replace (Z.to_nat (b - a)) with (S (Z.to_nat (b - (a + 1)))) by lia.
  reflexivity.
Qed.

Lemma range_nil a b : b <= a -> range a b = [].
Proof. intros Hab. unfold range. replace (Z.to_nat (b - a)) with O by lia. reflexivity. Qed.

(** [getitem] at a position known to be in range. *)
Lemma getitem_nth {A} (l : list A) (i : Z) (d : A) :
  0 <= i < len l -> getitem l i = Ok (nth (Z.to_nat i) l d).
Proof.
  intros Hi. unfold getitem.
  destruct (i <? 0) eqn:Hneg; [lia|].
  replace ((0 <=? i) && (i <? len l)) with true
    by (symmetry; apply andb_true_iff; split; lia).
  destruct (nth_error l (Z.to_nat i)) eqn:E.
  - now rewrite (nth_error_nth _ _ d E).
  - apply nth_error_None in E. unfold len in Hi. lia.
Qed.

Lemma getitem_Ok_nonneg {A} (l : list A) (i : Z) (a : A) :
  0 <= i -> getitem l i = Ok a -> i < len l /\ nth_error l (Z.to_nat i) = Some a.
Proof.
  intros Hi. unfold getitem.
  destruct (i <? 0) eqn:Hneg; [lia|].
  destruct ((0 <=? i) && (i <? len l)) eqn:Hb; [|discriminate].
  apply andb_true_iff in Hb.
  destruct (nth_error l (Z.to_nat i)); [|discriminate].
  intros [= ->]. split; [lia | reflexivity].
Qed.

Lemma getitem_In {A} (l : list A) (i : Z) (a : A) : getitem l i = Ok a -> In a l.
Proof.
  unfold getitem.
  destruct ((0 <=? _) && _); [|discriminate].
  destruct (nth_error l _) eqn:E; [|discriminate].
  intros [= ->]. eapply nth_error_In; eauto.
Qed.

Lemma mapM_Ok {A B} (f : A -> result B) (g : A -> B) (l : list A) :
  (forall a, In a l -> f a = Ok (g a)) -> mapM f l = Ok (map g l).
Proof.
  induction l as [|a l IH]; intros Hf; simpl; [reflexivity|].
  rewrite Hf by (now left). simpl. rewrite IH; [reflexivity|].
  intros; apply Hf; now right.
Qed.

Lemma mapM_length {A B} (f : A -> result B) (l : list A) (r : list B) :
  mapM f l = Ok r -> length r = length l.
Proof.
  revert r; induction l as [|a l IH]; simpl; intros r Hr.
  - now inversion Hr.
  - inv_bind Hr. inv_bind Hr. inversion Hr; subst. simpl. f_equal. eauto.
Qed.

Lemma mapM_nth_error {A B} (f : A -> result B) (l : list A) (r : list B) k a :
  mapM f l = Ok r -> nth_error l k = Some a ->
  exists b, nth_error r k = Some b /\ f a = Ok b.
Proof.
  revert r k; induction l as [|a0 l IH]; simpl; intros r k Hr Hk.
  - destruct k; discriminate.
  - inv_bind Hr. inv_bind Hr. inversion Hr; subst.
    destruct k as [|k]; simpl in *.
    + inversion Hk; subst. eauto.
    + eauto.
Qed.

Lemma anyM_false {A} (f : A -> result bool) (l : list A) :
  anyM f l = Ok false -> forall a, In a l -> f a = Ok false.
Proof.
  induction l as [|a0 l IH]; simpl; intros Hl a Ha; [tauto|].
  inv_bind Hl. destruct r; [discriminate|].
  destruct Ha as [<- | Ha]; auto.
Qed.

Lemma anyM_all_false {A} (f : A -> result bool) (l : list A) :
  (forall a, In a l -> f a = Ok false) -> anyM f l = Ok false.
Proof.
  induction l as [|a0 l IH]; simpl; intros Hf; [reflexivity|].
  rewrite Hf by (now left). simpl. apply IH. intros; apply Hf; now right.
Qed.

Lemma anyM_true {A} (f : A -> result bool) (l : list A) :
  anyM f l = Ok true -> exists a, In a l /\ f a = Ok true.
Proof.
  induction l as [|a0 l IH]; simpl; intros Hl; [discriminate|].
  inv_bind Hl. destruct r.
  - exists a0; auto.
  - destruct (IH Hl) as (a & Ha & Hfa). exists a; auto.
Qed.

Lemma foldM_app {S A} (f : S -> A -> result S) (l1 l2 : list A) (s : S) :
  foldM f (l1 ++ l2) s = (s' <- foldM f l1 s ;; foldM f l2 s').
Proof.
  revert s; induction l1 as [|a l1 IH]; intros s; simpl; [reflexivity|].
  destruct (f s a); simpl; auto.
Qed.

(** A loop invariant carried through a successful [foldM]. *)
Lemma foldM_invariant {S A} (P : S -> Prop) (f : S -> A -> result S) (l : list A) :
  (forall s a s', In a l -> P s -> f s a = Ok s' -> P s') ->
  forall s s', P s -> foldM f l s = Ok s' -> P s'.
Proof.
  induction l as [|a l IH]; simpl; intros Hstep s s' Hs Hl.
  - now inversion Hl; subst.
  - inv_bind Hl. eapply IH; [| |exact Hl].
    + intros; eapply Hstep; eauto.
    + eapply Hstep; eauto.
Qed.

(** ** C1: the move enumerator only returns free, in-bounds placements *)

Lemma grid_shape_col0 {A} (W H : Z) (grid : list (list A)) col0 :
  grid_shape W H grid -> getitem grid 0 = Ok col0 -> len col0 = H.
Proof.
  intros [_ Hcols] Hc. apply getitem_In in Hc.
  rewrite Forall_forall in Hcols. auto.
Qed.

Lemma is_colliding_false_free W H (grid : list (list bool)) tm :
  grid_shape W H grid ->
  is_colliding grid tm = Ok false -> placement_free W H grid tm.
Proof.
  intros Hshape Hc cx cy Hcx Hcy Hcell.
  unfold is_colliding in Hc.
  assert (Hinx : In cx (range 0 (Tetromino.size tm))) by (apply In_range; lia).
  assert (Hiny : In cy (range 0 (Tetromino.size tm))) by (apply In_range; lia).
  pose proof (anyM_false _ _ Hc cx Hinx) as Hx. cbv beta in Hx.
  pose proof (anyM_false _ _ Hx cy Hiny) as Hy. cbv beta in Hy. rewrite Hcell in Hy. simpl in Hy.
  destruct ((cx + Tetromino.x_pos tm <? 0) || (cy + Tetromino.y_pos tm <? 0)
            || (len grid <=? cx + Tetromino.x_pos tm)) eqn:Hb; [discriminate|].
  apply orb_false_iff in Hb; destruct Hb as [Hb Hb3].
  apply orb_false_iff in Hb; destruct Hb as [Hb1 Hb2].
  inv_bind Hy.
  destruct (len r <=? cy + Tetromino.y_pos tm) eqn:Hb4; [discriminate|].
  inv_bind Hy. inversion Hy as [Hnz]. unfold nonzero, Cell_bool in Hnz. subst r0.
  pose proof (grid_shape_col0 _ _ _ _ Hshape E) as Hlen.
  destruct Hshape as [HW _].
  repeat split; try lia; assumption.
Qed.

Lemma Tetromino_new_anchor T id rotation x y tm0 :
  Tetromino.new T id rotation 0 0 = Ok tm0 ->
  Tetromino.new T id rotation x y
  = Ok (Tetromino.with_y_pos (Tetromino.with_x_pos tm0 x) y).
Proof.
  unfold Tetromino.new. intros Hn.
  inv_bind Hn. inv_bind Hn. inversion Hn; subst; clear Hn.
  rewrite E, E0. reflexivity.
Qed.

Lemma anchored_refl tm0 : anchored tm0 tm0.
Proof. destruct tm0; reflexivity. Qed.

Lemma anchored_with_x tm0 tm x : anchored tm0 tm -> anchored tm0 (Tetromino.with_x_pos tm x).
Proof. unfold anchored. intros ->. destruct tm0; reflexivity. Qed.

Lemma anchored_with_y tm0 tm y : anchored tm0 tm -> anchored tm0 (Tetromino.with_y_pos tm y).
Proof. unfold anchored. intros ->. destruct tm0; reflexivity. Qed.

Lemma descend_anchored grid ys tm0 tm tm' :
  anchored tm0 tm -> TetrisAI.descend grid ys tm = Ok tm' -> anchored tm0 tm'.
Proof.
  revert tm; induction ys as [|j ys IH]; simpl; intros tm Ha Hd.
  - now inversion Hd; subst.
  - inv_bind Hd. destruct r.
    + inversion Hd; subst. now repeat apply anchored_with_y.
    + eapply IH; [|exact Hd]. now apply anchored_with_y.
Qed.

(** C1. For every board grid of shape W x H and every piece, each triple
    (rotation, x, y) returned by [compute_moves_available] denotes a
    placement all of whose filled mask cells lie in [0, W) x [0, H) and on
    empty grid cells. *)
Theorem compute_moves_available_legal :
  forall (T : Geometry) (self : TetrisAI.t) (W H : Z) (grid : list (list bool))
         (tetromino : Tetromino.t) (moves : list (Z * Z * Z)),
    grid_shape W H grid ->
    TetrisAI.compute_moves_available T self grid tetromino = Ok moves ->
    forall rotation x y, In (rotation, x, y) moves ->
      legal_move T W H grid (Tetromino.id tetromino) (rotation, x, y).
Proof.
  intros T self W H grid tetromino moves Hshape Hm.
  unfold TetrisAI.compute_moves_available in Hm.
  inv_bind Hm. rename r into heights.
  assert (Hall : Forall (legal_move T W H grid (Tetromino.id tetromino)) moves).
  { revert Hm. apply foldM_invariant; [|constructor].
    intros acc rotation acc' _ Hacc Hstep.
    inv_bind Hstep. rename r into tm0.
    inv_bind Hstep. destruct r as [tmf acc'']. inversion Hstep; subst acc''; clear Hstep.
    assert (Hinv : anchored tm0 tmf
                   /\ Forall (legal_move T W H grid (Tetromino.id tetromino)) acc').
    { revert E1.
      apply (foldM_invariant
               (fun s => anchored tm0 (fst s)
                         /\ Forall (legal_move T W H grid (Tetromino.id tetromino)) (snd s))).
      - intros [tm ms] i [tm' ms'] _ [Ha Hms] Hbody. simpl in Ha, Hms |- *.
        inv_bind Hbody. inv_bind Hbody. inv_bind Hbody. inv_bind Hbody.
        pose proof (descend_anchored _ _ _ _ _ (anchored_with_x _ _ i Ha) E3) as Ha'.
        destruct r2; inversion Hbody; subst; clear Hbody; split; auto.
        apply Forall_app; split; auto. constructor; [|constructor].
        exists tm'. split.
        + rewrite (Tetromino_new_anchor _ _ _ _ _ _ E0). now f_equal.
        + now apply is_colliding_false_free.
      - simpl. split; [apply anchored_refl | assumption]. }
    tauto. }
  intros rotation x y Hin. rewrite Forall_forall in Hall. now apply Hall.
Qed.

(** Witness of C1: the 2 x 2 block dropped on the empty 4 x 4 board. *)
Lemma compute_moves_available_legal_witness :
  legal_move block_geometry 4 4 empty_grid_4x4 1 (0, 1, 2).
Proof.
  apply (compute_moves_available_legal block_geometry sample_ai 4 4 empty_grid_4x4
           block_piece [(0, 0, 2); (0, 1, 2); (0, 2, 2)]).
  - split; [reflexivity | repeat constructor].
  - vm_compute. reflexivity.
  - simpl. auto.
Defined.

(** ** C8: four quarter turns *)

Lemma nth_map_range_from {B} (f : Z -> B) a n k d :
  (k < n)%nat -> nth k (map f (range_from a n)) d = f (a + Z.of_nat k).
Proof.
  intros Hk.
  assert (Hn : nth_error (map f (range_from a n)) k = Some (f (a + Z.of_nat k))).
  { rewrite nth_error_map, nth_error_range_from by assumption. reflexivity. }
  now apply nth_error_nth.
Qed.

Lemma nth_map_range {B} (f : Z -> B) n k d :
  (k < n)%nat -> nth k (map f (range 0 (Z.of_nat n))) d = f (Z.of_nat k).
Proof.
  intros Hk. unfold range. rewrite Z.sub_0_r, Nat2Z.id.
  now rewrite nth_map_range_from.
Qed.

Lemma cell_nth {A} (g : list (list A)) (x y : Z) (d : A) :
  0 <= x < len g -> 0 <= y < len (nth (Z.to_nat x) g []) ->
  cell g x y = Ok (nth (Z.to_nat y) (nth (Z.to_nat x) g []) d).
Proof.
  intros Hx Hy. unfold cell.
  rewrite (getitem_nth g x []) by assumption. simpl.
  now apply getitem_nth.
Qed.

Lemma square_mask_col (bd : BlockData) k :
  square_mask bd -> (k < length bd)%nat -> length (nth k bd []) = length bd.
Proof.
  intros Hsq Hk. unfold square_mask in Hsq. rewrite Forall_forall in Hsq.
  apply Hsq. now apply nth_In.
Qed.

Lemma rotate_square (bd : BlockData) :
  square_mask bd -> rotate bd = Ok (quarter_turn bd).
Proof.
  intros Hsq. unfold rotate, quarter_turn.
  apply mapM_Ok. intros x Hx. apply In_range in Hx.
  apply mapM_Ok. intros y Hy. apply In_range in Hy.
  apply cell_nth; [assumption|].
  unfold len in *. rewrite square_mask_col by (assumption || lia). lia.
Qed.

Lemma quarter_turn_length bd : length (quarter_turn bd) = length bd.
Proof.
  unfold quarter_turn. rewrite length_map. unfold range.
  rewrite range_from_length. unfold len. lia.
Qed.

Lemma quarter_turn_nth bd x y :
  (x < length bd)%nat -> (y < length bd)%nat ->
  nth y (nth x (quarter_turn bd) []) false
  = nth (length bd - 1 - x) (nth y bd []) false.
Proof.
  intros Hx Hy. unfold quarter_turn, len.
  rewrite (nth_map_range _ (length bd) x) by assumption.
  rewrite (nth_map_range _ (length bd) y) by assumption.
  rewrite Nat2Z.id. f_equal. lia.
Qed.

Lemma quarter_turn_col_length bd x :
  (x < length bd)%nat -> length (nth x (quarter_turn bd) []) = length bd.
Proof.
  intros Hx. unfold quarter_turn, len.
  rewrite (nth_map_range _ (length bd) x) by assumption.
  rewrite length_map. unfold range. rewrite range_from_length. lia.
Qed.

Lemma quarter_turn_square bd : square_mask (quarter_turn bd).
Proof.
  unfold square_mask. rewrite Forall_forall. intros col Hcol.
  destruct (In_nth _ _ [] Hcol) as (k & Hk & <-).
  rewrite quarter_turn_length in *. now apply quarter_turn_col_length.
Qed.

Lemma mask_ext (a b : BlockData) :
  length a = length b ->
  (forall x, (x < length a)%nat -> length (nth x a []) = length (nth x b [])) ->
  (forall x y, (x < length a)%nat -> (y < length (nth x a []))%nat ->
               nth y (nth x a []) false = nth y (nth x b []) false) ->
  a = b.
Proof.
  intros Hlen Hcols Hcells.
  apply (nth_ext a b [] []); [assumption|].
  intros x Hx. apply (nth_ext _ _ false false); auto.
Qed.

Lemma quarter_turn_four bd :
  square_mask bd -> quarter_turn (quarter_turn (quarter_turn (quarter_turn bd))) = bd.
Proof.
  intros Hsq. apply mask_ext.
  - now rewrite !quarter_turn_length.
  - intros x Hx. rewrite !quarter_turn_length in Hx.
    rewrite quarter_turn_col_length by (now rewrite !quarter_turn_length).
    rewrite !quarter_turn_length. symmetry. now apply square_mask_col.
  - intros x y Hx Hy.
    assert (Hx' : (x < length bd)%nat) by (now rewrite !quarter_turn_length in Hx).
    assert (Hy' : (y < length bd)%nat).
    { rewrite quarter_turn_col_length in Hy by (now rewrite !quarter_turn_length).
      now rewrite !quarter_turn_length in Hy. }
    clear Hx Hy.
    do 4 (rewrite quarter_turn_nth by (rewrite ?quarter_turn_length; lia)).
    rewrite !quarter_turn_length. f_equal; [lia | f_equal; lia].
Qed.

(** C8. For every square boolean mask, four applications of the
    90-degree-clockwise [rotate] give back the mask, cell for cell. *)
Theorem rotate_four_times (block_data : BlockData) :
  square_mask block_data ->
  (r1 <- rotate block_data ;; r2 <- rotate r1 ;; r3 <- rotate r2 ;; rotate r3)
  = Ok block_data.
Proof.
  intros Hsq.
  rewrite (rotate_square block_data Hsq). simpl.
  rewrite rotate_square by apply quarter_turn_square. simpl.
  rewrite rotate_square by apply quarter_turn_square. simpl.
  rewrite rotate_square by apply quarter_turn_square.
  f_equal. now apply quarter_turn_four.
Qed.

(** The L piece in its 3 x 3 mask. *)
Lemma rotate_four_times_witness :
  (r1 <- rotate L_mask ;; r2 <- rotate r1 ;; r3 <- rotate r2 ;; rotate r3) = Ok L_mask.
Proof. apply (rotate_four_times L_mask). repeat constructor. Defined.

(** ** The heuristic score *)

Lemma foldM_total {S A} (P : S -> Prop) (f : S -> A -> result S) (l : list A) :
  (forall s a, In a l -> P s -> exists s', f s a = Ok s' /\ P s') ->
  forall s, P s -> exists s', foldM f l s = Ok s' /\ P s'.
Proof.
  induction l as [|a l IH]; simpl; intros Hstep s Hs; [eauto|].
  destruct (Hstep s a (or_introl eq_refl) Hs) as (s1 & E1 & H1).
  rewrite E1. simpl. apply IH; auto.
Qed.

Lemma foldM_mono {S A} (f g : S -> A -> result S) (l : list A) :
  (forall s a s', f s a = Ok s' -> g s a = Ok s') ->
  forall s s', foldM f l s = Ok s' -> foldM g l s = Ok s'.
Proof.
  intros Hfg. induction l as [|a l IH]; simpl; intros s s' Hl; [assumption|].
  inv_bind Hl. rewrite (Hfg _ _ _ E). simpl. auto.
Qed.

Lemma getitem_in_range_getitem {A} (l : list A) i v :
  getitem_in_range l i = Ok v -> getitem l i = Ok v.
Proof. unfold getitem_in_range. destruct (_ && _); [auto | discriminate]. Qed.

Lemma getitem_in_range_Ok {A} (l : list A) i :
  0 <= i < len l -> exists v, getitem_in_range l i = Ok v.
Proof.
  intros Hi. unfold getitem_in_range.
  replace ((0 <=? i) && (i <? len l)) with true
    by (symmetry; apply andb_true_iff; split; lia).
  destruct l as [|d l]; [unfold len in Hi; simpl in Hi; lia|].
  rewrite (getitem_nth _ i d) by assumption. eauto.
Qed.

Lemma grid_shape_cell {A} (W H : Z) (grid : list (list A)) x y :
  grid_shape W H grid -> 0 <= x < W -> 0 <= y < H -> exists v, cell grid x y = Ok v.
Proof.
  intros [HW Hcols] Hx Hy. unfold cell.
  destruct grid as [|c0 grid]; [unfold len in HW; simpl in HW; lia|].
  rewrite (getitem_nth _ x c0) by lia. cbn [bind].
  assert (Hc : len (nth (Z.to_nat x) (c0 :: grid) c0) = H).
  { rewrite Forall_forall in Hcols. apply Hcols. apply nth_In.
    unfold len in HW. lia. }
  destruct (nth (Z.to_nat x) (c0 :: grid) c0) as [|d col] eqn:Ecol;
    [unfold len in Hc; simpl in Hc; lia|].
  rewrite (getitem_nth _ y d) by lia. eauto.
Qed.

(** The count of filled cells of a row is between 0 and the width. *)
Lemma count_filled_bounds (W H : Z) (grid : list (list bool)) y xs c0 :
  grid_shape W H grid -> 0 <= y < H -> (forall x, In x xs -> 0 <= x < W) ->
  exists c,
    foldM (fun cells_filled x =>
             b <- cell grid x y ;; Ok (if b then cells_filled + 1 else cells_filled))
          xs c0 = Ok c
    /\ c0 <= c <= c0 + len xs.
Proof.
  intros Hshape Hy. revert c0.
  induction xs as [|x xs IH]; intros c0 Hxs; simpl.
  - exists c0. unfold len; simpl. split; [reflexivity | lia].
  - destruct (grid_shape_cell W H grid x y Hshape (Hxs x (or_introl eq_refl)) Hy)
      as (b & Eb).
    rewrite Eb. simpl.
    destruct (IH (if b then c0 + 1 else c0)) as (c & Ec & Hc);
      [intros; apply Hxs; now right|].
    exists c. split; [assumption|].
    unfold len in *. simpl length. destruct b; lia.
Qed.

Lemma first_filled_range (W H : Z) (grid : list (list bool)) x ys :
  grid_shape W H grid -> 0 <= x < W -> (forall y, In y ys -> 0 <= y < H) ->
  exists found,
    TetrisAI.first_filled grid x ys = Ok found
    /\ match found with
       | Some y => In y ys /\ cell grid x y = Ok true
       | None => forall y, In y ys -> cell grid x y = Ok false
       end.
Proof.
  intros Hshape Hx. induction ys as [|y ys IH]; intros Hys; simpl.
  - exists None. split; [reflexivity | tauto].
  - destruct (grid_shape_cell W H grid x y Hshape Hx (Hys y (or_introl eq_refl)))
      as (b & Eb).
    rewrite Eb. simpl. destruct b.
    + exists (Some y). auto.
    + destruct IH as (found & Ef & Hf); [intros; apply Hys; now right|].
      exists found. split; [assumption|].
      destruct found as [y'|].
      * destruct Hf. auto.
      * intros y' [<- | Hy']; auto.
Qed.

(** The heightmap of a W x H grid: one entry per column, each in [0, H]. *)
Lemma compute_heightmap_shape (W H : Z) (self : TetrisAI.t) (grid : list (list bool)) :
  grid_shape W H grid ->
  TetrisAI.grid_width self = W -> TetrisAI.grid_height self = H ->
  exists heights,
    TetrisAI.compute_heightmap self grid = Ok heights
    /\ len heights = W
    /\ Forall (fun h => 0 <= h <= Z.max 0 H) heights.
Proof.
  intros Hshape HW HH. unfold TetrisAI.compute_heightmap. rewrite HW, HH.
  assert (HW0 : 0 <= W) by (destruct Hshape as [<- _]; unfold len; lia).
  set (height_of := fun x : Z =>
         found <- TetrisAI.first_filled grid x (range 0 H) ;;
         match found with Some y => Ok (H - y) | None => Ok 0 end).
  assert (Hall : forall xs, (forall x, In x xs -> 0 <= x < W) ->
            exists heights, mapM height_of xs = Ok heights
              /\ length heights = length xs
              /\ Forall (fun h => 0 <= h <= Z.max 0 H) heights).
  { induction xs as [|x xs IH]; intros Hxs; simpl.
    - exists []. repeat split; constructor.
    - destruct (first_filled_range W H grid x (range 0 H) Hshape
                  (Hxs x (or_introl eq_refl))) as (found & Ef & Hf);
        [intros y Hy; now apply In_range in Hy|].
      destruct IH as (hs & Ehs & Hlen & Hhs); [intros; apply Hxs; now right|].
      unfold height_of at 1. rewrite Ef. simpl.
      destruct found as [y|]; simpl; rewrite Ehs; simpl.
      + exists ((H - y) :: hs). repeat split; [simpl; lia|].
        constructor; [|assumption]. destruct Hf as [Hy _]. apply In_range in Hy. lia.
      + exists (0 :: hs). repeat split; [simpl; lia|].
        constructor; [lia | assumption]. }
  destruct (Hall (range 0 W)) as (hs & Ehs & Hlen & Hhs);
    [intros x Hx; now apply In_range in Hx|].
  exists hs. repeat split; try assumption.
  unfold len. rewrite Hlen. unfold range. rewrite range_from_length. lia.
Qed.

(** Whatever [compute_score_with] computes under a subscript rule, it
    computes under any rule that extends it. *)
Lemma compute_score_with_mono (wa wb : list Q -> Z -> result Q) :
  (forall l i v, wa l i = Ok v -> wb l i = Ok v) ->
  forall st self grid score,
    TetrisAI.compute_score_with wa st self grid = Ok score ->
    TetrisAI.compute_score_with wb st self grid = Ok score.
Proof.
  intros Hw st self grid score Hs. unfold TetrisAI.compute_score_with, TetrisAI.compute_score_in in *.
  inv_bind Hs. inv_bind Hs. inv_bind Hs.
  erewrite bind_Ok; [|eapply foldM_mono; [|exact E]].
  2:{ intros s y s' Hb. inv_bind Hb. inv_bind Hb.
      rewrite E2. cbn [bind]. rewrite (Hw _ _ _ E3). exact Hb. }
  rewrite E0. cbn [bind].
  erewrite bind_Ok; [|eapply foldM_mono; [|exact E1]].
  2:{ intros s x s' Hb. inv_bind Hb. inv_bind Hb. destruct r3 as [sc hh].
      rewrite E2. cbn [bind].
      erewrite bind_Ok; [|eapply foldM_mono; [|exact E3]].
      2:{ intros [sc1 hh1] y [sc2 hh2] Hin. inv_bind Hin. rewrite E4. cbn [bind].
          destruct r3; [|exact Hin].
          destruct (0 <? hh1); [|exact Hin].
          inv_bind Hin. rewrite (Hw _ _ _ E5). exact Hin. }
      cbn beta iota. destruct (0 <? hh); [|exact Hb].
      inv_bind Hb. rewrite (Hw _ _ _ E4). exact Hb. }
  eapply foldM_mono; [|exact Hs].
  intros s i s' Hb. inv_bind Hb. inv_bind Hb. inv_bind Hb.
  rewrite E2. cbn [bind]. rewrite E3. cbn [bind]. rewrite (Hw _ _ _ E4). exact Hb.
Qed.

Lemma Forall_getitem {A} (P : A -> Prop) (l : list A) i v :
  Forall P l -> getitem l i = Ok v -> P v.
Proof. intros Hl Hg. rewrite Forall_forall in Hl. eapply Hl, getitem_In; eauto. Qed.

Lemma getitem_total {A} (l : list A) i : 0 <= i < len l -> exists v, getitem l i = Ok v.
Proof.
  intros Hi. destruct l as [|d l]; [unfold len in Hi; simpl in Hi; lia|].
  rewrite (getitem_nth _ i d) by assumption. eauto.
Qed.

(** C10. On a W x H boolean grid, with W + 1 row-fill weights and 5
    hole-height and 5 column-diff weights (the caps), [compute_score]
    subscripts no weight list out of range: it returns a score, and
    returns the same score when every weight subscript is required to lie
    in [0, len), that is in [0, W], [0, 4] and [0, 4]. *)
Theorem compute_score_subscripts_in_range :
  forall (W H : Z) (st : Store) (self : TetrisAI.t) (grid : list (list bool)),
    grid_shape W H grid ->
    TetrisAI.grid_width self = W -> TetrisAI.grid_height self = H ->
    TetrisAI.hole_height_cap self = 5 -> TetrisAI.column_diff_cap self = 5 ->
    len (cells st (TetrisAI.row_filled_weights self)) = W + 1 ->
    len (cells st (TetrisAI.hole_height_weights self)) = 5 ->
    len (cells st (TetrisAI.column_diff_weights self)) = 5 ->
    exists score,
      TetrisAI.compute_score_with getitem_in_range st self grid = Ok score
      /\ TetrisAI.compute_score st self grid = Ok score.
Proof.
  intros W H st self grid Hshape HW HH Hhc Hdc Hrfw Hhhw Hcdw.
  enough (Hin : exists score,
             TetrisAI.compute_score_with getitem_in_range st self grid = Ok score).
  { destruct Hin as (score & Hs). exists score. split; [assumption|].
    revert Hs. apply compute_score_with_mono.
    intros l i v. apply getitem_in_range_getitem. }
  assert (HW0 : 0 <= W) by (destruct Hshape as [<- _]; unfold len; lia).
  unfold TetrisAI.compute_score_with, TetrisAI.compute_score_in. rewrite HW, HH, Hhc, Hdc.
  (* rows *)
  destruct (foldM_total (fun _ : Q => True)
              (fun (score : Q) y =>
                 cells_filled <-
                   foldM (fun cells_filled x =>
                            b <- cell grid x y ;;
                            Ok (if b then cells_filled + 1 else cells_filled))
                         (range 0 W) 0 ;;
                 w <- getitem_in_range (cells st (TetrisAI.row_filled_weights self))
                                       cells_filled ;;
                 Ok (score + w)%Q)
              (range 0 H)) with (s := 0%Q) as (score1 & E1 & _); [|exact I|].
  { intros s y Hy _. apply In_range in Hy.
    destruct (count_filled_bounds W H grid y (range 0 W) 0 Hshape Hy) as (c & Ec & Hc);
      [intros x Hx; now apply In_range in Hx|].
    rewrite Ec. cbn [bind]. rewrite range_length in Hc.
    destruct (getitem_in_range_Ok (cells st (TetrisAI.row_filled_weights self)) c)
      as (w & Ew); [lia|].
    rewrite Ew. cbn [bind]. eauto. }
  rewrite E1. cbn [bind].
  (* holes *)
  destruct (compute_heightmap_shape W H self grid Hshape HW HH)
    as (heights & Eh & Hlen & Hhs).
  rewrite Eh. cbn [bind].
  destruct (foldM_total (fun _ : Q => True)
              (fun (score : Q) x =>
                 hx <- getitem heights x ;;
                 '(score, hole_height) <-
                   foldM (fun '(score, hole_height) y =>
                     b <- cell grid x y ;;
                     if b then
                       if 0 <? hole_height then
                         w <- getitem_in_range
                                (cells st (TetrisAI.hole_height_weights self))
                                (Z.min hole_height 5 - 1) ;;
                         Ok ((score - w)%Q, 0)
                       else Ok (score, hole_height)
                     else Ok (score, hole_height + 1))
                     (range (H - hx) H) (score, 0) ;;
                 if 0 <? hole_height then
                   w <- getitem_in_range (cells st (TetrisAI.hole_height_weights self))
                                         (Z.min hole_height (5 - 1)) ;;
                   Ok (score - w)%Q
                 else Ok score)
              (range 0 W)) with (s := score1) as (score2 & E2 & _); [|exact I|].
  { intros s x Hx _. apply In_range in Hx.
    destruct (getitem_total heights x) as (hx & Ehx); [lia|].
    rewrite Ehx. cbn [bind].
    pose proof (Forall_getitem _ _ _ _ Hhs Ehx) as Hhx. cbv beta in Hhx.
    destruct (foldM_total (fun s : Q * Z => 0 <= snd s)
                (fun '(score, hole_height) y =>
                   b <- cell grid x y ;;
                   if b then
                     if 0 <? hole_height then
                       w <- getitem_in_range
                              (cells st (TetrisAI.hole_height_weights self))
                              (Z.min hole_height 5 - 1) ;;
                       Ok ((score - w)%Q, 0)
                     else Ok (score, hole_height)
                   else Ok (score, hole_height + 1))
                (range (H - hx) H)) with (s := (s, 0)) as ([sc hh] & Ein & Hhh);
      [|simpl; lia|].
    { intros [sc hh] y Hy Hhh. simpl in Hhh. apply In_range in Hy.
      destruct (grid_shape_cell W H grid x y Hshape Hx) as (b & Eb); [lia|].
      rewrite Eb. cbn [bind]. destruct b.
      - destruct (0 <? hh) eqn:Hpos.
        + destruct (getitem_in_range_Ok (cells st (TetrisAI.hole_height_weights self))
                      (Z.min hh 5 - 1)) as (w & Ew); [lia|].
          rewrite Ew. cbn [bind]. eexists; split; [reflexivity | simpl; lia].
        + eexists; split; [reflexivity | simpl; lia].
      - eexists; split; [reflexivity | simpl; lia]. }
    rewrite Ein. cbn [bind]. cbn beta iota. simpl in Hhh.
    destruct (0 <? hh) eqn:Hpos; [|eauto].
    destruct (getitem_in_range_Ok (cells st (TetrisAI.hole_height_weights self))
                (Z.min hh (5 - 1))) as (w & Ew); [lia|].
    rewrite Ew. cbn [bind]. eauto. }
  rewrite E2. cbn [bind].
  (* column differences *)
  destruct (foldM_total (fun _ : Q => True)
              (fun (score : Q) i =>
                 hi <- getitem heights i ;;
                 hp <- getitem heights (i - 1) ;;
                 w <- getitem_in_range (cells st (TetrisAI.column_diff_weights self))
                                       (Z.min (Z.abs (hi - hp)) (5 - 1)) ;;
                 Ok (score - w)%Q)
              (range 1 (len heights))) with (s := score2) as (score3 & E3 & _);
    [|exact I|eauto].
  intros s i Hi _. apply In_range in Hi.
  destruct (getitem_total heights i) as (hi & Ehi); [lia|].
  destruct (getitem_total heights (i - 1)) as (hp & Ehp); [lia|].
  rewrite Ehi, Ehp. cbn [bind].
  destruct (getitem_in_range_Ok (cells st (TetrisAI.column_diff_weights self))
              (Z.min (Z.abs (hi - hp)) (5 - 1))) as (w & Ew); [lia|].
  rewrite Ew. cbn [bind]. eauto.
Qed.

(** The sample weights on the empty 4 x 4 board. *)
Lemma compute_score_subscripts_in_range_witness :
  exists score,
    TetrisAI.compute_score_with getitem_in_range sample_store sample_ai empty_grid_4x4
    = Ok score
    /\ TetrisAI.compute_score sample_store sample_ai empty_grid_4x4 = Ok score.
Proof.
  apply (compute_score_subscripts_in_range 4 4 sample_store sample_ai empty_grid_4x4);
    try reflexivity.
  split; [reflexivity | repeat constructor].
Defined.

(** ** C6: the score of an empty board *)

Lemma getitem_repeat {A} (a : A) (n : nat) (i : Z) :
  0 <= i < Z.of_nat n -> getitem (repeat a n) i = Ok a.
Proof.
  intros Hi. rewrite (getitem_nth _ i a) by (unfold len; rewrite repeat_length; lia).
  now rewrite nth_repeat.
Qed.

Lemma cell_empty_grid (W H : nat) (x y : Z) :
  0 <= x < Z.of_nat W -> 0 <= y < Z.of_nat H -> cell (empty_grid W H) x y = Ok false.
Proof.
  intros Hx Hy. unfold cell, empty_grid.
  rewrite getitem_repeat by assumption. cbn [bind]. now apply getitem_repeat.
Qed.

Lemma foldM_unchanged {S A} (f : S -> A -> result S) (l : list A) (s : S) :
  (forall a, In a l -> f s a = Ok s) -> foldM f l s = Ok s.
Proof.
  induction l as [|a l IH]; simpl; intros Hf; [reflexivity|].
  rewrite Hf by (now left). cbn [bind]. apply IH. intros; apply Hf; now right.
Qed.

Lemma len_cons {A} (a : A) (l : list A) : len (a :: l) = len l + 1.
Proof. unfold len. simpl length. lia. Qed.

(** A loop whose every turn does the same to its state. *)
Lemma foldM_iter {S A} (f : S -> A -> result S) (h : S -> S) (l : list A) :
  (forall s a, In a l -> f s a = Ok (h s)) ->
  forall s, foldM f l s = Ok (Nat.iter (length l) h s).
Proof.
  induction l as [|a l IH]; intros Hf s; [reflexivity|].
  cbn [foldM length]. rewrite Hf by (now left). cbn [bind].
  rewrite IH by (intros; apply Hf; now right).
  now rewrite Nat.iter_succ_r.
Qed.

Lemma getitem_map_range {B} (f : Z -> B) (n i : Z) :
  0 <= i < n -> getitem (map f (range 0 n)) i = Ok (f i).
Proof.
  intros Hi.
  rewrite (getitem_nth _ i (f 0)).
  - replace n with (Z.of_nat (Z.to_nat n)) by lia.
    rewrite nth_map_range by lia. f_equal. f_equal. lia.
  - unfold len. rewrite length_map. fold (len (range 0 n)). rewrite range_length. lia.
Qed.

(** The score of the empty board, whatever the numbers are: the first
    row-fill weight added once per row, then the first column-diff weight
    subtracted once per pair of adjacent columns. *)
Lemma compute_score_in_empty_board {F : Type} (zero : F) (add sub : F -> F -> F)
    (W H : nat) (st : list (list F)) (self : TetrisAI.t) (r0 c0 : F) (rfw cdw : list F) :
  TetrisAI.grid_width self = Z.of_nat W ->
  TetrisAI.grid_height self = Z.of_nat H ->
  1 <= TetrisAI.column_diff_cap self ->
  cells st (TetrisAI.row_filled_weights self) = r0 :: rfw ->
  cells st (TetrisAI.column_diff_weights self) = c0 :: cdw ->
  TetrisAI.compute_score_in zero add sub getitem st self (empty_grid W H)
  = Ok (Nat.iter (W - 1) (fun s => sub s c0) (Nat.iter H (fun s => add s r0) zero)).
Proof.
  intros HW HH Hcap Hrfw Hcdw.
  unfold TetrisAI.compute_score_in, TetrisAI.compute_heightmap.
  fold (cells st (TetrisAI.row_filled_weights self)).
  fold (cells st (TetrisAI.column_diff_weights self)).
  rewrite HW, HH, Hrfw, Hcdw.
  (* rows: every row counts 0 filled cells *)
  rewrite (foldM_iter _ (fun s => add s r0)).
  2:{ intros s y Hy. apply In_range in Hy.
      rewrite foldM_unchanged; [reflexivity|].
      intros x Hx. apply In_range in Hx. now rewrite cell_empty_grid. }
  cbn [bind].
  (* the heightmap is all zeros *)
  rewrite (mapM_Ok _ (fun _ => 0)).
  2:{ intros x Hx. apply In_range in Hx.
      assert (Hnone : forall ys, (forall y, In y ys -> 0 <= y < Z.of_nat H) ->
                TetrisAI.first_filled (empty_grid W H) x ys = Ok None).
      { induction ys as [|y ys IH]; intros Hys; simpl; [reflexivity|].
        rewrite cell_empty_grid by (try apply Hys; simpl; auto).
        cbn [bind]. apply IH. intros; apply Hys; now right. }
      rewrite Hnone; [reflexivity|]. intros y Hy. now apply In_range in Hy. }
  cbn [bind].
  (* holes: no column has a filled cell *)
  rewrite foldM_unchanged.
  2:{ intros x Hx. apply In_range in Hx.
      rewrite getitem_map_range by assumption. cbn [bind].
      rewrite range_nil by lia. reflexivity. }
  cbn [bind].
  (* column differences: every adjacent pair has difference 0 *)
  assert (Hlen : len (map (fun _ : Z => 0) (range 0 (Z.of_nat W))) = Z.of_nat W).
  { unfold len. rewrite length_map. fold (len (range 0 (Z.of_nat W))).
    rewrite range_length. lia. }
  rewrite Hlen.
  rewrite (foldM_iter _ (fun s => sub s c0)).
  2:{ intros s i Hi. apply In_range in Hi.
      rewrite !getitem_map_range by lia. cbn [bind].
      replace (Z.min (Z.abs (0 - 0)) (TetrisAI.column_diff_cap self - 1)) with 0 by lia.
      reflexivity. }
  f_equal. f_equal.
  - pose proof (range_length 1 (Z.of_nat W)) as Hr. unfold len in Hr. lia.
  - f_equal. pose proof (range_length 0 (Z.of_nat H)) as Hr. unfold len in Hr. lia.
Qed.

(** As C6 stands, it fails: on the empty 2 x 1 board with row-fill
    weights [1.0, 0.0, 0.0] and column-diff weights [1.0, 0.0, 0.0, 0.0,
    0.0] the score is 0.0, not H * r0 = 1.0 (no rounding occurs at these
    numbers). *)
Lemma compute_score_empty_board_counterexample :
  exists score,
    TetrisAI.compute_score64
      (float_store_of [1; 0; 0] [0; 0; 0; 0; 0] [1; 0; 0; 0; 0])%float
      (ai_of_size 2 1) (empty_grid 2 1) = Ok score
    /\ (score =? 1 * 1)%float = false.
Proof. exists 0%float. split; vm_compute; reflexivity. Qed.

(** C6, amended. Scoring the empty W x H board gives the float that is
    reached from 0.0 by adding r0, the first row-fill weight, once per row
    and then subtracting c0, the first column-diff weight, once per pair
    of adjacent columns, every step rounded as floats are: H * r0 -
    (W - 1) * c0 up to that rounding.  The hole-height weights and the
    other entries play no part. *)
Theorem compute_score_empty_board :
  forall (W H : nat) (st : list (list float)) (self : TetrisAI.t) (r0 c0 : float)
         (rfw cdw : list float),
    TetrisAI.grid_width self = Z.of_nat W ->
    TetrisAI.grid_height self = Z.of_nat H ->
    1 <= TetrisAI.column_diff_cap self ->
    cells st (TetrisAI.row_filled_weights self) = r0 :: rfw ->
    cells st (TetrisAI.column_diff_weights self) = c0 :: cdw ->
    TetrisAI.compute_score64 st self (empty_grid W H)
    = Ok (Nat.iter (W - 1) (fun s => s - c0) (Nat.iter H (fun s => s + r0) 0))%float.
Proof.
  intros W H st self r0 c0 rfw cdw HW HH Hcap Hrfw Hcdw.
  now apply (compute_score_in_empty_board 0%float PrimFloat.add PrimFloat.sub
               W H st self r0 c0 rfw cdw).
Qed.

(** The empty 4 x 4 board, with r0 = 2.0 and c0 = 1.0. *)
Lemma compute_score_empty_board_witness :
  TetrisAI.compute_score64
    (float_store_of [2; 1; 1; 1; 1] [1; 2; 3; 4; 5] [1; 2; 3; 4; 5])%float
    sample_ai (empty_grid 4 4)
  = Ok (Nat.iter (4 - 1) (fun s => s - 1) (Nat.iter 4 (fun s => s + 2) 0))%float.
Proof.
  apply (compute_score_empty_board 4 4
           (float_store_of [2; 1; 1; 1; 1] [1; 2; 3; 4; 5] [1; 2; 3; 4; 5])%float
           sample_ai 2 1 [1; 1; 1; 1]%float [2; 3; 4; 5]%float); try reflexivity.
  simpl. lia.
Defined.

(** The rounding shows: ten rows of weight 0.1 (the float nearest to it)
    on a board of one column add up to 0.9999999999999999, the float just
    below 1.0, while 10 * 0.1 is 1.0 as floats multiply. *)
Lemma compute_score_empty_board_rounds :
  TetrisAI.compute_score64
    (float_store_of [0x1.999999999999ap-4; 0] [0; 0; 0; 0; 0] [0; 0; 0; 0; 0])%float
    (ai_of_size 1 10) (empty_grid 1 10)
  = Ok 0x1.fffffffffffffp-1%float
  /\ (10 * 0x1.999999999999ap-4 =? 1)%float = true
  /\ (0x1.fffffffffffffp-1 <? 1)%float = true.
Proof. repeat split; vm_compute; reflexivity. Qed.

(** ** C2: the hole penalty *)

(** C2 does not hold of the code. A run of one empty cell under the top
    filled cell is charged [hole_height_weights[0]] when a filled cell
    closes it from below, and [hole_height_weights[1]] when it reaches the
    bottom row: the trailing branch subscripts with
    [min(hole_height, cap - 1)] where the loop uses
    [min(hole_height, cap) - 1]. *)
Theorem compute_score_dangling_run :
  forall (a0 a1 w0 w1 w2 w3 w4 : Q) (cdw : list Q),
    (exists enclosed,
        TetrisAI.compute_score (store_of [a0; a1] [w0; w1; w2; w3; w4] cdw)
          (ai_of_size 1 3) [[true; false; true]] = Ok enclosed
        /\ (enclosed == a1 + a0 + a1 - w0)%Q)
    /\ (exists dangling,
        TetrisAI.compute_score (store_of [a0; a1] [w0; w1; w2; w3; w4] cdw)
          (ai_of_size 1 2) [[true; false]] = Ok dangling
        /\ (dangling == a1 + a0 - w1)%Q).
Proof.
  intros. split; eexists; (split; [cbv -[Qplus Qminus]; reflexivity | ring]).
Qed.

(** The same at numbers: with hole-height weights [1, 2, 3, 4, 5] and all
    other weights 0, the board whose single column is filled on top and
    empty below scores -2, where C2 asks for -1. *)
Lemma compute_score_dangling_run_value :
  TetrisAI.compute_score
    (store_of [0; 0] [1; 2; 3; 4; 5] [0; 0; 0; 0; 0])%Q (ai_of_size 1 2) [[true; false]]
  = Ok (-2 # 1)%Q.
Proof. vm_compute. reflexivity. Qed.

(** ** The store *)

Lemma alloc_spec (v : list Q) (st st1 : Store) (l : loc) :
  alloc v st = (l, st1) ->
  l = next_loc st
  /\ next_loc st1 = S (next_loc st)
  /\ cells st1 l = v
  /\ (forall l', l' <> next_loc st -> cells st1 l' = cells st l').
Proof.
  unfold alloc, next_loc, cells. intros [= <- <-]. repeat split.
  - rewrite length_app. simpl. lia.
  - now rewrite nth_middle.
  - intros l' Hl'. destruct (Nat.lt_ge_cases l' (length st)) as [Hlt | Hge].
    + now apply app_nth1.
    + rewrite !nth_overflow; [reflexivity | lia | rewrite length_app; simpl; lia].
Qed.

Lemma update_nth_length {A} (j : nat) (v : A) (l : list A) :
  length (update_nth j v l) = length l.
Proof.
  revert j; induction l as [|a l IH]; intros [|j]; simpl; auto.
Qed.

Lemma update_nth_overflow {A} (j : nat) (v : A) (l : list A) :
  (length l <= j)%nat -> update_nth j v l = l.
Proof.
  revert j; induction l as [|a l IH]; intros [|j] Hj; simpl in *; try reflexivity;
    try lia.
  f_equal. apply IH. lia.
Qed.

Lemma nth_update_nth_same {A} (j : nat) (v d : A) (l : list A) :
  (j < length l)%nat -> nth j (update_nth j v l) d = v.
Proof.
  revert j; induction l as [|a l IH]; intros [|j] Hj; simpl in *; try reflexivity;
    try lia.
  apply IH. lia.
Qed.

Lemma nth_update_nth_other {A} (j k : nat) (v d : A) (l : list A) :
  k <> j -> nth k (update_nth j v l) d = nth k l d.
Proof.
  revert j k; induction l as [|a l IH]; intros j k Hkj; [destruct j; reflexivity|].
  destruct j, k; simpl; try reflexivity; try lia.
  apply IH. lia.
Qed.

Lemma store_set_same l v st : (l < next_loc st)%nat -> cells (store_set l v st) l = v.
Proof. apply nth_update_nth_same. Qed.

Lemma store_set_other l l' v st : l' <> l -> cells (store_set l v st) l' = cells st l'.
Proof. apply nth_update_nth_other. Qed.

Lemma store_set_dangling l v st : (next_loc st <= l)%nat -> store_set l v st = st.
Proof. apply update_nth_overflow. Qed.

(** ** C9: crossover copies weights verbatim *)

Lemma crossover_list_spliced (idx : Z) (a b : list Q) :
  length a = length b -> spliced a b (TetrisAI.crossover_list idx a b).
Proof.
  intros Hlen. unfold TetrisAI.crossover_list, slice_to, slice_from.
  assert (Hk : slice_bound b idx = slice_bound a idx)
    by (unfold slice_bound, len; now rewrite Hlen).
  rewrite Hk. set (k := slice_bound a idx).
  assert (Hlenc : length (firstn k a ++ skipn k b) = length a).
  { rewrite length_app, length_firstn, length_skipn. lia. }
  split; [assumption|].
  exists k. intros i x Hi.
  assert (Hlt : (i < length a)%nat).
  { rewrite <- Hlenc. apply nth_error_Some. congruence. }
  split; intros Hik.
  - rewrite nth_error_app1 in Hi by (rewrite length_firstn; lia).
    rewrite nth_error_firstn in Hi.
    apply Nat.ltb_lt in Hik. now rewrite Hik in Hi.
  - rewrite nth_error_app2 in Hi by (rewrite length_firstn; lia).
    rewrite length_firstn, nth_error_skipn in Hi.
    replace (k + (i - Nat.min k (length a)))%nat with i in Hi by lia.
    assumption.
Qed.

Lemma len_zero_nil {A} (l : list A) : (len l =? 0) = true -> l = [].
Proof. destruct l; [reflexivity|]. unfold len; simpl. lia. Qed.

(** [__init__] leaves a non-empty argument list alone, and an empty one
    too when there is nothing to draw. *)
Lemma fill_weights_skip {G} `{RandomGen G} (l : loc) (n : Z) (w : Store * G) :
  cells (fst w) l <> [] \/ n <= 0 -> TetrisAI.fill_weights l n w = Ok w.
Proof.
  intros Hskip. unfold TetrisAI.fill_weights.
  destruct (len (cells (fst w) l) =? 0) eqn:E; [|reflexivity].
  destruct Hskip as [Hne | Hn].
  - now apply len_zero_nil in E.
  - now rewrite range_nil by lia.
Qed.

Lemma randint_Ok {G} `{RandomGen G} (a b : Z) (g : G) :
  a <= b -> randint a b g = Ok (next_int a b g).
Proof. intros Hab. unfold randint. now replace (a <=? b) with true by lia. Qed.

Lemma len_nonneg {A} (l : list A) : 0 <= len l.
Proof. unfold len. lia. Qed.

(** C9. For parents A and B with weight sequences of equal lengths,
    [A.crossover(B)] returns a child each of whose three sequences is the
    one of A before some split position and the one of B from it on: every
    element is the element of A or of B at the same position. *)
Theorem crossover_verbatim :
  forall (G : Type) (RG : RandomGen G) (A B : TetrisAI.t) (st : Store) (g : G),
    ai_allocated st A -> ai_allocated st B -> ai_constructed st B ->
    length (cells st (TetrisAI.row_filled_weights A))
    = length (cells st (TetrisAI.row_filled_weights B)) ->
    length (cells st (TetrisAI.hole_height_weights A))
    = length (cells st (TetrisAI.hole_height_weights B)) ->
    length (cells st (TetrisAI.column_diff_weights A))
    = length (cells st (TetrisAI.column_diff_weights B)) ->
    exists child st' g',
      TetrisAI.crossover A B (st, g) = Ok (child, (st', g'))
      /\ spliced (cells st (TetrisAI.row_filled_weights A))
                 (cells st (TetrisAI.row_filled_weights B))
                 (cells st' (TetrisAI.row_filled_weights child))
      /\ spliced (cells st (TetrisAI.hole_height_weights A))
                 (cells st (TetrisAI.hole_height_weights B))
                 (cells st' (TetrisAI.hole_height_weights child))
      /\ spliced (cells st (TetrisAI.column_diff_weights A))
                 (cells st (TetrisAI.column_diff_weights B))
                 (cells st' (TetrisAI.column_diff_weights child)).
Proof.
  intros G RG A B st g (HA1 & HA2 & HA3) (HB1 & HB2 & HB3) (HC1 & HC2 & HC3) L1 L2 L3.
  unfold TetrisAI.crossover.
  rewrite randint_Ok by apply len_nonneg.
  destruct (next_int 0 (len (cells st (TetrisAI.row_filled_weights B))) g)
    as [idx1 g1]. cbn [bind].
  destruct (alloc _ st) as [l1 st1] eqn:Ea1.
  destruct (alloc_spec _ _ _ _ Ea1) as (Hl1 & Hn1 & Hv1 & Ho1).
  rewrite !Ho1 by lia.
  rewrite randint_Ok by apply len_nonneg.
  destruct (next_int 0 (len (cells st (TetrisAI.hole_height_weights B))) g1)
    as [idx2 g2]. cbn [bind].
  destruct (alloc _ st1) as [l2 st2] eqn:Ea2.
  destruct (alloc_spec _ _ _ _ Ea2) as (Hl2 & Hn2 & Hv2 & Ho2).
  rewrite !Ho2, !Ho1 by lia.
  rewrite randint_Ok by apply len_nonneg.
  destruct (next_int 0 (len (cells st (TetrisAI.column_diff_weights B))) g2)
    as [idx3 g3]. cbn [bind].
  destruct (alloc _ st2) as [l3 st3] eqn:Ea3.
  destruct (alloc_spec _ _ _ _ Ea3) as (Hl3 & Hn3 & Hv3 & Ho3).
  pose proof (crossover_list_spliced idx1 _ _ L1) as S1.
  pose proof (crossover_list_spliced idx2 _ _ L2) as S2.
  pose proof (crossover_list_spliced idx3 _ _ L3) as S3.
  assert (C1 : cells st3 l1 = TetrisAI.crossover_list idx1
                 (cells st (TetrisAI.row_filled_weights A))
                 (cells st (TetrisAI.row_filled_weights B)))
    by (rewrite Ho3, Ho2 by lia; exact Hv1).
  assert (C2 : cells st3 l2 = TetrisAI.crossover_list idx2
                 (cells st (TetrisAI.hole_height_weights A))
                 (cells st (TetrisAI.hole_height_weights B)))
    by (rewrite Ho3 by lia; exact Hv2).
  unfold TetrisAI.new.
  rewrite fill_weights_skip.
  2:{ cbn [fst]. rewrite C1. destruct HC1 as [Hne | Hw]; [left | right; exact Hw].
      destruct S1 as [Hlen _]. intros Hnil. rewrite Hnil in Hlen. simpl in Hlen.
      rewrite L1 in Hlen. symmetry in Hlen. now apply length_zero_iff_nil in Hlen. }
  cbn [bind]. rewrite fill_weights_skip.
  2:{ left. cbn [fst]. rewrite C2.
      destruct S2 as [Hlen _]. intros Hnil. rewrite Hnil in Hlen. simpl in Hlen.
      rewrite L2 in Hlen. symmetry in Hlen. now apply length_zero_iff_nil in Hlen. }
  cbn [bind]. rewrite fill_weights_skip.
  2:{ left. cbn [fst]. rewrite Hv3.
      destruct S3 as [Hlen _]. intros Hnil. rewrite Hnil in Hlen. simpl in Hlen.
      rewrite L3 in Hlen. symmetry in Hlen. now apply length_zero_iff_nil in Hlen. }
  cbn [bind]. do 3 eexists. split; [reflexivity|].
  cbn [TetrisAI.row_filled_weights TetrisAI.hole_height_weights
       TetrisAI.column_diff_weights].
  rewrite C1, C2, Hv3. auto.
Qed.

(** Two parents of width 2 with weights 1, 2, ... and 11, 12, ...; the
    split positions drawn are 1, 2 and 3. *)
Lemma crossover_verbatim_witness :
  exists child st' g',
    TetrisAI.crossover parent_A parent_B (two_parents_store, ([], [1; 2; 3]))
    = Ok (child, (st', g'))
    /\ spliced [1; 2; 3]%Q [11; 12; 13]%Q (cells st' (TetrisAI.row_filled_weights child))
    /\ spliced [1; 2; 3; 4; 5]%Q [11; 12; 13; 14; 15]%Q
               (cells st' (TetrisAI.hole_height_weights child))
    /\ spliced [1; 2; 3; 4; 5]%Q [11; 12; 13; 14; 15]%Q
               (cells st' (TetrisAI.column_diff_weights child)).
Proof.
  apply (crossover_verbatim _ ScriptGen parent_A parent_B two_parents_store
           ([], [1; 2; 3])); try reflexivity.
  - unfold ai_allocated; simpl; lia.
  - unfold ai_allocated; simpl; lia.
  - unfold ai_constructed; simpl. repeat split; try discriminate. left; discriminate.
Defined.

(** ** C5: mutation *)

Lemma nth_error_update_nth_other {A} (j k : nat) (v : A) (l : list A) :
  k <> j -> nth_error (update_nth j v l) k = nth_error l k.
Proof.
  revert j k; induction l as [|a l IH]; intros j k Hkj; [destruct j; reflexivity|].
  destruct j, k; simpl; try reflexivity; try lia.
  apply IH. lia.
Qed.

Lemma setitem_other {A} (l ws : list A) (i : Z) (v : A) (k : nat) :
  0 <= i -> Z.of_nat k <> i -> setitem l i v = Ok ws -> nth_error ws k = nth_error l k.
Proof.
  intros Hi Hk. unfold setitem.
  destruct (i <? 0) eqn:Hneg; [lia|].
  destruct (_ && _); [|discriminate].
  intros [= <-]. apply nth_error_update_nth_other. lia.
Qed.

(** One loop of [mutate] writes only its own list, and there only below
    its bound. *)
Lemma mutate_list_frame {G} `{RandomGen G} (l : loc) (n : Z) (rate : Q)
    (st st' : Store) (g g' : G) :
  TetrisAI.mutate_list l n rate (st, g) = Ok (st', g') ->
  (forall l', l' <> l -> cells st' l' = cells st l')
  /\ (forall k, n <= Z.of_nat k -> nth_error (cells st' l) k = nth_error (cells st l) k).
Proof.
  unfold TetrisAI.mutate_list. intros Hm.
  apply (foldM_invariant
           (fun w : Store * G =>
              (forall l', l' <> l -> cells (fst w) l' = cells st l')
              /\ (forall k, n <= Z.of_nat k ->
                           nth_error (cells (fst w) l) k = nth_error (cells st l) k))
           _ _) with (s := (st, g)) (s' := (st', g')) in Hm; [exact Hm| |simpl; auto].
  intros [st1 g1] i [st2 g2] Hi [Hother Hsame] Hstep. apply In_range in Hi.
  cbn [fst] in *.
  inv_bind Hstep. destruct r as [u g1']. destruct (Qle_bool u rate).
  - inv_bind Hstep. destruct r as [v g1'']. inv_bind Hstep.
    inversion Hstep; subst; clear Hstep. split.
    + intros l' Hl'. rewrite store_set_other by assumption. auto.
    + intros k Hk. destruct (Nat.lt_ge_cases l (next_loc st1)) as [Hlt | Hge].
      * rewrite store_set_same by assumption.
        rewrite (setitem_other (cells st1 l) r i v k); auto; lia.
      * rewrite store_set_dangling by assumption. auto.
  - inversion Hstep; subst. auto.
Qed.

(** C5 does not hold of the code. Whatever the rate and the random
    stream, [mutate] leaves the last row-fill weight (position
    [grid_width] of the [grid_width + 1] entries) as it was: the first loop
    runs over [range(self.grid_width)]. *)
Theorem mutate_keeps_last_row_weight :
  forall (G : Type) (RG : RandomGen G) (self : TetrisAI.t) (mutate_rate : Q)
         (st st' : Store) (g g' : G),
    TetrisAI.row_filled_weights self <> TetrisAI.hole_height_weights self ->
    TetrisAI.row_filled_weights self <> TetrisAI.column_diff_weights self ->
    0 <= TetrisAI.grid_width self ->
    TetrisAI.mutate self mutate_rate (st, g) = Ok (st', g') ->
    nth_error (cells st' (TetrisAI.row_filled_weights self))
              (Z.to_nat (TetrisAI.grid_width self))
    = nth_error (cells st (TetrisAI.row_filled_weights self))
                (Z.to_nat (TetrisAI.grid_width self)).
Proof.
  intros G RG self rate st st' g g' Hhh Hcd HW Hm.
  unfold TetrisAI.mutate in Hm.
  inv_bind Hm. destruct r as [st1 g1].
  inv_bind Hm. destruct r as [st2 g2].
  destruct (mutate_list_frame _ _ _ _ _ _ _ E) as [_ H1].
  destruct (mutate_list_frame _ _ _ _ _ _ _ E0) as [H2 _].
  destruct (mutate_list_frame _ _ _ _ _ _ _ Hm) as [H3 _].
  rewrite H3, H2 by assumption. apply H1. lia.
Qed.

(** At rate 1.0, in a game of width 1 with every weight 5 and a stream
    whose draws are all 1/2: every weight becomes 8, except the second
    row-fill weight. *)
Lemma mutate_keeps_last_row_weight_witness :
  nth_error
    (cells (store_of [8; 5] [8; 8; 8; 8; 8] [8; 8; 8; 8; 8])%Q
           (TetrisAI.row_filled_weights (ai_of_size 1 2)))
    (Z.to_nat (TetrisAI.grid_width (ai_of_size 1 2)))
  = nth_error
      (cells (store_of [5; 5] [5; 5; 5; 5; 5] [5; 5; 5; 5; 5])%Q
             (TetrisAI.row_filled_weights (ai_of_size 1 2)))
      (Z.to_nat (TetrisAI.grid_width (ai_of_size 1 2))).
Proof.
  apply (mutate_keeps_last_row_weight _ ScriptGen (ai_of_size 1 2) 1
           (store_of [5; 5] [5; 5; 5; 5; 5] [5; 5; 5; 5; 5])%Q
           (store_of [8; 5] [8; 8; 8; 8; 8] [8; 8; 8; 8; 8])%Q
           ([], []) ([], [])).
  - simpl; lia.
  - simpl; lia.
  - simpl; lia.
  - vm_compute. reflexivity.
Defined.

(** At rate 1.0, the failing input of C5 in full. *)
Lemma mutate_rate_one_misses_last :
  TetrisAI.mutate (ai_of_size 1 2) 1
    (store_of [5; 5] [5; 5; 5; 5; 5] [5; 5; 5; 5; 5], (@nil Q, @nil Z))%Q
  = Ok (store_of [8; 5] [8; 8; 8; 8; 8] [8; 8; 8; 8; 8], ([], []))%Q.
Proof. vm_compute. reflexivity. Qed.

(** At rate 0.0, a stream whose first draw is 0.0 still mutates: the
    test is [random() <= mutate_rate]. *)
Lemma mutate_rate_zero_changes :
  TetrisAI.mutate (ai_of_size 1 2) 0
    (store_of [5; 5] [5; 5; 5; 5; 5] [5; 5; 5; 5; 5], ([0; 1 # 2; 1 # 2], @nil Z))%Q
  = Ok (store_of [8; 5] [5; 5; 5; 5; 5] [5; 5; 5; 5; 5], ([], []))%Q.
Proof. vm_compute. reflexivity. Qed.

(** ** C3: locking a piece and clearing lines *)

Lemma grid_shape_nth {A} (W H : Z) (grid : list (list A)) (x : nat) :
  grid_shape W H grid -> Z.of_nat x < W -> len (nth x grid []) = H.
Proof.
  intros [HW Hcols] Hx. rewrite Forall_forall in Hcols. apply Hcols, nth_In.
  unfold len in HW. lia.
Qed.

Lemma cell_at (W H : Z) (grid : list (list Z)) (x y : Z) :
  grid_shape W H grid -> 0 <= x < W -> 0 <= y < H ->
  cell grid x y = Ok (at_cell grid (Z.to_nat x) (Z.to_nat y)).
Proof.
  intros Hshape Hx Hy. unfold at_cell. apply cell_nth.
  - destruct Hshape as [-> _]. assumption.
  - rewrite (grid_shape_nth W H) by (assumption || lia). assumption.
Qed.

(** A negative row counts from the bottom. *)
Lemma cell_at_wrap (W H : Z) (grid : list (list Z)) (x y : Z) :
  grid_shape W H grid -> 0 <= x < W -> - H <= y < 0 ->
  cell grid x y = Ok (at_cell grid (Z.to_nat x) (Z.to_nat (y + H))).
Proof.
  intros Hshape Hx Hy. unfold cell, at_cell.
  rewrite (getitem_nth grid x []) by (destruct Hshape as [-> _]; assumption).
  cbn [bind].
  pose proof (grid_shape_nth W H grid (Z.to_nat x) Hshape ltac:(lia)) as Hlen.
  unfold getitem. rewrite Hlen.
  replace (y <? 0) with true by lia.
  replace ((0 <=? y + H) && (y + H <? H)) with true
    by (symmetry; apply andb_true_iff; split; lia).
  destruct (nth_error _ _) eqn:E.
  - now rewrite (nth_error_nth _ _ 0 E).
  - apply nth_error_None in E. unfold len in Hlen. lia.
Qed.

Lemma setitem_update {A} (l : list A) (i : Z) (v : A) :
  0 <= i < len l -> setitem l i v = Ok (update_nth (Z.to_nat i) v l).
Proof.
  intros Hi. unfold setitem. replace (i <? 0) with false by lia.
  now replace ((0 <=? i) && (i <? len l)) with true
    by (symmetry; apply andb_true_iff; split; lia).
Qed.

Lemma set_cell_with_cell (W H : Z) (grid : list (list Z)) (x y v : Z) :
  grid_shape W H grid -> 0 <= x < W -> 0 <= y < H ->
  set_cell grid x y v = Ok (with_cell grid (Z.to_nat x) (Z.to_nat y) v).
Proof.
  intros Hshape Hx Hy. unfold set_cell, with_cell.
  rewrite (getitem_nth grid x []) by (destruct Hshape as [-> _]; assumption).
  cbn [bind].
  rewrite setitem_update
    by (rewrite (grid_shape_nth W H) by (assumption || lia); assumption).
  cbn [bind].
  apply setitem_update. destruct Hshape as [-> _]. assumption.
Qed.

Lemma Forall_update_nth {A} (P : A -> Prop) (j : nat) (v : A) (l : list A) :
  Forall P l -> P v -> Forall P (update_nth j v l).
Proof.
  intros Hl Hv. revert j. induction Hl as [|a l Ha Hl IH]; intros [|j]; simpl;
    constructor; auto.
Qed.

Lemma with_cell_shape (W H : Z) (grid : list (list Z)) (x y : nat) (v : Z) :
  grid_shape W H grid -> Z.of_nat x < W -> grid_shape W H (with_cell grid x y v).
Proof.
  intros Hshape Hx. pose proof (grid_shape_nth W H grid x Hshape Hx) as Hcol.
  destruct Hshape as [HW Hcols]. unfold with_cell. split.
  - unfold len. now rewrite update_nth_length.
  - apply Forall_update_nth; [assumption|].
    unfold len in *. now rewrite update_nth_length.
Qed.

Lemma at_cell_with_cell (W H : Z) (grid : list (list Z)) (x y x' y' : nat) (v : Z) :
  grid_shape W H grid -> Z.of_nat x < W -> Z.of_nat y < H ->
  at_cell (with_cell grid x y v) x' y'
  = if Nat.eqb x' x && Nat.eqb y' y then v else at_cell grid x' y'.
Proof.
  intros Hshape Hx Hy. pose proof (grid_shape_nth W H grid x Hshape Hx) as Hcol.
  destruct Hshape as [HW Hcols]. unfold at_cell, with_cell, len in *.
  destruct (Nat.eqb_spec x' x) as [-> | Hne]; simpl.
  - rewrite nth_update_nth_same by lia.
    destruct (Nat.eqb_spec y' y) as [-> | Hne].
    + apply nth_update_nth_same. lia.
    + now apply nth_update_nth_other.
  - now rewrite nth_update_nth_other.
Qed.

(** Integer comparisons in boolean form, decided by case analysis. *)
Ltac zb :=
  repeat match goal with
         | |- context [?a =? ?b] => destruct (Z.eqb_spec a b)
         | |- context [?a <? ?b] => destruct (Z.ltb_spec a b)
         | |- context [?a <=? ?b] => destruct (Z.leb_spec a b)
         end;
  cbn [andb orb negb]; (reflexivity || (exfalso; lia)).

(** A loop over [range] with an invariant that knows the loop variable. *)
Lemma foldM_range_from_ind {St} (P : Z -> St -> Prop) (f : St -> Z -> result St) (n : nat) :
  forall a,
    (forall i s, a <= i < a + Z.of_nat n -> P i s -> exists s', f s i = Ok s' /\ P (i + 1) s') ->
    forall s, P a s ->
    exists s', foldM f (range_from a n) s = Ok s' /\ P (a + Z.of_nat n) s'.
Proof.
  induction n as [|n IH]; intros a Hstep s Hs.
  - exists s. split; [reflexivity|]. now replace (a + Z.of_nat 0) with a by lia.
  - destruct (Hstep a s ltac:(lia) Hs) as (s1 & E1 & H1).
    cbn [range_from foldM]. rewrite E1. cbn [bind].
    destruct (IH (a + 1)) with (s := s1) as (s' & E' & H'); [|assumption|].
    + intros i s0 Hi. apply Hstep. lia.
    + exists s'. split; [assumption|].
      now replace (a + Z.of_nat (S n)) with (a + 1 + Z.of_nat n) by lia.
Qed.

Lemma foldM_range_ind {St} (P : Z -> St -> Prop) (f : St -> Z -> result St) (a b : Z) :
  a <= b ->
  (forall i s, a <= i < b -> P i s -> exists s', f s i = Ok s' /\ P (i + 1) s') ->
  forall s, P a s -> exists s', foldM f (range a b) s = Ok s' /\ P b s'.
Proof.
  intros Hab Hstep s Hs. unfold range.
  destruct (foldM_range_from_ind P f (Z.to_nat (b - a)) a) with (s := s)
    as (s' & E & H'); [|assumption|].
  - intros i s0 Hi. apply Hstep. lia.
  - exists s'. split; [assumption|]. now replace b with (a + Z.of_nat (Z.to_nat (b - a))) by lia.
Qed.

Lemma foldM_range_down_ind {St} (P : Z -> St -> Prop) (f : St -> Z -> result St) (n : nat) :
  forall a,
    (forall i s, a - Z.of_nat n < i <= a -> P i s -> exists s', f s i = Ok s' /\ P (i - 1) s') ->
    forall s, P a s ->
    exists s', foldM f (range_down_from a n) s = Ok s' /\ P (a - Z.of_nat n) s'.
Proof.
  induction n as [|n IH]; intros a Hstep s Hs.
  - exists s. split; [reflexivity|]. now replace (a - Z.of_nat 0) with a by lia.
  - destruct (Hstep a s ltac:(lia) Hs) as (s1 & E1 & H1).
    cbn [range_down_from foldM]. rewrite E1. cbn [bind].
    destruct (IH (a - 1)) with (s := s1) as (s' & E' & H'); [|assumption|].
    + intros i s0 Hi. apply Hstep. lia.
    + exists s'. split; [assumption|].
      now replace (a - Z.of_nat (S n)) with (a - 1 - Z.of_nat n) by lia.
Qed.

(** The first loop of [place_tetromino] keeps the shape of the grid and
    touches no row outside the vertical span of the piece. *)
Lemma write_tetromino_spec (W H : Z) (grid : list (list Z)) (tm : Tetromino.t) :
  grid_shape W H grid -> mask_readable tm ->
  exists written,
    Tetris.write_tetromino W H grid tm = Ok written
    /\ grid_shape W H written
    /\ forall x y : nat,
         Z.of_nat y < Tetromino.y_pos tm
         \/ Tetromino.y_pos tm + Tetromino.size tm <= Z.of_nat y ->
         at_cell written x y = at_cell grid x y.
Proof.
  intros Hshape Hmask. unfold Tetris.write_tetromino.
  set (P := fun g : list (list Z) =>
              grid_shape W H g
              /\ forall x y : nat,
                   Z.of_nat y < Tetromino.y_pos tm
                   \/ Tetromino.y_pos tm + Tetromino.size tm <= Z.of_nat y ->
                   at_cell g x y = at_cell grid x y).
  apply (foldM_total P); [|split; auto].
  intros g x Hx Hg. apply In_range in Hx.
  apply (foldM_total P); [|assumption].
  intros g1 y Hy [Hs1 Hout]. apply In_range in Hy.
  destruct (Hmask x y Hx Hy) as (b & Eb). rewrite Eb. cbn [bind].
  destruct b; [|exists g1; split; [reflexivity | split; assumption]].
  destruct (_ || _) eqn:Hb; [exists g1; split; [reflexivity | split; assumption]|].
  apply orb_false_iff in Hb; destruct Hb as [Hb Hb4].
  apply orb_false_iff in Hb; destruct Hb as [Hb Hb3].
  apply orb_false_iff in Hb; destruct Hb as [Hb1 Hb2].
  rewrite (set_cell_with_cell W H) by (assumption || lia).
  eexists; split; [reflexivity|]. split.
  - apply with_cell_shape; [assumption | lia].
  - intros x' y' Hy'.
    rewrite (at_cell_with_cell W H) by (assumption || lia).
    destruct (Nat.eqb_spec y' (Z.to_nat (y + Tetromino.y_pos tm))) as [-> | Hne];
      [lia|]. rewrite andb_false_r. auto.
Qed.

Lemma mask_at_readable (tm : Tetromino.t) (x y : Z) :
  mask_readable tm -> 0 <= x < Tetromino.size tm -> 0 <= y < Tetromino.size tm ->
  cell (Tetromino.block_data tm) x y = Ok (mask_at tm x y).
Proof.
  intros Hm Hx Hy. unfold mask_at. destruct (Hm x y Hx Hy) as (b & ->). reflexivity.
Qed.

Ltac zbool :=
  repeat match goal with
         | |- context [?a =? ?b] => destruct (Z.eqb_spec a b)
         | |- context [?a <? ?b] => destruct (Z.ltb_spec a b)
         | |- context [?a <=? ?b] => destruct (Z.leb_spec a b)
         end;
  cbn [andb orb negb]; try reflexivity; try lia.

(** One mask cell of the first loop of [place_tetromino]. *)
Lemma write_cell (W H : Z) (grid g : list (list Z)) (tm : Tetromino.t) (x y : Z) :
  mask_readable tm ->
  0 <= x < Tetromino.size tm -> 0 <= y < Tetromino.size tm ->
  written_until W H grid tm x y g ->
  exists g',
    (b <- cell (Tetromino.block_data tm) x y ;;
     if b then
       let grid_x := x + Tetromino.x_pos tm in
       let grid_y := y + Tetromino.y_pos tm in
       if (grid_x <? 0) || (W <=? grid_x) || (grid_y <? 0) || (H <=? grid_y)
       then Ok g
       else set_cell g grid_x grid_y (Tetromino.id tm)
     else Ok g) = Ok g'
    /\ written_until W H grid tm x (y + 1) g'.
Proof.
  intros Hmask Hx Hy [Hshape Hcells]. cbv zeta.
  assert (Hkeep : (x + Tetromino.x_pos tm < 0 \/ W <= x + Tetromino.x_pos tm
                   \/ y + Tetromino.y_pos tm < 0 \/ H <= y + Tetromino.y_pos tm
                   \/ mask_at tm x y = false) ->
                  written_until W H grid tm x (y + 1) g).
  { intros Hout. split; [assumption|]. intros gx gy Hgx Hgy.
    rewrite Hcells by assumption.
    destruct (covers tm (Z.of_nat gx) (Z.of_nat gy)) eqn:Hcov; [|reflexivity].
    cbn [andb]. unfold before.
    assert (Hsame : (Z.of_nat gx - Tetromino.x_pos tm =? x)
                    && (Z.of_nat gy - Tetromino.y_pos tm =? y) = false).
    { destruct (Z.eqb_spec (Z.of_nat gx - Tetromino.x_pos tm) x) as [Hex|]; [|reflexivity].
      destruct (Z.eqb_spec (Z.of_nat gy - Tetromino.y_pos tm) y) as [Hey|]; [|reflexivity].
      exfalso. unfold covers in Hcov. rewrite Hex, Hey in Hcov.
      destruct Hout as [Ho | [Ho | [Ho | [Ho | Ho]]]]; try lia.
      rewrite Ho in Hcov. now rewrite !andb_false_r in Hcov. }
    apply andb_false_iff in Hsame.
    destruct (Z.eqb_spec (Z.of_nat gx - Tetromino.x_pos tm) x) as [Hex | Hnex].
    - destruct Hsame as [Hs | Hs]; [discriminate|]. apply Z.eqb_neq in Hs.
      replace (Z.of_nat gx - Tetromino.x_pos tm <? x) with false by (symmetry; zbool).
      cbn [orb andb].
      replace (Z.of_nat gy - Tetromino.y_pos tm <? y + 1)
        with (Z.of_nat gy - Tetromino.y_pos tm <? y) by zbool.
      reflexivity.
    - cbn [andb]. reflexivity. }
  rewrite (mask_at_readable tm x y Hmask Hx Hy). cbn [bind].
  destruct (mask_at tm x y) eqn:Hm.
  2:{ exists g. split; [reflexivity|]. apply Hkeep. auto. }
  destruct ((x + Tetromino.x_pos tm <? 0) || (W <=? x + Tetromino.x_pos tm)
            || (y + Tetromino.y_pos tm <? 0) || (H <=? y + Tetromino.y_pos tm)) eqn:Hb.
  { exists g. split; [reflexivity|]. apply Hkeep.
    apply orb_true_iff in Hb. destruct Hb as [Hb | Hb]; [|apply Z.leb_le in Hb; lia].
    apply orb_true_iff in Hb. destruct Hb as [Hb | Hb]; [|apply Z.ltb_lt in Hb; lia].
    apply orb_true_iff in Hb. destruct Hb as [Hb | Hb];
      [apply Z.ltb_lt in Hb | apply Z.leb_le in Hb]; lia. }
  apply orb_false_iff in Hb; destruct Hb as [Hb Hb4].
  apply orb_false_iff in Hb; destruct Hb as [Hb Hb3].
  apply orb_false_iff in Hb; destruct Hb as [Hb1 Hb2].
  apply Z.ltb_ge in Hb1, Hb3. apply Z.leb_gt in Hb2, Hb4.
  rewrite (set_cell_with_cell W H) by (assumption || lia).
  eexists. split; [reflexivity|]. split; [apply with_cell_shape; [assumption | lia]|].
  intros gx gy Hgx Hgy.
  rewrite (at_cell_with_cell W H) by (assumption || lia).
  rewrite Hcells by assumption. unfold covers, before.
  destruct (Nat.eqb_spec gx (Z.to_nat (x + Tetromino.x_pos tm))) as [Hex | Hnex];
    destruct (Nat.eqb_spec gy (Z.to_nat (y + Tetromino.y_pos tm))) as [Hey | Hney];
    cbn [andb].
  - replace (Z.of_nat gx - Tetromino.x_pos tm) with x by lia.
    replace (Z.of_nat gy - Tetromino.y_pos tm) with y by lia.
    rewrite Hm.
    replace ((0 <=? x) && (x <? Tetromino.size tm) && (0 <=? y)
             && (y <? Tetromino.size tm)) with true by (symmetry; zbool).
    replace ((x <? x) || ((x =? x) && (y <? y + 1))) with true by (symmetry; zbool).
    reflexivity.
  - replace (Z.of_nat gx - Tetromino.x_pos tm) with x by lia.
    replace (Z.of_nat gy - Tetromino.y_pos tm <? y + 1)
      with (Z.of_nat gy - Tetromino.y_pos tm <? y) by zbool.
    reflexivity.
  - replace (Z.of_nat gx - Tetromino.x_pos tm =? x) with false by (symmetry; zbool).
    reflexivity.
  - replace (Z.of_nat gx - Tetromino.x_pos tm =? x) with false by (symmetry; zbool).
    reflexivity.
Qed.

Lemma written_until_rewrite (W H : Z) (grid g : list (list Z))
    (tm : Tetromino.t) (x y x' y' : Z) :
  (forall a b, 0 <= a < Tetromino.size tm -> 0 <= b < Tetromino.size tm ->
               before a b x y = before a b x' y') ->
  written_until W H grid tm x y g -> written_until W H grid tm x' y' g.
Proof.
  intros Hsame [Hshape Hcells]. split; [assumption|].
  intros gx gy Hgx Hgy. rewrite Hcells by assumption.
  destruct (covers tm (Z.of_nat gx) (Z.of_nat gy)) eqn:Hcov; [|reflexivity].
  cbn [andb]. rewrite Hsame; [reflexivity| |];
    unfold covers in Hcov; cbv zeta in Hcov;
    repeat (apply andb_true_iff in Hcov; destruct Hcov as [Hcov ?]);
    repeat match goal with
           | Hb : (_ <=? _) = true |- _ => apply Z.leb_le in Hb
           | Hb : (_ <? _) = true |- _ => apply Z.ltb_lt in Hb
           end; lia.
Qed.

(** The first loop of [place_tetromino], cell by cell: the cells of the
    board under a filled mask cell get the id of the piece, every other
    cell stays. *)
Lemma write_tetromino_cells (W H : Z) (grid : list (list Z)) (tm : Tetromino.t) :
  grid_shape W H grid -> mask_readable tm ->
  exists written,
    Tetris.write_tetromino W H grid tm = Ok written
    /\ grid_shape W H written
    /\ forall gx gy : nat, Z.of_nat gx < W -> Z.of_nat gy < H ->
         at_cell written gx gy
         = if covers tm (Z.of_nat gx) (Z.of_nat gy) then Tetromino.id tm
           else at_cell grid gx gy.
Proof.
  intros Hshape Hmask. unfold Tetris.write_tetromino.
  destruct (Z.le_gt_cases (Tetromino.size tm) 0) as [Hs | Hs].
  { rewrite range_nil by lia. exists grid. split; [reflexivity|]. split; [assumption|].
    intros gx gy _ _. unfold covers. cbv zeta.
    destruct (Z.leb_spec 0 (Z.of_nat gx - Tetromino.x_pos tm)); [|reflexivity].
    destruct (Z.ltb_spec (Z.of_nat gx - Tetromino.x_pos tm) (Tetromino.size tm));
      [lia | reflexivity]. }
  match goal with
  | |- context [foldM ?f (range 0 (Tetromino.size tm)) grid] =>
      destruct (foldM_range_ind (fun x g => written_until W H grid tm x 0 g)
                  f 0 (Tetromino.size tm) ltac:(lia))
        with (s := grid) as (g' & Eg & Hg)
  end.
  - intros x g Hx Hg.
    match goal with
    | |- context [foldM ?f (range 0 (Tetromino.size tm)) g] =>
        destruct (foldM_range_ind (fun y g => written_until W H grid tm x y g)
                    f 0 (Tetromino.size tm) ltac:(lia))
          with (s := g) as (g1 & Eg1 & Hg1)
    end.
    + intros y g0 Hy Hg0. apply write_cell; assumption.
    + exact Hg.
    + exists g1. split; [exact Eg1|].
      eapply written_until_rewrite; [|exact Hg1].
      intros a b Ha Hb. unfold before. zbool.
  - split; [assumption|]. intros gx gy Hgx Hgy.
    destruct (covers tm (Z.of_nat gx) (Z.of_nat gy)) eqn:Hcov; [|reflexivity].
    cbn [andb]. unfold covers in Hcov. cbv zeta in Hcov.
    repeat (apply andb_true_iff in Hcov; destruct Hcov as [Hcov ?]).
    repeat match goal with
           | Hb : (_ <=? _) = true |- _ => apply Z.leb_le in Hb
           | Hb : (_ <? _) = true |- _ => apply Z.ltb_lt in Hb
           end.
    replace (before (Z.of_nat gx - Tetromino.x_pos tm) (Z.of_nat gy - Tetromino.y_pos tm)
               0 0) with false; [reflexivity|].
    symmetry. unfold before. zbool.
  - exists g'. split; [exact Eg|]. destruct Hg as [Hshape' Hcells].
    split; [assumption|]. intros gx gy Hgx Hgy. rewrite Hcells by assumption.
    destruct (covers tm (Z.of_nat gx) (Z.of_nat gy)) eqn:Hcov; [|reflexivity].
    cbn [andb]. unfold covers in Hcov. cbv zeta in Hcov.
    repeat (apply andb_true_iff in Hcov; destruct Hcov as [Hcov ?]).
    repeat match goal with
           | Hb : (_ <=? _) = true |- _ => apply Z.leb_le in Hb
           | Hb : (_ <? _) = true |- _ => apply Z.ltb_lt in Hb
           end.
    replace (before (Z.of_nat gx - Tetromino.x_pos tm) (Z.of_nat gy - Tetromino.y_pos tm)
               (Tetromino.size tm) 0) with true; [reflexivity|].
    symmetry. unfold before. zbool.
Qed.

(** [shift_down] at row [cy]: rows 0 .. cy - 1 move one row down, the top
    row becomes zero, rows below [cy] stay. *)
Lemma shift_down_spec (W H : Z) (grid : list (list Z)) (cy : Z) :
  grid_shape W H grid -> 0 <= cy < H ->
  exists g',
    Tetris.shift_down W grid cy = Ok g'
    /\ grid_shape W H g'
    /\ forall x y : nat, Z.of_nat x < W -> Z.of_nat y < H ->
         at_cell g' x y
         = if Nat.eqb y 0 then 0
           else if Z.of_nat y <=? cy then at_cell grid x (y - 1)
                else at_cell grid x y.
Proof.
  intros Hshape Hcy. unfold Tetris.shift_down.
  assert (HW0 : 0 <= W) by (destruct Hshape as [<- _]; apply len_nonneg).
  (* rows cy, cy - 1, ..., 1, each copied from the row above *)
  destruct (foldM_range_down_ind
              (fun a (g : list (list Z)) =>
                 grid_shape W H g
                 /\ forall x y : nat, Z.of_nat x < W -> Z.of_nat y < H ->
                      at_cell g x y
                      = if (a <? Z.of_nat y) && (Z.of_nat y <=? cy)
                        then at_cell grid x (y - 1) else at_cell grid x y)
              (fun g y =>
                 foldM (fun g x => v <- cell g x (y - 1) ;; set_cell g x y v)
                       (range 0 W) g)
              (Z.to_nat (cy - 0)) cy) with (s := grid) as (g1 & E1 & Hs1 & Hg1).
  { intros y g Hy [Hs Hg].
    destruct (foldM_range_ind
                (fun k (g' : list (list Z)) =>
                   grid_shape W H g'
                   /\ forall x' y' : nat, Z.of_nat x' < W -> Z.of_nat y' < H ->
                        at_cell g' x' y'
                        = if (Z.of_nat x' <? k) && (Z.of_nat y' =? y)
                          then at_cell g x' (y' - 1) else at_cell g x' y')
                (fun g x => v <- cell g x (y - 1) ;; set_cell g x y v)
                0 W HW0) with (s := g) as (g' & E' & Hs' & Hg').
    { intros x g0 Hx [Hs0 Hg0].
      rewrite (cell_at W H) by (assumption || lia). cbn [bind].
      rewrite (set_cell_with_cell W H) by (assumption || lia).
      eexists; split; [reflexivity|]. split; [apply with_cell_shape; [assumption|lia]|].
      intros x' y' Hx' Hy'.
      rewrite (at_cell_with_cell W H) by (assumption || lia).
      destruct (Nat.eqb_spec x' (Z.to_nat x)) as [-> | Hnx];
        destruct (Nat.eqb_spec y' (Z.to_nat y)) as [-> | Hny]; cbn [andb].
      - rewrite (Hg0 (Z.to_nat x) (Z.to_nat (y - 1))) by lia.
        replace (Z.of_nat (Z.to_nat (y - 1)) =? y) with false by zb.
        rewrite andb_false_r.
        replace (Z.of_nat (Z.to_nat x) <? x + 1) with true by zb.
        replace (Z.of_nat (Z.to_nat y) =? y) with true by zb. cbn [andb].
        f_equal. lia.
      - rewrite Hg0 by assumption.
        replace (Z.of_nat y' =? y) with false by zb. now rewrite !andb_false_r.
      - rewrite Hg0 by assumption.
        replace (Z.of_nat x' <? x + 1) with (Z.of_nat x' <? x) by zb. reflexivity.
      - rewrite Hg0 by assumption.
        replace (Z.of_nat y' =? y) with false by zb. now rewrite !andb_false_r. }
    { split; [assumption|]. intros x' y' Hx' Hy'.
      replace (Z.of_nat x' <? 0) with false by zb. reflexivity. }
    exists g'. split; [assumption|]. split; [assumption|].
    intros x' y' Hx' Hy'. rewrite Hg' by assumption.
    replace (Z.of_nat x' <? W) with true by zb. cbn [andb].
    destruct (Z.eqb_spec (Z.of_nat y') y) as [Heq | Hne].
    - rewrite Hg by lia.
      replace ((y <? Z.of_nat (y' - 1)) && (Z.of_nat (y' - 1) <=? cy)) with false
        by zb.
      replace ((y - 1 <? Z.of_nat y') && (Z.of_nat y' <=? cy)) with true
        by zb.
      reflexivity.
    - rewrite Hg by assumption.
      replace (y - 1 <? Z.of_nat y') with (y <? Z.of_nat y') by zb. reflexivity. }
  { split; [assumption|]. intros x y Hx Hy.
    replace ((cy <? Z.of_nat y) && (Z.of_nat y <=? cy)) with false
      by zb.
    reflexivity. }
  unfold range_down. rewrite E1. cbn [bind].
  replace (cy - Z.of_nat (Z.to_nat (cy - 0))) with 0 in Hg1 by lia.
  (* the upper most line *)
  destruct (foldM_range_ind
              (fun k (g' : list (list Z)) =>
                 grid_shape W H g'
                 /\ forall x' y' : nat, Z.of_nat x' < W -> Z.of_nat y' < H ->
                      at_cell g' x' y'
                      = if (Z.of_nat x' <? k) && Nat.eqb y' 0
                        then 0 else at_cell g1 x' y')
              (fun g x => set_cell g x 0 0) 0 W HW0) with (s := g1)
    as (g2 & E2 & Hs2 & Hg2).
  { intros x g0 Hx [Hs0 Hg0].
    rewrite (set_cell_with_cell W H) by (assumption || lia).
    eexists; split; [reflexivity|]. split; [apply with_cell_shape; [assumption|lia]|].
    intros x' y' Hx' Hy'.
    rewrite (at_cell_with_cell W H) by (assumption || lia).
    change (Z.to_nat 0) with 0%nat. rewrite Hg0 by assumption.
    destruct (Nat.eqb_spec x' (Z.to_nat x)) as [-> | Hnx];
      destruct (Nat.eqb_spec y' 0) as [-> | Hny]; cbn [andb].
    - replace (Z.of_nat (Z.to_nat x) <? x + 1) with true by zb. reflexivity.
    - now rewrite !andb_false_r.
    - replace (Z.of_nat x' <? x + 1) with (Z.of_nat x' <? x) by zb. reflexivity.
    - now rewrite !andb_false_r. }
  { split; [assumption|]. intros x' y' Hx' Hy'.
    replace (Z.of_nat x' <? 0) with false by zb. reflexivity. }
  exists g2. split; [assumption|]. split; [assumption|].
  intros x y Hx Hy. rewrite Hg2 by assumption.
  replace (Z.of_nat x <? W) with true by zb. cbn [andb].
  destruct (Nat.eqb_spec y 0) as [-> | Hne]; [reflexivity|].
  rewrite Hg1 by assumption.
  replace (0 <? Z.of_nat y) with true by zb. reflexivity.
Qed.

Lemma full_rowb_true_iff (g : list (list Z)) (y : nat) :
  full_rowb g y = true <-> forall x, (x < length g)%nat -> at_cell g x y <> 0.
Proof.
  unfold full_rowb, at_cell. rewrite forallb_forall. split.
  - intros Hall x Hx. specialize (Hall (nth x g []) (nth_In _ _ Hx)).
    apply negb_true_iff, Z.eqb_neq in Hall. exact Hall.
  - intros Hall col Hcol. destruct (In_nth _ _ [] Hcol) as (x & Hx & <-).
    apply negb_true_iff, Z.eqb_neq. auto.
Qed.

(** Two rows with the same cells are full together. *)
Lemma full_rowb_ext (g1 g2 : list (list Z)) (y1 y2 : nat) :
  length g1 = length g2 ->
  (forall x, (x < length g1)%nat -> at_cell g1 x y1 = at_cell g2 x y2) ->
  full_rowb g1 y1 = full_rowb g2 y2.
Proof.
  intros Hlen Hcells. apply eq_true_iff_eq. rewrite !full_rowb_true_iff.
  split; intros Hall x Hx.
  - rewrite <- Hcells by lia. apply Hall. lia.
  - rewrite Hcells by lia. apply Hall. lia.
Qed.

Lemma full_rowb_zero_row (g : list (list Z)) (y : nat) :
  (0 < length g)%nat -> (forall x, (x < length g)%nat -> at_cell g x y = 0) ->
  full_rowb g y = false.
Proof.
  intros Hpos Hzero. apply not_true_is_false. rewrite full_rowb_true_iff.
  intros Hall. apply (Hall 0%nat Hpos). now apply Hzero.
Qed.

Lemma anyM_existsb {A} (f : A -> result bool) (h : A -> bool) (l : list A) :
  (forall a, In a l -> f a = Ok (h a)) -> anyM f l = Ok (existsb h l).
Proof.
  induction l as [|a l IH]; intros Hf; simpl; [reflexivity|].
  rewrite Hf by (now left). cbn [bind]. destruct (h a); [reflexivity|].
  apply IH. intros; apply Hf; now right.
Qed.

(** The test of a line in [place_tetromino], reading row [y] of the grid
    through the subscript [cy]. *)
Lemma line_test (W H : Z) (g : list (list Z)) (cy : Z) (y : nat) :
  grid_shape W H g ->
  (forall x, 0 <= x < W -> cell g x cy = Ok (at_cell g (Z.to_nat x) y)) ->
  anyM (fun x => v <- cell g x cy ;; Ok (v =? 0)) (range 0 W)
  = Ok (negb (full_rowb g y)).
Proof.
  intros Hshape Hread.
  rewrite (anyM_existsb _ (fun x => at_cell g (Z.to_nat x) y =? 0)).
  2:{ intros x Hx. apply In_range in Hx. now rewrite Hread. }
  f_equal. destruct Hshape as [HW _]. unfold len in HW.
  destruct (full_rowb g y) eqn:Hfull; simpl.
  - apply not_true_is_false. intros Hex. apply existsb_exists in Hex.
    destruct Hex as (x & Hx & Hzero). apply In_range in Hx. apply Z.eqb_eq in Hzero.
    rewrite full_rowb_true_iff in Hfull. apply (Hfull (Z.to_nat x)); [lia | assumption].
  - destruct (existsb _ _) eqn:Hex; [reflexivity|].
    assert (Hall : full_rowb g y = true); [|congruence].
    apply full_rowb_true_iff. intros x Hx Hzero.
    assert (Hin : existsb (fun x => at_cell g (Z.to_nat x) y =? 0) (range 0 W) = true);
      [|congruence].
    apply existsb_exists. exists (Z.of_nat x). split; [apply In_range; lia|].
    rewrite Nat2Z.id. now apply Z.eqb_eq.
Qed.

(** *** The rows while lines are cleared *)

Lemma row_source_length (H : nat) (written : list (list Z)) (c p : nat) :
  (p <= H)%nat ->
  (length (filter (fun y => negb (full_rowb written y)) (seq p (H - p))) + c = H - p)%nat ->
  length (row_source H written c p) = H.
Proof.
  intros Hp Hcount. unfold row_source.
  rewrite length_app, repeat_length, length_map, length_app, length_seq. lia.
Qed.

Lemma row_source_zero (H : nat) (written : list (list Z)) (c p y : nat) :
  (y < c)%nat -> nth y (row_source H written c p) None = None.
Proof.
  intros Hy. unfold row_source.
  rewrite app_nth1 by (rewrite repeat_length; lia). apply nth_repeat.
Qed.

Lemma row_source_pending (H : nat) (written : list (list Z)) (c p y : nat) :
  (c <= y < c + p)%nat -> nth y (row_source H written c p) None = Some (y - c)%nat.
Proof.
  intros Hy. unfold row_source.
  rewrite app_nth2 by (rewrite repeat_length; lia). rewrite repeat_length.
  rewrite map_app, app_nth1 by (rewrite length_map, length_seq; lia).
  rewrite (nth_indep _ None (Some 0%nat)) by (rewrite length_map, length_seq; lia).
  rewrite map_nth, seq_nth by lia. reflexivity.
Qed.

Lemma row_source_settled (H : nat) (written : list (list Z)) (c p y : nat) :
  (c + p <= y)%nat -> (y < length (row_source H written c p))%nat ->
  exists r, nth y (row_source H written c p) None = Some r
            /\ full_rowb written r = false.
Proof.
  intros Hy Hlen. unfold row_source in *.
  rewrite length_app, repeat_length, length_map, length_app, length_seq in Hlen.
  rewrite app_nth2 by (rewrite repeat_length; lia). rewrite repeat_length.
  rewrite map_app, app_nth2 by (rewrite length_map, length_seq; lia).
  rewrite length_map, length_seq.
  set (kept := filter _ _) in *.
  rewrite (nth_indep _ None (Some 0%nat)) by (rewrite length_map; lia).
  rewrite map_nth. eexists; split; [reflexivity|].
  assert (Hin : In (nth (y - c - p) kept 0%nat) kept) by (apply nth_In; lia).
  apply filter_In in Hin. destruct Hin as [_ Hnf]. now apply negb_true_iff in Hnf.
Qed.

(** Examining a row that is not full: it joins the settled rows. *)
Lemma row_source_keep (H : nat) (written : list (list Z)) (c p : nat) :
  (p < H)%nat -> full_rowb written p = false ->
  row_source H written c p = row_source H written c (S p)
  /\ length (filter (fun y => negb (full_rowb written y)) (seq p (H - p)))
     = S (length (filter (fun y => negb (full_rowb written y)) (seq (S p) (H - S p)))).
Proof.
  intros Hp Hnf. unfold row_source.
  replace (H - p)%nat with (S (H - S p)) by lia.
  change (seq p (S (H - S p))) with (p :: seq (S p) (H - S p)).
  cbn [filter]. rewrite Hnf. cbn [negb].
  split; [|reflexivity].
  f_equal. f_equal. rewrite (seq_S p 0), <- app_assoc. reflexivity.
Qed.

(** Examining a full row: it goes, a zero row comes in on top. *)
Lemma row_source_drop (H : nat) (written : list (list Z)) (c p : nat) :
  (p < H)%nat -> full_rowb written p = true ->
  filter (fun y => negb (full_rowb written y)) (seq p (H - p))
  = filter (fun y => negb (full_rowb written y)) (seq (S p) (H - S p))
  /\ forall y,
       nth y (row_source H written (S c) p) None
       = if Nat.eqb y 0 then None
         else if (y <=? c + p)%nat then nth (y - 1) (row_source H written c (S p)) None
              else nth y (row_source H written c (S p)) None.
Proof.
  intros Hp Hfull.
  assert (Hfilter : filter (fun y => negb (full_rowb written y)) (seq p (H - p))
                    = filter (fun y => negb (full_rowb written y)) (seq (S p) (H - S p))).
  { replace (H - p)%nat with (S (H - S p)) by lia.
    change (seq p (S (H - S p))) with (p :: seq (S p) (H - S p)).
    cbn [filter]. rewrite Hfull. reflexivity. }
  split; [assumption|].
  intros y. unfold row_source. rewrite Hfilter.
  rewrite !map_app.
  set (tl := map (@Some nat) (filter _ _)). rewrite (seq_S p 0), map_app. cbn [map Nat.add].
  set (A := repeat (@None nat) c ++ map Some (seq 0 p)).
  assert (HA : length A = (c + p)%nat)
    by (unfold A; rewrite length_app, repeat_length, length_map, length_seq; lia).
  replace (repeat None (S c) ++ map Some (seq 0 p) ++ tl) with (None :: A ++ tl)
    by (unfold A; cbn [repeat]; now rewrite <- app_assoc).
  replace (repeat None c ++ (map Some (seq 0 p) ++ [Some p]) ++ tl)
    with (A ++ Some p :: tl)
    by (unfold A; now rewrite <- !app_assoc).
  destruct y as [|y]; [reflexivity|].
  cbn [Nat.eqb nth]. replace (S y - 1)%nat with y by lia.
  destruct (Nat.leb_spec (S y) (c + p)) as [Hle | Hgt].
  - rewrite !app_nth1 by lia. reflexivity.
  - rewrite !app_nth2 by lia. rewrite HA.
    replace (S y - (c + p))%nat with (S (y - (c + p))) by lia. reflexivity.
Qed.

Ltac split_clearing := unfold clearing; split; [|split; [|split; [|split]]].

(** The second loop of [place_tetromino], for any number of turns: each
    turn either clears the row under [current_y] or moves one row up, and
    [current_y] minus the number of clears goes down by one. *)
Lemma clear_lines_loop (W H : Z) (written : list (list Z)) (lines : Z) :
  grid_shape W H written -> 0 < W ->
  forall (l : list Z) (c : nat) (g : list (list Z)) (n cy : Z),
    clearing W H written lines c (g, n, cy) ->
    - H <= cy - Z.of_nat c - len l + 1 ->
    exists c' g' n' cy',
      foldM (fun '(grid, lines_cleared, current_y) (i : Z) =>
               if H <=? current_y then Ok (grid, lines_cleared, current_y - 1)
               else
                 gap <- anyM (fun x => v <- cell grid x current_y ;; Ok (v =? 0))
                             (range 0 W) ;;
                 let line_cleared := negb gap in
                 if line_cleared then
                   grid <- Tetris.shift_down W grid current_y ;;
                   Ok (grid, lines_cleared + 1, current_y)
                 else Ok (grid, lines_cleared, current_y - 1))
            l (g, n, cy) = Ok (g', n', cy')
      /\ clearing W H written lines c' (g', n', cy')
      /\ cy' - Z.of_nat c' = cy - Z.of_nat c - len l.
Proof.
  intros Hwritten HW.
  assert (HlenW : length written = Z.to_nat W)
    by (destruct Hwritten as [<- _]; unfold len; lia).
  induction l as [|i l IH]; intros c g n cy Hinv Hlow.
  { exists c, g, n, cy. split; [reflexivity|]. split; [assumption|].
    unfold len; simpl; lia. }
  rewrite len_cons in Hlow. pose proof (len_nonneg l) as Hl0. cbn [foldM].
  destruct Hinv as (Hs & Hcells & Hn & Hcount & Hc0).
  assert (Hleng : length g = Z.to_nat W)
    by (destruct Hs as [<- _]; unfold len; lia).
  destruct (Z.leb_spec H cy) as [Hskip | Hin]; cbn [bind].
  - (* the line is below the grid *)
    specialize (Hc0 Hskip). subst c.
    destruct (IH 0%nat g n (cy - 1)) as (c' & g' & n' & cy' & E & Hinv' & Hd).
    + unfold clearing.
      replace (Z.to_nat (Z.min H (Z.max 0 (cy - 1 - Z.of_nat 0 + 1))))
        with (Z.to_nat (Z.min H (Z.max 0 (cy - Z.of_nat 0 + 1)))) by lia.
      split_clearing; try assumption; lia.
    + lia.
    + exists c', g', n', cy'. split; [assumption | split; [assumption|]]. rewrite len_cons. lia.
  - (* the line is on the grid, read directly or from the bottom *)
    set (ystar := if 0 <=? cy then Z.to_nat cy else Z.to_nat (cy + H)).
    assert (Hystar : Z.of_nat ystar < H) by (unfold ystar; destruct (0 <=? cy) eqn:?; lia).
    assert (Hread : forall x, 0 <= x < W ->
                      cell g x cy = Ok (at_cell g (Z.to_nat x) ystar)).
    { intros x Hx. unfold ystar. destruct (Z.leb_spec 0 cy).
      - apply (cell_at W H); (assumption || lia).
      - apply (cell_at_wrap W H); (assumption || lia). }
    rewrite (line_test W H g cy ystar Hs Hread). cbn [bind]. rewrite negb_involutive.
    set (p := Z.to_nat (Z.min H (Z.max 0 (cy - Z.of_nat c + 1)))) in *.
    assert (Hp : (p <= Z.to_nat H)%nat) by (unfold p; lia).
    pose proof (row_source_length (Z.to_nat H) written c p Hp Hcount) as Hsrclen.
    (* what the row under the subscript is *)
    assert (Hrow :
              (full_rowb g ystar = false)
              \/ (0 <= cy /\ Z.of_nat c <= cy
                  /\ full_rowb g ystar = full_rowb written (Z.to_nat cy - c))).
    { destruct (Nat.lt_ge_cases ystar c) as [Hz | Hnz].
      - left. apply full_rowb_zero_row; [lia|]. intros x Hx.
        rewrite Hcells by lia. now rewrite row_source_zero.
      - destruct (Nat.lt_ge_cases ystar (c + p)) as [Hpend | Hset].
        + right. assert (Hcy : 0 <= cy /\ Z.of_nat c <= cy).
          { unfold ystar, p in *. destruct (Z.leb_spec 0 cy); lia. }
          split; [tauto|]. split; [tauto|].
          assert (Hy : ystar = Z.to_nat cy)
            by (unfold ystar; destruct (Z.leb_spec 0 cy); lia).
          rewrite Hy in *.
          apply full_rowb_ext; [lia|]. intros x Hx.
          rewrite Hcells by lia. now rewrite row_source_pending by lia.
        + left. destruct (row_source_settled (Z.to_nat H) written c p ystar Hset)
            as (r & Hr & Hnf); [lia|].
          rewrite <- Hnf. apply full_rowb_ext; [lia|]. intros x Hx.
          rewrite Hcells by lia. now rewrite Hr. }
    destruct (full_rowb g ystar) eqn:Hfull.
    + (* a full row: clear it *)
      destruct Hrow as [Hcontra | (Hcy0 & Hcyc & Hfw)]; [discriminate|].
      symmetry in Hfw.
      set (q := (Z.to_nat cy - c)%nat) in *.
      assert (Hpq : p = S q) by (unfold p, q; lia).
      assert (Hq : (q < Z.to_nat H)%nat) by lia.
      destruct (row_source_drop (Z.to_nat H) written c q Hq Hfw) as [Hfilter Hnth].
      destruct (shift_down_spec W H g cy Hs) as (g1 & E1 & Hs1 & Hg1); [lia|].
      rewrite E1. cbn [bind].
      destruct (IH (S c) g1 (n + 1) cy) as (c' & g' & n' & cy' & E & Hinv' & Hd).
      * unfold clearing.
        replace (Z.to_nat (Z.min H (Z.max 0 (cy - Z.of_nat (S c) + 1)))) with q
          by (unfold q; lia).
        split_clearing; try assumption; try lia.
        -- intros x y Hx Hy. rewrite Hg1 by assumption. rewrite Hnth.
           destruct (Nat.eqb_spec y 0) as [-> | Hy0]; [reflexivity|].
           replace (y <=? c + q)%nat with (Z.of_nat y <=? cy)
             by (unfold q; destruct (Z.leb_spec (Z.of_nat y) cy);
                 destruct (Nat.leb_spec y (c + (Z.to_nat cy - c))); lia).
           rewrite <- Hpq.
           destruct (Z.of_nat y <=? cy); apply Hcells; lia.
        -- rewrite Hfilter. rewrite Hpq in Hcount. lia.
      * lia.
      * exists c', g', n', cy'. split; [assumption | split; [assumption|]]. rewrite len_cons. lia.
    + (* not full: one row up *)
      destruct (IH c g n (cy - 1)) as (c' & g' & n' & cy' & E & Hinv' & Hd).
      * destruct (Z.leb_spec (Z.of_nat c) cy) as [Hge | Hlt].
        -- (* the row examined was the last pending one *)
           destruct Hrow as [_ | (Hcy0 & _ & Hfw)].
           ++ assert (Hy : ystar = Z.to_nat cy)
                by (unfold ystar; destruct (Z.leb_spec 0 cy); lia).
              set (q := (Z.to_nat cy - c)%nat).
              assert (Hpq : p = S q) by (unfold p, q; lia).
              assert (Hq : (q < Z.to_nat H)%nat) by lia.
              assert (Hnf : full_rowb written q = false).
              { rewrite <- Hfull. symmetry. rewrite Hy.
                apply full_rowb_ext; [lia|]. intros x Hx.
                rewrite Hcells by lia. now rewrite row_source_pending by lia. }
              destruct (row_source_keep (Z.to_nat H) written c q Hq Hnf) as [Hsrc Hlen].
              unfold clearing.
              replace (Z.to_nat (Z.min H (Z.max 0 (cy - 1 - Z.of_nat c + 1)))) with q
                by (unfold q; lia).
              split_clearing; try assumption; try lia.
              ** intros x y Hx Hy'. rewrite Hsrc, <- Hpq. now apply Hcells.
              ** rewrite Hlen. rewrite Hpq in Hcount. lia.
           ++ set (q := (Z.to_nat cy - c)%nat).
              assert (Hpq : p = S q) by (unfold p, q; lia).
              assert (Hq : (q < Z.to_nat H)%nat) by lia.
              assert (Hnf : full_rowb written q = false) by (unfold q; congruence).
              destruct (row_source_keep (Z.to_nat H) written c q Hq Hnf) as [Hsrc Hlen].
              unfold clearing.
              replace (Z.to_nat (Z.min H (Z.max 0 (cy - 1 - Z.of_nat c + 1)))) with q
                by (unfold q; lia).
              split_clearing; try assumption; try lia.
              ** intros x y Hx Hy'. rewrite Hsrc, <- Hpq. now apply Hcells.
              ** rewrite Hlen. rewrite Hpq in Hcount. lia.
        -- (* nothing was pending *)
           assert (Hp0 : p = 0%nat) by (unfold p; lia).
           unfold clearing.
           replace (Z.to_nat (Z.min H (Z.max 0 (cy - 1 - Z.of_nat c + 1)))) with p
             by (unfold p; lia).
           split_clearing; try assumption; try lia.
      * lia.
      * exists c', g', n', cy'. split; [assumption | split; [assumption|]]. rewrite len_cons. lia.
Qed.

Lemma filter_all {A} (f : A -> bool) (l : list A) :
  (forall a, In a l -> f a = true) -> filter f l = l.
Proof.
  induction l as [|a l IH]; intros Hf; simpl; [reflexivity|].
  rewrite Hf by (now left). f_equal. apply IH. intros; apply Hf; now right.
Qed.

(** Rows of the written grid outside the span of the piece are rows of
    the grid before the lock. *)
Lemma full_rowb_outside_span (W H : Z) (grid written : list (list Z)) (y : nat) :
  grid_shape W H grid -> grid_shape W H written ->
  (forall x, at_cell written x y = at_cell grid x y) ->
  full_rowb written y = full_rowb grid y.
Proof.
  intros [HW1 _] [HW2 _] Hsame. apply full_rowb_ext; [|auto].
  unfold len in *. lia.
Qed.

Lemma row_source_final (H : nat) (written : list (list Z)) (c p : nat) :
  (p <= H)%nat ->
  (forall y, (y < p)%nat -> full_rowb written y = false) ->
  row_source H written c p = repeat None c ++ map Some (kept_rows H written)
  /\ length (kept_rows H written)
     = (p + length (filter (fun y => negb (full_rowb written y)) (seq p (H - p))))%nat.
Proof.
  intros Hp Hnf. unfold row_source, kept_rows.
  replace (seq 0 H) with (seq 0 p ++ seq p (H - p))
    by (rewrite <- seq_app; f_equal; lia).
  rewrite filter_app.
  rewrite (filter_all _ (seq 0 p)).
  - split; [reflexivity|]. now rewrite length_app, length_seq.
  - intros y Hy. apply in_seq in Hy. rewrite Hnf by lia. reflexivity.
Qed.

Lemma pick_row_source (written : list (list Z)) (x k y : nat) (kept : list nat) :
  pick written x (nth y (repeat None k ++ map Some kept) None)
  = nth y (repeat 0 k ++ map (fun r => nth r (nth x written []) 0) kept) 0.
Proof.
  destruct (Nat.lt_ge_cases y k) as [Hlt | Hge].
  - rewrite !app_nth1 by (rewrite repeat_length; lia). now rewrite !nth_repeat.
  - rewrite !app_nth2 by (rewrite repeat_length; lia). rewrite !repeat_length.
    destruct (Nat.lt_ge_cases (y - k) (length kept)) as [Hin | Hout].
    + rewrite (nth_indep _ None (Some 0%nat)) by (now rewrite length_map).
      rewrite map_nth.
      rewrite (nth_indep _ 0 (nth 0 (nth x written []) 0)) by (now rewrite length_map).
      rewrite (map_nth (fun r => nth r (nth x written []) 0)). reflexivity.
    + rewrite !nth_overflow by (now rewrite length_map). reflexivity.
Qed.

Lemma grid_ext (W H : Z) (a b : list (list Z)) :
  grid_shape W H a -> grid_shape W H b ->
  (forall x y : nat, Z.of_nat x < W -> Z.of_nat y < H -> at_cell a x y = at_cell b x y) ->
  a = b.
Proof.
  intros Ha Hb Hcells.
  assert (Hla : length a = Z.to_nat W) by (destruct Ha as [<- _]; unfold len; lia).
  assert (Hlb : length b = Z.to_nat W) by (destruct Hb as [<- _]; unfold len; lia).
  apply (nth_ext a b [] []); [lia|].
  intros x Hx.
  pose proof (grid_shape_nth W H a x Ha ltac:(lia)) as Hca.
  pose proof (grid_shape_nth W H b x Hb ltac:(lia)) as Hcb.
  unfold len in Hca, Hcb.
  apply (nth_ext _ _ 0 0); [lia|].
  intros y Hy. apply Hcells; lia.
Qed.

Lemma remove_full_rows_shape (W H : Z) (written : list (list Z)) :
  grid_shape W H written -> 0 <= H ->
  grid_shape W H (remove_full_rows (Z.to_nat H) written).
Proof.
  intros [HW Hcols] HH. unfold remove_full_rows. split.
  - unfold len in *. now rewrite length_map.
  - apply Forall_map. apply Forall_forall. intros col _.
    unfold len, count_full_rows.
    rewrite length_app, repeat_length, length_map.
    assert (Hk : (length (kept_rows (Z.to_nat H) written) <= Z.to_nat H)%nat).
    { unfold kept_rows. etransitivity; [apply filter_length_le|]. now rewrite length_seq. }
    lia.
Qed.

Lemma at_cell_remove_full_rows (W H : Z) (written : list (list Z)) (x y : nat) :
  grid_shape W H written -> Z.of_nat x < W ->
  at_cell (remove_full_rows (Z.to_nat H) written) x y
  = pick written x
      (nth y (repeat None (count_full_rows (Z.to_nat H) written)
              ++ map Some (kept_rows (Z.to_nat H) written)) None).
Proof.
  intros [HW _] Hx. unfold at_cell at 1, remove_full_rows.
  rewrite (nth_indep _ [] ((fun col => repeat 0 (count_full_rows (Z.to_nat H) written)
             ++ map (fun y => nth y col 0) (kept_rows (Z.to_nat H) written)) []))
    by (rewrite length_map; unfold len in HW; lia).
  rewrite (map_nth (fun col => repeat 0 (count_full_rows (Z.to_nat H) written)
             ++ map (fun y => nth y col 0) (kept_rows (Z.to_nat H) written))).
  symmetry. apply pick_row_source.
Qed.

(** The second loop of [place_tetromino] as a whole: from the written
    grid, with no full row outside the span of the piece, it removes the
    full rows and counts them. *)
Lemma clear_lines_spec (W H : Z) (written : list (list Z)) (lines y_pos size : Z) :
  grid_shape W H written -> 0 < W -> 0 <= size -> - H <= y_pos ->
  (forall y : nat, Z.of_nat y < H ->
     Z.of_nat y < y_pos \/ y_pos + size <= Z.of_nat y -> full_rowb written y = false) ->
  exists cy',
    Tetris.clear_lines W H size (written, lines, y_pos + size - 1)
    = Ok (remove_full_rows (Z.to_nat H) written,
          lines + Z.of_nat (count_full_rows (Z.to_nat H) written), cy').
Proof.
  intros Hshape HW Hsize Hy Hout.
  assert (HH : 0 <= H).
  { pose proof (grid_shape_nth W H written 0 Hshape ltac:(lia)) as Hc.
    rewrite <- Hc. apply len_nonneg. }
  unfold Tetris.clear_lines.
  destruct (clear_lines_loop W H written lines Hshape HW (range 0 size) 0%nat
              written lines (y_pos + size - 1))
    as (c & g & n & cy & E & Hinv & Hd).
  - (* the state on entry *)
    unfold clearing.
    set (p := Z.to_nat (Z.min H (Z.max 0 (y_pos + size - 1 - Z.of_nat 0 + 1)))).
    assert (Hkeep : filter (fun y => negb (full_rowb written y)) (seq p (Z.to_nat H - p))
                    = seq p (Z.to_nat H - p)).
    { apply filter_all. intros y Hin. apply in_seq in Hin.
      rewrite Hout; [reflexivity | lia | unfold p in *; lia]. }
    split; [assumption|]. split; [|split; [lia | split; [|lia]]].
    + intros x y Hx Hy'. unfold row_source. rewrite Hkeep. cbn [repeat app].
      rewrite <- seq_app. replace (p + (Z.to_nat H - p))%nat with (Z.to_nat H)
        by (unfold p; lia).
      rewrite (nth_indep _ None (Some 0%nat)) by (rewrite length_map, length_seq; lia).
      rewrite map_nth, seq_nth by lia. reflexivity.
    + rewrite Hkeep, length_seq. lia.
  - rewrite range_length. lia.
  - rewrite range_length in Hd.
    unfold clearing in Hinv. destruct Hinv as (Hs & Hcells & Hn & Hcount & _).
    set (p := Z.to_nat (Z.min H (Z.max 0 (cy - Z.of_nat c + 1)))) in *.
    destruct (row_source_final (Z.to_nat H) written c p) as [Hsrc Hlen].
    { unfold p; lia. }
    { intros y Hyp. apply Hout; unfold p in *; lia. }
    assert (Hc : c = count_full_rows (Z.to_nat H) written).
    { unfold count_full_rows. rewrite Hlen. unfold p in *. lia. }
    exists cy. transitivity (Ok (g, n, cy)); [exact E|]. do 3 f_equal.
    + apply (grid_ext W H); [assumption | now apply remove_full_rows_shape |].
      intros x y Hx Hy'. rewrite Hcells by assumption.
      rewrite (at_cell_remove_full_rows W H) by assumption.
      now rewrite Hsrc, Hc.
    + now rewrite Hn, Hc.
Qed.

(** *** Spawning the next piece *)

Lemma In_firstn {A} (n : nat) (l : list A) (a : A) : In a (firstn n l) -> In a l.
Proof. intros Hin. rewrite <- (firstn_skipn n l). apply in_or_app. now left. Qed.

Lemma In_skipn {A} (n : nat) (l : list A) (a : A) : In a (skipn n l) -> In a l.
Proof. intros Hin. rewrite <- (firstn_skipn n l). apply in_or_app. now right. Qed.

Lemma pop_at_total {A} (l : list A) (i : Z) :
  - len l <= i < len l ->
  exists l', pop_at l i = Ok l'
             /\ S (length l') = length l
             /\ (forall a, In a l' -> In a l).
Proof.
  intros Hi. unfold pop_at.
  set (j := if i <? 0 then i + len l else i).
  assert (Hj : 0 <= j < len l) by (unfold j; destruct (Z.ltb_spec i 0); lia).
  replace ((0 <=? j) && (j <? len l)) with true by zb.
  eexists. split; [reflexivity|]. unfold len in Hj. split.
  - rewrite length_app, length_firstn, length_skipn. lia.
  - intros a Hin. apply in_app_or in Hin.
    destruct Hin as [Hin | Hin]; [eapply In_firstn | eapply In_skipn]; eauto.
Qed.

Lemma getitem_wrap_total {A} (l : list A) (i : Z) :
  - len l <= i < len l -> exists a, getitem l i = Ok a.
Proof.
  intros Hi. unfold getitem.
  set (j := if i <? 0 then i + len l else i).
  assert (Hj : 0 <= j < len l) by (unfold j; destruct (Z.ltb_spec i 0); lia).
  replace ((0 <=? j) && (j <? len l)) with true by zb.
  destruct (nth_error l (Z.to_nat j)) eqn:E; [eauto|].
  apply nth_error_None in E. unfold len in Hj. lia.
Qed.

Lemma fill_tetromino_seq_total {G} `{RandomGen G} (T : Geometry) :
  RandomGenLaws G -> table_ready T ->
  forall (fuel : nat) (id_list : list Z) (seq : list Tetromino.t) (g : G),
    fuel = length id_list ->
    (forall id, In id id_list -> 1 <= id <= unique_types T) ->
    exists seq' g',
      Tetris.fill_tetromino_seq T fuel id_list seq g = Ok (seq', g')
      /\ length seq' = (length seq + length id_list)%nat.
Proof.
  intros Hlaws [_ Htable]. induction fuel as [|fuel IH]; intros id_list seq g Hfuel Hids.
  - destruct id_list; [|discriminate]. exists seq, g. split; [reflexivity | simpl; lia].
  - destruct id_list as [|id0 ids]; [discriminate|].
    cbn [Tetris.fill_tetromino_seq].
    rewrite len_cons. pose proof (len_nonneg ids) as Hl0.
    replace (negb (len ids + 1 =? 0)) with true by (symmetry; apply negb_true_iff; zb).
    rewrite randint_Ok by lia.
    pose proof (next_int_range G Hlaws 0 (len ids + 1 - 1) g ltac:(lia)) as Hr.
    destruct (next_int 0 (len ids + 1 - 1) g) as [rand_idx g1]. cbn [fst] in Hr.
    cbn [bind].
    destruct (getitem_wrap_total (id0 :: ids) rand_idx) as (id & Eid);
      [rewrite len_cons; lia|].
    rewrite Eid. cbn [bind].
    destruct (pop_at_total (id0 :: ids) rand_idx) as (ids' & Epop & Hlen & Hsub);
      [rewrite len_cons; lia|].
    rewrite Epop. cbn [bind].
    destruct (Htable id) as (tm & Etm & _); [apply Hids; eapply getitem_In; eauto|].
    rewrite Etm. cbn [bind].
    destruct (IH ids' (seq ++ [Tetromino.with_y_pos
                                 (Tetromino.with_x_pos tm
                                    ((Tetromino.max_x tm - Tetromino.min_x tm) / 2))
                                 (Tetromino.min_y
                                    (Tetromino.with_x_pos tm
                                       ((Tetromino.max_x tm - Tetromino.min_x tm) / 2)))])
                 g1) as (seq' & g' & E & Hlen').
    + simpl in Hlen, Hfuel. lia.
    + intros id' Hin. apply Hids. auto.
    + exists seq', g'. split; [exact E|].
      rewrite Hlen', length_app. simpl in *. lia.
Qed.

Lemma generate_tetromino_seq_total {G} `{RandomGen G} (T : Geometry) (g : G) :
  RandomGenLaws G -> table_ready T ->
  exists seq g', Tetris.generate_tetromino_seq T g = Ok (seq, g') /\ seq <> [].
Proof.
  intros Hlaws Htable. unfold Tetris.generate_tetromino_seq.
  destruct (fill_tetromino_seq_total T Hlaws Htable
              (length (range 1 (unique_types T + 1))) (range 1 (unique_types T + 1)) [] g)
    as (seq & g' & E & Hlen); [reflexivity | |].
  - intros id Hin. apply In_range in Hin. lia.
  - exists seq, g'. split; [assumption|].
    intros ->. destruct Htable as [Hpos _].
    unfold range in Hlen. rewrite range_from_length in Hlen. simpl in Hlen. lia.
Qed.

Lemma is_colliding_total (W H : Z) (grid : list (list Z)) (tm : Tetromino.t) :
  grid_shape W H grid -> mask_readable tm -> exists b, is_colliding grid tm = Ok b.
Proof.
  intros Hshape Hmask. unfold is_colliding.
  assert (Hany : forall {A} (f : A -> result bool) (l : list A),
             (forall a, In a l -> exists b, f a = Ok b) -> exists b, anyM f l = Ok b).
  { intros A f l. induction l as [|a l IH]; intros Hf; simpl; [eauto|].
    destruct (Hf a (or_introl eq_refl)) as (b & Eb). rewrite Eb. cbn [bind].
    destruct b; [eauto|]. apply IH. intros; apply Hf; now right. }
  apply Hany. intros x Hx. apply In_range in Hx.
  apply Hany. intros y Hy. apply In_range in Hy.
  destruct (Hmask x y Hx Hy) as (b & Eb). rewrite Eb. cbn [bind].
  destruct b; [|eauto].
  destruct (_ || _) eqn:Hb; [eauto|].
  apply orb_false_iff in Hb; destruct Hb as [Hb Hb3].
  apply orb_false_iff in Hb; destruct Hb as [Hb1 Hb2].
  pose proof Hshape as [HW _].
  destruct (getitem_total grid 0) as (col0 & Ec0); [lia|].
  rewrite Ec0. cbn [bind].
  pose proof (grid_shape_col0 W H grid col0 Hshape Ec0) as Hlen0.
  destruct (len col0 <=? y + Tetromino.y_pos tm) eqn:Hb4; [eauto|].
  rewrite (cell_at W H) by (assumption || lia). cbn [bind]. eauto.
Qed.

(** Removing the full rows leaves no full row. *)
Lemma remove_full_rows_no_full_row (W H : Z) (written : list (list Z)) :
  grid_shape W H written -> 0 < W ->
  no_full_row H (remove_full_rows (Z.to_nat H) written).
Proof.
  intros Hshape HW y Hy.
  assert (Hlen : length written = Z.to_nat W)
    by (destruct Hshape as [<- _]; unfold len; lia).
  assert (Hlen' : length (remove_full_rows (Z.to_nat H) written) = Z.to_nat W)
    by (unfold remove_full_rows; now rewrite length_map).
  set (k := count_full_rows (Z.to_nat H) written).
  set (kept := kept_rows (Z.to_nat H) written).
  assert (Hk : (k + length kept = Z.to_nat H)%nat).
  { unfold k, count_full_rows. fold kept.
    assert (length kept <= Z.to_nat H)%nat; [|lia].
    unfold kept, kept_rows. etransitivity; [apply filter_length_le|].
    now rewrite length_seq. }
  destruct (Nat.lt_ge_cases y k) as [Hlt | Hge].
  - apply full_rowb_zero_row; [lia|]. intros x Hx.
    rewrite (at_cell_remove_full_rows W H) by (assumption || lia).
    fold k kept. rewrite app_nth1 by (rewrite repeat_length; lia).
    now rewrite nth_repeat.
  - assert (Hin : In (nth (y - k) kept 0%nat) kept) by (apply nth_In; lia).
    unfold kept, kept_rows in Hin. apply filter_In in Hin. destruct Hin as [_ Hnf].
    apply negb_true_iff in Hnf. rewrite <- Hnf.
    apply full_rowb_ext; [lia|]. intros x Hx.
    rewrite (at_cell_remove_full_rows W H) by (assumption || lia).
    fold k kept. rewrite app_nth2 by (rewrite repeat_length; lia).
    rewrite repeat_length.
    rewrite (nth_indep _ None (Some 0%nat)) by (rewrite length_map; lia).
    rewrite map_nth. reflexivity.
Qed.

Lemma len_pos_nonempty {A} (l : list A) : l <> [] -> 1 <= len l.
Proof. destruct l; [congruence|]. intros _. rewrite len_cons. pose proof (len_nonneg l). lia. Qed.

(** C3. Locking the current piece on a board with no full row:
    [place_tetromino] returns.  With [written] the board after the cells
    under the filled mask cells of the piece have received its id (every
    other cell as before), the grid it leaves is [written] minus every row
    that is full in it (the rows above a removed row one lower each, zero
    rows on top), and the lines-cleared counter has grown by the number of
    rows removed. *)
Theorem place_tetromino_clears_lines :
  forall (G : Type) (RG : RandomGen G) (T : Geometry) (self : Tetris.t) (g : G)
         (tm : Tetromino.t) (W H : Z),
    RandomGenLaws G -> table_ready T ->
    Tetris.current_tmino self = Some tm ->
    Tetris.grid_width self = W -> Tetris.grid_height self = H -> 0 < W ->
    grid_shape W H (Tetris.grid self) ->
    no_full_row H (Tetris.grid self) ->
    mask_readable tm -> 0 <= Tetromino.size tm -> - H <= Tetromino.y_pos tm ->
    mask_readable (Tetris.next_tmino self) ->
    exists written self' g',
      grid_shape W H written
      /\ (forall x y : nat, Z.of_nat x < W -> Z.of_nat y < H ->
            at_cell written x y
            = if covers tm (Z.of_nat x) (Z.of_nat y) then Tetromino.id tm
              else at_cell (Tetris.grid self) x y)
      /\ Tetris.place_tetromino T self g = Ok (self', g')
      /\ Tetris.grid self' = remove_full_rows (Z.to_nat H) written
      /\ Tetris.lines_cleared self'
         = Tetris.lines_cleared self + Z.of_nat (count_full_rows (Z.to_nat H) written).
Proof.
  intros G RG T self g tm W H Hlaws Htable Hcur HW HH HWpos Hshape Hnofull
         Hmask Hsize Hypos Hnext.
  destruct (write_tetromino_cells W H (Tetris.grid self) tm Hshape Hmask)
    as (written & Ew & Hsw & Hcells).
  destruct (write_tetromino_spec W H (Tetris.grid self) tm Hshape Hmask)
    as (written' & Ew' & _ & Hout).
  assert (written' = written) by congruence. subst written'. clear Ew'.
  assert (HH0 : 0 <= H).
  { pose proof (grid_shape_nth W H written 0 Hsw ltac:(lia)) as Hc.
    rewrite <- Hc. apply len_nonneg. }
  destruct (clear_lines_spec W H written (Tetris.lines_cleared self)
              (Tetromino.y_pos tm) (Tetromino.size tm) Hsw HWpos Hsize Hypos)
    as (cy' & Ec).
  { intros y Hy Hspan.
    rewrite (full_rowb_outside_span W H (Tetris.grid self) written) by auto.
    now apply Hnofull. }
  pose proof (remove_full_rows_shape W H written Hsw HH0) as Hsg.
  destruct (is_colliding_total W H _ (Tetris.next_tmino self) Hsg Hnext)
    as (colliding & Ecol).
  assert (Hseq : exists seq g1,
             (if len (Tetris.tmino_seq self) =? 0
              then Tetris.generate_tetromino_seq T g
              else Ok (Tetris.tmino_seq self, g)) = Ok (seq, g1)
             /\ seq <> []).
  { destruct (Z.eqb_spec (len (Tetris.tmino_seq self)) 0) as [Hz | Hnz].
    - now apply generate_tetromino_seq_total.
    - exists (Tetris.tmino_seq self), g. split; [reflexivity|].
      intros Hnil. rewrite Hnil in Hnz. now apply Hnz. }
  destruct Hseq as (seq & g1 & Eseq & Hne).
  pose proof (len_pos_nonempty seq Hne) as Hlen.
  destruct (getitem_wrap_total seq (-1)) as (next & Enext); [lia|].
  destruct (pop_at_total seq (-1)) as (seq' & Epop & _); [lia|].
  exists written.
  unfold Tetris.place_tetromino. rewrite Hcur, HW, HH, Ew. cbn [bind].
  rewrite Ec. cbn [bind]. rewrite Eseq. cbn [bind].
  rewrite Enext. cbn [bind]. rewrite Epop. cbn [bind]. rewrite Ecol. cbn [bind].
  destruct colliding; eexists; eexists; (split; [exact Hsw|]);
    (split; [exact Hcells|]); (split; [reflexivity|]); split; reflexivity.
Qed.

Lemma ScriptGen_laws : RandomGenLaws (list Q * list Z).
Proof.
  split.
  - intros [qs zs]. unfold next_float, ScriptGen. cbn [fst snd].
    destruct qs as [|q qs]; cbn [fst]; [split; [discriminate | reflexivity]|].
    destruct (Qle_bool 0 q && negb (Qle_bool 1 q)) eqn:Hq;
      [|split; [discriminate | reflexivity]].
    apply andb_true_iff in Hq. destruct Hq as [H0 H1].
    apply Qle_bool_iff in H0. apply negb_true_iff in H1.
    split; [assumption|]. apply Qnot_le_lt. intros Hle.
    apply Qle_bool_iff in Hle. congruence.
  - intros a b [qs zs] Hab. unfold next_int, ScriptGen. cbn [fst snd].
    destruct zs as [|z zs]; cbn [fst]; [lia|].
    pose proof (Z.mod_pos_bound z (b - a + 1) ltac:(lia)). lia.
Qed.

Lemma block_piece_readable (x y : Z) :
  mask_readable (Tetromino.with_y_pos (Tetromino.with_x_pos block_piece x) y).
Proof.
  intros cx cy Hx Hy. cbn in Hx, Hy.
  assert (Hcx : cx = 0 \/ cx = 1) by lia. assert (Hcy : cy = 0 \/ cy = 1) by lia.
  destruct Hcx as [-> | ->]; destruct Hcy as [-> | ->]; eexists; reflexivity.
Qed.

Lemma block_geometry_ready : table_ready block_geometry.
Proof.
  split; [cbn; lia|]. intros id Hid. cbn in Hid.
  assert (id = 1) as -> by lia.
  exists block_piece. split; [reflexivity|]. apply (block_piece_readable 0 0).
Qed.

(** Witness of C3: the block completes the two bottom rows of the sample
    game. *)
Lemma place_tetromino_clears_lines_witness :
  exists written self' g',
    grid_shape 4 4 written
    /\ (forall x y : nat, Z.of_nat x < 4 -> Z.of_nat y < 4 ->
          at_cell written x y
          = if covers (Tetromino.with_y_pos block_piece 2) (Z.of_nat x) (Z.of_nat y)
            then Tetromino.id (Tetromino.with_y_pos block_piece 2)
            else at_cell (Tetris.grid sample_game) x y)
    /\ Tetris.place_tetromino block_geometry sample_game (@nil Q, @nil Z) = Ok (self', g')
    /\ Tetris.grid self' = remove_full_rows (Z.to_nat 4) written
    /\ Tetris.lines_cleared self'
       = Tetris.lines_cleared sample_game
         + Z.of_nat (count_full_rows (Z.to_nat 4) written).
Proof.
  apply (place_tetromino_clears_lines _ ScriptGen block_geometry sample_game ([], [])
           (Tetromino.with_y_pos block_piece 2) 4 4).
  - exact ScriptGen_laws.
  - exact block_geometry_ready.
  - reflexivity.
  - reflexivity.
  - reflexivity.
  - lia.
  - split; [reflexivity | repeat constructor].
  - intros y Hy.
    assert (Hcases : (y = 0 \/ y = 1 \/ y = 2 \/ y = 3)%nat) by lia.
    destruct Hcases as [-> | [-> | [-> | ->]]]; reflexivity.
  - apply (block_piece_readable 0 2).
  - cbn; lia.
  - cbn; lia.
  - apply (block_piece_readable 0 0).
Defined.

(** What the lock of the witness computes: both rows go, two lines are
    counted. *)
Lemma place_tetromino_sample :
  exists self' g',
    Tetris.place_tetromino block_geometry sample_game (@nil Q, @nil Z) = Ok (self', g')
    /\ Tetris.grid self' = repeat (repeat 0 4) 4
    /\ Tetris.lines_cleared self' = 2.
Proof. do 2 eexists. split; [vm_compute; reflexivity|]. split; reflexivity. Qed.

(** A new game starts from a board with no full row, of the shape asked. *)
Lemma Tetris_new_grid {G} {RG : RandomGen G} (T : Geometry) (W H : Z) (g g' : G)
    (game : Tetris.t) :
  0 < W -> 0 <= H -> Tetris.new T W H g = Ok (game, g') ->
  grid_shape W H (Tetris.grid game) /\ no_full_row H (Tetris.grid game).
Proof.
  intros HW HH Hnew. unfold Tetris.new in Hnew.
  inv_bind Hnew. destruct r as [seq g1].
  inv_bind Hnew. inv_bind Hnew. inv_bind Hnew. inv_bind Hnew.
  inversion Hnew; subst; clear Hnew. cbn [Tetris.grid]. split.
  - split.
    + unfold len. rewrite length_map. fold (len (range 0 W)). rewrite range_length. lia.
    + apply Forall_map, Forall_forall. intros x _. unfold len. rewrite repeat_length. lia.
  - intros y Hy. apply full_rowb_zero_row.
    + rewrite length_map. unfold range. rewrite range_from_length. lia.
    + intros x Hx. unfold at_cell.
      rewrite (nth_indep _ [] ((fun _ : Z => repeat 0 (Z.to_nat H)) 0)) by assumption.
      rewrite (map_nth (fun _ : Z => repeat 0 (Z.to_nat H)) (range 0 W) 0 x).
      apply nth_repeat.
Qed.

(** ** C4: the elitist half of a new generation *)

(** *** Ranking *)

Lemma insert_by_key_perm (e : Z * Z) (l : list (Z * Z)) :
  Permutation (insert_by_key e l) (e :: l).
Proof.
  induction l as [|h t IH]; simpl; [reflexivity|].
  destruct (fst e <=? fst h); [reflexivity|].
  rewrite IH. apply perm_swap.
Qed.

Lemma sort_by_key_perm (l : list (Z * Z)) : Permutation (sort_by_key l) l.
Proof.
  induction l as [|e l IH]; simpl; [reflexivity|].
  rewrite insert_by_key_perm. now constructor.
Qed.

Lemma insert_by_key_sorted (e : Z * Z) (l : list (Z * Z)) :
  StronglySorted (fun a b => fst a <= fst b) l ->
  StronglySorted (fun a b => fst a <= fst b) (insert_by_key e l).
Proof.
  induction 1 as [|h t Hs IH Hh]; simpl; [repeat constructor|].
  destruct (Z.leb_spec (fst e) (fst h)) as [Hle | Hgt].
  - constructor; [now constructor|].
    constructor; [assumption|].
    rewrite Forall_forall in Hh |- *. intros x Hx. specialize (Hh x Hx). lia.
  - constructor; [assumption|].
    rewrite Forall_forall in Hh |- *. intros x Hx.
    apply (Permutation_in _ (insert_by_key_perm e t)) in Hx.
    destruct Hx as [<- | Hx]; [lia | auto].
Qed.

Lemma sort_by_key_sorted (l : list (Z * Z)) :
  StronglySorted (fun a b => fst a <= fst b) (sort_by_key l).
Proof.
  induction l as [|e l IH]; simpl; [constructor | now apply insert_by_key_sorted].
Qed.

Lemma StronglySorted_rev {A} (R : A -> A -> Prop) (l : list A) :
  StronglySorted R l -> StronglySorted (fun a b => R b a) (rev l).
Proof.
  induction 1 as [|h t Hs IH Hh]; simpl; [constructor|].
  assert (Hsnoc : forall l', StronglySorted (fun a b => R b a) l' ->
                    Forall (fun x => R h x) l' ->
                    StronglySorted (fun a b => R b a) (l' ++ [h])).
  { induction 1 as [|h' t' Hs' IH' Hh']; intros Hall; simpl; [repeat constructor|].
    inversion Hall; subst.
    constructor; [auto|]. apply Forall_app. split; [assumption | now repeat constructor]. }
  apply Hsnoc; [assumption|]. now apply Forall_rev.
Qed.

Lemma map_snd_combine {A B} (a : list A) (b : list B) :
  length a = length b -> map snd (combine a b) = b.
Proof.
  revert b; induction a as [|x a IH]; intros [|y b] Hlen; simpl in *; try congruence.
  f_equal. apply IH. lia.
Qed.

Lemma fitness_of_entries (instances : list Tetris.t) :
  Forall (fun e => exists inst, getitem instances (snd e) = Ok inst
                                /\ fst e = Tetris.lines_cleared inst)
         (Tetro.fitness_of instances).
Proof.
  unfold Tetro.fitness_of, range, len. rewrite Z.sub_0_r, Nat2Z.id.
  apply Forall_forall. intros [n i] Hin.
  destruct (In_nth _ _ (0, 0) Hin) as (k & Hk & Hnth).
  rewrite length_combine, length_map, range_from_length, Nat.min_id in Hk.
  rewrite combine_nth in Hnth by (now rewrite length_map, range_from_length).
  inversion Hnth as [[Hn Hi]]. cbn [fst snd].
  assert (Hik : nth k (range_from 0 (length instances)) 0 = Z.of_nat k).
  { apply nth_error_nth. now rewrite nth_error_range_from. }
  rewrite Hik.
  destruct instances as [|d instances]; [simpl in Hk; lia|].
  exists (nth k (d :: instances) d). split.
  - rewrite (getitem_nth _ _ d) by (unfold len; lia). now rewrite Nat2Z.id.
  - rewrite (nth_indep _ 0 (Tetris.lines_cleared d)) by (now rewrite length_map).
    now rewrite map_nth.
Qed.

(** The order in which [next_generation] takes the instances is a
    ranking by lines cleared. *)
Lemma ranked_ranking (instances : list Tetris.t) :
  ranking_of instances (Tetro.ranked instances).
Proof.
  unfold ranking_of, Tetro.ranked. repeat split.
  - rewrite map_rev, <- Permutation_rev.
    rewrite (Permutation_map snd (sort_by_key_perm _)).
    unfold Tetro.fitness_of. rewrite map_snd_combine; [reflexivity|].
    rewrite length_map. unfold range. rewrite range_from_length. unfold len. lia.
  - apply (StronglySorted_rev (fun a b => fst a <= fst b)). apply sort_by_key_sorted.
  - apply Forall_rev.
    eapply Permutation_Forall; [symmetry; apply sort_by_key_perm|].
    apply fitness_of_entries.
Qed.

(** *** What the AI operations do to the store *)

Lemma store_set_next_loc l v st : next_loc (store_set l v st) = next_loc st.
Proof. apply update_nth_length. Qed.

Lemma fill_weights_frame {G} {RG : RandomGen G} (l : loc) (n : Z)
    (st st' : Store) (g g' : G) :
  TetrisAI.fill_weights l n (st, g) = Ok (st', g') ->
  next_loc st' = next_loc st /\ forall l', l' <> l -> cells st' l' = cells st l'.
Proof.
  unfold TetrisAI.fill_weights. cbn [fst].
  destruct (len (cells st l) =? 0); [|intros [= <- <-]; auto].
  intros Hf.
  apply (foldM_invariant
           (fun w : Store * G =>
              next_loc (fst w) = next_loc st
              /\ forall l', l' <> l -> cells (fst w) l' = cells st l')
           _ _) with (s := (st, g)) (s' := (st', g')) in Hf; [exact Hf| |simpl; auto].
  intros [st1 g1] i [st2 g2] _ [Hn Ho] Hstep. cbn [fst] in *.
  inv_bind Hstep. destruct r as [v g1']. inversion Hstep; subst; clear Hstep. split.
  - now rewrite store_set_next_loc.
  - intros l' Hl'. rewrite store_set_other by assumption. auto.
Qed.

Lemma new_frame {G} {RG : RandomGen G} (W H : Z) (l1 l2 l3 : loc)
    (st st' : Store) (g g' : G) (ai : TetrisAI.t) :
  TetrisAI.new W H l1 l2 l3 (st, g) = Ok (ai, (st', g')) ->
  ai_locs ai = [l1; l2; l3]
  /\ next_loc st' = next_loc st
  /\ forall l, ~ In l [l1; l2; l3] -> cells st' l = cells st l.
Proof.
  unfold TetrisAI.new. intros Hn.
  inv_bind Hn. destruct r as [st1 g1].
  inv_bind Hn. destruct r as [st2 g2].
  inv_bind Hn. destruct r as [st3 g3].
  inversion Hn; subst; clear Hn.
  destruct (fill_weights_frame _ _ _ _ _ _ E) as [N1 O1].
  destruct (fill_weights_frame _ _ _ _ _ _ E0) as [N2 O2].
  destruct (fill_weights_frame _ _ _ _ _ _ E1) as [N3 O3].
  split; [reflexivity|]. split; [congruence|].
  intros l Hl. simpl in Hl.
  rewrite O3, O2, O1 by (intros ->; tauto). reflexivity.
Qed.

Lemma alloc3_frame (v1 v2 v3 : list Q) (st st1 st2 st3 : Store) (l1 l2 l3 : loc) :
  alloc v1 st = (l1, st1) -> alloc v2 st1 = (l2, st2) -> alloc v3 st2 = (l3, st3) ->
  [l1; l2; l3] = [next_loc st; next_loc st + 1; next_loc st + 2]%nat
  /\ next_loc st3 = (next_loc st + 3)%nat
  /\ cells st3 l1 = v1 /\ cells st3 l2 = v2 /\ cells st3 l3 = v3
  /\ forall l, (l < next_loc st)%nat -> cells st3 l = cells st l.
Proof.
  intros E1 E2 E3.
  destruct (alloc_spec _ _ _ _ E1) as (Hl1 & Hn1 & Hv1 & Ho1).
  destruct (alloc_spec _ _ _ _ E2) as (Hl2 & Hn2 & Hv2 & Ho2).
  destruct (alloc_spec _ _ _ _ E3) as (Hl3 & Hn3 & Hv3 & Ho3).
  repeat split.
  - subst. repeat f_equal; lia.
  - lia.
  - rewrite Ho3, Ho2 by lia. exact Hv1.
  - rewrite Ho3 by lia. exact Hv2.
  - exact Hv3.
  - intros l Hl. rewrite Ho3, Ho2, Ho1 by lia. reflexivity.
Qed.

(** [clone] of an AI built by [__init__]: three new list objects with
    the same contents, nothing else touched, no random draw. *)
Lemma clone_spec {G} {RG : RandomGen G} (ai : TetrisAI.t) (st : Store) (g : G) :
  ai_allocated st ai -> ai_constructed st ai ->
  exists c st',
    TetrisAI.clone ai (st, g) = Ok (c, (st', g))
    /\ ai_locs c = [next_loc st; next_loc st + 1; next_loc st + 2]%nat
    /\ next_loc st' = (next_loc st + 3)%nat
    /\ same_weights st ai st' c
    /\ forall l, (l < next_loc st)%nat -> cells st' l = cells st l.
Proof.
  intros (HA1 & HA2 & HA3) (HC1 & HC2 & HC3). unfold TetrisAI.clone.
  destruct (alloc _ st) as [l1 st1] eqn:Ea1.
  destruct (alloc_spec _ _ _ _ Ea1) as (Hl1 & Hn1 & Hv1 & Ho1).
  rewrite !Ho1 by lia.
  destruct (alloc _ st1) as [l2 st2] eqn:Ea2.
  destruct (alloc_spec _ _ _ _ Ea2) as (Hl2 & Hn2 & Hv2 & Ho2).
  rewrite !Ho2, !Ho1 by lia.
  destruct (alloc _ st2) as [l3 st3] eqn:Ea3.
  destruct (alloc3_frame _ _ _ _ _ _ _ _ _ _ Ea1 Ea2 Ea3)
    as (Hlocs & Hn & C1 & C2 & C3 & Hold).
  unfold TetrisAI.new.
  rewrite fill_weights_skip
    by (cbn [fst]; rewrite C1; destruct HC1; [left | right]; assumption).
  cbn [bind]. rewrite fill_weights_skip by (left; cbn [fst]; now rewrite C2).
  cbn [bind]. rewrite fill_weights_skip by (left; cbn [fst]; now rewrite C3).
  cbn [bind]. do 2 eexists. split; [reflexivity|].
  split; [exact Hlocs|]. split; [exact Hn|]. split; [|exact Hold].
  unfold same_weights. cbn. auto.
Qed.

Lemma crossover_frame {G} {RG : RandomGen G} (A B child : TetrisAI.t)
    (st st' : Store) (g g' : G) :
  TetrisAI.crossover A B (st, g) = Ok (child, (st', g')) ->
  ai_locs child = [next_loc st; next_loc st + 1; next_loc st + 2]%nat
  /\ next_loc st' = (next_loc st + 3)%nat
  /\ forall l, (l < next_loc st)%nat -> cells st' l = cells st l.
Proof.
  unfold TetrisAI.crossover. intros Hc.
  inv_bind Hc. destruct r as [idx1 g1].
  destruct (alloc _ st) as [l1 st1] eqn:Ea1.
  inv_bind Hc. destruct r as [idx2 g2].
  destruct (alloc _ st1) as [l2 st2] eqn:Ea2.
  inv_bind Hc. destruct r as [idx3 g3].
  destruct (alloc _ st2) as [l3 st3] eqn:Ea3.
  destruct (alloc3_frame _ _ _ _ _ _ _ _ _ _ Ea1 Ea2 Ea3)
    as (Hlocs & Hn & _ & _ & _ & Hold).
  destruct (new_frame _ _ _ _ _ _ _ _ _ _ Hc) as (Hl & Hn' & Ho).
  split; [congruence|]. split; [lia|].
  intros l Hl'. rewrite Ho; [now apply Hold|].
  rewrite Hlocs. simpl. lia.
Qed.

Lemma mutate_list_next_loc {G} {RG : RandomGen G} (l : loc) (n : Z) (rate : Q)
    (st st' : Store) (g g' : G) :
  TetrisAI.mutate_list l n rate (st, g) = Ok (st', g') -> next_loc st' = next_loc st.
Proof.
  unfold TetrisAI.mutate_list. intros Hm.
  apply (foldM_invariant (fun w : Store * G => next_loc (fst w) = next_loc st) _ _)
    with (s := (st, g)) (s' := (st', g')) in Hm; [exact Hm| |reflexivity].
  intros [st1 g1] i [st2 g2] _ Hn Hstep. cbn [fst] in *.
  inv_bind Hstep. destruct r as [u g1']. destruct (Qle_bool u rate).
  - inv_bind Hstep. destruct r as [v g1'']. inv_bind Hstep.
    inversion Hstep; subst. now rewrite store_set_next_loc.
  - inversion Hstep; subst. assumption.
Qed.

(** [mutate] writes the three lists of its AI and nothing else. *)
Lemma mutate_frame {G} {RG : RandomGen G} (ai : TetrisAI.t) (rate : Q)
    (st st' : Store) (g g' : G) :
  TetrisAI.mutate ai rate (st, g) = Ok (st', g') ->
  next_loc st' = next_loc st
  /\ forall l, ~ In l (ai_locs ai) -> cells st' l = cells st l.
Proof.
  unfold TetrisAI.mutate. intros Hm.
  inv_bind Hm. destruct r as [st1 g1].
  inv_bind Hm. destruct r as [st2 g2].
  pose proof (mutate_list_next_loc _ _ _ _ _ _ _ E) as N1.
  pose proof (mutate_list_next_loc _ _ _ _ _ _ _ E0) as N2.
  pose proof (mutate_list_next_loc _ _ _ _ _ _ _ Hm) as N3.
  destruct (mutate_list_frame _ _ _ _ _ _ _ E) as [O1 _].
  destruct (mutate_list_frame _ _ _ _ _ _ _ E0) as [O2 _].
  destruct (mutate_list_frame _ _ _ _ _ _ _ Hm) as [O3 _].
  split; [congruence|].
  intros l Hl. unfold ai_locs in Hl. simpl in Hl.
  rewrite O3, O2, O1 by (intros ->; tauto). reflexivity.
Qed.

Lemma getitem_last {A} (l : list A) (a : A) : getitem (l ++ [a]) (-1) = Ok a.
Proof.
  unfold getitem. cbn [Z.ltb Z.compare].
  assert (Hlen : len (l ++ [a]) = len l + 1)
    by (unfold len; rewrite length_app; simpl; lia).
  rewrite Hlen. pose proof (len_nonneg l) as Hl.
  replace ((0 <=? -1 + (len l + 1)) && (-1 + (len l + 1) <? len l + 1)) with true by zb.
  replace (Z.to_nat (-1 + (len l + 1))) with (length l) by (unfold len; lia).
  now rewrite nth_error_app2, Nat.sub_diag by lia.
Qed.

Lemma laid_out_snoc (n0 : loc) (ais : list TetrisAI.t) (ai : TetrisAI.t) :
  laid_out n0 ais ->
  ai_locs ai = [n0 + 3 * length ais; n0 + 3 * length ais + 1;
                n0 + 3 * length ais + 2]%nat ->
  laid_out n0 (ais ++ [ai]).
Proof.
  intros Hl Hai k a Hk.
  destruct (Nat.lt_ge_cases k (length ais)) as [Hlt | Hge].
  - rewrite nth_error_app1 in Hk by assumption. auto.
  - rewrite nth_error_app2 in Hk by assumption.
    destruct (k - length ais)%nat as [|m] eqn:Ek; simpl in Hk.
    + inversion Hk; subst. replace k with (length ais) by lia. assumption.
    + destruct m; discriminate.
Qed.

(** The crossover loop of [next_generation]: it only appends, each child
    on three new list objects, and leaves the objects that existed on its
    entry as they were. *)
Lemma breed_spec {G} {RG : RandomGen G} (n0 : loc) (self : Tetro.t)
    (highest_scores : list (Z * Z)) :
  forall (fuel : nat) (new_ais final : list TetrisAI.t) (st st' : Store) (g g' : G),
    laid_out n0 new_ais -> next_loc st = (n0 + 3 * length new_ais)%nat ->
    Tetro.breed fuel self highest_scores new_ais (st, g) = Ok (final, (st', g')) ->
    len final = Tetro.population_size self
    /\ laid_out n0 final
    /\ (exists extra, final = new_ais ++ extra)
    /\ forall l, (l < next_loc st)%nat -> cells st' l = cells st l.
Proof.
  induction fuel as [|fuel IH]; intros new_ais final st st' g g' Hlay Hnext Hb;
    cbn [Tetro.breed] in Hb.
  - destruct (Z.eqb_spec (len new_ais) (Tetro.population_size self)) as [Heq | Hne];
      cbn [negb] in Hb; [|discriminate].
    inversion Hb; subst. repeat split; auto. exists []. now rewrite app_nil_r.
  - destruct (Z.eqb_spec (len new_ais) (Tetro.population_size self)) as [Heq | Hne];
      cbn [negb] in Hb.
    { inversion Hb; subst. repeat split; auto. exists []. now rewrite app_nil_r. }
    inv_bind Hb. destruct r as [idx1 g1].
    inv_bind Hb. destruct r as [idx2 g2].
    inv_bind Hb. inv_bind Hb. inv_bind Hb. inv_bind Hb.
    inv_bind Hb. destruct r3 as [child [st1 g3]].
    inv_bind Hb. inv_bind Hb. destruct r4 as [st2 g4].
    rewrite getitem_last in E6. inversion E6; subst r3; clear E6.
    destruct (crossover_frame _ _ _ _ _ _ _ E5) as (Hlocs & Hn1 & Hold1).
    destruct (mutate_frame _ _ _ _ _ _ E7) as (Hn2 & Hold2).
    destruct (IH (new_ais ++ [child]) final st2 st' g4 g') as (Hlen & Hlay' & Hext & Hold);
      [| |exact Hb|].
    + apply laid_out_snoc; [assumption|]. rewrite Hlocs, Hnext.
      repeat f_equal; lia.
    + rewrite length_app. simpl. lia.
    + split; [assumption|]. split; [assumption|]. split.
      * destruct Hext as (extra & ->). exists (child :: extra).
        now rewrite <- app_assoc.
      * intros l Hl. rewrite Hold by lia.
        rewrite Hold2; [now apply Hold1|].
        rewrite Hlocs. simpl. lia.
Qed.

Lemma laid_out_independent (n0 : loc) (ais : list TetrisAI.t) :
  laid_out n0 ais ->
  independent_ais ais
  /\ Forall (fun ai => Forall (fun l => (n0 <= l)%nat) (ai_locs ai)) ais.
Proof.
  intros Hlay. split; [split|].
  - intros ai Hin. destruct (In_nth_error _ _ Hin) as (k & Hk).
    rewrite (Hlay k ai Hk).
    repeat constructor; simpl; lia.
  - intros i j ai aj l Hi Hj Hli Hlj.
    rewrite (Hlay i ai Hi) in Hli. rewrite (Hlay j aj Hj) in Hlj.
    simpl in Hli, Hlj. lia.
  - apply Forall_forall. intros ai Hin. destruct (In_nth_error _ _ Hin) as (k & Hk).
    rewrite (Hlay k ai Hk). repeat constructor; lia.
Qed.

(** A loop over [range] that returned, with an invariant that knows the
    loop variable. *)
Lemma foldM_range_from_inv {St} (P : Z -> St -> Prop) (f : St -> Z -> result St) (n : nat) :
  forall a,
    (forall i s s', a <= i < a + Z.of_nat n -> P i s -> f s i = Ok s' -> P (i + 1) s') ->
    forall s s', P a s -> foldM f (range_from a n) s = Ok s' -> P (a + Z.of_nat n) s'.
Proof.
  induction n as [|n IH]; intros a Hstep s s' Hs Hf.
  - inversion Hf; subst. now replace (a + Z.of_nat 0) with a by lia.
  - cbn [range_from foldM] in Hf. inv_bind Hf.
    replace (a + Z.of_nat (S n)) with (a + 1 + Z.of_nat n) by lia.
    apply (IH (a + 1)) with (s := r); [|apply (Hstep a s); auto; lia|assumption].
    intros i s0 s0' Hi. apply Hstep. lia.
Qed.

Lemma foldM_range_inv {St} (P : Z -> St -> Prop) (f : St -> Z -> result St) (a b : Z) :
  a <= b ->
  (forall i s s', a <= i < b -> P i s -> f s i = Ok s' -> P (i + 1) s') ->
  forall s s', P a s -> foldM f (range a b) s = Ok s' -> P b s'.
Proof.
  intros Hab Hstep s s' Hs Hf. unfold range in Hf.
  replace b with (a + Z.of_nat (Z.to_nat (b - a))) by lia.
  apply (foldM_range_from_inv P f (Z.to_nat (b - a)) a) with (s := s); auto.
  intros i s0 s0' Hi. apply Hstep. lia.
Qed.

Lemma same_weights_frame (st : Store) (old : TetrisAI.t) (st1 st2 : Store)
    (new : TetrisAI.t) :
  same_weights st old st1 new ->
  (forall l, In l (ai_locs new) -> cells st2 l = cells st1 l) ->
  same_weights st old st2 new.
Proof.
  intros (H1 & H2 & H3) Hframe. unfold same_weights, ai_locs in *. simpl in Hframe.
  rewrite !Hframe by auto. auto.
Qed.

Lemma laid_out_below (n0 : loc) (ais : list TetrisAI.t) (k : nat) (ai : TetrisAI.t) (l : loc) :
  laid_out n0 ais -> nth_error ais k = Some ai -> In l (ai_locs ai) ->
  (l < n0 + 3 * length ais)%nat.
Proof.
  intros Hlay Hk Hl. rewrite (Hlay k ai Hk) in Hl.
  assert (k < length ais)%nat by (apply nth_error_Some; congruence).
  simpl in Hl. lia.
Qed.

(** C4. One evolution step that returns, with population_size = 10 and
    selection_size = 4, from ten instances whose four best average more
    than 0.1 lines: the new population has exactly ten members, and for
    k = 0 .. 4 its k-th member holds, in three list objects of its own made
    during the step and shared with no other member, the very weights of the
    AI of the k-th instance in the ranking by lines cleared. *)
Theorem next_generation_elitism :
  forall (G : Type) (RG : RandomGen G) (T : Geometry) (fuel : nat)
         (self self' : Tetro.t) (st st' : Store) (g g' : G) (avg : Q),
    Tetro.population_size self = 10 -> Tetro.selection_size self = 4 ->
    len (Tetro.tetris_instances self) = 10 -> len (Tetro.tetris_ais self) = 10 ->
    Forall (fun ai => ai_allocated st ai /\ ai_constructed st ai) (Tetro.tetris_ais self) ->
    top_average self = Ok avg -> (1 # 10 < avg)%Q ->
    Tetro.next_generation T fuel self (st, g) = Ok (self', (st', g')) ->
    len (Tetro.tetris_ais self') = 10
    /\ ranking_of (Tetro.tetris_instances self) (Tetro.ranked (Tetro.tetris_instances self))
    /\ (forall k, 0 <= k < 5 ->
          exists fk old new,
            getitem (Tetro.ranked (Tetro.tetris_instances self)) k = Ok fk
            /\ getitem (Tetro.tetris_ais self) (snd fk) = Ok old
            /\ getitem (Tetro.tetris_ais self') k = Ok new
            /\ same_weights st old st' new)
    /\ independent_ais (Tetro.tetris_ais self')
    /\ Forall (fun ai => Forall (fun l => (next_loc st <= l)%nat) (ai_locs ai))
              (Tetro.tetris_ais self').
Proof.
  intros G RG T fuel self self' st st' g g' avg Hpop Hsel Hinst Hais Hwf Havg Hfloor Hng.
  pose proof (ranked_ranking (Tetro.tetris_instances self)) as Hrank.
  set (rk := Tetro.ranked (Tetro.tetris_instances self)) in *.
  destruct Hrank as (Hperm & Hsorted & Hentries).
  assert (Hrklen : len rk = 10).
  { unfold len. rewrite <- (length_map snd), (Permutation_length Hperm).
    fold (len (range 0 (len (Tetro.tetris_instances self)))).
    rewrite range_length, Hinst. reflexivity. }
  assert (Hrkin : forall k fk, getitem rk k = Ok fk -> 0 <= snd fk < 10).
  { intros k fk Hk. apply getitem_In in Hk.
    assert (Hin : In (snd fk) (map snd rk)) by (now apply in_map).
    apply (Permutation_in _ Hperm) in Hin. apply In_range in Hin. lia. }
  unfold Tetro.next_generation in Hng. fold rk in Hng.
  inv_bind_as Hng avg_all Eall. inv_bind_as Hng avg_most Emost.
  unfold top_average in Havg. fold rk in Havg. rewrite Havg in Emost.
  inversion Emost; subst avg_most; clear Emost.
  inv_bind_as Hng h0 Eh0. inv_bind_as Hng best Ebest. inv_bind_as Hng f0 Ef0.
  replace (Qle_bool avg (1 # 10)) with false in Hng.
  2:{ symmetry. apply not_true_is_false. intros Hle. apply Qle_bool_iff in Hle.
      now apply (Qlt_not_le _ _ Hfloor). }
  inv_bind_as Hng bred Ebred. destruct bred as [final [st6 g6]].
  inv_bind_as Ebred cloned Eelite. destruct cloned as [elites [st5 g5]].
  inv_bind_as Hng made Einst. destruct made as [instances g7].
  inversion Hng; subst; clear Hng. cbn [Tetro.tetris_ais].
  rewrite Hpop in *. change (10 / 2) with 5 in Eelite.
  set (n0 := next_loc st) in *.
  (* the elitist half *)
  apply (foldM_range_inv
           (fun i (s : list TetrisAI.t * (Store * G)) =>
              len (fst s) = i
              /\ laid_out n0 (fst s)
              /\ next_loc (fst (snd s)) = (n0 + 3 * length (fst s))%nat
              /\ (forall l, (l < n0)%nat -> cells (fst (snd s)) l = cells st l)
              /\ forall k fk old new,
                   0 <= k -> getitem rk k = Ok fk ->
                   getitem (Tetro.tetris_ais self) (snd fk) = Ok old ->
                   nth_error (fst s) (Z.to_nat k) = Some new ->
                   same_weights st old (fst (snd s)) new)
           _ 0 5 ltac:(lia)) with (s := ([], (st, g))) in Eelite.
  3:{ cbn [fst snd].
      split; [reflexivity|].
      split; [intros k ai Hk; destruct k; discriminate|].
      split; [unfold n0; simpl; lia|].
      split; [auto|].
      intros k fk old new _ _ _ Hk. destruct (Z.to_nat k); discriminate. }
  2:{ intros i [ais [st1 g1]] [ais' [st2 g2]] Hi (Hlen & Hlay & Hnext & Hold & Hsame) Hstep.
      cbn [fst snd] in *.
      inv_bind_as Hstep fi Efi. inv_bind_as Hstep ai Eai.
      inv_bind_as Hstep cw Eclone. destruct cw as [c w].
      inversion Hstep; subst ais' w; clear Hstep.
      assert (Hai : ai_allocated st1 ai /\ ai_constructed st1 ai).
      { rewrite Forall_forall in Hwf.
        destruct (Hwf ai (getitem_In _ _ _ Eai)) as [(A1 & A2 & A3) (C1 & C2 & C3)].
        fold n0 in A1, A2, A3.
        split; [unfold ai_allocated; lia|].
        unfold ai_constructed. rewrite !Hold by assumption. auto. }
      destruct Hai as [Halloc Hcons].
      destruct (clone_spec ai st1 g1 Halloc Hcons) as (c' & st1' & Ec & Hlocs & Hn & Hw & Hfr).
      rewrite Ec in Eclone. inversion Eclone; subst c' st1' g2; clear Eclone.
      assert (Hlenais : length ais = Z.to_nat i) by (unfold len in Hlen; lia).
      split; [unfold len in *; rewrite length_app; simpl; lia|].
      split; [apply laid_out_snoc; [assumption|]; rewrite Hlocs, Hnext;
              repeat f_equal; lia|].
      split; [rewrite length_app; simpl; lia|].
      split; [intros l Hl; rewrite Hfr by lia; now apply Hold|].
      intros k fk old new Hk0 Hfk Hold' Hnew.
      destruct (Nat.lt_ge_cases (Z.to_nat k) (length ais)) as [Hlt | Hge].
      - rewrite nth_error_app1 in Hnew by assumption.
        apply (same_weights_frame st old st1); [eapply Hsame; eauto|].
        intros l Hl. apply Hfr. rewrite Hnext.
        eapply laid_out_below; eauto.
      - rewrite nth_error_app2 in Hnew by assumption.
        destruct (Z.to_nat k - length ais)%nat as [|m] eqn:Ek; simpl in Hnew;
          [|destruct m; discriminate].
        inversion Hnew; subst new; clear Hnew.
        assert (k = i) by lia. subst k.
        rewrite Hfk in Efi. inversion Efi; subst fi; clear Efi.
        rewrite Hold' in Eai. inversion Eai; subst ai; clear Eai.
        rewrite Forall_forall in Hwf.
        destruct (Hwf old (getitem_In _ _ _ Hold')) as [(A1 & A2 & A3) _].
        fold n0 in A1, A2, A3.
        destruct Hw as (W1 & W2 & W3). unfold same_weights.
        rewrite W1, W2, W3, !Hold by assumption. auto. }
  cbn [fst snd] in Eelite. destruct Eelite as (Hlen5 & Hlay5 & Hnext5 & Hold5 & Hsame5).
  (* the crossover loop *)
  destruct (breed_spec n0 _ _ _ _ _ _ _ _ _ Hlay5 Hnext5 Ebred)
    as (Hlenf & Hlayf & (extra & Hext) & Hfr).
  destruct (laid_out_independent n0 final Hlayf) as [Hindep Hfresh].
  split; [congruence|]. split; [repeat split; assumption|].
  split; [|split; assumption].
  intros k Hk.
  destruct (getitem_total rk k) as (fk & Hfk); [lia|].
  destruct (getitem_total (Tetro.tetris_ais self) (snd fk)) as (old & Hold');
    [specialize (Hrkin k fk Hfk); lia|].
  assert (Hk5 : (Z.to_nat k < length elites)%nat) by (unfold len in Hlen5; lia).
  destruct (nth_error elites (Z.to_nat k)) as [new|] eqn:Enew;
    [|apply nth_error_None in Enew; lia].
  exists fk, old, new. split; [assumption|]. split; [assumption|]. split.
  - rewrite (getitem_nth _ k new) by lia. f_equal.
    apply nth_error_nth. subst final. now rewrite nth_error_app1.
  - apply (same_weights_frame st old st5); [eapply Hsame5; eauto; lia|].
    intros l Hl. apply Hfr. rewrite Hnext5. eapply laid_out_below; eauto.
Qed.

(** Witness of C4: the sample population, whose ranking starts with the
    instances 5, 7, 8, 4, 2. *)
Lemma next_generation_elitism_witness :
  len (Tetro.tetris_ais (fst sample_next_generation)) = 10
  /\ ranking_of (Tetro.tetris_instances sample_population)
                (Tetro.ranked (Tetro.tetris_instances sample_population))
  /\ (forall k, 0 <= k < 5 ->
        exists fk old new,
          getitem (Tetro.ranked (Tetro.tetris_instances sample_population)) k = Ok fk
          /\ getitem (Tetro.tetris_ais sample_population) (snd fk) = Ok old
          /\ getitem (Tetro.tetris_ais (fst sample_next_generation)) k = Ok new
          /\ same_weights sample_population_store old
                          (fst (snd sample_next_generation)) new)
  /\ independent_ais (Tetro.tetris_ais (fst sample_next_generation))
  /\ Forall (fun ai => Forall (fun l => (next_loc sample_population_store <= l)%nat)
                              (ai_locs ai))
            (Tetro.tetris_ais (fst sample_next_generation)).
Proof.
  apply (next_generation_elitism _ ScriptGen two_block_geometry 10
           sample_population (fst sample_next_generation)
           sample_population_store (fst (snd sample_next_generation))
           sample_script (snd (snd sample_next_generation)) (25 # 4)).
  - reflexivity.
  - reflexivity.
  - reflexivity.
  - reflexivity.
  - unfold sample_population. cbn [Tetro.tetris_ais map seq].
    repeat (constructor;
            [split;
             [unfold ai_allocated; cbn; lia
             |unfold ai_constructed; cbn;
              repeat split; try (left); discriminate]|]).
    constructor.
  - vm_compute. reflexivity.
  - reflexivity.
  - vm_compute. reflexivity.
Defined.

(** ** C7: shape definitions are not validated *)

Lemma anyM_total {A} (f : A -> result bool) (l : list A) :
  (forall a, In a l -> exists b, f a = Ok b) -> exists b, anyM f l = Ok b.
Proof.
  induction l as [|a l IH]; intros Hf; simpl; [eauto|].
  destruct (Hf a (or_introl eq_refl)) as (b & Eb). rewrite Eb. cbn [bind].
  destruct b; [eauto|]. apply IH. intros; apply Hf; now right.
Qed.

Lemma anyM_total_true {A} (f : A -> result bool) (l : list A) (a0 : A) :
  (forall a, In a l -> exists b, f a = Ok b) -> In a0 l -> f a0 = Ok true ->
  anyM f l = Ok true.
Proof.
  induction l as [|a l IH]; intros Hf Hin Ha0; simpl; [contradiction|].
  destruct (Hf a (or_introl eq_refl)) as (b & Eb). rewrite Eb. cbn [bind].
  destruct b; [reflexivity|].
  destruct Hin as [-> | Hin]; [congruence|].
  apply IH; auto. intros; apply Hf; now right.
Qed.

Lemma tall_mask_cell (n : Z) (bd : BlockData) (x y : Z) :
  tall_mask n bd -> 0 <= x < n -> 0 <= y < n ->
  cell bd x y = Ok (nth (Z.to_nat y) (nth (Z.to_nat x) bd []) false).
Proof.
  intros [Hlen Hcols] Hx Hy. apply cell_nth; [lia|].
  rewrite Forall_forall in Hcols.
  specialize (Hcols (nth (Z.to_nat x) bd [])). 
  assert (In (nth (Z.to_nat x) bd []) bd) by (apply nth_In; unfold len in Hlen; lia).
  specialize (Hcols H). lia.
Qed.

Lemma out_of_bounds_total (n : Z) (bd : BlockData) (xp yp W H : Z) :
  tall_mask n bd -> exists b, out_of_bounds bd xp yp W H = Ok b.
Proof.
  intros Htall. unfold out_of_bounds. pose proof Htall as [Hlen _]. rewrite Hlen.
  apply anyM_total. intros x Hx. apply In_range in Hx.
  apply anyM_total. intros y Hy. apply In_range in Hy.
  rewrite (tall_mask_cell n) by assumption. cbn [bind].
  destruct (nth _ _ _); eauto.
Qed.

(** A filled cell off the grid makes [out_of_bounds] answer True. *)
Lemma out_of_bounds_true (n : Z) (bd : BlockData) (xp yp W H x0 y0 : Z) :
  tall_mask n bd -> 0 <= x0 < n -> 0 <= y0 < n -> cell bd x0 y0 = Ok true ->
  x0 + xp < 0 \/ y0 + yp < 0 \/ W <= x0 + xp \/ H <= y0 + yp ->
  out_of_bounds bd xp yp W H = Ok true.
Proof.
  intros Htall Hx0 Hy0 Hcell Hout. unfold out_of_bounds.
  pose proof Htall as [Hlen _]. rewrite Hlen.
  assert (Hinner : forall x, 0 <= x < n -> forall y, In y (range 0 n) ->
            exists b,
              (b0 <- cell bd x y ;;
               if b0 then Ok ((x + xp <? 0) || (y + yp <? 0) || (W <=? x + xp)
                              || (H <=? y + yp))
               else Ok false) = Ok b).
  { intros x Hx y Hy. apply In_range in Hy.
    rewrite (tall_mask_cell n) by assumption. cbn [bind].
    destruct (nth _ _ _); eauto. }
  apply (anyM_total_true _ _ x0).
  - intros x Hx. apply In_range in Hx. apply anyM_total. now apply Hinner.
  - apply In_range; lia.
  - apply (anyM_total_true _ _ y0).
    + now apply Hinner.
    + apply In_range; lia.
    + rewrite Hcell. cbn [bind]. f_equal.
      destruct (Z.ltb_spec (x0 + xp) 0); [reflexivity|].
      destruct (Z.ltb_spec (y0 + yp) 0); [reflexivity|].
      destruct (Z.leb_spec W (x0 + xp)); [reflexivity|].
      destruct (Z.leb_spec H (y0 + yp)); [reflexivity|]. lia.
Qed.



Lemma rotate_tall (n : Z) (bd : BlockData) :
  tall_mask n bd -> rotate bd = Ok (quarter_turn bd).
Proof.
  intros Htall. pose proof Htall as [Hlen _]. unfold rotate, quarter_turn.
  rewrite Hlen.
  apply mapM_Ok. intros x Hx. apply In_range in Hx.
  apply mapM_Ok. intros y Hy. apply In_range in Hy.
  rewrite (tall_mask_cell n) by (assumption || lia). reflexivity.
Qed.














(** * Further properties of the code *)

(** ** Random weights *)

Lemma Qle_bool_false_lt (a b : Q) : Qle_bool a b = false -> (b < a)%Q.
Proof.
  intros Hf. apply Qnot_le_lt. intros Hle. apply Qle_bool_iff in Hle. congruence.
Qed.

Lemma random_weight_nonneg {G} {RG : RandomGen G} (g g' : G) (w : Q) :
  TetrisAI.random_weight g = Ok (w, g') -> (0 <= w)%Q.
Proof.
  unfold TetrisAI.random_weight, random. cbn [bind].
  destruct (next_float g) as [u1 g1].
  destruct (Qle_bool u1 0 || negb (Qle_bool u1 1)); [discriminate|].
  destruct (next_float g1) as [u2 g2]. intros [= <- _]. apply Qabs_nonneg.
Qed.

Lemma mutate_list_nonneg {G} {RG : RandomGen G} (l : loc) (n : Z) (rate : Q)
    (st st' : Store) (g g' : G) :
  nonneg_store st ->
  TetrisAI.mutate_list l n rate (st, g) = Ok (st', g') -> nonneg_store st'.
Proof.
  unfold TetrisAI.mutate_list. intros Hst Hm.
  refine (foldM_invariant (fun w : Store * G => nonneg_store (fst w))
            _ _ _ (st, g) (st', g') _ Hm); [|exact Hst].
  intros [st1 g1] i [st2 g2] Hi Hinv Hstep. cbn [fst] in *.
  inv_bind Hstep. destruct r as [u g1']. destruct (Qle_bool u rate).
  - inv_bind_as Hstep drawn Ew. destruct drawn as [v g1''].
    inv_bind_as Hstep ws Es. inversion Hstep; subst; clear Hstep.
    pose proof (random_weight_nonneg _ _ _ Ew) as Hv.
    assert (Hws : Forall (fun w => (0 <= w)%Q) ws).
    { unfold setitem in Es. destruct (_ && _); [|discriminate].
      injection Es as <-. apply Forall_update_nth; [apply Hinv | exact Hv]. }
    intros l'. destruct (Nat.eq_dec l' l) as [-> | Hne].
    + destruct (Nat.lt_ge_cases l (next_loc st1)) as [Hlt | Hge].
      * now rewrite store_set_same.
      * rewrite store_set_dangling by assumption. apply Hinv.
    + rewrite store_set_other by assumption. apply Hinv.
  - inversion Hstep; subst. exact Hinv.
Qed.

(** X1. Weights are never negative.  [random_weight] raises ValueError
    when [random()] hands out 0.0 (the logarithm), and every weight it
    returns is an absolute value, so not below 0; hence [mutate], which
    writes nothing but such weights, keeps a store without negative
    weights free of them. *)
Theorem weights_never_negative :
  forall (G : Type) (RG : RandomGen G) (self : TetrisAI.t) (mutate_rate : Q)
         (st st' : Store) (g g' : G),
    RandomGenLaws G ->
    nonneg_store st ->
    TetrisAI.mutate self mutate_rate (st, g) = Ok (st', g') ->
    nonneg_store st'
    /\ (forall g0 : G, (fst (next_float g0) == 0)%Q ->
                       TetrisAI.random_weight g0 = Raise ValueError)
    /\ (forall (g0 g1 : G) (w : Q),
          TetrisAI.random_weight g0 = Ok (w, g1) ->
          (0 <= w)%Q
          /\ g1 = snd (next_float (snd (next_float g0)))
          /\ ((w == box_muller (fst (next_float g0)) (fst (next_float (snd (next_float g0)))))%Q
              \/ (w == - box_muller (fst (next_float g0))
                                    (fst (next_float (snd (next_float g0)))))%Q)).
Proof.
  intros G RG self rate st st' g g' Laws Hst Hm. split; [|split].
  - unfold TetrisAI.mutate in Hm.
    inv_bind_as Hm w1 E1. destruct w1 as [st1 g1].
    inv_bind_as Hm w2 E2. destruct w2 as [st2 g2].
    apply (mutate_list_nonneg _ _ _ _ _ _ _ Hst) in E1.
    apply (mutate_list_nonneg _ _ _ _ _ _ _ E1) in E2.
    exact (mutate_list_nonneg _ _ _ _ _ _ _ E2 Hm).
  - intros g0 Hz. unfold TetrisAI.random_weight, random. cbn [bind].
    destruct (next_float g0) as [u1 g1]. cbn [fst] in Hz.
    replace (Qle_bool u1 0) with true; [reflexivity|].
    symmetry. apply Qle_bool_iff. rewrite Hz. apply Qle_refl.
  - intros g0 g1 w Hw. split; [exact (random_weight_nonneg _ _ _ Hw)|].
    unfold TetrisAI.random_weight, random in Hw. cbn [bind] in Hw.
    destruct (next_float g0) as [u1 g0']. cbn [fst snd].
    destruct (Qle_bool u1 0 || negb (Qle_bool u1 1)); [discriminate|].
    destruct (next_float g0') as [u2 g0'']. cbn [fst snd].
    injection Hw as <- <-. split; [reflexivity|].
    apply Qabs_case; intros _; [left | right]; reflexivity.
Qed.

(** Witness of X1: mutation at rate 1 of lists of fives, every draw 1/2. *)
Lemma weights_never_negative_witness :
  nonneg_store (store_of [8; 5] [8; 8; 8; 8; 8] [8; 8; 8; 8; 8])%Q.
Proof.
  apply (weights_never_negative _ ScriptGen (ai_of_size 1 2) 1
           (store_of [5; 5] [5; 5; 5; 5; 5] [5; 5; 5; 5; 5])%Q
           (store_of [8; 5] [8; 8; 8; 8; 8] [8; 8; 8; 8; 8])%Q
           (@nil Q, @nil Z) (@nil Q, @nil Z)).
  - exact ScriptGen_laws.
  - intros l. destruct l as [|[|[|l]]]; cbn; repeat constructor; try discriminate.
    destruct l; constructor.
  - reflexivity.
Defined.

(** ** Choosing the parents *)

(** X2. The second parent [next_generation] draws is another one:
    whenever the loop [while idx2 == idx1] ends, its index lies among the
    selected instances and differs from the first parent's. *)
Theorem pick_other_distinct :
  forall (G : Type) (RG : RandomGen G) (fuel : nat) (n idx1 idx2 : Z) (g g' : G),
    RandomGenLaws G ->
    Tetro.pick_other fuel n idx1 g = Ok (idx2, g') ->
    idx2 <> idx1 /\ 0 <= idx2 < n.
Proof.
  intros G RG fuel n idx1 idx2 g g' Laws.
  revert g. induction fuel as [|fuel IH]; intros g Hp; [discriminate|].
  cbn [Tetro.pick_other] in Hp. unfold randint in Hp.
  destruct (Z.leb_spec 0 (n - 1)) as [Hn|Hn]; [|discriminate].
  cbn [bind] in Hp.
  pose proof (next_int_range G Laws 0 (n - 1) g Hn) as Hr.
  destruct (next_int 0 (n - 1) g) as [i g1]. cbn [fst] in Hr.
  destruct (Z.eqb_spec i idx1) as [->|Hne].
  - now apply IH in Hp.
  - inversion Hp; subst. split; [assumption | lia].
Qed.

Lemma pick_other_distinct_witness :
  1 <> 0 /\ 0 <= 1 < 4.
Proof.
  apply (pick_other_distinct _ ScriptGen 3 4 0 1 (@nil Q, [0; 4; 1]) (@nil Q, @nil Z)
           ScriptGen_laws).
  reflexivity.
Defined.

Lemma pick_other_alone {G} {RG : RandomGen G} (fuel : nat) (g : G) :
  RandomGenLaws G -> Tetro.pick_other fuel 1 0 g = OutOfFuel.
Proof.
  intros Laws. revert g. induction fuel as [|fuel IH]; intros g; [reflexivity|].
  cbn [Tetro.pick_other]. unfold randint. cbn [Z.sub Z.leb Z.compare Z.opp Z.add Z.pos_sub bind].
  pose proof (next_int_range G Laws 0 0 g ltac:(lia)) as Hr.
  destruct (next_int 0 0 g) as [i g1]. cbn [fst] in Hr.
  replace i with 0 by lia. cbn [Z.eqb]. apply IH.
Qed.

Lemma breed_alone {G} {RG : RandomGen G} (fuel : nat) (self : Tetro.t)
    (highest_scores : list (Z * Z)) (new_ais : list TetrisAI.t) (w : Store * G) :
  RandomGenLaws G -> len highest_scores = 1 ->
  len new_ais <> Tetro.population_size self ->
  Tetro.breed fuel self highest_scores new_ais w = OutOfFuel.
Proof.
  intros Laws H1 Hne. destruct fuel as [|fuel]; cbn [Tetro.breed].
  - destruct (Z.eqb_spec (len new_ais) (Tetro.population_size self)); [contradiction|].
    reflexivity.
  - destruct (Z.eqb_spec (len new_ais) (Tetro.population_size self)); [contradiction|].
    cbn [negb]. destruct w as [st g]. rewrite H1. unfold randint at 1.
    cbn [Z.sub Z.leb Z.compare Z.opp Z.add Z.pos_sub bind].
    pose proof (next_int_range G Laws 0 0 g ltac:(lia)) as Hr.
    destruct (next_int 0 0 g) as [i g1]. cbn [fst] in Hr.
    replace i with 0 by lia. rewrite pick_other_alone by assumption. reflexivity.
Qed.

Lemma ranked_length (instances : list Tetris.t) :
  len (Tetro.ranked instances) = len instances.
Proof.
  destruct (ranked_ranking instances) as (Hperm & _ & _).
  apply Permutation_length in Hperm. rewrite length_map in Hperm.
  fold (len (Tetro.ranked instances)) in Hperm.
  unfold len at 1. rewrite Hperm. fold (len (range 0 (len instances))).
  rewrite range_length. pose proof (len_nonneg instances). lia.
Qed.

Lemma ranked_index (instances : list Tetris.t) (i : Z) (e : Z * Z) :
  getitem (Tetro.ranked instances) i = Ok e -> 0 <= snd e < len instances.
Proof.
  intros He. apply getitem_In in He.
  destruct (ranked_ranking instances) as (Hperm & _ & _).
  apply (in_map snd) in He. apply (Permutation_in _ Hperm) in He.
  now apply In_range in He.
Qed.

Lemma average_total (l : list Z) : l <> [] -> exists q, average l = Ok q.
Proof.
  intros Hne. unfold average. pose proof (len_pos_nonempty l Hne).
  destruct (Z.eqb_spec (len l) 0); [lia | eauto].
Qed.

(** The clones of the elitist half can always be made. *)
Lemma clones_total {G} {RG : RandomGen G} (self : Tetro.t) (st : Store) (g : G) (n : Z) :
  0 <= n <= len (Tetro.tetris_instances self) ->
  len (Tetro.tetris_ais self) = len (Tetro.tetris_instances self) ->
  Forall (fun ai => ai_allocated st ai /\ ai_constructed st ai) (Tetro.tetris_ais self) ->
  exists new_ais st',
    foldM (fun '(new_ais, w) i =>
             fi <- getitem (Tetro.ranked (Tetro.tetris_instances self)) i ;;
             ai <- getitem (Tetro.tetris_ais self) (snd fi) ;;
             '(c, w) <- TetrisAI.clone ai w ;;
             Ok (new_ais ++ [c], w))
          (range 0 n) ([], (st, g)) = Ok (new_ais, (st', g))
    /\ len new_ais = n.
Proof.
  intros Hn Hlen Hall.
  match goal with
  | |- context [foldM ?f (range 0 n) ?init] =>
      destruct (foldM_range_ind
                  (fun i (s : list TetrisAI.t * (Store * G)) =>
                     len (fst s) = i /\ snd (snd s) = g
                     /\ (next_loc st <= next_loc (fst (snd s)))%nat
                     /\ forall l, (l < next_loc st)%nat ->
                                  cells (fst (snd s)) l = cells st l)
                  f 0 n ltac:(lia))
        with (s := init) as ([new_ais [st' g']] & E & Hl & Hg & _)
  end.
  - intros i [new_ais [st1 g1]] Hi (Hl & Hg & Hnext & Hframe). cbn [fst snd] in *. subst g1.
    destruct (getitem_total (Tetro.ranked (Tetro.tetris_instances self)) i) as (fi & Efi);
      [rewrite ranked_length; lia|].
    pose proof (ranked_index _ _ _ Efi) as Hidx.
    destruct (getitem_total (Tetro.tetris_ais self) (snd fi)) as (ai & Eai); [lia|].
    pose proof (Forall_getitem _ _ _ _ Hall Eai) as [(Ha1 & Ha2 & Ha3) (Hc1 & Hc2 & Hc3)].
    cbv beta in *.
    destruct (clone_spec ai st1 g) as (c & st2 & Ec & _ & Hn2 & _ & Hf2).
    { unfold ai_allocated. lia. }
    { unfold ai_constructed. rewrite !Hframe by assumption. auto. }
    rewrite Efi. cbn [bind]. rewrite Eai. cbn [bind]. rewrite Ec. cbn [bind].
    eexists. split; [reflexivity|]. cbn [fst snd].
    split; [unfold len in *; rewrite length_app; simpl; lia|].
    split; [reflexivity|]. split; [lia|].
    intros l Hlt. rewrite Hf2 by lia. auto.
  - cbn [fst snd]. repeat split; auto.
  - cbn [fst snd] in *. subst g'. eauto.
Qed.

(** X3. With [selection_size = 1] and the best instance above the restart
    threshold, [next_generation] never returns: the elitist half is
    cloned, and then the loop that looks for a second parent different
    from the first draws from one candidate for ever. *)
Theorem next_generation_single_parent :
  forall (G : Type) (RG : RandomGen G) (T : Geometry) (self : Tetro.t)
         (st : Store) (g : G) (avg : Q),
    RandomGenLaws G ->
    Tetro.selection_size self = 1 -> 1 <= Tetro.population_size self ->
    len (Tetro.tetris_instances self) = Tetro.population_size self ->
    len (Tetro.tetris_ais self) = Tetro.population_size self ->
    Forall (fun ai => ai_allocated st ai /\ ai_constructed st ai) (Tetro.tetris_ais self) ->
    top_average self = Ok avg -> (1 # 10 < avg)%Q ->
    forall fuel, Tetro.next_generation T fuel self (st, g) = OutOfFuel.
Proof.
  intros G RG T self st g avg Laws Hsel Hpop Hinst Hais Hall Havg Hlt fuel.
  unfold Tetro.next_generation. unfold top_average in Havg.
  pose proof (ranked_length (Tetro.tetris_instances self)) as Hrl.
  assert (Hrk : exists f0 rest, Tetro.ranked (Tetro.tetris_instances self) = f0 :: rest).
  { destruct (Tetro.ranked (Tetro.tetris_instances self)) as [|f0 rest];
      [rewrite Hinst in Hrl; unfold len in Hrl; simpl in Hrl; lia | eauto]. }
  destruct Hrk as (f0 & rest & Hrk).
  set (rk := Tetro.ranked (Tetro.tetris_instances self)) in *.
  destruct (average_total (map fst rk)) as (avg_all & Eall); [rewrite Hrk; discriminate|].
  rewrite Eall. cbn [bind]. rewrite Havg. cbn [bind].
  rewrite Hsel.
  assert (Hhs : slice_to rk 1 = [f0]) by (rewrite Hrk; reflexivity).
  rewrite Hhs. cbn [getitem len length Z.of_nat Z.ltb Z.leb Z.compare andb nth_error Z.to_nat bind].
  assert (Hf0 : getitem rk 0 = Ok f0) by (rewrite Hrk; reflexivity).
  pose proof (ranked_index _ _ _ Hf0) as Hidx.
  destruct (getitem_total (Tetro.tetris_ais self) (snd f0)) as (best & Ebest); [lia|].
  rewrite Ebest. cbn [bind]. rewrite Hf0. cbn [bind].
  replace (Qle_bool avg (1 # 10)) with false.
  2:{ symmetry. destruct (Qle_bool avg (1 # 10)) eqn:E; [|reflexivity].
      apply Qle_bool_iff in E. exfalso. apply (Qlt_not_le _ _ Hlt E). }
  destruct (clones_total self st g (Tetro.population_size self / 2))
    as (new_ais & st' & Ec & Hl); [|lia|assumption|].
  { split; [apply Z.div_pos; lia|]. rewrite Hinst.
    apply Z.lt_le_incl, Z.div_lt; lia. }
  fold rk in Ec. rewrite Ec. cbn [bind].
  rewrite breed_alone; [reflexivity | assumption | reflexivity |].
  rewrite Hl. intros Heq.
  pose proof (Z.div_lt (Tetro.population_size self) 2 ltac:(lia) ltac:(lia)). lia.
Qed.

(** The two-game population with one selected parent, on fuel 7. *)
Lemma next_generation_single_parent_witness :
  Tetro.next_generation two_block_geometry 7 small_population
    (small_population_store, (@nil Q, @nil Z)) = OutOfFuel.
Proof.
  apply (next_generation_single_parent _ ScriptGen two_block_geometry small_population
           small_population_store (@nil Q, @nil Z) (3 # 1)%Q ScriptGen_laws).
  - reflexivity.
  - simpl; lia.
  - reflexivity.
  - reflexivity.
  - repeat constructor; simpl; try lia; discriminate.
  - reflexivity.
  - reflexivity.
Defined.

(** ** Edge cases of [next_generation] *)

(** X4. [next_generation] divides by the number of instances and then by
    the number of selected ones: with no instance, or with instances and
    [selection_size = 0], it raises ZeroDivisionError before it builds
    anything. *)
Theorem next_generation_zero_division :
  forall (G : Type) (RG : RandomGen G) (T : Geometry) (fuel : nat) (self : Tetro.t)
         (w : Store * G),
    (Tetro.tetris_instances self = [] ->
     Tetro.next_generation T fuel self w = Raise ZeroDivisionError)
    /\ (Tetro.tetris_instances self <> [] -> Tetro.selection_size self = 0 ->
        Tetro.next_generation T fuel self w = Raise ZeroDivisionError).
Proof.
  intros G RG T fuel self w. unfold Tetro.next_generation. split.
  - intros ->. reflexivity.
  - intros Hne Hsel.
    pose proof (ranked_length (Tetro.tetris_instances self)) as Hrl.
    destruct (average_total (map fst (Tetro.ranked (Tetro.tetris_instances self))))
      as (avg_all & Eall).
    { intros Hnil. apply map_eq_nil in Hnil. rewrite Hnil in Hrl.
      pose proof (len_pos_nonempty _ Hne). unfold len in Hrl at 1. simpl in Hrl. lia. }
    rewrite Eall, Hsel. reflexivity.
Qed.

Lemma next_generation_zero_division_witness :
  Tetro.next_generation two_block_geometry 7
    (Tetro.Build 4 4 2 0 1 0 (Tetro.tetris_instances small_population)
                 (Tetro.tetris_ais small_population))
    (small_population_store, (@nil Q, @nil Z)) = Raise ZeroDivisionError.
Proof.
  apply (proj2 (next_generation_zero_division _ ScriptGen two_block_geometry 7
                  (Tetro.Build 4 4 2 0 1 0 (Tetro.tetris_instances small_population)
                               (Tetro.tetris_ais small_population))
                  (small_population_store, (@nil Q, @nil Z)))).
  - discriminate.
  - reflexivity.
Defined.

(** ** The ranking *)

Lemma insert_by_key_stable (e : Z * Z) (l : list (Z * Z)) :
  StronglySorted (fun a b => outranks b a) l ->
  Forall (fun h => snd e < snd h) l ->
  StronglySorted (fun a b => outranks b a) (insert_by_key e l).
Proof.
  intros Hs Hall. induction Hs as [|h t Hs IH Hh]; simpl.
  - repeat constructor.
  - inversion Hall as [|? ? He Ht]; subst.
    destruct (Z.leb_spec (fst e) (fst h)) as [Hle | Hgt].
    + constructor; [constructor; assumption|].
      constructor.
      * unfold outranks. lia.
      * rewrite Forall_forall in *. intros b Hb.
        specialize (Hh b Hb). specialize (Ht b Hb). unfold outranks in *. lia.
    + constructor; [apply IH; assumption|].
      rewrite Forall_forall in *. intros b Hb.
      apply (Permutation_in _ (insert_by_key_perm e t)) in Hb.
      destruct Hb as [<- | Hb]; [unfold outranks; lia | auto].
Qed.

Lemma sort_by_key_stable (l : list (Z * Z)) :
  StronglySorted (fun a b => snd a < snd b) l ->
  StronglySorted (fun a b => outranks b a) (sort_by_key l).
Proof.
  induction 1 as [|e t Hs IH He]; simpl; [constructor|].
  apply insert_by_key_stable; [assumption|].
  rewrite Forall_forall in *. intros h Hh.
  apply (Permutation_in _ (sort_by_key_perm t)) in Hh. auto.
Qed.

Lemma combine_range_from_sorted {A} (l : list A) (a : Z) :
  StronglySorted (fun x y : A * Z => snd x < snd y) (combine l (range_from a (length l))).
Proof.
  revert a. induction l as [|x l IH]; intros a; simpl; constructor.
  - apply IH.
  - rewrite Forall_forall. intros [y i] Hin. apply in_combine_r in Hin.
    apply In_range_from in Hin. simpl. lia.
Qed.

(** X5. The ranking [next_generation] works with (sort by lines cleared,
    then reverse) is fully determined: more lines first, and among
    instances with as many lines the later one first. *)
Theorem ranked_order :
  forall instances : list Tetris.t, StronglySorted outranks (Tetro.ranked instances).
Proof.
  intros instances. unfold Tetro.ranked.
  apply (StronglySorted_rev (fun a b => outranks b a)).
  apply sort_by_key_stable. unfold Tetro.fitness_of, range.
  replace (Z.to_nat (len instances - 0)) with (length (map Tetris.lines_cleared instances))
    by (rewrite length_map; unfold len; lia).
  apply combine_range_from_sorted.
Qed.

(** ** What a new generation starts from *)

Lemma Tetris_new_fresh {G} {RG : RandomGen G} (T : Geometry) (W H : Z) (g g' : G)
    (game : Tetris.t) :
  Tetris.new T W H g = Ok (game, g') -> fresh_game W H game.
Proof.
  unfold Tetris.new. intros Hn.
  inv_bind Hn. destruct r as [seq g1].
  inv_bind Hn. inv_bind Hn. inv_bind Hn. inv_bind Hn.
  inversion Hn; subst; clear Hn. unfold fresh_game. cbn.
  repeat split; discriminate.
Qed.

(** A loop that appends one new element per turn. *)
Lemma foldM_collect {X S A} (P : X -> Prop) (f : S -> A -> result (X * S)) (l : list A) :
  (forall s a x s', f s a = Ok (x, s') -> P x) ->
  forall acc0 s0 acc s,
    foldM (fun '(acc, s) a => '(x, s) <- f s a ;; Ok (acc ++ [x], s)) l (acc0, s0)
    = Ok (acc, s) ->
    exists xs, acc = acc0 ++ xs /\ length xs = length l /\ Forall P xs.
Proof.
  intros HP. induction l as [|a l IH]; intros acc0 s0 acc s Hf; cbn [foldM] in Hf.
  - inversion Hf; subst. exists []. rewrite app_nil_r. repeat split. constructor.
  - inv_bind Hf. destruct r as [acc1 s1]. inv_bind E. destruct r as [x s2].
    inversion E; subst; clear E.
    apply IH in Hf. destruct Hf as (xs & -> & Hlen & Hall).
    exists (x :: xs). rewrite <- app_assoc. repeat split.
    + simpl. now rewrite Hlen.
    + constructor; [eapply HP; eassumption | assumption].
Qed.

(** X6. Every evolution step that returns starts the next generation from
    scratch on the game side: the generation counter is one higher, the
    sizes and the mutation rate are kept, and there are [population_size]
    instances, each as the constructor leaves it. *)
Theorem next_generation_fresh_games :
  forall (G : Type) (RG : RandomGen G) (T : Geometry) (fuel : nat)
         (self self' : Tetro.t) (w w' : Store * G),
    Tetro.next_generation T fuel self w = Ok (self', w') ->
    Tetro.generation self' = Tetro.generation self + 1
    /\ Tetro.grid_width self' = Tetro.grid_width self
    /\ Tetro.grid_height self' = Tetro.grid_height self
    /\ Tetro.population_size self' = Tetro.population_size self
    /\ Tetro.selection_size self' = Tetro.selection_size self
    /\ Tetro.mutate_rate self' = Tetro.mutate_rate self
    /\ len (Tetro.tetris_instances self') = Z.max 0 (Tetro.population_size self)
    /\ Forall (fresh_game (Tetro.grid_width self) (Tetro.grid_height self))
              (Tetro.tetris_instances self').
Proof.
  intros G RG T fuel self self' w w' Hn. unfold Tetro.next_generation in Hn.
  inv_bind_as Hn avg_all Eall. inv_bind_as Hn avg_most Emost.
  inv_bind_as Hn h0 Eh0. inv_bind_as Hn best Ebest. inv_bind_as Hn f0 Ef0.
  inv_bind_as Hn r Eais. destruct r as [new_ais [st g]].
  inv_bind_as Hn r Einst. destruct r as [instances g1].
  inversion Hn; subst; clear Hn. cbn.
  apply (foldM_collect (fresh_game (Tetro.grid_width self) (Tetro.grid_height self))
           (fun g (_ : Z) => Tetris.new T (Tetro.grid_width self) (Tetro.grid_height self) g))
    in Einst.
  2:{ intros s a x s' Hx. eapply Tetris_new_fresh. exact Hx. }
  destruct Einst as (xs & -> & Hlen & Hall). cbn [app].
  repeat split; try assumption.
  unfold len. rewrite Hlen. fold (len (range 0 (Tetro.population_size self))).
  rewrite range_length. lia.
Qed.

Lemma next_generation_fresh_games_witness :
  Tetro.generation (fst sample_next_generation) = Tetro.generation sample_population + 1
  /\ Tetro.grid_width (fst sample_next_generation) = Tetro.grid_width sample_population
  /\ Tetro.grid_height (fst sample_next_generation) = Tetro.grid_height sample_population
  /\ Tetro.population_size (fst sample_next_generation)
     = Tetro.population_size sample_population
  /\ Tetro.selection_size (fst sample_next_generation)
     = Tetro.selection_size sample_population
  /\ Tetro.mutate_rate (fst sample_next_generation) = Tetro.mutate_rate sample_population
  /\ len (Tetro.tetris_instances (fst sample_next_generation))
     = Z.max 0 (Tetro.population_size sample_population)
  /\ Forall (fresh_game (Tetro.grid_width sample_population)
                        (Tetro.grid_height sample_population))
            (Tetro.tetris_instances (fst sample_next_generation)).
Proof.
  apply (next_generation_fresh_games _ ScriptGen two_block_geometry 10 sample_population
           (fst sample_next_generation)
           (sample_population_store, sample_script) (snd sample_next_generation)).
  vm_compute. reflexivity.
Defined.

Lemma fill_weights_fresh {G} {RG : RandomGen G} (l : loc) (n : Z)
    (st st' : Store) (g g' : G) :
  (l < next_loc st)%nat -> cells st l = [] ->
  TetrisAI.fill_weights l n (st, g) = Ok (st', g') ->
  len (cells st' l) = Z.max 0 n.
Proof.
  intros Hl Hnil. unfold TetrisAI.fill_weights. cbn [fst]. rewrite Hnil.
  cbn [len length Z.of_nat Z.eqb]. intros Hf.
  destruct (Z.le_gt_cases n 0) as [Hle | Hgt].
  - rewrite range_nil in Hf by lia. inversion Hf; subst. rewrite Hnil.
    unfold len. simpl. lia.
  - apply (foldM_range_inv
             (fun i (w : Store * G) =>
                len (cells (fst w) l) = i /\ next_loc (fst w) = next_loc st)
             _ 0 n ltac:(lia)) with (s := (st, g)) (s' := (st', g')) in Hf.
    + cbn [fst] in Hf. lia.
    + intros i [st1 g1] [st2 g2] Hi [Hlen Hnext] Hstep. cbn [fst] in *.
      inv_bind Hstep. destruct r as [v g1']. inversion Hstep; subst; clear Hstep.
      rewrite store_set_next_loc. split; [|assumption].
      rewrite store_set_same by lia. unfold len in *. rewrite length_app. simpl. lia.
    + cbn [fst]. rewrite Hnil. split; reflexivity.
Qed.

Lemma random_ai_spec {G} {RG : RandomGen G} (T : Geometry) (self : Tetro.t)
    (st st' : Store) (g g' : G) (ai : TetrisAI.t) :
  Tetro.random_ai self (st, g) = Ok (ai, (st', g')) ->
  ai_locs ai = [next_loc st; next_loc st + 1; next_loc st + 2]%nat
  /\ next_loc st' = (next_loc st + 3)%nat
  /\ fresh_ai (Tetro.grid_width self) (Tetro.grid_height self) st' ai
  /\ forall l, (l < next_loc st)%nat -> cells st' l = cells st l.
Proof.
  unfold Tetro.random_ai. intros Hr.
  destruct (alloc [] st) as [l1 st1] eqn:Ea1.
  destruct (alloc [] st1) as [l2 st2] eqn:Ea2.
  destruct (alloc [] st2) as [l3 st3] eqn:Ea3.
  destruct (alloc3_frame _ _ _ _ _ _ _ _ _ _ Ea1 Ea2 Ea3)
    as (Hlocs & Hn & C1 & C2 & C3 & Hold).
  injection Hlocs as -> -> ->.
  unfold TetrisAI.new in Hr.
  inv_bind_as Hr w1 E1. destruct w1 as [s1 g1].
  inv_bind_as Hr w2 E2. destruct w2 as [s2 g2].
  inv_bind_as Hr w3 E3. destruct w3 as [s3 g3].
  inversion Hr; subst; clear Hr.
  pose proof (fun Hl => fill_weights_fresh _ _ _ _ _ _ Hl C1 E1) as L1.
  specialize (L1 ltac:(lia)).
  destruct (fill_weights_frame _ _ _ _ _ _ E1) as [N1 F1].
  pose proof (fun Hl Hc => fill_weights_fresh _ _ _ _ _ _ Hl Hc E2) as L2.
  specialize (L2 ltac:(lia) ltac:(rewrite F1 by lia; exact C2)).
  destruct (fill_weights_frame _ _ _ _ _ _ E2) as [N2 F2].
  pose proof (fun Hl Hc => fill_weights_fresh _ _ _ _ _ _ Hl Hc E3) as L3.
  specialize (L3 ltac:(lia) ltac:(rewrite F2, F1 by lia; exact C3)).
  destruct (fill_weights_frame _ _ _ _ _ _ E3) as [N3 F3].
  split; [reflexivity|]. split; [lia|]. split.
  - unfold fresh_ai. cbn. repeat split; try reflexivity.
    + rewrite F3, F2 by lia. exact L1.
    + rewrite F3 by lia. exact L2.
    + exact L3.
  - intros l Hl. rewrite F3, F2, F1 by lia. auto.
Qed.

(** X7. When the selected instances average at most 0.1 lines, the
    evolution step that returns throws the old AIs away: the new
    population has [population_size] members, each with [grid_width + 1]
    row-fill weights and five weights of each other kind, in list objects
    made during the step and shared with nobody, and no older list is
    changed. *)
Theorem next_generation_restart :
  forall (G : Type) (RG : RandomGen G) (T : Geometry) (fuel : nat)
         (self self' : Tetro.t) (st st' : Store) (g g' : G) (avg : Q),
    top_average self = Ok avg -> (avg <= 1 # 10)%Q ->
    Tetro.next_generation T fuel self (st, g) = Ok (self', (st', g')) ->
    len (Tetro.tetris_ais self') = Z.max 0 (Tetro.population_size self)
    /\ Forall (fresh_ai (Tetro.grid_width self) (Tetro.grid_height self) st')
              (Tetro.tetris_ais self')
    /\ independent_ais (Tetro.tetris_ais self')
    /\ Forall (fun ai => Forall (fun l => (next_loc st <= l)%nat) (ai_locs ai))
              (Tetro.tetris_ais self')
    /\ forall l, (l < next_loc st)%nat -> cells st' l = cells st l.
Proof.
  intros G RG T fuel self self' st st' g g' avg Havg Hle Hn.
  unfold Tetro.next_generation in Hn. unfold top_average in Havg.
  inv_bind_as Hn avg_all Eall. inv_bind_as Hn avg_most Emost.
  rewrite Havg in Emost. inversion Emost; subst avg_most; clear Emost.
  inv_bind_as Hn h0 Eh0. inv_bind_as Hn best Ebest. inv_bind_as Hn f0 Ef0.
  inv_bind_as Hn r Eais. destruct r as [new_ais [st1 g1]].
  inv_bind_as Hn r Einst. destruct r as [instances g2].
  inversion Hn; subst; clear Hn. cbn [Tetro.tetris_ais].
  replace (Qle_bool avg (1 # 10)) with true in Eais
    by (symmetry; now apply Qle_bool_iff).
  assert (Hlen : len new_ais = Z.max 0 (Tetro.population_size self)).
  { apply (foldM_collect (fun _ => True) (fun w (_ : Z) => Tetro.random_ai self w)) in Eais;
      [|auto].
    destruct Eais as (xs & -> & Hl & _). cbn [app]. unfold len. rewrite Hl.
    fold (len (range 0 (Tetro.population_size self))). rewrite range_length. lia. }
  apply (foldM_invariant
           (fun s : list TetrisAI.t * (Store * G) =>
              laid_out (next_loc st) (fst s)
              /\ next_loc (fst (snd s)) = (next_loc st + 3 * length (fst s))%nat
              /\ Forall (fresh_ai (Tetro.grid_width self) (Tetro.grid_height self)
                                  (fst (snd s))) (fst s)
              /\ forall l, (l < next_loc st)%nat -> cells (fst (snd s)) l = cells st l))
    in Eais.
  - cbn [fst snd] in Eais. destruct Eais as (Hlaid & Hnext & Hfresh & Hframe).
    destruct (laid_out_independent _ _ Hlaid) as [Hind Hnew].
    split; [exact Hlen|]. split; [exact Hfresh|]. split; [exact Hind|].
    split; [exact Hnew | exact Hframe].
  - intros [ais [sa ga]] i [ais' [sb gb]] _ (Hlaid & Hnext & Hfresh & Hframe) Hstep.
    cbn [fst snd] in *.
    inv_bind_as Hstep r Er. destruct r as [ai [sc gc]].
    inversion Hstep; subst; clear Hstep.
    destruct (random_ai_spec T _ _ _ _ _ _ Er) as (Hlocs & Hn3 & Hai & Hold).
    split; [|split; [|split]].
    + apply laid_out_snoc; [assumption|]. rewrite Hlocs, Hnext. reflexivity.
    + rewrite length_app. simpl. lia.
    + apply Forall_app. split; [|constructor; [assumption | constructor]].
      rewrite Forall_forall in *. intros a Ha.
      destruct (In_nth_error _ _ Ha) as [k Hk].
      assert (Hb : forall l, In l (ai_locs a) -> cells sb l = cells sa l).
      { intros l Hl. apply Hold. rewrite Hnext.
        eapply laid_out_below; eassumption. }
      specialize (Hfresh a Ha). unfold fresh_ai in *.
      rewrite !Hb by (unfold ai_locs; simpl; auto). exact Hfresh.
    + intros l Hl. rewrite Hold by lia. auto.
  - cbn [fst snd]. split; [|split; [|split]]; auto.
    intros k ai Hk. destruct k; discriminate.
Qed.

(** The two-game population without a cleared line. *)
Lemma next_generation_restart_witness :
  len (Tetro.tetris_ais (fst idle_next_generation))
  = Z.max 0 (Tetro.population_size idle_population)
  /\ Forall (fresh_ai (Tetro.grid_width idle_population)
                      (Tetro.grid_height idle_population)
                      (fst (snd idle_next_generation)))
            (Tetro.tetris_ais (fst idle_next_generation))
  /\ independent_ais (Tetro.tetris_ais (fst idle_next_generation))
  /\ Forall (fun ai => Forall (fun l => (next_loc small_population_store <= l)%nat)
                              (ai_locs ai))
            (Tetro.tetris_ais (fst idle_next_generation))
  /\ forall l, (l < next_loc small_population_store)%nat ->
               cells (fst (snd idle_next_generation)) l = cells small_population_store l.
Proof.
  apply (next_generation_restart _ ScriptGen two_block_geometry 7 idle_population
           (fst idle_next_generation) small_population_store
           (fst (snd idle_next_generation)) (@nil Q, @nil Z)
           (snd (snd idle_next_generation)) (0 # 1)%Q).
  - reflexivity.
  - vm_compute. discriminate.
  - vm_compute. reflexivity.
Defined.

(** ** Copies and mutation *)

(** X8. [clone] gives a copy that shares nothing with its original:
    mutating the copy leaves the original's weights (and every list that
    existed before) as they were, and mutating the original leaves the
    copy's weights as they were. *)
Theorem clone_mutate_independent :
  forall (G : Type) (RG : RandomGen G) (ai : TetrisAI.t) (st : Store) (g : G),
    ai_allocated st ai -> ai_constructed st ai ->
    exists c st1,
      TetrisAI.clone ai (st, g) = Ok (c, (st1, g))
      /\ same_weights st ai st1 c
      /\ (forall rate st2 g2,
            TetrisAI.mutate c rate (st1, g) = Ok (st2, g2) ->
            forall l, (l < next_loc st)%nat -> cells st2 l = cells st l)
      /\ (forall rate st2 g2,
            TetrisAI.mutate ai rate (st1, g) = Ok (st2, g2) ->
            same_weights st ai st2 c).
Proof.
  intros G RG ai st g Hal Hco.
  destruct (clone_spec ai st g Hal Hco) as (c & st1 & Ec & Hlocs & Hn & Hsame & Hold).
  exists c, st1. split; [exact Ec|]. split; [exact Hsame|]. split.
  - intros rate st2 g2 Hm l Hl.
    destruct (mutate_frame _ _ _ _ _ _ Hm) as [_ Hf].
    rewrite Hf; [auto|]. rewrite Hlocs. simpl. lia.
  - intros rate st2 g2 Hm.
    destruct (mutate_frame _ _ _ _ _ _ Hm) as [_ Hf].
    apply (same_weights_frame st ai st1 st2 c Hsame).
    intros l Hl. apply Hf. rewrite Hlocs in Hl.
    destruct Hal as (A1 & A2 & A3). unfold ai_locs. simpl in *. lia.
Qed.

Lemma clone_mutate_independent_witness :
  exists c st1,
    TetrisAI.clone parent_A (two_parents_store, (@nil Q, @nil Z)) = Ok (c, (st1, ([], [])))
    /\ same_weights two_parents_store parent_A st1 c
    /\ (forall rate st2 g2,
          TetrisAI.mutate c rate (st1, ([], [])) = Ok (st2, g2) ->
          forall l, (l < next_loc two_parents_store)%nat ->
                    cells st2 l = cells two_parents_store l)
    /\ (forall rate st2 g2,
          TetrisAI.mutate parent_A rate (st1, ([], [])) = Ok (st2, g2) ->
          same_weights two_parents_store parent_A st2 c).
Proof.
  apply (clone_mutate_independent _ ScriptGen parent_A two_parents_store (@nil Q, @nil Z)).
  - repeat split; simpl; lia.
  - split; [left; discriminate | split; discriminate].
Defined.

Lemma setitem_length {A} (l ws : list A) (i : Z) (v : A) :
  setitem l i v = Ok ws -> length ws = length l.
Proof.
  unfold setitem. destruct (_ && _); [|discriminate].
  intros [= <-]. apply update_nth_length.
Qed.

Lemma mutate_list_lengths {G} {RG : RandomGen G} (l : loc) (n : Z) (rate : Q)
    (st st' : Store) (g g' : G) :
  TetrisAI.mutate_list l n rate (st, g) = Ok (st', g') ->
  forall l', length (cells st' l') = length (cells st l').
Proof.
  unfold TetrisAI.mutate_list. intros Hm.
  refine (foldM_invariant
            (fun w : Store * G => forall l', length (cells (fst w) l') = length (cells st l'))
            _ _ _ (st, g) (st', g') _ Hm); [|simpl; auto].
  intros [st1 g1] i [st2 g2] Hi Hlen Hstep. cbn [fst] in *.
  inv_bind Hstep. destruct r as [u g1']. destruct (Qle_bool u rate).
  - inv_bind Hstep. destruct r as [v g1'']. inv_bind Hstep.
    inversion Hstep; subst; clear Hstep. intros l'.
    destruct (Nat.eq_dec l' l) as [->|Hne].
    + destruct (Nat.lt_ge_cases l (next_loc st1)) as [Hlt | Hge].
      * rewrite store_set_same by assumption.
        rewrite (setitem_length _ _ _ _ E1). apply Hlen.
      * rewrite store_set_dangling by assumption. apply Hlen.
    + rewrite store_set_other by assumption. apply Hlen.
  - inversion Hstep; subst. exact Hlen.
Qed.

(** X9. [mutate] replaces weights in place and nothing else: whatever the
    rate and the draws, every list keeps its length, and the lists that
    are not the AI's own three keep their contents. *)
Theorem mutate_in_place :
  forall (G : Type) (RG : RandomGen G) (self : TetrisAI.t) (mutate_rate : Q)
         (st st' : Store) (g g' : G),
    TetrisAI.mutate self mutate_rate (st, g) = Ok (st', g') ->
    (forall l, length (cells st' l) = length (cells st l))
    /\ (forall l, ~ In l (ai_locs self) -> cells st' l = cells st l).
Proof.
  intros G RG self rate st st' g g' Hm. split.
  - unfold TetrisAI.mutate in Hm.
    inv_bind_as Hm w1 E1. destruct w1 as [st1 g1].
    inv_bind_as Hm w2 E2. destruct w2 as [st2 g2].
    intros l.
    rewrite (mutate_list_lengths _ _ _ _ _ _ _ Hm).
    rewrite (mutate_list_lengths _ _ _ _ _ _ _ E2).
    apply (mutate_list_lengths _ _ _ _ _ _ _ E1).
  - apply (mutate_frame _ _ _ _ _ _ Hm).
Qed.

Lemma mutate_in_place_witness :
  (forall l, length (cells (store_of [8; 5] [8; 8; 8; 8; 8] [8; 8; 8; 8; 8])%Q l)
             = length (cells (store_of [5; 5] [5; 5; 5; 5; 5] [5; 5; 5; 5; 5])%Q l))
  /\ (forall l, ~ In l (ai_locs (ai_of_size 1 2)) ->
                cells (store_of [8; 5] [8; 8; 8; 8; 8] [8; 8; 8; 8; 8])%Q l
                = cells (store_of [5; 5] [5; 5; 5; 5; 5] [5; 5; 5; 5; 5])%Q l).
Proof.
  apply (mutate_in_place _ ScriptGen (ai_of_size 1 2) 1
           (store_of [5; 5] [5; 5; 5; 5; 5] [5; 5; 5; 5; 5])%Q
           (store_of [8; 5] [8; 8; 8; 8; 8] [8; 8; 8; 8; 8])%Q
           (@nil Q, @nil Z) (@nil Q, @nil Z)).
  reflexivity.
Defined.

Lemma mutate_list_never {G} {RG : RandomGen G} (l : loc) (n : Z) (rate : Q)
    (st : Store) (g : G) :
  RandomGenLaws G -> (rate < 0)%Q ->
  exists g', TetrisAI.mutate_list l n rate (st, g) = Ok (st, g').
Proof.
  intros Laws Hneg. unfold TetrisAI.mutate_list.
  match goal with
  | |- context [foldM ?f (range 0 n) _] =>
      destruct (foldM_total (fun w : Store * G => fst w = st) f (range 0 n))
        with (s := (st, g)) as ([st' g'] & E & Hst)
  end.
  - intros [st1 g1] i _ Hst. cbn [fst] in Hst. subst st1.
    unfold random. cbn [bind].
    destruct (next_float_unit G Laws g1) as [H0 _].
    destruct (next_float g1) as [u g2]. cbn [fst] in H0.
    replace (Qle_bool u rate) with false; [eexists; split; reflexivity|].
    symmetry. destruct (Qle_bool u rate) eqn:E; [|reflexivity].
    apply Qle_bool_iff in E. exfalso.
    apply (Qlt_irrefl 0). eapply Qle_lt_trans; [|exact Hneg].
    eapply Qle_trans; eassumption.
  - reflexivity.
  - cbn [fst] in Hst. subst st'. eauto.
Qed.

(** X10. With a rate below zero [mutate] changes no weight at all: no
    draw of [random()] is at or below the rate. *)
Theorem mutate_negative_rate :
  forall (G : Type) (RG : RandomGen G) (self : TetrisAI.t) (mutate_rate : Q)
         (st : Store) (g : G),
    RandomGenLaws G -> (mutate_rate < 0)%Q ->
    exists g', TetrisAI.mutate self mutate_rate (st, g) = Ok (st, g').
Proof.
  intros G RG self rate st g Laws Hneg. unfold TetrisAI.mutate.
  destruct (mutate_list_never (TetrisAI.row_filled_weights self)
              (TetrisAI.grid_width self) rate st g Laws Hneg) as (g1 & ->).
  cbn [bind].
  destruct (mutate_list_never (TetrisAI.hole_height_weights self)
              (TetrisAI.hole_height_cap self) rate st g1 Laws Hneg) as (g2 & ->).
  cbn [bind]. apply mutate_list_never; assumption.
Qed.

Lemma mutate_negative_rate_witness :
  exists g', TetrisAI.mutate sample_ai (-1 # 2) (sample_store, ([0; 1 # 3]%Q, @nil Z))
             = Ok (sample_store, g').
Proof.
  apply (mutate_negative_rate _ ScriptGen sample_ai (-1 # 2)%Q sample_store
           ([0; 1 # 3]%Q, @nil Z) ScriptGen_laws).
  reflexivity.
Defined.

(** ** Masks that [rotate] accepts *)

Lemma mapM_raise {A B} (f : A -> result B) (l : list A) (e : exn) :
  (forall a, In a l -> (exists b, f a = Ok b) \/ f a = Raise e) ->
  Exists (fun a => f a = Raise e) l -> mapM f l = Raise e.
Proof.
  intros Hall Hex. induction l as [|a l IH]; [inversion Hex|].
  cbn [mapM]. destruct (Hall a (or_introl eq_refl)) as [[b Hb] | Hr].
  - rewrite Hb. cbn [bind]. rewrite IH; [reflexivity | |].
    + intros a' Ha'. apply Hall. now right.
    + inversion Hex as [? ? Ha | ? ? Ht]; subst; [congruence | assumption].
  - rewrite Hr. reflexivity.
Qed.

Lemma getitem_overflow {A} (l : list A) (i : Z) :
  len l <= i -> getitem l i = Raise IndexError.
Proof.
  intros Hi. unfold getitem. pose proof (len_nonneg l).
  destruct (Z.ltb_spec i 0); [lia|].
  destruct (Z.ltb_spec i (len l)); [lia|]. now rewrite andb_false_r.
Qed.

Lemma tall_or_short (n : Z) (cols : list (list bool)) :
  Forall (fun col => n <= len col) cols \/ Exists (fun col => len col < n) cols.
Proof.
  induction cols as [|c cols [IH | IH]].
  - left. constructor.
  - destruct (Z.le_gt_cases n (len c)); [left | right]; constructor; (assumption || lia).
  - right. now constructor 2.
Qed.

Lemma rotate_short (bd : BlockData) :
  ~ tall_mask (len bd) bd -> rotate bd = Raise IndexError.
Proof.
  intros Hnot.
  destruct (tall_or_short (len bd) bd) as [Hall | Hex].
  { exfalso. apply Hnot. split; [reflexivity | assumption]. }
  apply Exists_exists in Hex. destruct Hex as (c & Hin & Hshort).
  destruct (In_nth _ _ [] Hin) as (k & Hk & Hc).
  assert (Hn : 0 < len bd) by (unfold len; lia).
  unfold rotate.
  set (row := fun x => mapM (fun y => cell bd y (len bd - x - 1)) (range 0 (len bd))).
  rewrite (range_cons 0 (len bd)) by lia. cbn [mapM]. unfold row at 1.
  rewrite (mapM_raise _ _ IndexError); [reflexivity| |].
  - intros y Hy. apply In_range in Hy. unfold cell.
    rewrite (getitem_nth _ _ []) by lia. cbn [bind].
    destruct (Z.lt_ge_cases (len bd - 0 - 1) (len (nth (Z.to_nat y) bd []))) as [Hlt | Hge].
    + left. apply getitem_total. lia.
    + right. apply getitem_overflow. lia.
  - apply Exists_exists. exists (Z.of_nat k). split.
    + apply In_range. unfold len. lia.
    + unfold cell. rewrite (getitem_nth _ _ []) by (unfold len; lia). cbn [bind].
      rewrite Nat2Z.id, Hc. apply getitem_overflow. lia.
Qed.

Lemma rotate_Ok (bd bd' : BlockData) :
  rotate bd = Ok bd' -> tall_mask (len bd) bd /\ bd' = quarter_turn bd.
Proof.
  intros Hr.
  assert (Htall : tall_mask (len bd) bd).
  { destruct (tall_or_short (len bd) bd) as [Hall | Hex]; [split; auto|].
    rewrite rotate_short in Hr; [discriminate|].
    intros [_ Hall]. apply Exists_exists in Hex. destruct Hex as (c & Hin & Hc).
    rewrite Forall_forall in Hall. specialize (Hall c Hin). cbv beta in Hall. lia. }
  split; [assumption|]. rewrite (rotate_tall _ _ Htall) in Hr. congruence.
Qed.

(** X11. [rotate] reads the square of side [len(block_data)]: it returns
    (the quarter turn, cell for cell) when every column has at least
    that many cells, and raises IndexError in every other case. *)
Theorem rotate_needs_tall :
  forall block_data : BlockData,
    (tall_mask (len block_data) block_data ->
     rotate block_data = Ok (quarter_turn block_data))
    /\ (~ tall_mask (len block_data) block_data ->
        rotate block_data = Raise IndexError).
Proof.
  intros bd. split; [apply rotate_tall | apply rotate_short].
Qed.

Lemma rotate_needs_tall_witness :
  rotate [[true; false]; [true]] = Raise IndexError.
Proof.
  apply (proj2 (rotate_needs_tall [[true; false]; [true]])).
  intros [_ Hall]. inversion Hall as [|? ? _ Ht]; subst.
  inversion Ht as [|? ? Hc _]; subst. unfold len in Hc. simpl in Hc. lia.
Defined.

(** X12. [out_of_bounds] on a mask with at least as many rows as columns
    always answers, and answers True exactly when some filled cell of
    the leading square, moved by the given offset, lies outside the
    [grid_width] x [grid_height] board. *)
Theorem out_of_bounds_iff :
  forall (n : Z) (block_data : BlockData) (x_pos y_pos grid_width grid_height : Z),
    tall_mask n block_data ->
    exists b,
      out_of_bounds block_data x_pos y_pos grid_width grid_height = Ok b
      /\ (b = true <->
          exists x y,
            0 <= x < n /\ 0 <= y < n /\ cell block_data x y = Ok true
            /\ (x + x_pos < 0 \/ y + y_pos < 0
                \/ grid_width <= x + x_pos \/ grid_height <= y + y_pos)).
Proof.
  intros n bd xp yp W H Htall.
  destruct (out_of_bounds_total n bd xp yp W H Htall) as (b & Eb).
  exists b. split; [exact Eb|]. split.
  - intros ->. pose proof Htall as [Hlen _]. unfold out_of_bounds in Eb.
    rewrite Hlen in Eb.
    apply anyM_true in Eb. destruct Eb as (x & Hx & Ex). apply In_range in Hx.
    apply anyM_true in Ex. destruct Ex as (y & Hy & Ey). apply In_range in Hy.
    rewrite (tall_mask_cell n) in Ey by (assumption || lia). cbn [bind] in Ey.
    exists x, y. split; [lia|]. split; [lia|].
    rewrite (tall_mask_cell n) by (assumption || lia).
    destruct (nth (Z.to_nat y) (nth (Z.to_nat x) bd []) false); [|discriminate].
    split; [reflexivity|]. inversion Ey as [Hb]. clear Ey.
    apply orb_true_iff in Hb. destruct Hb as [Hb | Hb]; [|apply Z.leb_le in Hb; lia].
    apply orb_true_iff in Hb. destruct Hb as [Hb | Hb]; [|apply Z.leb_le in Hb; lia].
    apply orb_true_iff in Hb. destruct Hb as [Hb | Hb]; apply Z.ltb_lt in Hb; lia.
  - intros (x & y & Hx & Hy & Hc & Hout).
    rewrite (out_of_bounds_true n bd xp yp W H x y) in Eb by assumption.
    congruence.
Qed.

Lemma out_of_bounds_iff_witness :
  exists b,
    out_of_bounds L_mask (-1) 0 4 4 = Ok b
    /\ (b = true <->
        exists x y,
          0 <= x < 3 /\ 0 <= y < 3 /\ cell L_mask x y = Ok true
          /\ (x + -1 < 0 \/ y + 0 < 0 \/ 4 <= x + -1 \/ 4 <= y + 0)).
Proof.
  apply (out_of_bounds_iff 3 L_mask (-1) 0 4 4).
  split; [reflexivity|]. repeat constructor; unfold len; simpl; lia.
Defined.

(** ** What [process_tetromino] puts into the tables *)

Lemma probe_spec (oob : Z -> result bool) (step : Z) :
  forall (fuel : nat) (v r : Z),
    probe fuel oob step v = Ok r ->
    exists k : nat,
      r = v + Z.of_nat k * step
      /\ oob (r + step) = Ok true
      /\ forall j : nat, (1 <= j <= k)%nat -> oob (v + Z.of_nat j * step) = Ok false.
Proof.
  induction fuel as [|fuel IH]; intros v r Hp; [discriminate|].
  cbn [probe] in Hp. inv_bind_as Hp b Eb. destruct b.
  - inversion Hp; subst. exists 0%nat. split; [lia|]. split; [assumption|].
    intros j Hj. lia.
  - apply IH in Hp. destruct Hp as (k & -> & Hend & Hmid).
    exists (S k). split; [lia|]. split; [assumption|].
    intros j Hj. destruct (Nat.eq_dec j 1) as [->|Hne].
    + replace (v + Z.of_nat 1 * step) with (v + step) by lia. assumption.
    + specialize (Hmid (j - 1)%nat ltac:(lia)).
      replace (v + step + Z.of_nat (j - 1) * step) with (v + Z.of_nat j * step) in Hmid
        by lia.
      assumption.
Qed.

Lemma probes_extent (oob : Z -> result bool) (fuel : nat) (lo hi : Z) :
  probe fuel oob (-1) 0 = Ok lo -> probe fuel oob 1 0 = Ok hi -> extent_of oob lo hi.
Proof.
  intros Hlo Hhi.
  apply probe_spec in Hlo. destruct Hlo as (kl & -> & Hlend & Hlmid).
  apply probe_spec in Hhi. destruct Hhi as (kh & -> & Hhend & Hhmid).
  unfold extent_of. split; [lia|].
  split; [replace (0 + Z.of_nat kl * -1 - 1) with (0 + Z.of_nat kl * -1 + -1) by lia;
          assumption|].
  split; [assumption|].
  intros v Hv Hnz. destruct (Z.lt_ge_cases v 0) as [Hneg | Hpos].
  - specialize (Hlmid (Z.to_nat (- v)) ltac:(lia)).
    replace (0 + Z.of_nat (Z.to_nat (- v)) * -1) with v in Hlmid by lia. assumption.
  - specialize (Hhmid (Z.to_nat v) ltac:(lia)).
    replace (0 + Z.of_nat (Z.to_nat v) * 1) with v in Hhmid by lia. assumption.
Qed.

Lemma quarter_turn_len (bd : BlockData) : len (quarter_turn bd) = len bd.
Proof. unfold len. now rewrite quarter_turn_length. Qed.

Lemma iter_quarter_turn_len (k : nat) (bd : BlockData) :
  len (Nat.iter k quarter_turn bd) = len bd.
Proof.
  induction k as [|k IH]; [reflexivity|].
  change (Nat.iter (S k) quarter_turn bd) with (quarter_turn (Nat.iter k quarter_turn bd)).
  now rewrite quarter_turn_len.
Qed.

Lemma rotation_list_step (i : Z) (rotations : list Z) (clash : bool) :
  1 <= i -> rotation_list i rotations ->
  rotation_list (i + 1) (if clash then rotations else rotations ++ [i]).
Proof.
  intros Hi ((rest & ->) & Hs & Hall).
  assert (Hw : Forall (fun r => 0 <= r < i + 1) (0 :: rest)).
  { eapply Forall_impl; [|exact Hall]. cbv beta. intros; lia. }
  destruct clash.
  - split; [eauto|]. split; assumption.
  - split; [exists (rest ++ [i]); reflexivity|]. split.
    + clear Hw. induction Hs as [|a l Hs IH Ha]; [repeat constructor|].
      inversion Hall; subst. cbn [app]. constructor; [apply IH; assumption|].
      apply Forall_app. split; [assumption|]. constructor; [lia | constructor].
    + apply Forall_app. split; [assumption|]. constructor; [lia | constructor].
Qed.

Lemma rotation_choice_step (T : Geometry) (id i : Z) (rotations : list Z) (clash : bool) :
  1 <= i -> rotation_list i rotations -> rotation_choice T id i rotations ->
  anyM (fun j =>
          ti <- get_tetromino_type T id i ;;
          rj <- getitem rotations j ;;
          tj <- get_tetromino_type T id rj ;;
          u <- rotationally_unique (TetrominoType.block_data ti)
                                   (TetrominoType.block_data tj) ;;
          Ok (negb u))
       (range 0 (len rotations)) = Ok clash ->
  rotation_choice T id (i + 1) (if clash then rotations else rotations ++ [i]).
Proof.
  intros Hi (_ & _ & Hbelow) Hch Hany k Hk.
  rewrite Forall_forall in Hbelow.
  assert (Hfresh : ~ In i rotations) by (intros Hin; specialize (Hbelow i Hin); lia).
  destruct clash.
  - destruct (Z.eq_dec k i) as [-> | Hne]; [|apply Hch; lia].
    split; [contradiction|]. intros _.
    apply anyM_true in Hany. destruct Hany as (jx & Hjx & Ej).
    inv_bind_as Ej ti Eti. inv_bind_as Ej rj Erj. inv_bind_as Ej tj Etj.
    inv_bind_as Ej u Eu. inversion Ej as [Hu]. destruct u; [discriminate|].
    exists rj. pose proof (getitem_In _ _ _ Erj) as Hin.
    split; [assumption|]. split; [specialize (Hbelow rj Hin); lia|].
    unfold unique_against. rewrite Eti. cbn [bind]. rewrite Etj. exact Eu.
  - pose proof (anyM_false _ _ Hany) as Hall.
    destruct (Z.eq_dec k i) as [-> | Hne].
    + split; [|intros Hn; exfalso; apply Hn, in_or_app; right; left; reflexivity].
      intros _ j Hj Hlt. apply in_app_or in Hj.
      destruct Hj as [Hj | [<- | []]]; [|lia].
      destruct (In_nth _ _ 0 Hj) as (jx & Hjx & Hnth).
      assert (Hr : In (Z.of_nat jx) (range 0 (len rotations)))
        by (apply In_range; unfold len; lia).
      specialize (Hall (Z.of_nat jx) Hr). cbv beta in Hall.
      inv_bind_as Hall ti Eti.
      rewrite (getitem_nth _ _ 0) in Hall by (unfold len; lia).
      rewrite Nat2Z.id, Hnth in Hall. cbn [bind] in Hall. inv_bind_as Hall tj Etj.
      inv_bind_as Hall u Eu. inversion Hall as [Hu]. destruct u; [|discriminate].
      unfold unique_against. rewrite Eti. cbn [bind]. rewrite Etj. exact Eu.
    + destruct (Hch k ltac:(lia)) as [Hkept Hdropped]. split.
      * intros Hin j Hj Hlt. apply in_app_or in Hin.
        destruct Hin as [Hin | [<- | []]]; [|lia].
        apply in_app_or in Hj. destruct Hj as [Hj | [<- | []]]; [auto|].
        specialize (Hbelow k Hin). lia.
      * intros Hn. destruct Hdropped as (j & Hj & Hlt & Eu).
        { intros Hin. apply Hn, in_or_app. now left. }
        exists j. split; [apply in_or_app; now left | auto].
Qed.

(** What a call that returns has done to the tables. *)
Lemma process_tetromino_spec (fuel : nat) (bd : BlockData) (W H id : Z) (color : list Z)
    (T T' : Geometry) :
  process_tetromino fuel bd W H id color T = Ok T' ->
  exists e0 e1 e2 e3 rotations,
    tmino_list T' = tmino_list T ++ [e0; e1; e2; e3]
    /\ unique_tmino_list T' = unique_tmino_list T ++ [rotations]
    /\ unique_types T' = unique_types T
    /\ entry_of W H id color bd 0 e0 /\ entry_of W H id color bd 1 e1
    /\ entry_of W H id color bd 2 e2 /\ entry_of W H id color bd 3 e3
    /\ rotation_list 4 rotations
    /\ rotation_choice T' id 4 rotations.
Proof.
  unfold process_tetromino. intros Hp.
  inv_bind_as Hp s1 E1. destruct s1 as [m3 T1].
  inv_bind_as Hp rotations E2. inversion Hp; subst; clear Hp. cbn [tmino_list unique_tmino_list unique_types].
  apply (foldM_range_inv (entries_made W H id color bd T) _ 0 4 ltac:(lia))
    with (s := (bd, T)) in E1.
  - destruct E1 as (_ & Hu & Ht & es & Hes & Hlen & Hent). cbn [fst snd] in *.
    destruct es as [|e0 [|e1 [|e2 [|e3 [|e4 es]]]]];
      try (unfold len in Hlen; simpl in Hlen; lia).
    exists e0, e1, e2, e3, rotations. rewrite Hu, Ht.
    split; [assumption|]. split; [reflexivity|]. split; [reflexivity|].
    split; [apply (Hent 0%nat); reflexivity|].
    split; [apply (Hent 1%nat); reflexivity|].
    split; [apply (Hent 2%nat); reflexivity|].
    split; [apply (Hent 3%nat); reflexivity|].
    apply (foldM_range_inv
             (fun i r => rotation_list i r
                         /\ rotation_choice
                              {| tmino_list := tmino_list T1;
                                 unique_tmino_list := unique_tmino_list T ++ [rotations];
                                 unique_types := unique_types T |} id i r)
             _ 1 4 ltac:(lia))
      with (s := [0]) in E2; [assumption| |].
    + intros i r r' Hi [Hr Hch] Hstep. inv_bind_as Hstep clash Ec.
      inversion Hstep; subst r'; clear Hstep.
      split; [apply rotation_list_step; [lia | assumption]|].
      apply rotation_choice_step; [lia | assumption | assumption | exact Ec].
    + split; [split; [exists []; reflexivity|]; split; repeat constructor; lia|].
      intros k Hk. lia.
  - intros i [m T0] [m' T0'] Hi (Hm & Hu & Ht & es & Hes & Hlen & Hent) Hstep.
    cbn [fst snd] in *.
    inv_bind_as Hstep mi Emi. inv_bind_as Hstep mnx Emnx. inv_bind_as Hstep mny Emny.
    inv_bind_as Hstep mxx Emxx. inv_bind_as Hstep mxy Emxy.
    inversion Hstep; subst m' T0'; clear Hstep. cbn [fst snd tmino_list unique_tmino_list unique_types].
    assert (Hmi : mi = Nat.iter (Z.to_nat i) quarter_turn bd).
    { destruct (Z.eqb_spec i 0) as [-> | Hnz]; cbn [negb] in Emi.
      - inversion Emi; subst. reflexivity.
      - apply rotate_Ok in Emi. destruct Emi as [_ ->]. rewrite Hm.
        replace (Z.to_nat i) with (S (Z.to_nat (i - 1))) by lia. reflexivity. }
    split; [replace (i + 1 - 1) with i by lia; exact Hmi|].
    split; [assumption|]. split; [assumption|].
    eexists (es ++ [_]). split; [rewrite Hes, <- app_assoc; reflexivity|].
    split; [unfold len in *; rewrite length_app; simpl; lia|].
    intros k e Hk. destruct (Nat.lt_ge_cases k (length es)) as [Hlt | Hge].
    + rewrite nth_error_app1 in Hk by assumption. auto.
    + rewrite nth_error_app2 in Hk by assumption.
      destruct (k - length es)%nat as [|d] eqn:Ek; [|destruct d; discriminate].
      inversion Hk; subst e; clear Hk.
      assert (Hki : Z.to_nat i = k) by (unfold len in Hlen; lia).
      unfold entry_of. cbn. rewrite Hmi, Hki.
      split; [reflexivity|]. split; [reflexivity|].
      split; [apply iter_quarter_turn_len|].
      split; [lia|]. split; [reflexivity|].
      rewrite Hmi, Hki in Emnx, Emny, Emxx, Emxy.
      split; eapply probes_extent; eassumption.
  - unfold entries_made. cbn [fst snd]. split; [reflexivity|].
    split; [reflexivity|]. split; [reflexivity|].
    exists []. split; [now rewrite app_nil_r|]. split; [reflexivity|].
    intros k e Hk. destruct k; discriminate.
Qed.

(** ** C7: what a shape definition is accepted as *)





Lemma getitem_app_left {A} (l es : list A) (i : Z) :
  0 <= i < len l -> getitem (l ++ es) i = getitem l i.
Proof.
  intros Hi. destruct l as [|d l]; [unfold len in Hi; simpl in Hi; lia|].
  rewrite (getitem_nth _ _ d) by (unfold len in *; rewrite length_app; lia).
  rewrite (getitem_nth _ _ d) by assumption.
  rewrite app_nth1 by (unfold len in Hi; lia). reflexivity.
Qed.

Lemma getitem_app_at {A} (l es : list A) (r : Z) (d : A) :
  0 <= r < len es -> getitem (l ++ es) (len l + r) = Ok (nth (Z.to_nat r) es d).
Proof.
  intros Hr. pose proof (len_nonneg l).
  rewrite (getitem_nth _ _ d) by (unfold len in *; rewrite length_app; lia).
  rewrite app_nth2 by (unfold len; lia). do 2 f_equal. unfold len. lia.
Qed.

Lemma four_entries_lookup (T' : Geometry) (l : list TetrominoType.t)
    (e0 e1 e2 e3 : TetrominoType.t) (id rotation : Z) :
  tmino_list T' = l ++ [e0; e1; e2; e3] -> len l = (id - 1) * 4 ->
  get_tetromino_type T' id rotation
  = Ok (nth (Z.to_nat (rotation mod 4)) [e0; e1; e2; e3] e0).
Proof.
  intros Ht Hl. unfold get_tetromino_type. rewrite Ht, <- Hl.
  pose proof (Z.mod_pos_bound rotation 4 ltac:(lia)).
  apply getitem_app_at. unfold len. simpl. lia.
Qed.

Lemma four_entries_of (W H id : Z) (color : list Z) (bd : BlockData)
    (e0 e1 e2 e3 : TetrominoType.t) (r : Z) :
  entry_of W H id color bd 0 e0 -> entry_of W H id color bd 1 e1 ->
  entry_of W H id color bd 2 e2 -> entry_of W H id color bd 3 e3 ->
  0 <= r < 4 ->
  entry_of W H id color bd (Z.to_nat r) (nth (Z.to_nat r) [e0; e1; e2; e3] e0).
Proof.
  intros H0 H1 H2 H3 Hr.
  assert (Hc : r = 0 \/ r = 1 \/ r = 2 \/ r = 3) by lia.
  destruct Hc as [-> | [-> | [-> | ->]]]; assumption.
Qed.

(** X13. A shape that [process_tetromino] has put into the table can be
    looked up in every rotation state: with four entries per earlier
    shape in the table, [get_tetromino_type(id, rotation)] then returns the
    entry of rotation state [rotation % 4], whose mask is the given mask
    after that many quarter turns and whose size is the number of mask
    columns; [get_tetromino_color(id)] returns the given color; and the
    lookups of the earlier shapes answer as before. *)
Theorem process_tetromino_lookup :
  forall (fuel : nat) (block_data : BlockData) (W H id : Z) (color : list Z)
         (T T' : Geometry),
    len (tmino_list T) = (id - 1) * 4 ->
    process_tetromino fuel block_data W H id color T = Ok T' ->
    (forall rotation, exists e,
        get_tetromino_type T' id rotation = Ok e
        /\ TetrominoType.id e = id
        /\ TetrominoType.rotation e = rotation mod 4
        /\ TetrominoType.block_data e
           = Nat.iter (Z.to_nat (rotation mod 4)) quarter_turn block_data
        /\ TetrominoType.size e = len block_data
        /\ TetrominoType.color e = color)
    /\ get_tetromino_color T' id = Ok color
    /\ (forall id' rotation, 1 <= id' < id ->
          get_tetromino_type T' id' rotation = get_tetromino_type T id' rotation)
    /\ unique_types T' = unique_types T.
Proof.
  intros fuel bd W H id color T T' Hlen Hp.
  destruct (process_tetromino_spec _ _ _ _ _ _ _ _ Hp)
    as (e0 & e1 & e2 & e3 & rotations & Ht & Hu & Hty & H0 & H1 & H2 & H3 & _).
  split; [|split; [|split; [|exact Hty]]].
  - intros rotation. eexists. split; [eapply four_entries_lookup; eassumption|].
    pose proof (Z.mod_pos_bound rotation 4 ltac:(lia)) as Hr.
    destruct (four_entries_of W H id color bd e0 e1 e2 e3 (rotation mod 4) H0 H1 H2 H3 Hr)
      as (Hid & Hbd & Hsz & Hrot & Hcol & _).
    repeat split; try assumption. rewrite Hrot. lia.
  - unfold get_tetromino_color. rewrite Ht, <- Hlen.
    replace (len (tmino_list T)) with (len (tmino_list T) + 0) by lia.
    rewrite (getitem_app_at _ _ 0 e0) by (unfold len; simpl; lia).
    cbn. destruct H0 as (_ & _ & _ & _ & Hcol & _). now rewrite Hcol.
  - intros id' rotation Hid'. unfold get_tetromino_type. rewrite Ht.
    pose proof (Z.mod_pos_bound rotation 4 ltac:(lia)).
    apply getitem_app_left. lia.
Qed.

Lemma process_tetromino_lookup_witness :
  (forall rotation, exists e,
      get_tetromino_type block_geometry 1 rotation = Ok e
      /\ TetrominoType.id e = 1
      /\ TetrominoType.rotation e = rotation mod 4
      /\ TetrominoType.block_data e
         = Nat.iter (Z.to_nat (rotation mod 4)) quarter_turn [[true; true]; [true; true]]
      /\ TetrominoType.size e = len [[true; true]; [true; true]]
      /\ TetrominoType.color e = [])
  /\ get_tetromino_color block_geometry 1 = Ok []
  /\ (forall id' rotation, 1 <= id' < 1 ->
        get_tetromino_type block_geometry id' rotation
        = get_tetromino_type
            {| tmino_list := []; unique_tmino_list := []; unique_types := 1 |} id' rotation)
  /\ unique_types block_geometry = 1.
Proof.
  apply (process_tetromino_lookup 10 [[true; true]; [true; true]] 4 4 1 []
           {| tmino_list := []; unique_tmino_list := []; unique_types := 1 |}
           block_geometry).
  - reflexivity.
  - vm_compute. reflexivity.
Defined.

(** X14. Pieces of a shape that [process_tetromino] has put into the
    tables (four table entries and one rotation list per earlier shape)
    can be built in every rotation state and at every anchor, and their
    extents mean what the enumerator of moves takes them for: shifted by
    any [x] from [min_x] to [max_x] other than 0 (rows as they are) the
    mask is inside the board, one column further on either side it is
    not, and likewise for [min_y], [max_y] and shifts by rows. *)
Theorem process_tetromino_extents :
  forall (fuel : nat) (block_data : BlockData) (W H id : Z) (color : list Z)
         (T T' : Geometry),
    len (tmino_list T) = (id - 1) * 4 ->
    len (unique_tmino_list T) = id - 1 ->
    process_tetromino fuel block_data W H id color T = Ok T' ->
    forall rotation x y, exists tm,
      Tetromino.new T' id rotation x y = Ok tm
      /\ Tetromino.x_pos tm = x /\ Tetromino.y_pos tm = y
      /\ extent_of (fun v => out_of_bounds (Tetromino.block_data tm) v 0 W H)
                   (Tetromino.min_x tm) (Tetromino.max_x tm)
      /\ extent_of (fun v => out_of_bounds (Tetromino.block_data tm) 0 v W H)
                   (Tetromino.min_y tm) (Tetromino.max_y tm).
Proof.
  intros fuel bd W H id color T T' Hlen Hulen Hp rotation x y.
  destruct (process_tetromino_spec _ _ _ _ _ _ _ _ Hp)
    as (e0 & e1 & e2 & e3 & rotations & Ht & Hu & Hty & H0 & H1 & H2 & H3 & _).
  unfold Tetromino.new.
  rewrite (four_entries_lookup T' _ e0 e1 e2 e3 id rotation Ht Hlen). cbn [bind].
  rewrite Hu, <- Hulen.
  replace (len (unique_tmino_list T)) with (len (unique_tmino_list T) + 0) by lia.
  rewrite (getitem_app_at _ _ 0 []) by (unfold len; simpl; lia). cbn [bind].
  eexists. split; [reflexivity|].
  pose proof (Z.mod_pos_bound rotation 4 ltac:(lia)) as Hr.
  destruct (four_entries_of W H id color bd e0 e1 e2 e3 (rotation mod 4) H0 H1 H2 H3 Hr)
    as (_ & _ & _ & _ & _ & Hx & Hy).
  split; [reflexivity|]. split; [reflexivity|]. split; [exact Hx | exact Hy].
Qed.

Lemma process_tetromino_extents_witness :
  exists tm,
    Tetromino.new block_geometry 1 5 1 2 = Ok tm
    /\ Tetromino.x_pos tm = 1 /\ Tetromino.y_pos tm = 2
    /\ extent_of (fun v => out_of_bounds (Tetromino.block_data tm) v 0 4 4)
                 (Tetromino.min_x tm) (Tetromino.max_x tm)
    /\ extent_of (fun v => out_of_bounds (Tetromino.block_data tm) 0 v 4 4)
                 (Tetromino.min_y tm) (Tetromino.max_y tm).
Proof.
  apply (process_tetromino_extents 10 [[true; true]; [true; true]] 4 4 1 []
           {| tmino_list := []; unique_tmino_list := []; unique_types := 1 |}
           block_geometry).
  - reflexivity.
  - reflexivity.
  - vm_compute. reflexivity.
Defined.

(** X15. The list of rotation states that [process_tetromino] records
    for a shape starts with 0 and goes on increasing within 1..3; a state
    is in the list exactly when [rotationally_unique] told it apart from
    every state recorded before it, and a state that is left out was not
    told apart from some recorded state before it. *)
Theorem process_tetromino_rotations :
  forall (fuel : nat) (block_data : BlockData) (W H id : Z) (color : list Z)
         (T T' : Geometry),
    process_tetromino fuel block_data W H id color T = Ok T' ->
    exists rotations,
      unique_tmino_list T' = unique_tmino_list T ++ [rotations]
      /\ rotation_list 4 rotations
      /\ rotation_choice T' id 4 rotations.
Proof.
  intros fuel bd W H id color T T' Hp.
  destruct (process_tetromino_spec _ _ _ _ _ _ _ _ Hp)
    as (e0 & e1 & e2 & e3 & rotations & _ & Hu & _ & _ & _ & _ & _ & Hl & Hc).
  exists rotations. split; [assumption|]. split; assumption.
Qed.

Lemma process_tetromino_rotations_witness :
  exists rotations,
    unique_tmino_list block_geometry = [] ++ [rotations]
    /\ rotation_list 4 rotations
    /\ rotation_choice block_geometry 1 4 rotations.
Proof.
  apply (process_tetromino_rotations 10 [[true; true]; [true; true]] 4 4 1 []
           {| tmino_list := []; unique_tmino_list := []; unique_types := 1 |}
           block_geometry).
  vm_compute. reflexivity.
Defined.

(** ** Masks without a filled cell *)

Lemma out_of_bounds_blank (n : Z) (bd : BlockData) (xp yp W H : Z) :
  tall_mask n bd -> ~ has_filled_cell n bd -> out_of_bounds bd xp yp W H = Ok false.
Proof.
  intros Htall Hblank. pose proof Htall as [Hlen _]. unfold out_of_bounds. rewrite Hlen.
  apply anyM_all_false. intros x Hx. apply In_range in Hx.
  apply anyM_all_false. intros y Hy. apply In_range in Hy.
  rewrite (tall_mask_cell n) by (assumption || lia). cbn [bind].
  destruct (nth (Z.to_nat y) (nth (Z.to_nat x) bd []) false) eqn:Eb; [|reflexivity].
  exfalso. apply Hblank. exists x, y. split; [lia|]. split; [lia|].
  rewrite (tall_mask_cell n) by (assumption || lia). now rewrite Eb.
Qed.

Lemma probe_never (oob : Z -> result bool) (step : Z) :
  (forall v, oob v = Ok false) -> forall fuel v, probe fuel oob step v = OutOfFuel.
Proof.
  intros Hf. induction fuel as [|fuel IH]; intros v; [reflexivity|].
  cbn [probe]. rewrite Hf. cbn [bind]. apply IH.
Qed.

(** X16. A shape definition whose mask has no filled cell (in its
    leading square, each column having at least as many cells as there
    are columns) makes [process_tetromino] run for ever: no offset moves
    such a mask out of the board, so the search for [min_x] never ends and
    nothing is raised. *)
Theorem process_tetromino_blank_mask :
  forall (n : Z) (block_data : BlockData) (W H id : Z) (color : list Z) (T : Geometry),
    tall_mask n block_data -> ~ has_filled_cell n block_data ->
    forall fuel, process_tetromino fuel block_data W H id color T = OutOfFuel.
Proof.
  intros n bd W H id color T Htall Hblank fuel. unfold process_tetromino.
  change (range 0 4) with [0; 1; 2; 3]. cbn [foldM negb Z.eqb bind].
  rewrite probe_never; [reflexivity|].
  intros v. now apply (out_of_bounds_blank n).
Qed.

Lemma process_tetromino_blank_mask_witness :
  process_tetromino 50 [[false; false]; [false; false]] 4 4 1 [] empty_geometry = OutOfFuel.
Proof.
  apply (process_tetromino_blank_mask 2 [[false; false]; [false; false]] 4 4 1 []
           empty_geometry).
  - split; [reflexivity|]. repeat constructor; unfold len; simpl; lia.
  - intros (x & y & Hx & Hy & Hc).
    assert (Hcx : x = 0 \/ x = 1) by lia. assert (Hcy : y = 0 \/ y = 1) by lia.
    destruct Hcx as [-> | ->]; destruct Hcy as [-> | ->]; discriminate.
Defined.

(** ** Pieces and the table *)

Lemma Tetromino_rotate_back_eq (T : Geometry) (id rotation x y : Z)
    (tm tm1 : Tetromino.t) (cw : bool) :
  Tetromino.new T id rotation x y = Ok tm ->
  Tetromino.rotate T tm cw = Ok tm1 ->
  Tetromino.rotate T tm1 (negb cw) = Ok tm.
Proof.
  intros Hnew Hrot.
  unfold Tetromino.new in Hnew.
  inv_bind_as Hnew type Etype. inv_bind_as Hnew url Eurl.
  inversion Hnew; subst tm; clear Hnew.
  unfold Tetromino.rotate, Tetromino.set_type in Hrot. cbn in Hrot.
  inv_bind_as Hrot type1 Etype1. rewrite Eurl in Hrot. cbn [bind] in Hrot.
  inversion Hrot; subst tm1; clear Hrot.
  unfold Tetromino.rotate, Tetromino.set_type. cbn.
  replace (rotation + (if cw then 1 else -1) + (if negb cw then 1 else -1)) with rotation
    by (destruct cw; cbn; lia).
  rewrite Etype. cbn [bind]. rewrite Eurl. reflexivity.
Qed.

(** X17. Turning a piece built from the table clockwise and then
    counter-clockwise, or the other way round, gives back the very same
    piece, anchor and rotation counter included. *)
Theorem Tetromino_rotate_back :
  forall (T : Geometry) (id rotation x y : Z) (tm tm1 : Tetromino.t) (clockwise : bool),
    Tetromino.new T id rotation x y = Ok tm ->
    Tetromino.rotate T tm clockwise = Ok tm1 ->
    Tetromino.rotate T tm1 (negb clockwise) = Ok tm.
Proof.
  intros T id rotation x y tm tm1 cw Hnew Hrot.
  unfold Tetromino.new in Hnew.
  inv_bind_as Hnew type Etype. inv_bind_as Hnew url Eurl.
  inversion Hnew; subst tm; clear Hnew.
  unfold Tetromino.rotate, Tetromino.set_type in Hrot. cbn in Hrot.
  inv_bind_as Hrot type1 Etype1. rewrite Eurl in Hrot. cbn [bind] in Hrot.
  inversion Hrot; subst tm1; clear Hrot.
  unfold Tetromino.rotate, Tetromino.set_type. cbn.
  replace (rotation + (if cw then 1 else -1) + (if negb cw then 1 else -1)) with rotation
    by (destruct cw; cbn; lia).
  rewrite Etype. cbn [bind]. rewrite Eurl. reflexivity.
Qed.

Lemma Tetromino_rotate_back_witness :
  Tetromino.rotate block_geometry
    (Tetromino.Build [0] [[true; true]; [true; true]] 2 0 0 2 2 [] 1 1 0 0)
    (negb true) = Ok block_piece.
Proof.
  apply (Tetromino_rotate_back block_geometry 1 0 0 0 block_piece
           (Tetromino.Build [0] [[true; true]; [true; true]] 2 0 0 2 2 [] 1 1 0 0) true).
  - reflexivity.
  - reflexivity.
Defined.

Lemma getitem_nil {A} (i : Z) : getitem (@nil A) i = Raise IndexError.
Proof.
  unfold getitem. cbn [len length Z.of_nat].
  destruct (Z.ltb_spec i 0); rewrite ?Z.add_0_r.
  - destruct (Z.leb_spec 0 i); [lia | reflexivity].
  - destruct (Z.ltb_spec i 0); [lia|]. now rewrite andb_false_r.
Qed.

(** X18. [get_largest_tetromino_size] on a table that holds the four
    entries of each of its [unique_types >= 1] shapes returns the size
    of one of the shapes, and no shape has a larger one; on the empty
    table it raises IndexError. *)
Theorem get_largest_tetromino_size_max :
  forall T : Geometry,
    (tmino_list T = [] -> get_largest_tetromino_size T = Raise IndexError)
    /\ (1 <= unique_types T -> unique_types T * 4 <= len (tmino_list T) ->
        exists s,
          get_largest_tetromino_size T = Ok s
          /\ (exists i e, 0 <= i < unique_types T
                          /\ getitem (tmino_list T) (i * 4) = Ok e
                          /\ TetrominoType.size e = s)
          /\ (forall i e, 0 <= i < unique_types T ->
                          getitem (tmino_list T) (i * 4) = Ok e ->
                          TetrominoType.size e <= s)).
Proof.
  intros T. unfold get_largest_tetromino_size. split.
  - intros ->. destruct (range 1 (unique_types T)) as [|i l]; [reflexivity|].
    cbn [foldM]. now rewrite getitem_nil.
  - intros Hn Hlen.
    match goal with
    | |- context [foldM ?f (range 1 (unique_types T)) 0] =>
        destruct (foldM_range_ind
                    (fun i largest_idx =>
                       0 <= largest_idx < i
                       /\ forall j e el, 0 <= j < i ->
                            getitem (tmino_list T) (j * 4) = Ok e ->
                            getitem (tmino_list T) (largest_idx * 4) = Ok el ->
                            TetrominoType.size e <= TetrominoType.size el)
                    f 1 (unique_types T) Hn)
          with (s := 0) as (largest & El & Hl & Hmax)
    end.
    + intros i largest Hi [Hlg Hmax].
      destruct (getitem_total (tmino_list T) (i * 4)) as (ti & Eti); [lia|].
      destruct (getitem_total (tmino_list T) (largest * 4)) as (tl & Etl); [lia|].
      rewrite Eti. cbn [bind]. rewrite Etl. cbn [bind].
      eexists. split; [reflexivity|].
      destruct (Z.ltb_spec (TetrominoType.size tl) (TetrominoType.size ti)) as [Hlt | Hge].
      * split; [lia|]. intros j e el Hj Ej Eel.
        rewrite Eti in Eel. inversion Eel; subst el.
        destruct (Z.eq_dec j i) as [-> | Hne]; [rewrite Eti in Ej; inversion Ej; subst; lia|].
        specialize (Hmax j e tl ltac:(lia) Ej Etl). lia.
      * split; [lia|]. intros j e el Hj Ej Eel.
        rewrite Etl in Eel. inversion Eel; subst el.
        destruct (Z.eq_dec j i) as [-> | Hne]; [rewrite Eti in Ej; inversion Ej; subst; lia|].
        apply (Hmax j e tl ltac:(lia) Ej Etl).
    + split; [lia|]. intros j e el Hj Ej Eel.
      replace j with 0 in Ej by lia. rewrite Ej in Eel. inversion Eel. lia.
    + rewrite El. cbn [bind].
      destruct (getitem_total (tmino_list T) (largest * 4)) as (tl & Etl); [lia|].
      rewrite Etl. cbn [bind]. eexists. split; [reflexivity|]. split.
      * exists largest, tl. repeat split; (assumption || lia).
      * intros i e Hi Ei. apply (Hmax i e tl Hi Ei Etl).
Qed.

Lemma get_largest_tetromino_size_max_witness :
  exists s,
    get_largest_tetromino_size two_block_geometry = Ok s
    /\ (exists i e, 0 <= i < unique_types two_block_geometry
                    /\ getitem (tmino_list two_block_geometry) (i * 4) = Ok e
                    /\ TetrominoType.size e = s)
    /\ (forall i e, 0 <= i < unique_types two_block_geometry ->
                    getitem (tmino_list two_block_geometry) (i * 4) = Ok e ->
                    TetrominoType.size e <= s).
Proof.
  apply (proj2 (get_largest_tetromino_size_max two_block_geometry)).
  - simpl; lia.
  - vm_compute. discriminate.
Defined.

(** X19. [random_tetromino] raises ValueError when the table has no
    shape; when it returns, the piece has a shape id from 1 to
    [unique_types], rotation state 0, row anchor [min_y] and column
    anchor [(max_x - min_x) // 2 + min_x]. *)
Theorem random_tetromino_spec :
  forall (G : Type) (RG : RandomGen G) (T : Geometry) (g : G),
    RandomGenLaws G ->
    (unique_types T <= 0 -> random_tetromino T g = Raise ValueError)
    /\ (forall tm g', random_tetromino T g = Ok (tm, g') ->
          1 <= Tetromino.id tm <= unique_types T
          /\ Tetromino.rotation tm = 0
          /\ Tetromino.y_pos tm = Tetromino.min_y tm
          /\ Tetromino.x_pos tm
             = (Tetromino.max_x tm - Tetromino.min_x tm) / 2 + Tetromino.min_x tm).
Proof.
  intros G RG T g Laws. unfold random_tetromino, randint. split.
  - intros Hn. destruct (Z.leb_spec 0 (unique_types T - 1)); [lia | reflexivity].
  - intros tm g' Hr.
    destruct (Z.leb_spec 0 (unique_types T - 1)) as [Hn|]; [|discriminate].
    cbn [bind] in Hr.
    pose proof (next_int_range G Laws 0 (unique_types T - 1) g Hn) as Hidx.
    destruct (next_int 0 (unique_types T - 1) g) as [idx g1]. cbn [fst] in Hidx.
    inv_bind_as Hr ty Ety. inv_bind_as Hr tm1 Etm. inversion Hr; subst tm1 g'; clear Hr.
    unfold Tetromino.new, get_tetromino_type in Etm.
    replace ((idx + 1 - 1) * 4 + 0 mod 4) with (idx * 4) in Etm
      by (rewrite Z.mod_0_l; lia).
    rewrite Ety in Etm. cbn [bind] in Etm. inv_bind_as Etm url Eurl.
    inversion Etm; subst tm; clear Etm. cbn. repeat split; lia.
Qed.

Lemma random_tetromino_spec_witness :
  random_tetromino empty_geometry (@nil Q, @nil Z) = Raise ValueError.
Proof.
  apply (proj1 (random_tetromino_spec _ ScriptGen empty_geometry (@nil Q, @nil Z)
                  ScriptGen_laws)).
  simpl; lia.
Defined.

(** ** Reading the mask rows of a shape definition *)

Lemma update_nth_nth {A} (j k : nat) (v d : A) (l : list A) :
  (j < length l)%nat ->
  nth k (update_nth j v l) d = if Nat.eqb k j then v else nth k l d.
Proof.
  intros Hj. destruct (Nat.eqb_spec k j) as [-> | Hne].
  - now apply nth_update_nth_same.
  - now apply nth_update_nth_other.
Qed.

Lemma length_map_range {B} (f : Z -> B) (a b : Z) :
  length (map f (range a b)) = Z.to_nat (b - a).
Proof. unfold range. now rewrite length_map, range_from_length. Qed.

(** One row into a mask that has a column for each of its characters. *)
Lemma append_row_full (bd : BlockData) (row : list ascii) :
  len bd = len row -> 0 < len row ->
  append_row bd row
  = Ok (map (fun x => nth (Z.to_nat x) bd []
                      ++ [Ascii.eqb (nth (Z.to_nat x) row "_"%char) "O"%char])
            (range 0 (len row))).
Proof.
  intros Hlen Hw. unfold append_row. cbv zeta.
  match goal with
  | |- foldM ?f _ _ = _ =>
      destruct (foldM_range_ind
                  (fun i (b : BlockData) =>
                     length b = length bd
                     /\ forall x, (x < length bd)%nat ->
                          nth x b []
                          = if (Z.of_nat x <? i)
                            then nth x bd [] ++ [Ascii.eqb (nth x row "_"%char) "O"%char]
                            else nth x bd [])
                  f 0 (len row) ltac:(lia))
        with (s := bd) as (b & Eb & Hl & Hnth)
  end.
  - intros i b Hi [Hl Hnth].
    assert (Hlb : len b = len row) by (unfold len in *; lia).
    replace (len b =? 0) with false by (symmetry; apply Z.eqb_neq; lia).
    rewrite (getitem_nth b i []) by lia. cbn [bind].
    rewrite (getitem_nth row i "_"%char) by lia. cbn [bind].
    rewrite setitem_update by lia. eexists. split; [reflexivity|].
    split; [now rewrite update_nth_length|].
    intros x Hx. rewrite update_nth_nth by (unfold len in *; lia).
    destruct (Nat.eqb_spec x (Z.to_nat i)) as [-> | Hne].
    + rewrite Hnth by (unfold len in *; lia).
      destruct (Z.ltb_spec (Z.of_nat (Z.to_nat i)) i); [lia|].
      destruct (Z.ltb_spec (Z.of_nat (Z.to_nat i)) (i + 1)); [|lia]. reflexivity.
    + rewrite Hnth by assumption.
      destruct (Z.ltb_spec (Z.of_nat x) i); destruct (Z.ltb_spec (Z.of_nat x) (i + 1));
        (reflexivity || lia).
  - split; [reflexivity|]. intros x Hx.
    destruct (Z.ltb_spec (Z.of_nat x) 0); [lia | reflexivity].
  - transitivity (Ok b); [exact Eb|]. f_equal. apply (nth_ext _ _ [] []).
    + rewrite length_map_range. unfold len in *. lia.
    + intros x Hx. rewrite Hnth by lia.
      destruct (Z.ltb_spec (Z.of_nat x) (len row)); [|unfold len in *; lia].
      unfold len. rewrite nth_map_range by (unfold len in *; lia).
      now rewrite Nat2Z.id.
Qed.

(** The first character of the first row makes the columns. *)
Lemma append_row_first (row : list ascii) :
  0 < len row ->
  append_row [] row = append_row (map (fun _ => []) (range 0 (len row))) row.
Proof.
  intros Hw. unfold append_row.
  pose proof (range_cons 0 (len row) Hw) as Hc.
  remember (range 0 (len row)) as idx eqn:Hidx. clear Hidx.
  destruct idx as [|i0 idx']; [discriminate|]. reflexivity.
Qed.

Lemma append_rows_acc (w : Z) (rows : list (list ascii)) :
  0 < w -> Forall (fun r => len r = w) rows ->
  forall bd : BlockData,
    len bd = w ->
    foldM append_row rows bd
    = Ok (map (fun x => nth (Z.to_nat x) bd []
                        ++ map (fun r => Ascii.eqb (nth (Z.to_nat x) r "_"%char) "O"%char)
                               rows)
              (range 0 w)).
Proof.
  intros Hw Hrows. induction Hrows as [|r rows Hr Hrows IH]; intros bd Hbd; cbn [foldM map].
  - f_equal. apply (nth_ext _ _ [] []).
    + rewrite length_map_range. unfold len in Hbd. lia.
    + intros x Hx. replace w with (Z.of_nat (Z.to_nat w)) by lia.
      rewrite nth_map_range by (unfold len in Hbd; lia).
      now rewrite Nat2Z.id, app_nil_r.
  - rewrite append_row_full by lia. cbn [bind]. rewrite Hr.
    rewrite IH.
    2:{ unfold len. rewrite length_map_range. lia. }
    f_equal. apply map_ext_in. intros x Hx. apply In_range in Hx.
    replace w with (Z.of_nat (Z.to_nat w)) at 1 by lia.
    replace x with (Z.of_nat (Z.to_nat x)) at 1 by lia.
    rewrite nth_map_range by lia. rewrite !Nat2Z.id.
    rewrite <- app_assoc. reflexivity.
Qed.

Lemma range_from_app (a : Z) (k m : nat) :
  range_from a (k + m) = range_from a k ++ range_from (a + Z.of_nat k) m.
Proof.
  revert a. induction k as [|k IH]; intros a; cbn [range_from app Nat.add].
  - f_equal. lia.
  - f_equal. rewrite IH. do 2 f_equal. lia.
Qed.

Lemma range_split (a m b : Z) :
  a <= m < b -> range a b = range a m ++ m :: range (m + 1) b.
Proof.
  intros Hm. unfold range.
  replace (Z.to_nat (b - a)) with (Z.to_nat (m - a) + S (Z.to_nat (b - (m + 1))))%nat by lia.
  rewrite range_from_app. cbn [range_from]. do 2 f_equal; [lia|]. f_equal. lia.
Qed.

(** X20. The rows of a shape definition are stored column by column:
    after the [row] lines of one definition, all of the same width, the
    mask has one column per character and one cell per row, and
    [block_data[x][y]] tells whether character [x] of row [y] is an O.
    (So the mask is square only if there are as many rows as characters
    in a row.)  A row that is longer than the first one raises
    IndexError. *)
Theorem append_row_transposes :
  forall (row : list ascii) (rows : list (list ascii)) (w : Z),
    0 < w -> Forall (fun r => len r = w) (row :: rows) ->
    foldM append_row (row :: rows) []
    = Ok (map (fun x => map (fun r => Ascii.eqb (nth (Z.to_nat x) r "_"%char) "O"%char)
                            (row :: rows))
              (range 0 w))
    /\ forall (block_data : BlockData) (long : list ascii),
         foldM append_row (row :: rows) [] = Ok block_data ->
         w < len long -> append_row block_data long = Raise IndexError.
Proof.
  intros row rows w Hw Hall.
  assert (Hread :
            foldM append_row (row :: rows) []
            = Ok (map (fun x => map (fun r => Ascii.eqb (nth (Z.to_nat x) r "_"%char)
                                                        "O"%char)
                                    (row :: rows))
                      (range 0 w))).
  { inversion Hall as [|? ? Hrow Hrows]; subst.
    change (foldM append_row (row :: rows) [])
      with (b <- append_row [] row ;; foldM append_row rows b).
    rewrite append_row_first by lia.
    change (b <- append_row (map (fun _ => []) (range 0 (len row))) row ;;
            foldM append_row rows b)
      with (foldM append_row (row :: rows) (map (fun _ => []) (range 0 (len row)))).
    rewrite (append_rows_acc (len row)); try assumption.
    - f_equal. apply map_ext_in. intros x Hx. apply In_range in Hx.
      replace (len row) with (Z.of_nat (Z.to_nat (len row))) at 1 by lia.
      replace x with (Z.of_nat (Z.to_nat x)) at 1 by lia.
      rewrite nth_map_range by lia. reflexivity.
    - unfold len at 1. rewrite length_map_range. lia. }
  split; [exact Hread|].
  intros bd long Hbd Hlong.
  assert (Hlen : len bd = w).
  { rewrite Hread in Hbd. injection Hbd as <-. unfold len. rewrite length_map_range. lia. }
  clear Hbd Hread.
  unfold append_row.
  rewrite (range_split 0 w (len long)) by lia.
  rewrite foldM_app. cbv zeta.
  match goal with
  | |- context [foldM ?f (range 0 w) bd] =>
      destruct (foldM_total (fun b : BlockData => len b = w) f (range 0 w))
        with (s := bd) as (b & Eb & Hb)
  end.
  - intros b i Hi Hb. apply In_range in Hi.
    replace (len b =? 0) with false by (symmetry; apply Z.eqb_neq; lia).
    destruct (getitem_total b i) as (col & Ecol); [lia|].
    destruct (getitem_total long i) as (c & Ec); [lia|].
    rewrite Ecol. cbn [bind]. rewrite Ec. cbn [bind].
    rewrite setitem_update by lia. eexists. split; [reflexivity|].
    unfold len in *. now rewrite update_nth_length.
  - assumption.
  - etransitivity; [apply bind_Ok; exact Eb|]. cbn [bind foldM].
    replace (len b =? 0) with false by (symmetry; apply Z.eqb_neq; lia).
    rewrite getitem_overflow by lia. reflexivity.
Qed.

Lemma append_row_transposes_witness :
  foldM append_row (["O"; "O"]%char :: [["."; "O"]%char]) []
  = Ok (map (fun x => map (fun r => Ascii.eqb (nth (Z.to_nat x) r "_"%char) "O"%char)
                          (["O"; "O"]%char :: [["."; "O"]%char]))
            (range 0 2))
  /\ forall (block_data : BlockData) (long : list ascii),
       foldM append_row (["O"; "O"]%char :: [["."; "O"]%char]) [] = Ok block_data ->
       2 < len long -> append_row block_data long = Raise IndexError.
Proof.
  apply (append_row_transposes ["O"; "O"]%char [["."; "O"]%char] 2).
  - lia.
  - repeat constructor.
Defined.

(** ** The bag of pieces *)

Lemma remove_nth_perm {A} (l : list A) (j : nat) (a : A) :
  nth_error l j = Some a -> Permutation (a :: firstn j l ++ skipn (S j) l) l.
Proof.
  revert j. induction l as [|h t IH]; intros [|j] Hn; try discriminate.
  - inversion Hn; subst. reflexivity.
  - cbn [firstn skipn app]. cbn [nth_error] in Hn.
    etransitivity; [apply perm_swap|]. apply perm_skip. now apply IH.
Qed.

Lemma pop_getitem_perm {A} (l l' : list A) (i : Z) (a : A) :
  getitem l i = Ok a -> pop_at l i = Ok l' -> Permutation (a :: l') l.
Proof.
  unfold getitem, pop_at.
  destruct ((0 <=? (if i <? 0 then i + len l else i))
            && ((if i <? 0 then i + len l else i) <? len l)); [|discriminate].
  destruct (nth_error l (Z.to_nat (if i <? 0 then i + len l else i))) as [a'|] eqn:En;
    [|discriminate].
  intros [= ->] [= <-]. now apply remove_nth_perm.
Qed.

Lemma Tetromino_new_fields (T : Geometry) (id rotation x y : Z) (tm : Tetromino.t) :
  Tetromino.new T id rotation x y = Ok tm ->
  Tetromino.id tm = id /\ Tetromino.rotation tm = rotation
  /\ Tetromino.x_pos tm = x /\ Tetromino.y_pos tm = y.
Proof.
  unfold Tetromino.new. intros Hn. inv_bind Hn. inv_bind Hn.
  inversion Hn; subst. cbn. auto.
Qed.

Lemma fill_tetromino_seq_spec {G} {RG : RandomGen G} (T : Geometry) :
  RandomGenLaws G -> table_ready T ->
  forall (fuel : nat) (id_list : list Z) (seq : list Tetromino.t) (g : G),
    fuel = length id_list ->
    (forall id, In id id_list -> 1 <= id <= unique_types T) ->
    exists new g',
      Tetris.fill_tetromino_seq T fuel id_list seq g = Ok (seq ++ new, g')
      /\ Permutation (map Tetromino.id new) id_list
      /\ Forall (fun tm => as_spawned tm /\ mask_readable tm) new.
Proof.
  intros Hlaws [_ Htable]. induction fuel as [|fuel IH]; intros id_list seq g Hfuel Hids.
  - destruct id_list; [|discriminate]. exists [], g. rewrite app_nil_r.
    split; [reflexivity|]. split; constructor.
  - destruct id_list as [|id0 ids]; [discriminate|].
    cbn [Tetris.fill_tetromino_seq].
    rewrite len_cons. pose proof (len_nonneg ids) as Hl0.
    replace (negb (len ids + 1 =? 0)) with true by (symmetry; apply negb_true_iff; zb).
    rewrite randint_Ok by lia.
    pose proof (next_int_range G Hlaws 0 (len ids + 1 - 1) g ltac:(lia)) as Hr.
    destruct (next_int 0 (len ids + 1 - 1) g) as [rand_idx g1]. cbn [fst] in Hr.
    cbn [bind].
    destruct (getitem_wrap_total (id0 :: ids) rand_idx) as (id & Eid);
      [rewrite len_cons; lia|].
    rewrite Eid. cbn [bind].
    destruct (pop_at_total (id0 :: ids) rand_idx) as (ids' & Epop & Hlen & Hsub);
      [rewrite len_cons; lia|].
    rewrite Epop. cbn [bind].
    destruct (Htable id) as (tm & Etm & Hread); [apply Hids; eapply getitem_In; eauto|].
    rewrite Etm. cbn [bind].
    destruct (Tetromino_new_fields _ _ _ _ _ _ Etm) as (Hid & Hrot & _ & _).
    match goal with
    | |- context [Tetris.fill_tetromino_seq T fuel ids' (seq ++ [?p]) g1] =>
        destruct (IH ids' (seq ++ [p]) g1) as (new & g' & E & Hperm & Hall);
        [simpl in Hlen, Hfuel; lia | intros id' Hin; apply Hids; auto |];
        exists (p :: new), g'
    end.
    rewrite <- app_assoc in E. split; [exact E|]. split.
    + cbn [map]. cbn. rewrite Hid.
      etransitivity; [apply perm_skip; exact Hperm|].
      eapply pop_getitem_perm; eassumption.
    + constructor; [|assumption]. split.
      * unfold as_spawned. cbn. auto.
      * intros x y Hx Hy. apply Hread; assumption.
Qed.

(** X21. Every bag that [generate_tetromino_seq] deals is fair: with a
    table that serves the shape ids 1..[unique_types], the sequence holds
    each shape id exactly once, every piece in its first rotation state at
    column [(max_x - min_x) // 2] and row [min_y]. *)
Theorem generate_tetromino_seq_fair :
  forall (G : Type) (RG : RandomGen G) (T : Geometry) (g : G),
    RandomGenLaws G -> table_ready T ->
    exists seq g',
      Tetris.generate_tetromino_seq T g = Ok (seq, g')
      /\ Permutation (map Tetromino.id seq) (range 1 (unique_types T + 1))
      /\ Forall as_spawned seq.
Proof.
  intros G RG T g Hlaws Htable. unfold Tetris.generate_tetromino_seq.
  destruct (fill_tetromino_seq_spec T Hlaws Htable
              (length (range 1 (unique_types T + 1))) (range 1 (unique_types T + 1)) [] g)
    as (new & g' & E & Hperm & Hall); [reflexivity | |].
  - intros id Hin. apply In_range in Hin. lia.
  - exists new, g'. split; [exact E|]. split; [exact Hperm|].
    eapply Forall_impl; [|exact Hall]. cbv beta. tauto.
Qed.

Lemma two_block_geometry_ready : table_ready two_block_geometry.
Proof.
  split; [simpl; lia|]. intros id Hid.
  assert (Hc : id = 1 \/ id = 2) by (simpl in Hid; lia).
  destruct Hc as [-> | ->]; (eexists; split; [reflexivity|]);
    intros x y Hx Hy; cbn in Hx, Hy;
    assert (Hcx : x = 0 \/ x = 1) by lia; assert (Hcy : y = 0 \/ y = 1) by lia;
    destruct Hcx as [-> | ->]; destruct Hcy as [-> | ->]; eexists; reflexivity.
Qed.

Lemma generate_tetromino_seq_fair_witness :
  exists seq g',
    Tetris.generate_tetromino_seq two_block_geometry (@nil Q, [1]) = Ok (seq, g')
    /\ Permutation (map Tetromino.id seq) (range 1 (unique_types two_block_geometry + 1))
    /\ Forall as_spawned seq.
Proof.
  apply (generate_tetromino_seq_fair _ ScriptGen two_block_geometry (@nil Q, [1])
           ScriptGen_laws two_block_geometry_ready).
Defined.

(** ** A new game *)

Lemma getitem_Ok_or_IndexError {A} (l : list A) (i : Z) :
  (exists a, getitem l i = Ok a) \/ getitem l i = Raise IndexError.
Proof.
  unfold getitem. destruct (_ && _); [|now right].
  destruct (nth_error l _); [left; eauto | now right].
Qed.

Lemma Tetromino_new_Ok_or_IndexError (T : Geometry) (id rotation x y : Z) :
  (exists tm, Tetromino.new T id rotation x y = Ok tm)
  \/ Tetromino.new T id rotation x y = Raise IndexError.
Proof.
  unfold Tetromino.new, get_tetromino_type.
  destruct (getitem_Ok_or_IndexError (tmino_list T) ((id - 1) * 4 + rotation mod 4))
    as [[ty ->] | ->]; [|now right]. cbn [bind].
  destruct (getitem_Ok_or_IndexError (unique_tmino_list T) (id - 1))
    as [[url ->] | ->]; [|now right]. cbn [bind]. left. eauto.
Qed.

Lemma pop_at_last {A} (l : list A) (a : A) : pop_at (l ++ [a]) (-1) = Ok l.
Proof.
  unfold pop_at. cbn [Z.ltb Z.compare].
  assert (Hlen : len (l ++ [a]) = len l + 1)
    by (unfold len; rewrite length_app; simpl; lia).
  pose proof (len_nonneg l). rewrite Hlen.
  replace ((0 <=? -1 + (len l + 1)) && (-1 + (len l + 1) <? len l + 1)) with true
    by (symmetry; apply andb_true_iff; split; [apply Z.leb_le | apply Z.ltb_lt]; lia).
  f_equal. replace (Z.to_nat (-1 + (len l + 1))) with (length l) by (unfold len; lia).
  rewrite firstn_app, firstn_all, Nat.sub_diag. cbn [firstn].
  rewrite skipn_all2 by (rewrite length_app; simpl; lia). now rewrite !app_nil_r.
Qed.

Lemma NoDup_range_from (a : Z) (n : nat) : NoDup (range_from a n).
Proof.
  revert a. induction n as [|n IH]; intros a; cbn [range_from]; constructor; [|apply IH].
  intros Hin. apply In_range_from in Hin. lia.
Qed.

Lemma two_last {A} (l : list A) :
  (2 <= length l)%nat -> exists l0 b a, l = (l0 ++ [b]) ++ [a].
Proof.
  intros Hl. destruct (exists_last (l := l)) as (l1 & a & ->);
    [intros ->; simpl in Hl; lia|].
  rewrite length_app in Hl. simpl in Hl.
  destruct (exists_last (l := l1)) as (l0 & b & ->);
    [intros ->; simpl in Hl; lia|].
  eauto.
Qed.

(** X22. A game needs two shapes: with [unique_types <= 1] the
    constructor [Tetris(...)] raises IndexError (the bag runs out before
    the next piece is taken); with a table that serves two or more
    shapes it returns a game with an empty board whose current and next
    piece are two different shapes, both as the bag sets them on top, and
    the other [unique_types - 2] pieces left in the bag. *)
Theorem Tetris_new_needs_two_shapes :
  forall (G : Type) (RG : RandomGen G) (T : Geometry) (W H : Z) (g : G),
    RandomGenLaws G ->
    (unique_types T <= 1 -> Tetris.new T W H g = Raise IndexError)
    /\ (table_ready T -> 2 <= unique_types T ->
        exists game g' cur,
          Tetris.new T W H g = Ok (game, g')
          /\ fresh_game W H game
          /\ Tetris.current_tmino game = Some cur
          /\ as_spawned cur /\ as_spawned (Tetris.next_tmino game)
          /\ Tetromino.id cur <> Tetromino.id (Tetris.next_tmino game)
          /\ len (Tetris.tmino_seq game) = unique_types T - 2).
Proof.
  intros G RG T W H g Hlaws. split.
  - intros Hn. unfold Tetris.new, Tetris.generate_tetromino_seq.
    destruct (Z.le_gt_cases (unique_types T) 0) as [H0 | H1].
    + rewrite range_nil by lia. reflexivity.
    + replace (unique_types T + 1) with 2 by lia.
      change (range 1 2) with [1]. cbn [length Tetris.fill_tetromino_seq len Z.of_nat].
      cbn [Pos.of_succ_nat Z.eqb negb Z.sub Z.pos_sub Z.add Z.opp].
      rewrite randint_Ok by lia.
      pose proof (next_int_range G Hlaws 0 0 g ltac:(lia)) as Hr.
      destruct (next_int 0 0 g) as [idx g1]. cbn [fst] in Hr.
      replace idx with 0 by lia. cbn [bind].
      change (getitem [1] 0) with (Ok 1). change (pop_at [1] 0) with (Ok (@nil Z)).
      cbn [bind].
      destruct (Tetromino_new_Ok_or_IndexError T 1 0 0 0) as [[tm ->] | ->];
        reflexivity.
  - intros Htable Hn. unfold Tetris.new.
    destruct (fill_tetromino_seq_spec T Hlaws Htable
                (length (range 1 (unique_types T + 1))) (range 1 (unique_types T + 1)) [] g)
      as (seq & g' & E & Hperm & Hall); [reflexivity | |].
    { intros id Hin. apply In_range in Hin. lia. }
    unfold Tetris.generate_tetromino_seq. cbn [app] in E. rewrite E. cbn [bind].
    assert (Hlen : length seq = Z.to_nat (unique_types T)).
    { apply Permutation_length in Hperm. rewrite length_map in Hperm.
      rewrite Hperm. unfold range. rewrite range_from_length. lia. }
    destruct (two_last seq) as (seq0 & b & a & ->); [lia|].
    rewrite getitem_last. cbn [bind]. rewrite pop_at_last. cbn [bind].
    rewrite getitem_last. cbn [bind]. rewrite pop_at_last. cbn [bind].
    exists (Tetris.Build W H false 0
              (map (fun _ => repeat 0 (Z.to_nat H)) (range 0 W)) seq0 (Some a) b None),
      g', a.
    split; [reflexivity|].
    rewrite !Forall_app in Hall. destruct Hall as [[_ Hb] Ha].
    inversion Hb as [|? ? [Hsb _] _]; subst. inversion Ha as [|? ? [Hsa _] _]; subst.
    split; [unfold fresh_game; cbn; repeat split; discriminate|].
    split; [reflexivity|]. split; [assumption|]. split; [assumption|]. split.
    + cbn [Tetris.next_tmino]. intros Heq.
      assert (Hnd : NoDup (map Tetromino.id ((seq0 ++ [b]) ++ [a]))).
      { eapply Permutation_NoDup; [symmetry; exact Hperm|]. apply NoDup_range_from. }
      rewrite !map_app in Hnd. cbn [map] in Hnd.
      rewrite <- app_assoc in Hnd. apply NoDup_remove_2 in Hnd.
      apply Hnd. apply in_or_app. right. rewrite Heq. now left.
    + cbn [Tetris.tmino_seq]. rewrite !length_app in Hlen. simpl in Hlen.
      unfold len. lia.
Qed.

Lemma Tetris_new_needs_two_shapes_witness :
  Tetris.new block_geometry 4 4 (@nil Q, @nil Z) = Raise IndexError.
Proof.
  apply (proj1 (Tetris_new_needs_two_shapes _ ScriptGen block_geometry 4 4
                  (@nil Q, @nil Z) ScriptGen_laws)).
  simpl; lia.
Defined.

(** ** Locking keeps the game sound *)

(** X23. [place_tetromino] keeps a game sound and detects the loss: from
    a game with a board of its own size without a full row and readable
    pieces, it returns a game of the same size with such a board and such
    pieces again and no fewer lines cleared; the piece that was next has
    become the current one if it does not collide with the new board, and
    otherwise the game is lost and has no current piece. *)
Theorem place_tetromino_keeps_sound :
  forall (G : Type) (RG : RandomGen G) (T : Geometry) (self : Tetris.t) (g : G)
         (tm : Tetromino.t),
    RandomGenLaws G -> table_ready T -> sound_game self ->
    Tetris.current_tmino self = Some tm ->
    mask_readable tm -> 0 <= Tetromino.size tm ->
    - Tetris.grid_height self <= Tetromino.y_pos tm ->
    exists self' g',
      Tetris.place_tetromino T self g = Ok (self', g')
      /\ sound_game self'
      /\ Tetris.grid_width self' = Tetris.grid_width self
      /\ Tetris.grid_height self' = Tetris.grid_height self
      /\ Tetris.lines_cleared self <= Tetris.lines_cleared self'
      /\ ((Tetris.lost self' = true /\ Tetris.current_tmino self' = None
           /\ is_colliding (Tetris.grid self') (Tetris.next_tmino self) = Ok true)
          \/ (Tetris.lost self' = Tetris.lost self
              /\ Tetris.current_tmino self' = Some (Tetris.next_tmino self)
              /\ is_colliding (Tetris.grid self') (Tetris.next_tmino self) = Ok false)).
Proof.
  intros G RG T self g tm Hlaws Htable (HWpos & Hshape & Hnofull & Hnext & Hbag)
         Hcur Hmask Hsize Hypos.
  set (W := Tetris.grid_width self) in *. set (H := Tetris.grid_height self) in *.
  destruct (write_tetromino_spec W H (Tetris.grid self) tm Hshape Hmask)
    as (written & Ew & Hsw & Hout).
  assert (HH0 : 0 <= H).
  { pose proof (grid_shape_nth W H written 0 Hsw ltac:(lia)) as Hc.
    rewrite <- Hc. apply len_nonneg. }
  destruct (clear_lines_spec W H written (Tetris.lines_cleared self)
              (Tetromino.y_pos tm) (Tetromino.size tm) Hsw HWpos Hsize Hypos)
    as (cy' & Ec).
  { intros y Hy Hspan.
    rewrite (full_rowb_outside_span W H (Tetris.grid self) written) by auto.
    now apply Hnofull. }
  pose proof (remove_full_rows_shape W H written Hsw HH0) as Hsg.
  pose proof (remove_full_rows_no_full_row W H written Hsw HWpos) as Hnf.
  destruct (is_colliding_total W H _ (Tetris.next_tmino self) Hsg Hnext)
    as (colliding & Ecol).
  assert (Hseq : exists seq g1,
             (if len (Tetris.tmino_seq self) =? 0
              then Tetris.generate_tetromino_seq T g
              else Ok (Tetris.tmino_seq self, g)) = Ok (seq, g1)
             /\ seq <> [] /\ Forall mask_readable seq).
  { destruct (Z.eqb_spec (len (Tetris.tmino_seq self)) 0) as [Hz | Hnz].
    - unfold Tetris.generate_tetromino_seq.
      destruct (fill_tetromino_seq_spec T Hlaws Htable
                  (length (range 1 (unique_types T + 1)))
                  (range 1 (unique_types T + 1)) [] g)
        as (new & g1 & E & Hperm & Hall); [reflexivity | |].
      { intros id Hin. apply In_range in Hin. lia. }
      exists new, g1. split; [exact E|]. split.
      + intros ->. apply Permutation_length in Hperm. cbn [map length] in Hperm.
        unfold range in Hperm. rewrite range_from_length in Hperm.
        destruct Htable as [Hpos _]. lia.
      + eapply Forall_impl; [|exact Hall]. cbv beta. tauto.
    - exists (Tetris.tmino_seq self), g. split; [reflexivity|]. split; [|assumption].
      intros Hnil. rewrite Hnil in Hnz. now apply Hnz. }
  destruct Hseq as (seq & g1 & Eseq & Hne & Hread).
  pose proof (len_pos_nonempty seq Hne) as Hlen.
  destruct (getitem_wrap_total seq (-1)) as (next & Enext); [lia|].
  destruct (pop_at_total seq (-1)) as (seq' & Epop & _ & Hsub); [lia|].
  assert (Hnext' : mask_readable next).
  { rewrite Forall_forall in Hread. apply Hread. eapply getitem_In; eassumption. }
  assert (Hbag' : Forall mask_readable seq').
  { rewrite Forall_forall in Hread |- *. intros p Hp. apply Hread, Hsub, Hp. }
  assert (Hlines : Tetris.lines_cleared self
                   <= Tetris.lines_cleared self
                      + Z.of_nat (count_full_rows (Z.to_nat H) written)) by lia.
  unfold Tetris.place_tetromino. rewrite Hcur. fold W H. rewrite Ew. cbn [bind].
  rewrite Ec. cbn [bind]. rewrite Eseq. cbn [bind].
  rewrite Enext. cbn [bind]. rewrite Epop. cbn [bind]. rewrite Ecol. cbn [bind].
  destruct colliding; eexists; eexists; (split; [reflexivity|]); cbn;
    (split; [unfold sound_game; cbn; auto|]);
    (split; [reflexivity|]); (split; [reflexivity|]); (split; [exact Hlines|]);
    [left | right]; auto.
Qed.

Lemma place_tetromino_keeps_sound_witness :
  exists self' g',
    Tetris.place_tetromino block_geometry sample_game (@nil Q, @nil Z) = Ok (self', g')
    /\ sound_game self'
    /\ Tetris.grid_width self' = Tetris.grid_width sample_game
    /\ Tetris.grid_height self' = Tetris.grid_height sample_game
    /\ Tetris.lines_cleared sample_game <= Tetris.lines_cleared self'
    /\ ((Tetris.lost self' = true /\ Tetris.current_tmino self' = None
         /\ is_colliding (Tetris.grid self') (Tetris.next_tmino sample_game) = Ok true)
        \/ (Tetris.lost self' = Tetris.lost sample_game
            /\ Tetris.current_tmino self' = Some (Tetris.next_tmino sample_game)
            /\ is_colliding (Tetris.grid self') (Tetris.next_tmino sample_game)
               = Ok false)).
Proof.
  apply (place_tetromino_keeps_sound _ ScriptGen block_geometry sample_game
           (@nil Q, @nil Z) (Tetromino.with_y_pos block_piece 2)
           ScriptGen_laws block_geometry_ready).
  - split; [simpl; lia|]. split; [split; [reflexivity | repeat constructor]|].
    split; [intros y Hy; simpl in Hy;
            assert (Hc : (y = 0 \/ y = 1 \/ y = 2 \/ y = 3)%nat) by lia;
            destruct Hc as [-> | [-> | [-> | ->]]]; reflexivity|].
    split; [apply (block_piece_readable 0 0) | constructor].
  - reflexivity.
  - apply (block_piece_readable 0 2).
  - simpl; lia.
  - simpl; lia.
Defined.

(** ** Moves of the falling piece *)

Lemma with_x_pos_back (tm : Tetromino.t) (d : Z) :
  Tetromino.with_x_pos (Tetromino.with_x_pos tm (Tetromino.x_pos tm + d))
    (Tetromino.x_pos (Tetromino.with_x_pos tm (Tetromino.x_pos tm + d)) - d) = tm.
Proof. destruct tm. unfold Tetromino.with_x_pos. cbn. f_equal. lia. Qed.

Lemma with_y_pos_back (tm : Tetromino.t) (d : Z) :
  Tetromino.with_y_pos (Tetromino.with_y_pos tm (Tetromino.y_pos tm + d))
    (Tetromino.y_pos (Tetromino.with_y_pos tm (Tetromino.y_pos tm + d)) - d) = tm.
Proof. destruct tm. unfold Tetromino.with_y_pos. cbn. f_equal. lia. Qed.

Lemma moved_to_store (self : Tetris.live) (tm' : Tetromino.t) :
  is_colliding (Tetris.grid (Tetris.game self)) tm' = Ok false ->
  moved_to self (Tetris.store_current self tm') tm'.
Proof.
  intros Hfree. unfold moved_to, Tetris.store_current, same_board. cbn.
  repeat split; assumption.
Qed.

Lemma mask_readable_with_x (tm : Tetromino.t) (x : Z) :
  mask_readable tm -> mask_readable (Tetromino.with_x_pos tm x).
Proof. intros Hm cx cy Hx Hy. apply Hm; assumption. Qed.

Lemma mask_readable_with_y (tm : Tetromino.t) (y : Z) :
  mask_readable tm -> mask_readable (Tetromino.with_y_pos tm y).
Proof. intros Hm cx cy Hx Hy. apply Hm; assumption. Qed.

(** X24. The sideways moves and the turn move the falling piece exactly
    when it is free where it would go, and touch nothing but the piece.
    From a piece that does not collide, with [blocked] the answer of
    [is_colliding] for the piece one column to the left, [move_left]
    returns with the piece where it was if [blocked] and one column to
    the left if not; likewise [move_right] to the right, and [rotate] for
    the piece turned clockwise.  In each case the piece left behind does
    not collide. *)
Theorem sideways_moves_keep_free :
  forall (T : Geometry) (self : Tetris.live) (tm : Tetromino.t) (W H : Z),
    grid_shape W H (Tetris.grid (Tetris.game self)) ->
    Tetris.current_tmino (Tetris.game self) = Some tm ->
    mask_readable tm ->
    is_colliding (Tetris.grid (Tetris.game self)) tm = Ok false ->
    (exists blocked self',
        is_colliding (Tetris.grid (Tetris.game self))
                     (Tetromino.with_x_pos tm (Tetromino.x_pos tm - 1)) = Ok blocked
        /\ Tetris.move_left self = Ok self'
        /\ moved_to self self'
             (if blocked then tm else Tetromino.with_x_pos tm (Tetromino.x_pos tm - 1)))
    /\ (exists blocked self',
        is_colliding (Tetris.grid (Tetris.game self))
                     (Tetromino.with_x_pos tm (Tetromino.x_pos tm + 1)) = Ok blocked
        /\ Tetris.move_right self = Ok self'
        /\ moved_to self self'
             (if blocked then tm else Tetromino.with_x_pos tm (Tetromino.x_pos tm + 1)))
    /\ (forall id rotation x y turned,
          Tetromino.new T id rotation x y = Ok tm ->
          Tetromino.rotate T tm true = Ok turned -> mask_readable turned ->
          exists blocked self',
            is_colliding (Tetris.grid (Tetris.game self)) turned = Ok blocked
            /\ Tetris.rotate T self = Ok self'
            /\ moved_to self self' (if blocked then tm else turned)).
Proof.
  intros T self tm W H Hshape Hcur Hmask Hfree. split; [|split].
  - unfold Tetris.move_left. rewrite Hcur.
    destruct (is_colliding_total W H _ (Tetromino.with_x_pos tm (Tetromino.x_pos tm - 1))
                Hshape (mask_readable_with_x _ _ Hmask)) as (blocked & Ec).
    exists blocked. rewrite Ec. cbn [bind].
    destruct blocked; eexists; (split; [reflexivity|]); (split; [reflexivity|]).
    + pose proof (with_x_pos_back tm (-1)) as Hb.
      replace (Tetromino.x_pos tm + -1) with (Tetromino.x_pos tm - 1) in Hb by lia.
      replace (Tetromino.x_pos (Tetromino.with_x_pos tm (Tetromino.x_pos tm - 1)) - -1)
        with (Tetromino.x_pos (Tetromino.with_x_pos tm (Tetromino.x_pos tm - 1)) + 1)
        in Hb by lia.
      rewrite Hb. now apply moved_to_store.
    + now apply moved_to_store.
  - unfold Tetris.move_right. rewrite Hcur.
    destruct (is_colliding_total W H _ (Tetromino.with_x_pos tm (Tetromino.x_pos tm + 1))
                Hshape (mask_readable_with_x _ _ Hmask)) as (blocked & Ec).
    exists blocked. rewrite Ec. cbn [bind].
    destruct blocked; eexists; (split; [reflexivity|]); (split; [reflexivity|]).
    + rewrite (with_x_pos_back tm 1). now apply moved_to_store.
    + now apply moved_to_store.
  - intros id rotation x y turned Hnew Hturn Hread.
    unfold Tetris.rotate. rewrite Hcur, Hturn. cbn [bind].
    destruct (is_colliding_total W H _ turned Hshape Hread) as (blocked & Ec).
    exists blocked. rewrite Ec. cbn [bind]. destruct blocked.
    + pose proof (Tetromino_rotate_back_eq T id rotation x y tm turned true Hnew Hturn)
        as Hb.
      cbn [negb] in Hb. rewrite Hb. cbn [bind].
      eexists. split; [reflexivity|]. split; [reflexivity|]. now apply moved_to_store.
    + eexists. split; [reflexivity|]. split; [reflexivity|]. now apply moved_to_store.
Qed.

(** Witness of X24: the block of the sample game in the left-hand
    corner of the two bottom rows. *)
Lemma sideways_moves_keep_free_witness :
  (exists blocked self',
      is_colliding (Tetris.grid (Tetris.game (Tetris.Live sample_game false)))
        (Tetromino.with_x_pos (Tetromino.with_y_pos block_piece 2)
           (Tetromino.x_pos (Tetromino.with_y_pos block_piece 2) - 1)) = Ok blocked
      /\ Tetris.move_left (Tetris.Live sample_game false) = Ok self'
      /\ moved_to (Tetris.Live sample_game false) self'
           (if blocked then Tetromino.with_y_pos block_piece 2
            else Tetromino.with_x_pos (Tetromino.with_y_pos block_piece 2)
                   (Tetromino.x_pos (Tetromino.with_y_pos block_piece 2) - 1)))
  /\ (exists blocked self',
      is_colliding (Tetris.grid (Tetris.game (Tetris.Live sample_game false)))
        (Tetromino.with_x_pos (Tetromino.with_y_pos block_piece 2)
           (Tetromino.x_pos (Tetromino.with_y_pos block_piece 2) + 1)) = Ok blocked
      /\ Tetris.move_right (Tetris.Live sample_game false) = Ok self'
      /\ moved_to (Tetris.Live sample_game false) self'
           (if blocked then Tetromino.with_y_pos block_piece 2
            else Tetromino.with_x_pos (Tetromino.with_y_pos block_piece 2)
                   (Tetromino.x_pos (Tetromino.with_y_pos block_piece 2) + 1)))
  /\ (forall id rotation x y turned,
        Tetromino.new block_geometry id rotation x y
        = Ok (Tetromino.with_y_pos block_piece 2) ->
        Tetromino.rotate block_geometry (Tetromino.with_y_pos block_piece 2) true
        = Ok turned ->
        mask_readable turned ->
        exists blocked self',
          is_colliding (Tetris.grid (Tetris.game (Tetris.Live sample_game false))) turned
          = Ok blocked
          /\ Tetris.rotate block_geometry (Tetris.Live sample_game false) = Ok self'
          /\ moved_to (Tetris.Live sample_game false) self'
               (if blocked then Tetromino.with_y_pos block_piece 2 else turned)).
Proof.
  apply (sideways_moves_keep_free block_geometry (Tetris.Live sample_game false)
           (Tetromino.with_y_pos block_piece 2) 4 4).
  - split; [reflexivity | repeat constructor].
  - reflexivity.
  - apply (block_piece_readable 0 2).
  - reflexivity.
Defined.

(** ** Collisions, cell by cell *)

Lemma is_colliding_existsb {A} {CA : Cell A} (d : A) (W H : Z) (grid : list (list A))
    (tm : Tetromino.t) :
  grid_shape W H grid -> mask_readable tm ->
  is_colliding grid tm
  = Ok (existsb (fun x => existsb (fun y => hits d H grid tm x y)
                                  (range 0 (Tetromino.size tm)))
                (range 0 (Tetromino.size tm))).
Proof.
  intros Hshape Hmask. unfold is_colliding.
  apply anyM_existsb. intros x Hx. apply In_range in Hx.
  apply anyM_existsb. intros y Hy. apply In_range in Hy.
  unfold hits, mask_at. destruct (Hmask x y Hx Hy) as (b & Eb). rewrite Eb. cbn [bind].
  destruct b; [|reflexivity]. cbn [andb].
  destruct ((x + Tetromino.x_pos tm <? 0) || (y + Tetromino.y_pos tm <? 0)
            || (len grid <=? x + Tetromino.x_pos tm)) eqn:Hb; [reflexivity|].
  apply orb_false_iff in Hb; destruct Hb as [Hb Hb3].
  apply orb_false_iff in Hb; destruct Hb as [Hb1 Hb2].
  apply Z.ltb_ge in Hb1, Hb2. apply Z.leb_gt in Hb3.
  pose proof Hshape as [HW _].
  destruct (getitem_total grid 0) as (col0 & Ec0); [lia|].
  rewrite Ec0. cbn [bind].
  rewrite (grid_shape_col0 W H grid col0 Hshape Ec0).
  destruct (H <=? y + Tetromino.y_pos tm) eqn:Hb4; [reflexivity|].
  apply Z.leb_gt in Hb4.
  rewrite (cell_nth _ _ _ d); [reflexivity | lia|].
  rewrite (grid_shape_nth W H) by (assumption || lia). lia.
Qed.

Lemma existsb_range_true (f : Z -> bool) (a b x : Z) :
  a <= x < b -> f x = true -> existsb f (range a b) = true.
Proof.
  intros Hx Hf. apply existsb_exists. exists x. split; [now apply In_range | assumption].
Qed.

(** A filled mask cell at or below the bottom edge means a collision. *)
Lemma is_colliding_below (W H : Z) (grid : list (list Z)) (tm : Tetromino.t) (cx cy : Z) :
  grid_shape W H grid -> mask_readable tm ->
  0 <= cx < Tetromino.size tm -> 0 <= cy < Tetromino.size tm ->
  cell (Tetromino.block_data tm) cx cy = Ok true ->
  H <= cy + Tetromino.y_pos tm ->
  is_colliding grid tm = Ok true.
Proof.
  intros Hshape Hmask Hcx Hcy Hcell Hlow.
  rewrite (is_colliding_existsb 0 W H) by assumption. f_equal.
  apply (existsb_range_true _ _ _ cx Hcx). apply (existsb_range_true _ _ _ cy Hcy).
  unfold hits, mask_at. rewrite Hcell. cbn [andb].
  replace (H <=? cy + Tetromino.y_pos tm) with true by (symmetry; now apply Z.leb_le).
  now rewrite orb_true_r.
Qed.

(** ** One tick, and the hard drop *)

(** X25. [update] takes the planned move by reference.  It leaves a lost
    game alone.  In a game that goes on, with a planned move: if the
    planned piece cannot go one row down, it is locked where it is
    planned; if it can, nothing is locked, and both [current_tmino] and
    [next_move] are the planned piece one row lower. *)
Theorem update_adopts_planned_move :
  forall (G : Type) (RG : RandomGen G) (T : Geometry) (self : Tetris.live) (g : G),
    (Tetris.lost (Tetris.game self) = true -> Tetris.update T self g = Ok (self, g))
    /\ (forall nm,
          Tetris.lost (Tetris.game self) = false ->
          Tetris.next_move (Tetris.game self) = Some nm ->
          let lower := Tetromino.with_y_pos nm (Tetromino.y_pos nm + 1) in
          (is_colliding (Tetris.grid (Tetris.game self)) lower = Ok true ->
           Tetris.update T self g = Tetris.lock T (adopt (Tetris.game self) nm) g)
          /\ (is_colliding (Tetris.grid (Tetris.game self)) lower = Ok false ->
              Tetris.update T self g = Ok (adopt (Tetris.game self) lower, g))).
Proof.
  intros G RG T self g. split.
  - intros Hlost. unfold Tetris.update. now rewrite Hlost.
  - intros nm Hlost Hnm lower. unfold Tetris.update. rewrite Hlost, Hnm.
    cbn [Tetris.game Tetris.current_tmino Tetris.grid]. fold lower. split.
    + intros ->. cbn [bind]. unfold lower.
      rewrite (with_y_pos_back nm 1).
      unfold adopt, Tetris.store_current. cbn. now rewrite Hlost.
    + intros ->. cbn [bind]. unfold adopt, Tetris.store_current. cbn. now rewrite Hlost.
Qed.

(** The block planned on the floor of the empty board, and planned one
    row above it. *)
Lemma update_adopts_planned_move_witness :
  Tetris.update block_geometry
    (Tetris.Live (Tetris.Build 4 4 false 0 (repeat (repeat 0 4) 4) [] (Some block_piece)
                               block_piece (Some (Tetromino.with_y_pos block_piece 1)))
                 false)
    (@nil Q, @nil Z)
  = Ok (adopt (Tetris.Build 4 4 false 0 (repeat (repeat 0 4) 4) [] (Some block_piece)
                            block_piece (Some (Tetromino.with_y_pos block_piece 1)))
              (Tetromino.with_y_pos (Tetromino.with_y_pos block_piece 1)
                 (Tetromino.y_pos (Tetromino.with_y_pos block_piece 1) + 1)),
        (@nil Q, @nil Z)).
Proof.
  apply (proj2 (update_adopts_planned_move _ ScriptGen block_geometry
                  (Tetris.Live
                     (Tetris.Build 4 4 false 0 (repeat (repeat 0 4) 4) [] (Some block_piece)
                                   block_piece (Some (Tetromino.with_y_pos block_piece 1)))
                     false)
                  (@nil Q, @nil Z))
               (Tetromino.with_y_pos block_piece 1)).
  - reflexivity.
  - reflexivity.
  - reflexivity.
Defined.

Lemma with_y_pos_twice (tm : Tetromino.t) (a b : Z) :
  Tetromino.with_y_pos (Tetromino.with_y_pos tm a) b = Tetromino.with_y_pos tm b.
Proof. reflexivity. Qed.

Lemma fall_lands (W H B : Z) (grid : list (list Z)) (tm : Tetromino.t) :
  grid_shape W H grid -> mask_readable tm ->
  (forall y, B <= y -> is_colliding grid (Tetromino.with_y_pos tm y) = Ok true) ->
  forall (fuel : nat) (y0 : Z),
    Z.max 0 (B - y0) < Z.of_nat fuel ->
    exists k,
      0 <= k
      /\ (forall j, 0 <= j < k ->
            is_colliding grid (Tetromino.with_y_pos tm (y0 + j)) = Ok false)
      /\ is_colliding grid (Tetromino.with_y_pos tm (y0 + k)) = Ok true
      /\ Tetris.fall fuel grid (Tetromino.with_y_pos tm y0)
         = Ok (Tetromino.with_y_pos tm (y0 + k)).
Proof.
  intros Hshape Hmask Hlow. induction fuel as [|fuel IH]; intros y0 Hfuel; [lia|].
  cbn [Tetris.fall].
  destruct (is_colliding_total W H grid (Tetromino.with_y_pos tm y0) Hshape
              (mask_readable_with_y _ _ Hmask)) as ([|] & Ec); rewrite Ec; cbn [bind].
  - exists 0. rewrite Z.add_0_r. split; [lia|]. split; [intros; lia|]. auto.
  - assert (Hy0 : y0 < B).
    { destruct (Z.lt_ge_cases y0 B) as [|Hge]; [assumption|].
      rewrite (Hlow y0 Hge) in Ec. discriminate. }
    rewrite with_y_pos_twice. cbn [Tetromino.y_pos Tetromino.with_y_pos].
    destruct (IH (y0 + 1) ltac:(lia)) as (k & Hk & Hfree & Hhit & Efall).
    exists (k + 1). split; [lia|]. split; [|split].
    + intros j Hj. destruct (Z.eq_dec j 0) as [-> | Hne].
      * now rewrite Z.add_0_r.
      * specialize (Hfree (j - 1) ltac:(lia)).
        now replace (y0 + 1 + (j - 1)) with (y0 + j) in Hfree by lia.
    + now replace (y0 + (k + 1)) with (y0 + 1 + k) by lia.
    + now replace (y0 + (k + 1)) with (y0 + 1 + k) by lia.
Qed.

(** X26. [drop_down] lets the piece fall to the last row above the first
    collision and locks it there: for a piece with a filled mask cell
    (and fuel for the rows it can fall) there is a number [k >= 0] of rows
    such that the piece is free 1, ..., [k] rows lower, collides [k + 1]
    rows lower, and [drop_down] does what [place_tetromino] does with the
    piece [k] rows lower. *)
Theorem drop_down_lands :
  forall (G : Type) (RG : RandomGen G) (T : Geometry) (fuel : nat) (self : Tetris.live)
         (g : G) (tm : Tetromino.t) (W H cx cy : Z),
    grid_shape W H (Tetris.grid (Tetris.game self)) ->
    Tetris.current_tmino (Tetris.game self) = Some tm ->
    mask_readable tm ->
    0 <= cx < Tetromino.size tm -> 0 <= cy < Tetromino.size tm ->
    cell (Tetromino.block_data tm) cx cy = Ok true ->
    Z.max 0 (H - Tetromino.y_pos tm) < Z.of_nat fuel ->
    exists k,
      0 <= k
      /\ (forall j, 1 <= j <= k ->
            is_colliding (Tetris.grid (Tetris.game self))
              (Tetromino.with_y_pos tm (Tetromino.y_pos tm + j)) = Ok false)
      /\ is_colliding (Tetris.grid (Tetris.game self))
           (Tetromino.with_y_pos tm (Tetromino.y_pos tm + k + 1)) = Ok true
      /\ Tetris.drop_down T fuel self g
         = Tetris.lock T
             (Tetris.store_current self
                (Tetromino.with_y_pos tm (Tetromino.y_pos tm + k))) g.
Proof.
  intros G RG T fuel self g tm W H cx cy Hshape Hcur Hmask Hcx Hcy Hcell Hfuel.
  destruct (fall_lands W H (H - cy) (Tetris.grid (Tetris.game self)) tm Hshape Hmask)
    with (fuel := fuel) (y0 := Tetromino.y_pos tm + 1) as (k & Hk & Hfree & Hhit & Efall).
  { intros y Hy.
    apply (is_colliding_below W H _ _ cx cy); try assumption.
    cbn [Tetromino.y_pos Tetromino.with_y_pos]. lia. }
  { lia. }
  exists k. split; [assumption|]. split; [|split].
  - intros j Hj. specialize (Hfree (j - 1) ltac:(lia)).
    now replace (Tetromino.y_pos tm + 1 + (j - 1)) with (Tetromino.y_pos tm + j)
      in Hfree by lia.
  - now replace (Tetromino.y_pos tm + k + 1) with (Tetromino.y_pos tm + 1 + k) by lia.
  - unfold Tetris.drop_down. rewrite Hcur, Efall. cbn [bind].
    rewrite with_y_pos_twice. cbn [Tetromino.y_pos Tetromino.with_y_pos].
    do 3 f_equal. lia.
Qed.

Lemma drop_down_lands_witness :
  exists k,
    0 <= k
    /\ (forall j, 1 <= j <= k ->
          is_colliding (Tetris.grid sample_game)
            (Tetromino.with_y_pos block_piece (Tetromino.y_pos block_piece + j)) = Ok false)
    /\ is_colliding (Tetris.grid sample_game)
         (Tetromino.with_y_pos block_piece (Tetromino.y_pos block_piece + k + 1)) = Ok true
    /\ Tetris.drop_down block_geometry 9
         (Tetris.Live (Tetris.Build 4 4 false 0 (Tetris.grid sample_game) []
                                    (Some block_piece) block_piece None) false)
         (@nil Q, @nil Z)
       = Tetris.lock block_geometry
           (Tetris.store_current
              (Tetris.Live (Tetris.Build 4 4 false 0 (Tetris.grid sample_game) []
                                         (Some block_piece) block_piece None) false)
              (Tetromino.with_y_pos block_piece (Tetromino.y_pos block_piece + k)))
           (@nil Q, @nil Z).
Proof.
  apply (drop_down_lands _ ScriptGen block_geometry 9
           (Tetris.Live (Tetris.Build 4 4 false 0 (Tetris.grid sample_game) []
                                      (Some block_piece) block_piece None) false)
           (@nil Q, @nil Z) block_piece 4 4 0 0).
  - split; [reflexivity | repeat constructor].
  - reflexivity.
  - apply (block_piece_readable 0 0).
  - simpl; lia.
  - simpl; lia.
  - reflexivity.
  - simpl; lia.
Defined.

(** ** The boolean view of the board *)

Lemma hits_filled_view (H : Z) (grid : list (list Z)) (tm : Tetromino.t) (x y : Z) :
  hits false H (filled_view grid) tm x y = hits 0 H grid tm x y.
Proof.
  unfold hits, filled_view. f_equal.
  replace (len (map (map (fun v : Z => negb (v =? 0))) grid)) with (len grid)
    by (unfold len; now rewrite length_map).
  f_equal. unfold nonzero, Cell_bool, Cell_Z.
  change (@nil bool) with (map (fun v : Z => negb (v =? 0)) []).
  rewrite map_nth.
  change false with ((fun v : Z => negb (v =? 0)) 0) at 1.
  now rewrite map_nth.
Qed.

Lemma filled_view_shape (W H : Z) (grid : list (list Z)) :
  grid_shape W H grid -> grid_shape W H (filled_view grid).
Proof.
  intros [HW Hcols]. unfold filled_view. split.
  - unfold len in *. now rewrite length_map.
  - rewrite Forall_forall in *. intros col Hin. apply in_map_iff in Hin.
    destruct Hin as (c & <- & Hc). specialize (Hcols c Hc).
    unfold len in *. now rewrite length_map.
Qed.

Lemma to_boolean_grid_filled_view (W H : Z) (grid : list (list Z)) :
  grid_shape W H grid -> TetrisAI.to_boolean_grid grid = Ok (filled_view grid).
Proof.
  intros Hshape. pose proof Hshape as [HW Hcols]. unfold TetrisAI.to_boolean_grid.
  rewrite (mapM_Ok _ (fun x => map (fun v => negb (v =? 0)) (nth (Z.to_nat x) grid []))).
  - f_equal. unfold filled_view. apply (nth_ext _ _ [] []).
    + rewrite length_map_range, length_map. unfold len. lia.
    + intros k Hk. rewrite length_map_range in Hk.
      unfold len in *. rewrite nth_map_range by lia. rewrite Nat2Z.id.
      change (@nil bool) with (map (fun v : Z => negb (v =? 0)) []).
      now rewrite map_nth.
  - intros x Hx. apply In_range in Hx.
    destruct (getitem_total grid 0) as (col0 & Ec0); [lia|].
    rewrite Ec0. cbn [bind].
    rewrite (grid_shape_col0 W H grid col0 Hshape Ec0).
    pose proof (grid_shape_nth W H grid (Z.to_nat x) Hshape ltac:(lia)) as Hcol.
    rewrite (mapM_Ok _ (fun y => negb (nth (Z.to_nat y) (nth (Z.to_nat x) grid []) 0 =? 0))).
    + f_equal. apply (nth_ext _ _ false false).
      * rewrite length_map_range, length_map. unfold len in Hcol. lia.
      * intros k Hk. rewrite length_map_range in Hk.
        assert (HH : 0 <= H) by (rewrite <- Hcol; apply len_nonneg).
        replace H with (Z.of_nat (Z.to_nat H)) at 1 by lia.
        rewrite nth_map_range by lia. rewrite Nat2Z.id.
        change false with ((fun v : Z => negb (v =? 0)) 0).
        now rewrite map_nth.
    + intros y Hy. apply In_range in Hy.
      rewrite (cell_nth _ _ _ 0) by lia. reflexivity.
Qed.

Lemma existsb_ext_in_range (f g : Z -> bool) (l : list Z) :
  (forall x, In x l -> f x = g x) -> existsb f l = existsb g l.
Proof.
  intros Hfg. induction l as [|a l IH]; [reflexivity|]. cbn [existsb].
  rewrite Hfg by now left. rewrite IH; [reflexivity|]. intros x Hx. apply Hfg. now right.
Qed.

(** X27. The AI sees the board the game has: on a board of [W] columns
    of [H] cells [to_boolean_grid] returns a new grid of the same size
    that is True exactly where the board holds a shape id, and every
    piece collides with that grid exactly when it collides with the
    board. *)
Theorem to_boolean_grid_same_collisions :
  forall (W H : Z) (grid : list (list Z)),
    grid_shape W H grid ->
    exists b_grid,
      TetrisAI.to_boolean_grid grid = Ok b_grid
      /\ grid_shape W H b_grid
      /\ (forall x y v, 0 <= x < W -> 0 <= y < H -> cell grid x y = Ok v ->
                        cell b_grid x y = Ok (negb (v =? 0)))
      /\ (forall tm, mask_readable tm -> is_colliding b_grid tm = is_colliding grid tm).
Proof.
  intros W H grid Hshape. exists (filled_view grid).
  pose proof (filled_view_shape W H grid Hshape) as Hview.
  split; [now apply (to_boolean_grid_filled_view W H)|]. split; [exact Hview|]. split.
  - intros x y v Hx Hy Hc. pose proof Hshape as [HW _]. pose proof Hview as [HW' _].
    rewrite (cell_nth _ _ _ 0) in Hc
      by (rewrite ?(grid_shape_nth W H) by (assumption || lia); lia).
    inversion Hc; subst v; clear Hc.
    rewrite (cell_nth _ _ _ false)
      by (rewrite ?(grid_shape_nth W H) by (assumption || lia); lia).
    f_equal. unfold filled_view.
    change (@nil bool) with (map (fun v : Z => negb (v =? 0)) []).
    rewrite map_nth.
    change false with ((fun v : Z => negb (v =? 0)) 0) at 1.
    now rewrite map_nth.
  - intros tm Hmask.
    rewrite (is_colliding_existsb false W H) by assumption.
    rewrite (is_colliding_existsb 0 W H) by assumption.
    f_equal. apply existsb_ext_in_range. intros x _.
    apply existsb_ext_in_range. intros y _. apply hits_filled_view.
Qed.

Lemma to_boolean_grid_same_collisions_witness :
  exists b_grid,
    TetrisAI.to_boolean_grid (Tetris.grid sample_game) = Ok b_grid
    /\ grid_shape 4 4 b_grid
    /\ (forall x y v, 0 <= x < 4 -> 0 <= y < 4 ->
                      cell (Tetris.grid sample_game) x y = Ok v ->
                      cell b_grid x y = Ok (negb (v =? 0)))
    /\ (forall tm, mask_readable tm ->
                   is_colliding b_grid tm = is_colliding (Tetris.grid sample_game) tm).
Proof.
  apply (to_boolean_grid_same_collisions 4 4 (Tetris.grid sample_game)).
  split; [reflexivity | repeat constructor].
Defined.

(** ** Trying a piece on the boolean grid *)

Lemma set_cell_on_cell (W H : Z) (g : list (list bool)) (x y : Z) (v : bool) :
  grid_shape W H g -> 0 <= x < W -> 0 <= y < H ->
  exists g',
    set_cell g x y v = Ok g'
    /\ grid_shape W H g'
    /\ forall x' y' : nat,
         on_cell g' x' y'
         = if (Z.of_nat x' =? x) && (Z.of_nat y' =? y) then v else on_cell g x' y'.
Proof.
  intros Hshape Hx Hy.
  pose proof (grid_shape_nth W H g (Z.to_nat x) Hshape ltac:(lia)) as Hcol.
  pose proof Hshape as [HW Hcols].
  exists (update_nth (Z.to_nat x) (update_nth (Z.to_nat y) v (nth (Z.to_nat x) g [])) g).
  split; [|split].
  - unfold set_cell. rewrite (getitem_nth g x []) by lia. cbn [bind].
    rewrite setitem_update by lia. cbn [bind]. apply setitem_update. lia.
  - split.
    + unfold len. now rewrite update_nth_length.
    + apply Forall_update_nth; [assumption|].
      unfold len in *. now rewrite update_nth_length.
  - intros x' y'. unfold on_cell.
    destruct (Z.eqb_spec (Z.of_nat x') x) as [Hex | Hne]; cbn [andb].
    + replace x' with (Z.to_nat x) by lia.
      rewrite nth_update_nth_same by (unfold len in HW; lia).
      destruct (Z.eqb_spec (Z.of_nat y') y) as [Hey | Hney].
      * replace y' with (Z.to_nat y) by lia.
        apply nth_update_nth_same. unfold len in Hcol. lia.
      * apply nth_update_nth_other. lia.
    + rewrite nth_update_nth_other by lia. reflexivity.
Qed.

(** One mask cell. *)
Lemma stamp_cell (v : bool) (W H : Z) (grid g : list (list bool)) (tm : Tetromino.t)
    (x y : Z) :
  mask_readable tm ->
  0 <= x < Tetromino.size tm -> 0 <= y < Tetromino.size tm ->
  stamped_until v W H grid tm x y g ->
  exists g',
    (let grid_x := x + Tetromino.x_pos tm in
     let grid_y := y + Tetromino.y_pos tm in
     if (grid_x <? 0) || (len g <=? grid_x) || (grid_y <? 0) then Ok g
     else
       col0 <- getitem g 0 ;;
       if len col0 <=? grid_y then Ok g
       else
         b <- cell (Tetromino.block_data tm) x y ;;
         if b then set_cell g grid_x grid_y v else Ok g) = Ok g'
    /\ stamped_until v W H grid tm x (y + 1) g'.
Proof.
  intros Hmask Hx Hy [Hshape Hcells]. pose proof Hshape as [HW _]. cbv zeta.
  assert (Hkeep : (x + Tetromino.x_pos tm < 0 \/ W <= x + Tetromino.x_pos tm
                   \/ y + Tetromino.y_pos tm < 0 \/ H <= y + Tetromino.y_pos tm
                   \/ mask_at tm x y = false) ->
                  stamped_until v W H grid tm x (y + 1) g).
  { intros Hout. split; [assumption|]. intros gx gy Hgx Hgy.
    rewrite Hcells by assumption.
    destruct (covers tm (Z.of_nat gx) (Z.of_nat gy)) eqn:Hcov; [|reflexivity].
    cbn [andb]. unfold before.
    assert (Hsame : (Z.of_nat gx - Tetromino.x_pos tm =? x)
                    && (Z.of_nat gy - Tetromino.y_pos tm =? y) = false).
    { destruct (Z.eqb_spec (Z.of_nat gx - Tetromino.x_pos tm) x) as [Hex|]; [|reflexivity].
      destruct (Z.eqb_spec (Z.of_nat gy - Tetromino.y_pos tm) y) as [Hey|]; [|reflexivity].
      exfalso. unfold covers in Hcov. rewrite Hex, Hey in Hcov.
      destruct Hout as [Ho | [Ho | [Ho | [Ho | Ho]]]]; try lia.
      rewrite Ho in Hcov. now rewrite !andb_false_r in Hcov. }
    apply andb_false_iff in Hsame.
    destruct (Z.eqb_spec (Z.of_nat gx - Tetromino.x_pos tm) x) as [Hex | Hnex].
    - destruct Hsame as [Hs | Hs]; [discriminate|]. apply Z.eqb_neq in Hs.
      replace (Z.of_nat gx - Tetromino.x_pos tm <? x) with false by (symmetry; zbool).
      cbn [orb andb].
      replace (Z.of_nat gy - Tetromino.y_pos tm <? y + 1)
        with (Z.of_nat gy - Tetromino.y_pos tm <? y) by zbool.
      reflexivity.
    - cbn [andb]. reflexivity. }
  destruct ((x + Tetromino.x_pos tm <? 0) || (len g <=? x + Tetromino.x_pos tm)
            || (y + Tetromino.y_pos tm <? 0)) eqn:Hb.
  { exists g. split; [reflexivity|]. apply Hkeep.
    apply orb_true_iff in Hb. destruct Hb as [Hb | Hb]; [|apply Z.ltb_lt in Hb; lia].
    apply orb_true_iff in Hb. destruct Hb as [Hb | Hb];
      [apply Z.ltb_lt in Hb | apply Z.leb_le in Hb]; lia. }
  apply orb_false_iff in Hb; destruct Hb as [Hb Hb3].
  apply orb_false_iff in Hb; destruct Hb as [Hb1 Hb2].
  apply Z.ltb_ge in Hb1, Hb3. apply Z.leb_gt in Hb2.
  destruct (getitem_total g 0) as (col0 & Ec0); [lia|].
  rewrite Ec0. cbn [bind]. rewrite (grid_shape_col0 W H g col0 Hshape Ec0).
  destruct (Z.leb_spec H (y + Tetromino.y_pos tm)) as [Hlow | Hin].
  { exists g. split; [reflexivity|]. apply Hkeep. lia. }
  rewrite (mask_at_readable tm x y Hmask Hx Hy). cbn [bind].
  destruct (mask_at tm x y) eqn:Hm.
  2:{ exists g. split; [reflexivity|]. apply Hkeep. auto. }
  destruct (set_cell_on_cell W H g (x + Tetromino.x_pos tm) (y + Tetromino.y_pos tm) v
              Hshape ltac:(lia) ltac:(lia)) as (g' & Eset & Hshape' & Hset).
  exists g'. split; [exact Eset|]. split; [assumption|].
  intros gx gy Hgx Hgy. rewrite Hset, Hcells by assumption.
  unfold covers, before.
  destruct (Z.eqb_spec (Z.of_nat gx) (x + Tetromino.x_pos tm)) as [Hex | Hnex];
    destruct (Z.eqb_spec (Z.of_nat gy) (y + Tetromino.y_pos tm)) as [Hey | Hney];
    cbn [andb].
  - replace (Z.of_nat gx - Tetromino.x_pos tm) with x by lia.
    replace (Z.of_nat gy - Tetromino.y_pos tm) with y by lia.
    rewrite Hm.
    replace ((0 <=? x) && (x <? Tetromino.size tm) && (0 <=? y)
             && (y <? Tetromino.size tm)) with true by (symmetry; zbool).
    replace ((x <? x) || ((x =? x) && (y <? y + 1))) with true by (symmetry; zbool).
    reflexivity.
  - replace (Z.of_nat gx - Tetromino.x_pos tm) with x by lia.
    replace (Z.of_nat gy - Tetromino.y_pos tm <? y + 1)
      with (Z.of_nat gy - Tetromino.y_pos tm <? y) by zbool.
    reflexivity.
  - replace (Z.of_nat gx - Tetromino.x_pos tm =? x) with false by (symmetry; zbool).
    reflexivity.
  - replace (Z.of_nat gx - Tetromino.x_pos tm =? x) with false by (symmetry; zbool).
    reflexivity.
Qed.

Lemma stamped_until_rewrite (v : bool) (W H : Z) (grid g : list (list bool))
    (tm : Tetromino.t) (x y x' y' : Z) :
  (forall a b, 0 <= a < Tetromino.size tm -> 0 <= b < Tetromino.size tm ->
               before a b x y = before a b x' y') ->
  stamped_until v W H grid tm x y g -> stamped_until v W H grid tm x' y' g.
Proof.
  intros Hsame [Hshape Hcells]. split; [assumption|].
  intros gx gy Hgx Hgy. rewrite Hcells by assumption.
  destruct (covers tm (Z.of_nat gx) (Z.of_nat gy)) eqn:Hcov; [|reflexivity].
  cbn [andb]. rewrite Hsame; [reflexivity| |];
    unfold covers in Hcov; cbv zeta in Hcov;
    repeat (apply andb_true_iff in Hcov; destruct Hcov as [Hcov ?]);
    repeat match goal with
           | Hb : (_ <=? _) = true |- _ => apply Z.leb_le in Hb
           | Hb : (_ <? _) = true |- _ => apply Z.ltb_lt in Hb
           end; lia.
Qed.

Lemma stamp_spec (v : bool) (W H : Z) (grid : list (list bool)) (tm : Tetromino.t) :
  grid_shape W H grid -> mask_readable tm ->
  exists g',
    stamp v grid tm = Ok g'
    /\ grid_shape W H g'
    /\ forall gx gy : nat, Z.of_nat gx < W -> Z.of_nat gy < H ->
         on_cell g' gx gy
         = if covers tm (Z.of_nat gx) (Z.of_nat gy) then v else on_cell grid gx gy.
Proof.
  intros Hshape Hmask. unfold stamp.
  destruct (Z.le_gt_cases (Tetromino.size tm) 0) as [Hs | Hs].
  { rewrite range_nil by lia. exists grid. split; [reflexivity|]. split; [assumption|].
    intros gx gy _ _. unfold covers. cbv zeta.
    destruct (Z.leb_spec 0 (Z.of_nat gx - Tetromino.x_pos tm)); [|reflexivity].
    destruct (Z.ltb_spec (Z.of_nat gx - Tetromino.x_pos tm) (Tetromino.size tm));
      [lia | reflexivity]. }
  match goal with
  | |- context [foldM ?f (range 0 (Tetromino.size tm)) grid] =>
      destruct (foldM_range_ind (fun x g => stamped_until v W H grid tm x 0 g)
                  f 0 (Tetromino.size tm) ltac:(lia))
        with (s := grid) as (g' & Eg & Hg)
  end.
  - intros x g Hx Hg.
    match goal with
    | |- context [foldM ?f (range 0 (Tetromino.size tm)) g] =>
        destruct (foldM_range_ind (fun y g => stamped_until v W H grid tm x y g)
                    f 0 (Tetromino.size tm) ltac:(lia))
          with (s := g) as (g1 & Eg1 & Hg1)
    end.
    + intros y g0 Hy Hg0. apply stamp_cell; assumption.
    + exact Hg.
    + exists g1. split; [exact Eg1|].
      eapply stamped_until_rewrite; [|exact Hg1].
      intros a b Ha Hb. unfold before. zbool.
  - split; [assumption|]. intros gx gy Hgx Hgy.
    destruct (covers tm (Z.of_nat gx) (Z.of_nat gy)) eqn:Hcov; [|reflexivity].
    cbn [andb]. unfold covers in Hcov. cbv zeta in Hcov.
    repeat (apply andb_true_iff in Hcov; destruct Hcov as [Hcov ?]).
    repeat match goal with
           | Hb : (_ <=? _) = true |- _ => apply Z.leb_le in Hb
           | Hb : (_ <? _) = true |- _ => apply Z.ltb_lt in Hb
           end.
    replace (before (Z.of_nat gx - Tetromino.x_pos tm) (Z.of_nat gy - Tetromino.y_pos tm)
               0 0) with false; [reflexivity|].
    symmetry. unfold before. zbool.
  - exists g'. split; [exact Eg|]. destruct Hg as [Hshape' Hcells].
    split; [assumption|]. intros gx gy Hgx Hgy. rewrite Hcells by assumption.
    destruct (covers tm (Z.of_nat gx) (Z.of_nat gy)) eqn:Hcov; [|reflexivity].
    cbn [andb]. unfold covers in Hcov. cbv zeta in Hcov.
    repeat (apply andb_true_iff in Hcov; destruct Hcov as [Hcov ?]).
    repeat match goal with
           | Hb : (_ <=? _) = true |- _ => apply Z.leb_le in Hb
           | Hb : (_ <? _) = true |- _ => apply Z.ltb_lt in Hb
           end.
    replace (before (Z.of_nat gx - Tetromino.x_pos tm) (Z.of_nat gy - Tetromino.y_pos tm)
               (Tetromino.size tm) 0) with true; [reflexivity|].
    symmetry. unfold before. zbool.
Qed.

Lemma bool_grid_ext (W H : Z) (a b : list (list bool)) :
  grid_shape W H a -> grid_shape W H b ->
  (forall x y : nat, Z.of_nat x < W -> Z.of_nat y < H -> on_cell a x y = on_cell b x y) ->
  a = b.
Proof.
  intros Ha Hb Hcells. pose proof Ha as [HWa _]. pose proof Hb as [HWb _].
  apply (nth_ext _ _ [] []); [unfold len in *; lia|].
  intros x Hx.
  pose proof (grid_shape_nth W H a x Ha ltac:(unfold len in *; lia)) as Hca.
  pose proof (grid_shape_nth W H b x Hb ltac:(unfold len in *; lia)) as Hcb.
  apply (nth_ext _ _ false false); [unfold len in *; lia|].
  intros y Hy. apply Hcells; unfold len in *; lia.
Qed.

Lemma on_cell_cell (W H : Z) (g : list (list bool)) (x y : Z) :
  grid_shape W H g -> 0 <= x < W -> 0 <= y < H ->
  cell g x y = Ok (on_cell g (Z.to_nat x) (Z.to_nat y)).
Proof.
  intros Hshape Hx Hy. pose proof Hshape as [HW _]. unfold on_cell.
  apply cell_nth; [lia|]. rewrite (grid_shape_nth W H) by (assumption || lia). lia.
Qed.

Lemma covers_free (W H : Z) (grid : list (list bool)) (tm : Tetromino.t) (gx gy : nat) :
  grid_shape W H grid -> placement_free W H grid tm ->
  covers tm (Z.of_nat gx) (Z.of_nat gy) = true -> on_cell grid gx gy = false.
Proof.
  intros Hshape Hfree Hcov. unfold covers in Hcov. cbv zeta in Hcov.
  repeat (apply andb_true_iff in Hcov; destruct Hcov as [Hcov ?]).
  repeat match goal with
         | Hb : (_ <=? _) = true |- _ => apply Z.leb_le in Hb
         | Hb : (_ <? _) = true |- _ => apply Z.ltb_lt in Hb
         end.
  unfold mask_at in *.
  destruct (cell (Tetromino.block_data tm) (Z.of_nat gx - Tetromino.x_pos tm)
              (Z.of_nat gy - Tetromino.y_pos tm)) as [b| |] eqn:Ec; try discriminate.
  subst b.
  destruct (Hfree (Z.of_nat gx - Tetromino.x_pos tm) (Z.of_nat gy - Tetromino.y_pos tm)
              ltac:(lia) ltac:(lia) Ec) as (Hx & Hy & Hc).
  replace (Z.of_nat gx - Tetromino.x_pos tm + Tetromino.x_pos tm) with (Z.of_nat gx)
    in * by lia.
  replace (Z.of_nat gy - Tetromino.y_pos tm + Tetromino.y_pos tm) with (Z.of_nat gy)
    in * by lia.
  rewrite (on_cell_cell W H) in Hc by (assumption || lia).
  rewrite !Nat2Z.id in Hc. congruence.
Qed.

(** X28. Trying a piece on the grid leaves no trace: for a piece whose
    filled cells are all on empty cells of the board, [add_to_grid]
    returns the grid with exactly the cells under the piece set to True,
    and [remove_from_grid] of that grid returns the grid as it was
    before. *)
Theorem add_remove_round_trip :
  forall (W H : Z) (grid : list (list bool)) (tmino : Tetromino.t),
    grid_shape W H grid -> mask_readable tmino -> placement_free W H grid tmino ->
    exists added,
      TetrisAI.add_to_grid grid tmino = Ok added
      /\ grid_shape W H added
      /\ (forall gx gy, 0 <= gx < W -> 0 <= gy < H ->
            exists old, cell grid gx gy = Ok old
                        /\ cell added gx gy = Ok (covers tmino gx gy || old))
      /\ TetrisAI.remove_from_grid added tmino = Ok grid.
Proof.
  intros W H grid tm Hshape Hmask Hfree.
  destruct (stamp_spec true W H grid tm Hshape Hmask) as (added & Eadd & Hsa & Hca).
  destruct (stamp_spec false W H added tm Hsa Hmask) as (back & Erem & Hsb & Hcb).
  exists added. split; [exact Eadd|]. split; [exact Hsa|]. split.
  - intros gx gy Hgx Hgy. exists (on_cell grid (Z.to_nat gx) (Z.to_nat gy)).
    split; [now apply (on_cell_cell W H)|].
    rewrite (on_cell_cell W H) by assumption. f_equal.
    rewrite Hca by lia. rewrite !Z2Nat.id by lia.
    destruct (covers tm gx gy); reflexivity.
  - change (TetrisAI.remove_from_grid added tm) with (stamp false added tm).
    rewrite Erem. f_equal. apply (bool_grid_ext W H); [assumption | assumption|].
    intros x y Hx Hy. rewrite Hcb, Hca by assumption.
    destruct (covers tm (Z.of_nat x) (Z.of_nat y)) eqn:Hcov; [|reflexivity].
    symmetry. now apply (covers_free W H grid tm).
Qed.

Lemma add_remove_round_trip_witness :
  exists added,
    TetrisAI.add_to_grid empty_grid_4x4 (Tetromino.with_y_pos block_piece 2) = Ok added
    /\ grid_shape 4 4 added
    /\ (forall gx gy, 0 <= gx < 4 -> 0 <= gy < 4 ->
          exists old, cell empty_grid_4x4 gx gy = Ok old
                      /\ cell added gx gy
                         = Ok (covers (Tetromino.with_y_pos block_piece 2) gx gy || old))
    /\ TetrisAI.remove_from_grid added (Tetromino.with_y_pos block_piece 2)
       = Ok empty_grid_4x4.
Proof.
  apply (add_remove_round_trip 4 4 empty_grid_4x4 (Tetromino.with_y_pos block_piece 2)).
  - split; [reflexivity | repeat constructor].
  - apply (block_piece_readable 0 2).
  - intros cx cy Hcx Hcy Hc. cbn in Hcx, Hcy.
    assert (Hx : cx = 0 \/ cx = 1) by lia. assert (Hy : cy = 0 \/ cy = 1) by lia.
    destruct Hx as [-> | ->]; destruct Hy as [-> | ->]; cbn; repeat split; lia.
Defined.

(** ** The move the AI chooses *)

Lemma is_colliding_false_readable (grid : list (list bool)) (tm : Tetromino.t) :
  is_colliding grid tm = Ok false -> mask_readable tm.
Proof.
  intros Hc x y Hx Hy. unfold is_colliding in Hc.
  assert (Hinx : In x (range 0 (Tetromino.size tm))) by (apply In_range; lia).
  assert (Hiny : In y (range 0 (Tetromino.size tm))) by (apply In_range; lia).
  pose proof (anyM_false _ _ Hc x Hinx) as Hcx. cbv beta in Hcx.
  pose proof (anyM_false _ _ Hcx y Hiny) as Hcy. cbv beta in Hcy.
  inv_bind Hcy. now exists r.
Qed.

Lemma remove_after_add (W H : Z) (grid added : list (list bool)) (tm : Tetromino.t) :
  grid_shape W H grid -> is_colliding grid tm = Ok false ->
  TetrisAI.add_to_grid grid tm = Ok added ->
  TetrisAI.remove_from_grid added tm = Ok grid.
Proof.
  intros Hshape Hclear Hadd.
  pose proof (is_colliding_false_readable grid tm Hclear) as Hmask.
  pose proof (is_colliding_false_free W H grid tm Hshape Hclear) as Hfree.
  destruct (stamp_spec true W H grid tm Hshape Hmask) as (added' & Eadd & Hsa & Hca).
  change (stamp true grid tm) with (TetrisAI.add_to_grid grid tm) in Eadd.
  assert (added' = added) by congruence. subst added'.
  destruct (stamp_spec false W H added tm Hsa Hmask) as (back & Erem & Hsb & Hcb).
  change (TetrisAI.remove_from_grid added tm) with (stamp false added tm).
  rewrite Erem. f_equal. apply (bool_grid_ext W H); [assumption | assumption|].
  intros x y Hx Hy. rewrite Hcb, Hca by assumption.
  destruct (covers tm (Z.of_nat x) (Z.of_nat y)) eqn:Hcov; [|reflexivity].
  symmetry. now apply (covers_free W H grid tm).
Qed.

Lemma compute_moves_available_clear (T : Geometry) (self : TetrisAI.t)
    (grid : list (list bool)) (tetromino : Tetromino.t) (moves : list (Z * Z * Z)) :
  TetrisAI.compute_moves_available T self grid tetromino = Ok moves ->
  Forall (clear_move T grid (Tetromino.id tetromino)) moves.
Proof.
  intros Hm. unfold TetrisAI.compute_moves_available in Hm.
  inv_bind Hm. rename r into heights.
  revert Hm. apply foldM_invariant; [|constructor].
  intros acc rotation acc' _ Hacc Hstep.
  inv_bind Hstep. rename r into tm0.
  inv_bind Hstep. destruct r as [tmf acc'']. inversion Hstep; subst acc''; clear Hstep.
  assert (Hinv : anchored tm0 tmf
                 /\ Forall (clear_move T grid (Tetromino.id tetromino)) acc');
    [|tauto].
  revert E1.
  apply (foldM_invariant
           (fun s => anchored tm0 (fst s)
                     /\ Forall (clear_move T grid (Tetromino.id tetromino)) (snd s))).
  - intros [tm ms] i [tm' ms'] _ [Ha Hms] Hbody. simpl in Ha, Hms |- *.
    inv_bind Hbody. inv_bind Hbody. inv_bind Hbody. inv_bind Hbody.
    pose proof (descend_anchored _ _ _ _ _ (anchored_with_x _ _ i Ha) E3) as Ha'.
    destruct r2; inversion Hbody; subst; clear Hbody; split; auto.
    apply Forall_app; split; auto. constructor; [|constructor].
    exists tm'. split; [|assumption].
    rewrite (Tetromino_new_anchor _ _ _ _ _ _ E0). now f_equal.
  - simpl. split; [apply anchored_refl | assumption].
Qed.

Lemma nth_error_snoc {A} (l : list A) (a b : A) (k : nat) :
  nth_error (l ++ [a]) k = Some b ->
  ((k < length l)%nat /\ nth_error l k = Some b) \/ (k = length l /\ b = a).
Proof.
  intros Hk. destruct (Nat.lt_ge_cases k (length l)) as [Hlt | Hge].
  - left. split; [assumption|]. now rewrite nth_error_app1 in Hk.
  - right. rewrite nth_error_app2 in Hk by assumption.
    destruct (k - length l)%nat as [|j] eqn:Ej.
    + cbn in Hk. split; [lia | congruence].
    + cbn in Hk. destruct j; discriminate.
Qed.

(** The order of floats, from its specification: [<] is irreflexive and
    transitive, and what is not above [b] is not at or above anything
    above [b]. *)
Ltac float_cmp_cases :=
  repeat match goal with
         | H : context [Pos.compare_cont Eq ?x ?y] |- _ =>
             change (Pos.compare_cont Eq x y) with (Pos.compare x y) in H
         | |- context [Pos.compare_cont Eq ?x ?y] =>
             change (Pos.compare_cont Eq x y) with (Pos.compare x y)
         end;
  repeat match goal with
         | H : context [Z.compare ?x ?y] |- _ => destruct (Z.compare_spec x y)
         | |- context [Z.compare ?x ?y] => destruct (Z.compare_spec x y)
         | H : context [Pos.compare ?x ?y] |- _ => destruct (Pos.compare_spec x y)
         | |- context [Pos.compare ?x ?y] => destruct (Pos.compare_spec x y)
         end;
  cbn in *; try congruence; try lia.

Lemma SFltb_irrefl (a : spec_float) : SFltb a a = false.
Proof.
  unfold SFltb, SFcompare. destruct a as [s|s| |s m e]; try destruct s; cbn;
    try reflexivity; float_cmp_cases.
Qed.

Lemma SFltb_trans (a b c : spec_float) :
  SFltb a b = true -> SFltb b c = true -> SFltb a c = true.
Proof.
  unfold SFltb, SFcompare.
  destruct a as [sa|sa| |sa ma ea], b as [sb|sb| |sb mb eb], c as [sc|sc| |sc mc ec];
    try destruct sa; try destruct sb; try destruct sc; cbn; try congruence;
    intros H1 H2; float_cmp_cases.
Qed.

Lemma SFltb_not_leb (a b c : spec_float) :
  SFltb b c = true -> SFltb b a = false -> SFleb c a = false.
Proof.
  unfold SFltb, SFleb, SFcompare.
  destruct a as [sa|sa| |sa ma ea], b as [sb|sb| |sb mb eb], c as [sc|sc| |sc mc ec];
    try destruct sa; try destruct sb; try destruct sc; cbn; try congruence;
    intros H1 H2; float_cmp_cases.
Qed.

Lemma float_ltb_irrefl (a : float) : (a <? a)%float = false.
Proof. rewrite ltb_spec. apply SFltb_irrefl. Qed.

Lemma float_ltb_trans (a b c : float) :
  (a <? b)%float = true -> (b <? c)%float = true -> (a <? c)%float = true.
Proof. rewrite !ltb_spec. apply SFltb_trans. Qed.

Lemma float_ltb_not_leb (a b c : float) :
  (b <? c)%float = true -> (b <? a)%float = false -> (c <=? a)%float = false.
Proof. rewrite !ltb_spec, leb_spec. apply SFltb_not_leb. Qed.

Lemma float_not_leb_not_ltb (a b : float) :
  (a <=? b)%float = false -> (a <? b)%float = false.
Proof.
  rewrite ltb_spec, leb_spec. unfold SFltb, SFleb.
  destruct (SFcompare (Prim2SF a) (Prim2SF b)) as [[| |]|]; congruence.
Qed.

Lemma best_of_step (T : Geometry) (st : list (list float)) (self : TetrisAI.t) (W H : Z)
    (grid : list (list bool)) (id : Z) (done : list (Z * Z * Z)) (move : Z * Z * Z)
    (best best' : float * option Tetromino.t) (grid' : list (list bool)) :
  grid_shape W H grid -> clear_move T grid id move ->
  best_of T st self grid id done best ->
  (let '(rotation, x, y) := move in
   tmino1 <- Tetromino.new T id rotation x y ;;
   g <- TetrisAI.add_to_grid grid tmino1 ;;
   score <- TetrisAI.compute_score64 st self g ;;
   best_move <-
     (if (fst best <? score)%float then
        tmino <- Tetromino.new T id rotation x y ;;
        Ok (score, Some tmino)
      else Ok best) ;;
   g <- TetrisAI.remove_from_grid g tmino1 ;;
   Ok (best_move, g)) = Ok (best', grid') ->
  grid' = grid /\ best_of T st self grid id (done ++ [move]) best'.
Proof.
  intros Hshape Hclear [Hall Hheld] Hbody. destruct move as [[rotation x] y].
  destruct Hclear as (tm1 & Hnew & Hfree).
  rewrite Hnew in Hbody. cbn [bind] in Hbody.
  inv_bind_as Hbody added Hadd. inv_bind_as Hbody score Hscore.
  inv_bind_as Hbody chosen Hchosen. inv_bind_as Hbody back Hback.
  rewrite (remove_after_add W H grid added tm1 Hshape Hfree Hadd) in Hback.
  inversion Hback; subst back; clear Hback.
  inversion Hbody; subst chosen grid'; clear Hbody.
  split; [reflexivity|].
  assert (Hms : move_score T st self grid id (rotation, x, y) = Ok score).
  { unfold move_score. rewrite Hnew. cbn [bind]. rewrite Hadd. cbn [bind]. exact Hscore. }
  destruct best as [b held]. cbn [fst snd] in *.
  destruct (b <? score)%float eqn:Hlt; cbn [bind] in Hchosen;
    inversion Hchosen; subst best'; clear Hchosen; cbn [fst snd]; split.
  - (* the new move is taken: nothing tried so far is above it *)
    intros k' move' Hk'. apply nth_error_snoc in Hk'.
    destruct Hk' as [[_ Hk'] | [-> ->]].
    + destruct (Hall k' move' Hk') as (score' & Hs' & Hle).
      exists score'. split; [assumption|].
      apply float_not_leb_not_ltb. now apply (float_ltb_not_leb score' b score).
    + exists score. split; [assumption | apply float_ltb_irrefl].
  - exists (length done), rotation, x, y.
    split; [rewrite nth_error_app2 by lia; now rewrite Nat.sub_diag|].
    split; [exact Hnew|]. split; [assumption|]. split.
    + destruct held as [tm|].
      * destruct Hheld as (k0 & r0 & x0 & y0 & _ & _ & _ & Hinf & _).
        now apply (float_ltb_trans _ b).
      * now rewrite <- Hheld.
    + intros k' move' score' Hk Hk' Hs'.
      rewrite nth_error_app1 in Hk' by assumption.
      destruct (Hall k' move' Hk') as (score'' & Hs'' & Hle).
      assert (score'' = score') by congruence. subst score''.
      now apply (float_ltb_not_leb score' b score).
  - (* the move held stays *)
    intros k' move' Hk'. apply nth_error_snoc in Hk'.
    destruct Hk' as [[_ Hk'] | [-> ->]]; [exact (Hall k' move' Hk')|].
    exists score. split; assumption.
  - destruct held as [tm|]; [|exact Hheld].
    destruct Hheld as (k & r0 & x0 & y0 & Hk & Hn0 & Hs0 & Hinf & Hbefore).
    assert (Hklt : (k < length done)%nat) by (apply nth_error_Some; congruence).
    exists k, r0, x0, y0. split; [now rewrite nth_error_app1|].
    split; [assumption|]. split; [assumption|]. split; [assumption|].
    intros k' move' score' Hk'k Hk' Hs'.
    rewrite nth_error_app1 in Hk' by lia. now apply (Hbefore k' move').
Qed.

Lemma best_of_loop (T : Geometry) (st : list (list float)) (self : TetrisAI.t) (W H : Z)
    (grid : list (list bool)) (id : Z) (todo done : list (Z * Z * Z))
    (best best' : float * option Tetromino.t) (grid' : list (list bool)) :
  grid_shape W H grid -> Forall (clear_move T grid id) todo ->
  best_of T st self grid id done best ->
  foldM (fun '(best_move, grid) '(rotation, x, y) =>
           tmino1 <- Tetromino.new T id rotation x y ;;
           grid <- TetrisAI.add_to_grid grid tmino1 ;;
           score <- TetrisAI.compute_score64 st self grid ;;
           best_move <-
             (if (fst best_move <? score)%float then
                tmino <- Tetromino.new T id rotation x y ;;
                Ok (score, Some tmino)
              else Ok best_move) ;;
           grid <- TetrisAI.remove_from_grid grid tmino1 ;;
           Ok (best_move, grid))
        todo (best, grid) = Ok (best', grid') ->
  grid' = grid /\ best_of T st self grid id (done ++ todo) best'.
Proof.
  intros Hshape. revert done best.
  induction todo as [|move todo IH]; intros done best Hclear Hbest Hloop.
  - cbn in Hloop. inversion Hloop; subst. rewrite app_nil_r. now split.
  - cbn [foldM] in Hloop. inv_bind_as Hloop s1 Hstep. destruct s1 as [best1 grid1].
    inversion Hclear as [|? ? Hmove Hrest]; subst.
    destruct (best_of_step T st self W H grid id done move best best1 grid1
                Hshape Hmove Hbest) as [-> Hbest1].
    { destruct move as [[rotation x] y]. exact Hstep. }
    replace (done ++ move :: todo) with ((done ++ [move]) ++ todo)
      by (now rewrite <- app_assoc).
    apply (IH (done ++ [move]) best1); assumption.
Qed.

(** X29. The AI plays the best move it finds, as floats compare, and
    leaves the grid as it was between two moves it tries.  Whenever
    [compute_move] returns for a game with a falling piece, every move of
    [compute_moves_available] has a score (the float score of the grid
    with the piece of that move alone added), and with [best] the last
    score held: no move has a score greater than [best]; when no piece is
    returned [best] is still [float('-inf')], so no move has a score
    above it (there may be no move at all); a piece returned is the piece
    of one of the moves, it lies on empty cells of the board, its score is
    [best] and is greater than [float('-inf')], and no earlier move has a
    score that [best] is less than or equal to. *)
Theorem compute_move_best :
  forall (T : Geometry) (st : list (list float)) (self : TetrisAI.t) (inst : Tetris.t)
         (W H : Z) (current : Tetromino.t) (chosen : option Tetromino.t),
    grid_shape W H (Tetris.grid inst) ->
    Tetris.current_tmino inst = Some current ->
    TetrisAI.compute_move T st self inst = Ok chosen ->
    exists grid moves best,
      TetrisAI.to_boolean_grid (Tetris.grid inst) = Ok grid
      /\ TetrisAI.compute_moves_available T self grid current = Ok moves
      /\ best_of T st self grid (Tetromino.id current) moves (best, chosen)
      /\ (forall tm, chosen = Some tm -> placement_free W H grid tm).
Proof.
  intros T st self inst W H current chosen Hshape Hcur Hmove.
  unfold TetrisAI.compute_move in Hmove. cbv zeta in Hmove.
  rewrite (to_boolean_grid_filled_view W H) in Hmove by assumption.
  cbn [bind] in Hmove. rewrite Hcur in Hmove.
  inv_bind_as Hmove moves Hmoves. inv_bind_as Hmove final Hloop.
  destruct final as [[best held] grid']. cbn [snd] in Hmove.
  inversion Hmove; subst chosen; clear Hmove.
  pose proof (filled_view_shape W H _ Hshape) as Hview.
  pose proof (compute_moves_available_clear _ _ _ _ _ Hmoves) as Hclear.
  destruct (best_of_loop T st self W H (filled_view (Tetris.grid inst))
              (Tetromino.id current) moves [] (neg_infinity, None) (best, held) grid'
              Hview Hclear) as [_ Hbest]; [| exact Hloop |].
  { split; [|reflexivity]. intros k' move' Hk'. destruct k'; discriminate. }
  cbn [app] in Hbest.
  exists (filled_view (Tetris.grid inst)), moves, best.
  split; [now apply (to_boolean_grid_filled_view W H)|]. split; [exact Hmoves|].
  split; [exact Hbest|].
  intros tm ->. destruct Hbest as [_ Hheld]. cbn [snd] in Hheld.
  destruct Hheld as (k & r0 & x0 & y0 & Hk & Hn0 & _).
  rewrite Forall_forall in Hclear.
  destruct (Hclear _ (nth_error_In _ _ Hk)) as (tm' & Hn' & Hfree).
  assert (tm' = tm) by congruence. subst tm'.
  now apply is_colliding_false_free.
Qed.

(** Witness of X29: the 2 x 2 block over the sample board, whose two
    right-hand columns are half full; the AI puts it in the left-hand
    corner. *)
Lemma compute_move_best_witness :
  exists grid moves best,
    TetrisAI.to_boolean_grid (Tetris.grid sample_game) = Ok grid
    /\ TetrisAI.compute_moves_available block_geometry sample_ai grid
         (Tetromino.with_y_pos block_piece 2) = Ok moves
    /\ best_of block_geometry
         (float_store_of [0; 1; 2; 3; 4] [1; 2; 3; 4; 5] [0; 1; 2; 3; 4])%float
         sample_ai grid (Tetromino.id (Tetromino.with_y_pos block_piece 2)) moves
         (best, Some (Tetromino.with_y_pos block_piece 2))
    /\ (forall tm, Some (Tetromino.with_y_pos block_piece 2) = Some tm ->
                   placement_free 4 4 grid tm).
Proof.
  apply (compute_move_best block_geometry
           (float_store_of [0; 1; 2; 3; 4] [1; 2; 3; 4; 5] [0; 1; 2; 3; 4])%float
           sample_ai sample_game 4 4
           (Tetromino.with_y_pos block_piece 2)
           (Some (Tetromino.with_y_pos block_piece 2))).
  - split; [reflexivity | repeat constructor].
  - reflexivity.
  - vm_compute. reflexivity.
Defined.

(** Rounding decides.  With the weights in tenths the three moves of the
    block over the sample board have the same exact score, 1.2; as floats
    the first scores 1.2 and the other two 1.2000000000000002, and
    [compute_move] returns the second move, one column to the right. *)
Lemma compute_move_rounding_decides :
  let grid := filled_view (Tetris.grid sample_game) in
  let moves := [(0, 0, 2); (0, 1, 0); (0, 2, 0)] in
  TetrisAI.compute_moves_available block_geometry sample_ai grid
    (Tetromino.with_y_pos block_piece 2) = Ok moves
  /\ map (move_score block_geometry tenths_store sample_ai grid 1) moves
     = [Ok 0x1.3333333333333p+0; Ok 0x1.3333333333334p+0; Ok 0x1.3333333333334p+0]%float
  /\ TetrisAI.compute_move block_geometry tenths_store sample_ai sample_game
     = Ok (Some (Tetromino.with_x_pos block_piece 1))
  /\ Forall (fun move =>
               exists s,
                 exact_move_score block_geometry exact_tenths_store sample_ai grid 1 move
                 = Ok s
                 /\ (s == 12 # 10)%Q)
            moves.
Proof.
  cbv zeta. split; [vm_compute; reflexivity|]. split; [vm_compute; reflexivity|].
  split; [vm_compute; reflexivity|].
  repeat constructor; eexists; (split; [vm_compute; reflexivity | reflexivity]).
Qed.

(** ** The heightmap *)

Lemma first_filled_first (W H : Z) (grid : list (list bool)) (x : Z) :
  grid_shape W H grid -> 0 <= x < W ->
  forall (n : nat) (a : Z), 0 <= a -> a + Z.of_nat n <= H ->
    exists found,
      TetrisAI.first_filled grid x (range_from a n) = Ok found
      /\ match found with
         | Some y => a <= y < a + Z.of_nat n
                     /\ cell grid x y = Ok true
                     /\ forall y', a <= y' < y -> cell grid x y' = Ok false
         | None => forall y', a <= y' < a + Z.of_nat n -> cell grid x y' = Ok false
         end.
Proof.
  intros Hshape Hx. induction n as [|n IH]; intros a Ha Hn.
  - exists None. split; [reflexivity|]. intros y' Hy'. lia.
  - cbn [range_from TetrisAI.first_filled].
    destruct (grid_shape_cell W H grid x a Hshape Hx ltac:(lia)) as (b & Eb).
    rewrite Eb. cbn [bind]. destruct b.
    + exists (Some a). split; [reflexivity|]. split; [lia|]. split; [assumption|].
      intros y' Hy'. lia.
    + destruct (IH (a + 1) ltac:(lia) ltac:(lia)) as (found & Ef & Hf).
      exists found. split; [assumption|]. destruct found as [y|].
      * destruct Hf as (Hy & Hc & Habove). split; [lia|]. split; [assumption|].
        intros y' Hy'. destruct (Z.eq_dec y' a) as [-> | Hne]; [assumption|].
        apply Habove. lia.
      * intros y' Hy'. destruct (Z.eq_dec y' a) as [-> | Hne]; [assumption|].
        apply Hf. lia.
Qed.

(** X30. The heightmap measures every column from its topmost filled
    cell: on a grid of [W] columns of [H] cells [compute_heightmap]
    returns [W] heights, and the height [h] of column [x] is between 0
    and [H], every cell of the column above row [H - h] is empty, and
    when [h] is not 0 the cell at row [H - h] is filled.  So a height is
    0 exactly for an empty column. *)
Theorem compute_heightmap_topmost :
  forall (W H : Z) (self : TetrisAI.t) (grid : list (list bool)),
    grid_shape W H grid ->
    TetrisAI.grid_width self = W -> TetrisAI.grid_height self = H ->
    exists heights,
      TetrisAI.compute_heightmap self grid = Ok heights
      /\ len heights = W
      /\ forall x, 0 <= x < W ->
           exists h,
             getitem heights x = Ok h
             /\ 0 <= h <= H
             /\ (forall y, 0 <= y < H - h -> cell grid x y = Ok false)
             /\ (0 < h -> cell grid x (H - h) = Ok true).
Proof.
  intros W H self grid Hshape HW HH.
  destruct (compute_heightmap_shape W H self grid Hshape HW HH)
    as (heights & Eh & Hlen & _).
  exists heights. split; [exact Eh|]. split; [exact Hlen|].
  intros x Hx.
  assert (HH0 : 0 <= H).
  { pose proof (grid_shape_nth W H grid 0 Hshape ltac:(lia)) as Hc.
    rewrite <- Hc. apply len_nonneg. }
  unfold TetrisAI.compute_heightmap in Eh. rewrite HW, HH in Eh.
  assert (Hk : nth_error (range 0 W) (Z.to_nat x) = Some x).
  { unfold range. rewrite nth_error_range_from by lia. f_equal. lia. }
  destruct (mapM_nth_error _ _ _ _ _ Eh Hk) as (h & Hnth & Hbody).
  exists h. split.
  { rewrite (getitem_nth _ _ 0) by lia. f_equal. now apply nth_error_nth. }
  destruct (first_filled_first W H grid x Hshape Hx (Z.to_nat (H - 0)) 0
              ltac:(lia) ltac:(lia)) as (found & Ef & Hf).
  change (range_from 0 (Z.to_nat (H - 0))) with (range 0 H) in Ef.
  rewrite Ef in Hbody. cbn [bind] in Hbody.
  destruct found as [y|]; inversion Hbody; subst h; clear Hbody.
  - destruct Hf as (Hy & Hc & Habove). split; [lia|]. split.
    + intros y' Hy'. apply Habove. lia.
    + intros _. now replace (H - (H - y)) with y by lia.
  - split; [lia|]. split; [|lia]. intros y' Hy'. apply Hf. lia.
Qed.

(** Witness of X30: the sample board as the AI sees it. *)
Lemma compute_heightmap_topmost_witness :
  exists heights,
    TetrisAI.compute_heightmap sample_ai (filled_view (Tetris.grid sample_game)) = Ok heights
    /\ len heights = 4
    /\ forall x, 0 <= x < 4 ->
         exists h,
           getitem heights x = Ok h
           /\ 0 <= h <= 4
           /\ (forall y, 0 <= y < 4 - h ->
                 cell (filled_view (Tetris.grid sample_game)) x y = Ok false)
           /\ (0 < h -> cell (filled_view (Tetris.grid sample_game)) x (4 - h) = Ok true).
Proof.
  apply (compute_heightmap_topmost 4 4 sample_ai (filled_view (Tetris.grid sample_game))).
  - split; [reflexivity | repeat constructor].
  - reflexivity.
  - reflexivity.
Defined.
